(* ===== verification/_CoqProject ===== *)
-Q . S2P
Prelude.v
RustStr.v
RustNet.v
Endpoint.v
Config.v
Serde.v
Protocol.v
JsonRef.v
Async.v
AsyncLift.v
AsyncCost.v
Tokio.v
Relay.v
RelaySafety.v
RelayStack.v
RelayScenarios.v
RelayOnce.v
Frames.v
Connection.v
ConnectionSafety.v
ConnectionProps.v
Batch.v
ConnectionFlow.v
System.v
ConnectionStop.v
Supervisor.v
Supervised.v
Server.v
ServerSafety.v
RelayTime.v
Progress.v
Main.v
MainSafety.v
UnitTests.v
