(* ===== verification/Prelude.v ===== *)
(** * electrum-private-relay, verified

    ** The program

    A local proxy between a Bitcoin wallet and an Electrum server (src/). The
    wallet speaks newline-delimited JSON-RPC. [serve_until] (src/proxy.rs)
    accepts connections up to a limit; each connects to the configured query
    upstream and is supervised by [proxy_streams_until], which runs three tasks:
    [handle_client_frames] reads the wallet, classifies each frame
    (src/protocol.rs) and either forwards it to the upstream or gives it, if it
    is a transaction broadcast, to the private relay; [forward_upstream_frames]
    filters the upstream's answers through a table of pending requests; and
    [write_client_output] writes to the wallet. The relay (src/relay/) is a stack
    built by [run] (src/main.rs): an adapter ([RejectRelay], or
    [SocksElectrumRelay] over a SOCKS5 proxy) under the admission limits of
    [LimitedRelay] under the shutdown boundary of [DrainingRelay]. Command-line
    values reach all of this only through [Config::try_from] (src/config.rs) and
    the endpoint checks of src/endpoint.rs. On a signal, [run] stops admission,
    then tells the server, whose connections finish or are cancelled in time.

    ** Files

    - [Prelude]: bytes and strings, [result] with its [let?] notation, machine
      integers, shared lemmas, tactics and hint databases.
    - [RustStr], [RustNet]: the functions of Rust's [str], [char], [std::net] the
      sources use (classification, splitting, number and address parsing and
      printing), executable.
    - [Endpoint] (src/endpoint.rs), [Config] (src/config.rs): parsing, printing,
      validation and alias tests of endpoints; every check of [Config::try_from]
      with its message, in order.
    - [Serde], [JsonRef]: serde_json as the classes [Deserialize], [Serialize] with
      laws; a reference printer, parser and struct deserialiser that satisfies
      them and on which the witnesses are evaluated.
    - [Protocol] (src/protocol.rs): [classify], request IDs, the proxy's responses.
    - [Async]: the execution model and its program logic (below); [AsyncLift]:
      programs of a component inside a larger system; [AsyncCost]: bounds on
      what a task spends.
    - [Tokio]: semaphore, watch channel, timeouts and [read_until] as interfaces
      with laws and instances.
    - [Relay] (src/relay/ in full), [RelaySafety] (the specification of a relay and
      its proof for each adapter and wrapper), [RelayStack] (the composition in
      [run] and its theorems), [RelayScenarios] (fail-closed paths and executed
      schedules), [RelayOnce] (calls and submissions counted against each other),
      [RelayTime] (how long a broadcast may wait).
    - [Frames] (src/proxy.rs): [read_frame], [request_id_key], [reserve_request] and
      the other critical sections on the pending table.
    - [Connection], [ConnectionSafety], [ConnectionProps] (src/proxy.rs): the three
      tasks of a connection; the abstract session, the invariant and the proof
      that the tasks refine it; the theorems and an executed connection.
      [Batch]: a batch that is forwarded; [ConnectionFlow]: what flows from the
      upstream to the wallet;
      [ConnectionStop]: how the wallet reader stops.
    - [System]: the relay stack and any number of connections as one system, in
      which a connection's call of the relay runs the relay's code.
    - [Supervisor] (src/proxy.rs): [proxy_streams_until] and [AbortTaskOnDrop];
      [Supervised]: the process of [System] with a supervisor for each connection,
      which spawns, aborts and joins the connection's tasks.
    - [Server], [ServerSafety] (src/proxy.rs): [serve_until]. [Progress]: the
      supervisor and the server's shutdown phase come to an end.
    - [Main], [MainSafety] (src/main.rs): [main], [run], the signal task and the
      printed lines.
    - [UnitTests]: the assertions of the unit tests in src/, on the model.

    ** Execution model

    An [async] function is a program ([Async.prog]) over the component's state
    record: [atomic] sections (what runs between two awaits under one lock or on
    one atomic primitive), [await]s on an event type of the component, guards
    with [Drop] code, and loops. Tasks interleave at every section. Every await
    is answered by an environment relation that allows every documented
    outcome: success, error, timeout, and cancellation, which drops the task's
    guards innermost first and may leave partial writes behind. Where a section
    of the code has two effects outside a common lock (such as the change of the
    active count and its publication), the model has two sections. A biased
    [select!] polls its branches one after another, as two sections. Safety is
    proved with [Async.wp]: a task owns a share of a ghost resource (permits,
    exclusive ownership of a view) and a snapshot of the state, and
    [system_ok_steps] lifts the tasks' proofs to every reachable state. What a
    task spends (its own steps, or the deadlines it waits on) is bounded with
    [AsyncCost.within], and [within_spends] lifts that to every execution. A
    bound on a task's own steps says that it cannot run forever: it has ended as
    soon as the scheduler and its awaits have let it take that many.

    ** Theorems

    - The composed process: [System.private_path] (a byte leaves for the relay only
      as the submission of a wallet's broadcast, at most once each),
      [truthful_answers] (a broadcast is answered with what the relay stack
      returned for it, and success means that it was submitted in full),
      [Supervised.connection_over] (once a connection's supervisor has returned
      nothing of the connection goes on).
    - Routing and privacy: [Protocol.classify_spec],
      [ConnectionProps.connection_refines_session], [upstream_transparency],
      [broadcast_once], [RelayStack.wire_confined], [success_means_submitted].
    - Correlation and delivery: [responses_answer_requests],
      [ConnectionFlow.wallet_delivery], [pending_bounded], and the framing, key
      and reservation theorems of [Frames].
    - Bounds and conservation: [in_flight_bounded], [permits_returned],
      [connections_bounded], [Config.config_resource_bounds],
      [Config.budget_overflow_unreachable].
    - Shutdown: [shutdown_boundary], [MainSafety.shutdown_ordered],
      [shutdown_stops_reading], [serve_until_complete], [supervisor_joins_all],
      [supervisor_drop_aborts], [supervisor_joins_aborted].
    - Termination: [RelayTime.broadcast_terminates], [ConnectionStop.reader_stops],
      [Progress.supervisor_terminates], [Progress.server_drains].
    - Failing closed: [limited_fails_closed], [draining_fails_closed],
      [relay_response_checked].
    - Configuration and process: [Config_try_from_iff], [config_endpoints_separated],
      the endpoint theorems, [MainSafety.process_spec].
    - Three findings, as theorems: [Batch.batch_smuggles_broadcast] (a JSON array
      with a broadcast inside is read as a request and forwarded upstream),
      [RelayScenarios.idle_reported_while_active] (a stale publication lets
      [wait_for_idle] report idle while an admitted call goes on) and
      [RelayTime.broadcast_outlasts_drain] (a broadcast may wait three relay
      timeouts, longer than the drain deadline that is to let it finish).

    Hypotheses of theorems are discharged in witnesses by executing a schedule
    on the model ([Async.exec]).

    ** Bounds and fuel

    Integers are [N] with their width written out where it matters ([checked_add],
    [u32_try_from], [usize] bounds of the configuration). [to_digits] runs on as
    much fuel as a number has bits, which bounds its digits; the reference JSON
    parser runs on the length of the input, of which every nested call has
    consumed a byte. Everything else is structural; loops of [async] code are
    unbounded.

    ** Not modelled

    clap's parsing of argv; the internals of tokio, serde_json and tokio-socks
    (interfaces and environments); clock time, of which there is only whether a
    deadline has elapsed and, in [RelayTime], the sum of the deadlines waited on;
    the scheduling and closing of the process after [main] has returned. A
    connection's supervisor appears to the server as one await, and the server to
    the process as the acceptance of connections: that interface is proved on
    each side, not composed. The asynchronous tests, the integration
    tests, the fuzz target and the release scripts are outside.

    ** Plan

    Next: the server composed with the supervised connections; the
    payload budget never binding for frames within the configured bound;
    progress under a fair scheduler. *)

From stdpp Require Export base tactics option list numbers decidable countable.
From stdpp Require Export strings gmap.
From Stdlib Require Export NArith ZArith Lia.
From Stdlib Require Import Strings.Byte.

Declare Scope rust_scope.
Delimit Scope rust_scope with rust.

(** ** Bytes and Rust strings

    A [u8] is a [Byte.byte]; a [Vec<u8>] and a [str] are lists of bytes, the
    latter holding the UTF-8 encoding, exactly as Rust stores it ([str::len]
    counts bytes, [str::bytes] enumerates them). *)

Abbreviation byte := Byte.byte.
Abbreviation bytes := (list Byte.byte).
Abbreviation str := (list Byte.byte).

(** A Rust string or byte-string literal. *)
Definition lit (x : string) : str := String.list_byte_of_string x.

(** A numeric byte literal; used on constants below 256 only. *)
Definition u8 (n : N) : byte := default "000"%byte (Byte.of_N n).

#[export] Instance byte_eq_decision : EqDecision byte := Byte.byte_eq_dec.

#[export] Program Instance byte_countable : Countable byte :=
  inj_countable Byte.to_N Byte.of_N _.
Next Obligation. intros b. exact (Byte.of_to_N b). Qed.

#[export] Instance byte_inhabited : Inhabited byte := populate "000"%byte.

(** [bval b] is the numeric value of a byte. *)
Abbreviation bval := Byte.to_N.

Lemma bval_bounded (b : byte) : (bval b < 256)%N.
Proof. destruct b; vm_compute; reflexivity. Qed.

Lemma bval_inj (a b : byte) : bval a = bval b → a = b.
Proof. intros H. generalize (Byte.of_to_N a), (Byte.of_to_N b). rewrite H. congruence. Qed.

(** A decidable fact about bytes is checked by evaluating it 256 times. *)
Definition all_bytes : list byte := omap (λ n, Byte.of_N (N.of_nat n)) (seq 0 256).

Lemma all_bytes_complete (b : byte) : In b all_bytes.
Proof.
  apply list_elem_of_In, list_elem_of_omap. exists (N.to_nat (bval b)). rewrite N2Nat.id.
  split; [|exact (Byte.of_to_N b)]. apply elem_of_seq. generalize (bval_bounded b). lia.
Qed.

Lemma byte_forall (p : byte → bool) : forallb p all_bytes = true → ∀ b, p b = true.
Proof. intros H b. eapply List.forallb_forall in H; [exact H|apply all_bytes_complete]. Qed.

(** Byte length, Rust's [len()]. *)
Definition len {A} (l : list A) : N := N.of_nat (length l).

Lemma len_nil {A} : len (@nil A) = 0%N. Proof. reflexivity. Qed.
Lemma len_cons {A} (x : A) l : len (x :: l) = (1 + len l)%N.
Proof. unfold len; cbn [length]; lia. Qed.
Lemma len_app {A} (l1 l2 : list A) : len (l1 ++ l2) = (len l1 + len l2)%N.
Proof. unfold len; rewrite length_app; lia. Qed.

(** ** Results *)

Inductive result (A E : Type) : Type :=
| Ok (a : A)
| Err (e : E).
Arguments Ok {A E} a.
Arguments Err {A E} e.

#[export] Instance result_eq_dec {A E} `{EqDecision A, EqDecision E} :
  EqDecision (result A E).
Proof. solve_decision. Defined.

(** The [?] operator: continue on [Ok], return the error otherwise. *)
Definition try_ {A B E} (r : result A E) (k : A → result B E) : result B E :=
  match r with Ok a => k a | Err e => Err e end.

Notation "'let?' x ':=' r 'in' k" := (try_ r (fun x => k))
  (at level 10, x pattern, r at level 100, k at level 200)
  : rust_scope.

Definition map_err {A E F} (f : E → F) (r : result A E) : result A F :=
  match r with Ok a => Ok a | Err e => Err (f e) end.

Definition ok_or {A E} (o : option A) (e : E) : result A E :=
  match o with Some a => Ok a | None => Err e end.

Definition is_ok {A E} (r : result A E) : bool :=
  match r with Ok _ => true | Err _ => false end.

Lemma try_Ok_inv {A B E} (r : result A E) (k : A → result B E) b :
  try_ r k = Ok b → ∃ a, r = Ok a ∧ k a = Ok b.
Proof. destruct r; cbn; [eauto | discriminate]. Qed.

Lemma map_err_Ok {A E F} (f : E → F) (r : result A E) a :
  map_err f r = Ok a ↔ r = Ok a.
Proof. destruct r; cbn; split; congruence. Qed.

Lemma ok_or_Ok {A E} (o : option A) (e : E) a : ok_or o e = Ok a ↔ o = Some a.
Proof. destruct o; cbn; split; congruence. Qed.

(** ** Machine integers

    Unsigned integers are values of [N]; the width is written where an
    operation can leave it. [usize] and [u64] are 64 bits wide. *)

Definition u16_max : N := 65535.
Definition u32_max : N := 4294967295.
Definition usize_max : N := 18446744073709551615.
Definition usize_modulus : N := 18446744073709551616.

Definition checked_add (a b : N) : option N :=
  if (a + b <=? usize_max)%N then Some (a + b)%N else None.

Definition checked_mul (a b : N) : option N :=
  if (a * b <=? usize_max)%N then Some (a * b)%N else None.

(** Release-profile [+] on [usize]: wraps around. *)
Definition wrapping_add (a b : N) : N := ((a + b) mod usize_modulus)%N.

(** [(lo..=hi).contains(&x)] *)
Definition range_contains (lo hi x : N) : bool := ((lo <=? x) && (x <=? hi))%N.

Lemma range_contains_true lo hi x : range_contains lo hi x = true ↔ (lo ≤ x ≤ hi)%N.
Proof. unfold range_contains. rewrite andb_true_iff, !N.leb_le. lia. Qed.

Lemma range_contains_false lo hi x : range_contains lo hi x = false ↔ ¬ (lo ≤ x ≤ hi)%N.
Proof. rewrite <- range_contains_true. destruct (range_contains lo hi x); split; congruence. Qed.

Lemma checked_mul_Some a b c :
  checked_mul a b = Some c ↔ c = (a * b)%N ∧ (a * b ≤ usize_max)%N.
Proof. unfold checked_mul. destruct (N.leb_spec (a * b) usize_max); split; [intros [= <-]|intros [-> _]|discriminate|]; auto; lia. Qed.

Lemma checked_add_Some a b c :
  checked_add a b = Some c ↔ c = (a + b)%N ∧ (a + b ≤ usize_max)%N.
Proof. unfold checked_add. destruct (N.leb_spec (a + b) usize_max); split; [intros [= <-]|intros [-> _]|discriminate|]; auto; lia. Qed.

Lemma wrapping_add_small a b : (a + b ≤ usize_max)%N → wrapping_add a b = (a + b)%N.
Proof. intros H. apply N.mod_small. unfold usize_max, usize_modulus in *. lia. Qed.

(** ** Automation *)

Create HintDb rust discriminated.
Create Rewrite HintDb rust_rw.
#[export] Hint Rewrite @len_nil @len_cons @len_app : rust_rw.
#[export] Hint Rewrite range_contains_true range_contains_false @map_err_Ok @ok_or_Ok
  checked_mul_Some checked_add_Some : rust_rw.

(** Turns boolean tests in the hypotheses and the goal into propositions. *)
Ltac reflect :=
  repeat match goal with
  | H : _ && _ = true |- _ => apply andb_true_iff in H as [? ?]
  | H : _ && _ = false |- _ => apply andb_false_iff in H
  | H : _ || _ = false |- _ => apply orb_false_iff in H as [? ?]
  | H : _ || _ = true |- _ => apply orb_true_iff in H
  | H : negb _ = true |- _ => apply negb_true_iff in H
  | H : negb _ = false |- _ => apply negb_false_iff in H
  | H : bool_decide _ = true |- _ => apply bool_decide_eq_true in H
  | H : bool_decide _ = false |- _ => apply bool_decide_eq_false in H
  | H : (_ <=? _)%N = true |- _ => apply N.leb_le in H
  | H : (_ <=? _)%N = false |- _ => apply N.leb_gt in H
  | H : (_ <? _)%N = true |- _ => apply N.ltb_lt in H
  | H : (_ <? _)%N = false |- _ => apply N.ltb_ge in H
  | H : (_ =? _)%N = true |- _ => apply N.eqb_eq in H
  | H : (_ =? _)%N = false |- _ => apply N.eqb_neq in H
  | H : range_contains _ _ _ = true |- _ => apply range_contains_true in H
  | H : range_contains _ _ _ = false |- _ => apply range_contains_false in H
  end.

(** Follows a successful chain of [?]s and guards back to what it tested. *)
Ltac inv_ok :=
  repeat match goal with
  | H : try_ _ _ = Ok _ |- _ =>
      let a := fresh "v" in let E := fresh "Hv" in
      apply try_Ok_inv in H as (a & E & H)
  | H : map_err _ _ = Ok _ |- _ => apply map_err_Ok in H
  | H : ok_or _ _ = Ok _ |- _ => apply ok_or_Ok in H
  | H : (if ?b then Err _ else _) = Ok _ |- _ =>
      let E := fresh "Hg" in destruct b eqn:E; [discriminate H|]
  | H : (if ?b then _ else Err _) = Ok _ |- _ =>
      let E := fresh "Hg" in destruct b eqn:E; [|discriminate H]
  | H : Ok _ = Ok _ |- _ => injection H as H; subst
  | H : Err _ = Ok _ |- _ => discriminate H
  end.

(** ** Lists *)

Section Lists.
Context {A : Type}.
Implicit Types (l : list A) (p : A → bool).

Lemma forallb_Forall p l : forallb p l = true ↔ Forall (λ x, p x = true) l.
Proof. rewrite List.forallb_forall, List.Forall_forall. reflexivity. Qed.

Lemma existsb_Exists p l : existsb p l = true ↔ Exists (λ x, p x = true) l.
Proof. rewrite List.existsb_exists, List.Exists_exists. reflexivity. Qed.

Lemma existsb_false_Forall p l : existsb p l = false ↔ Forall (λ x, p x = false) l.
Proof.
  induction l as [|x l IH]; cbn; [split; constructor|].
  rewrite orb_false_iff, IH, Forall_cons. reflexivity.
Qed.

(** The last element satisfies [p]: Rust's [ends_with] on one element. *)
Definition last_is p l : bool := match last l with Some x => p x | None => false end.
Definition head_is p l : bool := match l with x :: _ => p x | [] => false end.

Lemma last_is_app p l x : last_is p (l ++ [x]) = p x.
Proof. unfold last_is. rewrite last_snoc. reflexivity. Qed.

Lemma last_is_inv p l : last_is p l = true → ∃ l' x, l = l' ++ [x] ∧ p x = true.
Proof.
  unfold last_is. destruct l as [|y l _] using rev_ind; [discriminate|].
  rewrite last_snoc. eauto.
Qed.
End Lists.

(** Counting the elements with a property, one more at the end. *)
Lemma count_snoc {A} (P : A → Prop) `{∀ x, Decision (P x)} (l : list A) (x : A) :
  length (filter P (l ++ [x])) = (length (filter P l) + if bool_decide (P x) then 1 else 0)%nat.
Proof.
  rewrite list.filter_app, length_app. f_equal. unfold filter, list_filter.
  case_decide; by rewrite ?bool_decide_eq_true_2, ?bool_decide_eq_false_2 by done.
Qed.
