(* ===== verification/RustStr.v ===== *)
(** * The parts of Rust's string and character library the proxy uses

    [u8] classification, [str] searching, splitting and trimming, decimal and
    hexadecimal formatting, and [u16::from_str], each as documented by the
    Rust standard library and each executable. *)

From S2P Require Import Prelude.
From Stdlib Require Import Strings.Byte.

Open Scope N_scope.

(** ** Bytes *)

Definition in_range (lo hi : N) (b : byte) : bool := ((lo <=? bval b) && (bval b <=? hi)).

Definition is_ascii (b : byte) : bool := bval b <? 128.
Definition is_ascii_digit (b : byte) : bool := in_range 48 57 b.
Definition is_ascii_uppercase (b : byte) : bool := in_range 65 90 b.
Definition is_ascii_lowercase (b : byte) : bool := in_range 97 122 b.
Definition is_ascii_alphanumeric (b : byte) : bool :=
  is_ascii_digit b || is_ascii_uppercase b || is_ascii_lowercase b.
Definition is_ascii_hexdigit (b : byte) : bool :=
  is_ascii_digit b || in_range 65 70 b || in_range 97 102 b.

Definition byte_to_ascii_lowercase (b : byte) : byte :=
  if is_ascii_uppercase b then u8 (bval b + 32) else b.

Definition to_ascii_lowercase (x : str) : str := byte_to_ascii_lowercase <$> x.

Definition eq_ignore_ascii_case (x y : str) : bool :=
  bool_decide (to_ascii_lowercase x = to_ascii_lowercase y).

(** ** Searching and splitting *)

Definition contains_byte (c : byte) (x : str) : bool := existsb (Byte.eqb c) x.

Fixpoint starts_with (pat x : str) : bool :=
  match pat, x with
  | [], _ => true
  | p :: pat', b :: x' => Byte.eqb p b && starts_with pat' x'
  | _ :: _, [] => false
  end.

Fixpoint contains_str (pat x : str) : bool :=
  starts_with pat x || match x with [] => false | _ :: x' => contains_str pat x' end.

Fixpoint count_byte (c : byte) (x : str) : N :=
  match x with
  | [] => 0
  | b :: x' => (if Byte.eqb b c then 1 else 0) + count_byte c x'
  end.

Fixpoint drop_while {A} (p : A → bool) (l : list A) : list A :=
  match l with
  | [] => []
  | x :: l' => if p x then drop_while p l' else l
  end.

Definition trim_end_with {A} (p : A → bool) (l : list A) : list A :=
  rev (drop_while p (rev l)).

(** [str::trim_end_matches] with a one-byte pattern. *)
Definition trim_end_matches (c : byte) (x : str) : str := trim_end_with (Byte.eqb c) x.

(** [str::strip_suffix] with a one-byte pattern. *)
Definition strip_suffix (c : byte) (x : str) : option str :=
  match rev x with
  | b :: r => if Byte.eqb b c then Some (rev r) else None
  | [] => None
  end.

(** [str::split] with a one-byte pattern: always at least one piece. *)
Fixpoint split (c : byte) (x : str) : list str :=
  match x with
  | [] => [[]]
  | b :: x' =>
      if Byte.eqb b c then [] :: split c x'
      else match split c x' with
           | piece :: rest => (b :: piece) :: rest
           | [] => [[b]]
           end
  end.

(** [str::rsplit_once] with a one-byte pattern: cuts at the last occurrence. *)
Fixpoint rsplit_once (c : byte) (x : str) : option (str * str) :=
  match x with
  | [] => None
  | b :: x' =>
      match rsplit_once c x' with
      | Some (l, r) => Some (b :: l, r)
      | None => if Byte.eqb b c then Some ([], x') else None
      end
  end.

(** ** Characters

    [char_slices] cuts a UTF-8 string into the encodings of its characters;
    [char_code] is the scalar value of one of them. *)

Fixpoint char_slices (x : str) : list str :=
  match x with
  | [] => []
  | b0 :: r0 =>
      if bval b0 <? 128 then [b0] :: char_slices r0
      else match r0 with
           | [] => [[b0]]
           | b1 :: r1 =>
               if bval b0 <? 224 then [b0; b1] :: char_slices r1
               else match r1 with
                    | [] => [[b0; b1]]
                    | b2 :: r2 =>
                        if bval b0 <? 240 then [b0; b1; b2] :: char_slices r2
                        else match r2 with
                             | [] => [[b0; b1; b2]]
                             | b3 :: r3 => [b0; b1; b2; b3] :: char_slices r3
                             end
                    end
           end
  end.

Definition char_code (c : str) : N :=
  match c with
  | [b0] => bval b0
  | [b0; b1] => (bval b0 mod 32) * 64 + bval b1 mod 64
  | [b0; b1; b2] => (bval b0 mod 16) * 4096 + (bval b1 mod 64) * 64 + bval b2 mod 64
  | [b0; b1; b2; b3] =>
      (bval b0 mod 8) * 262144 + (bval b1 mod 64) * 4096 + (bval b2 mod 64) * 64
      + bval b3 mod 64
  | _ => 0
  end.

(** [char::is_whitespace]: the Unicode [White_Space] property. *)
Definition is_whitespace_code (c : N) : bool :=
  (c =? 32) || ((9 <=? c) && (c <=? 13)) || (c =? 133) || (c =? 160) || (c =? 5760)
  || ((8192 <=? c) && (c <=? 8202)) || (c =? 8232) || (c =? 8233) || (c =? 8239)
  || (c =? 8287) || (c =? 12288).

Definition is_whitespace (c : str) : bool := is_whitespace_code (char_code c).

Definition any_whitespace (x : str) : bool := existsb is_whitespace (char_slices x).

Definition trim (x : str) : str :=
  concat (trim_end_with is_whitespace (drop_while is_whitespace (char_slices x))).

(** ** Numbers *)

Definition digit_char (d : N) : byte := if d <? 10 then u8 (48 + d) else u8 (87 + d).

Definition digit_value (b : byte) : option N :=
  if is_ascii_digit b then Some (bval b - 48)
  else if is_ascii_uppercase b then Some (bval b - 55)
  else if is_ascii_lowercase b then Some (bval b - 87)
  else None.

(** [char::to_digit] for a radix between 2 and 36. *)
Definition to_digit (radix : N) (b : byte) : option N :=
  match digit_value b with
  | Some d => if d <? radix then Some d else None
  | None => None
  end.

Fixpoint to_digits (fuel : nat) (radix n : N) : list N :=
  match fuel with
  | O => []
  | S fuel' =>
      if n <? radix then [n] else to_digits fuel' radix (n / radix) ++ [n mod radix]
  end.

(** Enough fuel: a number has at most as many digits as bits. *)
Definition digits (radix n : N) : list N := to_digits (S (N.to_nat (N.log2 n))) radix n.

Definition fmt_radix (radix n : N) : str := digit_char <$> digits radix n.
Definition fmt_dec (n : N) : str := fmt_radix 10 n.
Definition fmt_hex (n : N) : str := fmt_radix 16 n.

Definition eval_digits (radix : N) (ds : list N) : N :=
  foldl (λ acc d, acc * radix + d) 0 ds.

(** [u16::from_str]: an optional [+], then one or more decimal digits, the
    running value checked against [u16::MAX] at every digit. *)
Fixpoint parse_u16_digits (x : str) (acc : N) : option N :=
  match x with
  | [] => Some acc
  | b :: x' =>
      match to_digit 10 b with
      | None => None
      | Some d =>
          if acc * 10 + d <=? u16_max then parse_u16_digits x' (acc * 10 + d) else None
      end
  end.

Definition parse_u16 (x : str) : option N :=
  match x with
  | [] => None
  | b :: x' =>
      if Byte.eqb b "+" then match x' with [] => None | _ => parse_u16_digits x' 0 end
      else parse_u16_digits x 0
  end.

(** ** Lemmas on digits *)

Lemma digit_value_char d : d < 16 → digit_value (digit_char d) = Some d.
Proof.
  intros H. destruct d as [|p]; [reflexivity|].
  do 4 (try destruct p as [p|p|]); first [reflexivity | exfalso; lia].
Qed.

Section Digits.
Context (radix : N) (Hradix : 2 ≤ radix).

Lemma to_digit_char d : radix ≤ 16 → d < radix → to_digit radix (digit_char d) = Some d.
Proof.
  intros ??. unfold to_digit. rewrite digit_value_char by lia.
  by rewrite (proj2 (N.ltb_lt d radix)).
Qed.

Lemma eval_digits_snoc ds d :
  eval_digits radix (ds ++ [d]) = eval_digits radix ds * radix + d.
Proof. unfold eval_digits. by rewrite foldl_app. Qed.

Lemma pow_fuel (n : N) (k : nat) : n < radix ^ N.of_nat (S k) → n / radix < radix ^ N.of_nat k.
Proof.
  intros H. apply N.Div0.div_lt_upper_bound.
  by rewrite <- N.pow_succ_r', <- Nat2N.inj_succ.
Qed.

Lemma eval_to_digits fuel n :
  n < radix ^ N.of_nat fuel → eval_digits radix (to_digits fuel radix n) = n.
Proof.
  revert n. induction fuel as [|fuel IH]; intros n H.
  { cbn in H. change (eval_digits radix (to_digits 0 radix n)) with 0. lia. }
  cbn [to_digits]. destruct (N.ltb_spec n radix); [unfold eval_digits; cbn; lia|].
  rewrite eval_digits_snoc, IH by by apply pow_fuel.
  rewrite N.mul_comm. symmetry. apply N.div_mod. lia.
Qed.

Lemma digits_fuel n : n < radix ^ N.of_nat (S (N.to_nat (N.log2 n))).
Proof.
  rewrite Nat2N.inj_succ, N2Nat.id.
  destruct (N.eq_dec n 0) as [->|Hn]; [cbn; lia|].
  eapply N.lt_le_trans; [apply N.log2_spec; lia|]. apply N.pow_le_mono_l. lia.
Qed.

Lemma eval_digits_digits n : eval_digits radix (digits radix n) = n.
Proof. apply eval_to_digits, digits_fuel. Qed.

Lemma to_digits_bounded fuel n : Forall (λ d, d < radix) (to_digits fuel radix n).
Proof.
  revert n. induction fuel as [|fuel IH]; intros n; cbn; [constructor|].
  destruct (N.ltb_spec n radix); [by repeat constructor|].
  apply Forall_app; split; [apply IH|]. repeat constructor. apply N.mod_lt. lia.
Qed.

Lemma digits_bounded n : Forall (λ d, d < radix) (digits radix n).
Proof. apply to_digits_bounded. Qed.

Lemma to_digits_length fuel n (k : nat) :
  n < radix ^ N.of_nat (S k) → (length (to_digits fuel radix n) ≤ S k)%nat.
Proof.
  revert n k. induction fuel as [|fuel IH]; intros n k H; cbn [to_digits]; [cbn; lia|].
  destruct (N.ltb_spec n radix) as [?|Hge]; [cbn; lia|].
  rewrite length_app. cbn [length]. destruct k as [|k].
  { change (N.of_nat 1) with 1 in H. rewrite N.pow_1_r in H. lia. }
  specialize (IH (n / radix) k (pow_fuel _ _ H)). lia.
Qed.

(** No superfluous leading zero. *)
Definition canonical (ds : list N) : Prop :=
  match ds with
  | [] => False
  | [_] => True
  | d :: _ => d ≠ 0
  end.

Lemma canonical_snoc ds d : ds ≠ [] → ds ≠ [0] → canonical ds → canonical (ds ++ [d]).
Proof. destruct ds as [|e [|f ds]]; cbn; [done| |done]. intros _ He _. congruence. Qed.

Lemma to_digits_canonical fuel n :
  n < radix ^ N.of_nat (S fuel) → canonical (to_digits (S fuel) radix n).
Proof.
  revert n. induction fuel as [|fuel IH]; intros n H.
  { cbn. change (N.of_nat 1) with 1 in H. rewrite N.pow_1_r in H.
    by rewrite (proj2 (N.ltb_lt n radix)). }
  remember (S fuel) as f eqn:Hf. cbn [to_digits].
  destruct (N.ltb_spec n radix); [done|]. subst f.
  assert (n / radix ≠ 0) as Hnz by (intros E; apply N.div_small_iff in E; lia).
  apply pow_fuel in H. specialize (IH _ H). apply eval_to_digits in H.
  apply canonical_snoc; [..|done]; intros E; rewrite E in *; [done|].
  apply Hnz. rewrite <- H. reflexivity.
Qed.

Lemma digits_canonical n : canonical (digits radix n).
Proof. apply to_digits_canonical, digits_fuel. Qed.

(** Canonical digit strings are determined by their value. *)
Lemma canonical_init ds d : ds ≠ [] → canonical (ds ++ [d]) → canonical ds ∧ ds ≠ [0].
Proof. destruct ds as [|e [|f ds]]; cbn; naive_solver. Qed.

Lemma eval_digits_pos ds :
  Forall (λ d, d < radix) ds → canonical ds → ds ≠ [0] → eval_digits radix ds ≠ 0.
Proof.
  induction ds as [|d ds IH] using rev_ind; [done|].
  intros [Hds _]%Forall_app Hc Hne. rewrite eval_digits_snoc.
  destruct (decide (ds = [])) as [->|Hds'].
  { unfold eval_digits; cbn in *. intros E. apply Hne. f_equal. lia. }
  apply canonical_init in Hc as [Hc Hz]; [|done]. specialize (IH Hds Hc Hz). nia.
Qed.

Lemma to_digits_eval fuel ds :
  Forall (λ d, d < radix) ds → canonical ds →
  eval_digits radix ds < radix ^ N.of_nat (S fuel) →
  to_digits (S fuel) radix (eval_digits radix ds) = ds.
Proof.
  revert fuel. induction ds as [|d ds IH] using rev_ind; [done|].
  intros fuel [Hds Hd]%Forall_app Hc. rewrite eval_digits_snoc.
  rewrite Forall_singleton in Hd. intros Hf. cbn [to_digits].
  destruct (decide (ds = [])) as [->|Hne].
  { change (eval_digits radix []) with 0. rewrite N.mul_0_l, N.add_0_l.
    by rewrite (proj2 (N.ltb_lt d radix)). }
  apply canonical_init in Hc as [Hc Hz]; [|done].
  pose proof (eval_digits_pos ds Hds Hc Hz) as Hpos.
  rewrite (proj2 (N.ltb_ge _ _)) by nia.
  rewrite N.div_add_l, N.div_small, N.add_0_r by lia.
  rewrite (N.add_comm _ d), N.Div0.mod_add, N.mod_small by lia.
  f_equal. apply pow_fuel in Hf.
  rewrite N.div_add_l, N.div_small, N.add_0_r in Hf by lia.
  destruct fuel as [|fuel]; [cbn in Hf; lia|]. by apply IH.
Qed.

Lemma digits_eval ds :
  Forall (λ d, d < radix) ds → canonical ds → digits radix (eval_digits radix ds) = ds.
Proof. intros. apply to_digits_eval; [done..|apply digits_fuel]. Qed.
End Digits.

(** ** Lemmas on searching, splitting and trimming *)

Lemma byte_eqb_eq a b : Byte.eqb a b = true ↔ a = b.
Proof. split; [apply Byte.byte_dec_bl|apply Byte.byte_dec_lb]. Qed.

Lemma byte_eqb_refl a : Byte.eqb a a = true.
Proof. by apply byte_eqb_eq. Qed.

Lemma byte_eqb_neq a b : Byte.eqb a b = false ↔ a ≠ b.
Proof. rewrite <- byte_eqb_eq. destruct (Byte.eqb a b); split; congruence. Qed.

Lemma contains_byte_true c x : contains_byte c x = true ↔ c ∈ x.
Proof.
  unfold contains_byte. rewrite List.existsb_exists, list_elem_of_In. split.
  - intros (b & Hb & E%byte_eqb_eq). by subst.
  - intros H. exists c. by rewrite byte_eqb_refl.
Qed.

Lemma contains_byte_false c x : contains_byte c x = false ↔ c ∉ x.
Proof. rewrite <- contains_byte_true. destruct (contains_byte c x); split; congruence. Qed.

Lemma starts_with_elem c pat x : c ∈ pat → starts_with pat x = true → c ∈ x.
Proof.
  revert x. induction pat as [|p pat IH]; intros x Hc; [by apply elem_of_nil in Hc|].
  destruct x as [|b x]; cbn; [done|]. intros [->%byte_eqb_eq ?]%andb_true_iff.
  apply elem_of_cons in Hc as [->|Hc]; [by left|right; by apply IH].
Qed.

Lemma contains_str_elem c pat x : c ∈ pat → contains_str pat x = true → c ∈ x.
Proof.
  intros Hc. induction x as [|b x IH]; cbn [contains_str];
    intros [H|H]%orb_true_iff; [by eapply starts_with_elem|done|by eapply starts_with_elem|].
  right. by apply IH.
Qed.

Lemma count_byte_app c x y : count_byte c (x ++ y) = count_byte c x + count_byte c y.
Proof. induction x as [|b x IH]; cbn [app count_byte]; [done|]. rewrite IH. lia. Qed.

Lemma count_byte_zero c x : count_byte c x = 0 ↔ c ∉ x.
Proof.
  induction x as [|b x IH]; cbn [count_byte]; [split; [intros _ H; inversion H|done]|].
  rewrite not_elem_of_cons. destruct (Byte.eqb b c) eqn:E.
  - apply byte_eqb_eq in E. split; [lia|intros [? _]; congruence].
  - apply byte_eqb_neq in E. rewrite N.add_0_l, IH. naive_solver.
Qed.

Lemma rsplit_once_none c x : c ∉ x → rsplit_once c x = None.
Proof.
  induction x as [|b x IH]; [done|]. rewrite not_elem_of_cons. intros [Hb Hx]. cbn [rsplit_once].
  rewrite IH by done. by rewrite (proj2 (byte_eqb_neq b c)).
Qed.

Lemma rsplit_once_last c x y : c ∉ y → rsplit_once c (x ++ c :: y) = Some (x, y).
Proof.
  intros Hy. induction x as [|b x IH]; cbn [app rsplit_once].
  - rewrite rsplit_once_none by done. by rewrite byte_eqb_refl.
  - by rewrite IH.
Qed.

Lemma rsplit_once_inv c x l r : rsplit_once c x = Some (l, r) → x = l ++ c :: r ∧ c ∉ r.
Proof.
  revert l. induction x as [|b x IH]; intros l; cbn [rsplit_once]; [done|].
  destruct (rsplit_once c x) as [[l' r']|] eqn:E.
  - intros [= <- <-]. by destruct (IH l' eq_refl) as [-> ?].
  - destruct (Byte.eqb b c) eqn:Eb; [|done]. intros [= <- <-]. apply byte_eqb_eq in Eb. subst.
    split; [done|]. intros Hc. apply list_elem_of_split in Hc as (y1 & y2 & ->).
    clear IH. destruct (decide (c ∈ y2)) as [Hc|Hc].
    + revert E. induction y1 as [|z y1 IH]; cbn [app rsplit_once].
      * destruct (rsplit_once c y2) as [[]|]; [done|]. by rewrite byte_eqb_refl.
      * destruct (rsplit_once c (y1 ++ c :: y2)) as [[]|] eqn:E'; [done|]. by intros _; apply IH.
    + by rewrite rsplit_once_last in E.
Qed.

(** Joining the pieces of a split with the separator gives the string back. *)
Fixpoint join (c : byte) (pieces : list str) : str :=
  match pieces with
  | [] => []
  | [p] => p
  | p :: rest => p ++ c :: join c rest
  end.

Lemma split_nonempty c x : split c x ≠ [].
Proof. destruct x as [|b x]; cbn; [done|]. destruct (Byte.eqb b c), (split c x); done. Qed.

Lemma join_split c x : join c (split c x) = x.
Proof.
  induction x as [|b x IH]; [done|]. cbn [split]. pose proof (split_nonempty c x) as Hne.
  destruct (Byte.eqb b c) eqn:E.
  - apply byte_eqb_eq in E. subst b. destruct (split c x) as [|p rest]; [done|]. cbn in *. by rewrite IH.
  - destruct (split c x) as [|p [|q rest]]; [done|cbn in *; by rewrite IH..].
Qed.

Lemma split_no_sep c p : c ∉ p → split c p = [p].
Proof.
  induction p as [|b p IH]; [done|]. rewrite not_elem_of_cons. intros [Hb Hp]. cbn [split].
  rewrite (proj2 (byte_eqb_neq b c)) by done. by rewrite IH.
Qed.

Lemma split_app c p x : c ∉ p → split c (p ++ c :: x) = p :: split c x.
Proof.
  induction p as [|b p IH]; cbn [app split].
  - intros _. by rewrite byte_eqb_refl.
  - rewrite not_elem_of_cons. intros [Hb Hp]. rewrite (proj2 (byte_eqb_neq b c)) by done.
    by rewrite IH.
Qed.

Lemma split_join c pieces : pieces ≠ [] → Forall (λ p, c ∉ p) pieces → split c (join c pieces) = pieces.
Proof.
  induction pieces as [|p [|q rest] IH]; [done|intros _ [Hp _]%Forall_cons; by apply split_no_sep|].
  intros _ [Hp Hrest]%Forall_cons.
  change (join c (p :: q :: rest)) with (p ++ c :: join c (q :: rest)).
  rewrite split_app by done. by rewrite IH.
Qed.

Lemma strip_suffix_Some c x y : strip_suffix c x = Some y ↔ x = y ++ [c].
Proof.
  unfold strip_suffix. destruct x as [|b x _] using rev_ind; [split; [done|by destruct y]|].
  rewrite rev_app_distr. cbn. destruct (Byte.eqb b c) eqn:E; rewrite ?rev_involutive.
  - apply byte_eqb_eq in E. subst. split; [by intros [= ->]|intros H%app_inj_tail; naive_solver].
  - apply byte_eqb_neq in E. split; [done|intros H%app_inj_tail; naive_solver].
Qed.

Lemma strip_suffix_None c x : strip_suffix c x = None ↔ last x ≠ Some c.
Proof.
  split.
  - intros H E. destruct x as [|b x _] using rev_ind; [done|]. rewrite last_snoc in E.
    injection E as ->. assert (strip_suffix c (x ++ [c]) = Some x) by by apply strip_suffix_Some.
    congruence.
  - intros H. destruct (strip_suffix c x) as [y|] eqn:E; [|done].
    apply strip_suffix_Some in E. subst. by rewrite last_snoc in H.
Qed.

(** ** ASCII text without white space *)

Definition graphic (b : byte) : bool := is_ascii b && negb (is_whitespace [b]).

Lemma graphic_slices x : Forall (λ b, graphic b = true) x → char_slices x = (λ b, [b]) <$> x.
Proof.
  induction 1 as [|b x Hb _ IH]; [done|]. cbn [char_slices]. unfold graphic in Hb. reflect.
  unfold is_ascii in *. rewrite H. by rewrite IH.
Qed.

Lemma graphic_no_whitespace x : Forall (λ b, graphic b = true) x → any_whitespace x = false.
Proof.
  intros Hx. unfold any_whitespace. rewrite graphic_slices by done.
  apply existsb_false_Forall, Forall_fmap. eapply Forall_impl; [exact Hx|].
  intros b Hb. unfold graphic in Hb. by reflect.
Qed.

Lemma drop_while_none {A} (p : A → bool) l : Forall (λ x, p x = false) l → drop_while p l = l.
Proof. destruct 1 as [|x l Hx _]; [done|]. cbn. by rewrite Hx. Qed.

Lemma trim_end_with_none {A} (p : A → bool) l : Forall (λ x, p x = false) l → trim_end_with p l = l.
Proof. intros H. unfold trim_end_with. rewrite drop_while_none by by apply Forall_rev. apply rev_involutive. Qed.

Lemma concat_singletons (x : str) : concat ((λ b, [b]) <$> x) = x.
Proof. induction x as [|b x IH]; [done|]. cbn. by rewrite IH. Qed.

Lemma graphic_trim x : Forall (λ b, graphic b = true) x → trim x = x.
Proof.
  intros Hx. unfold trim. rewrite graphic_slices by done.
  assert (Forall (λ c, is_whitespace c = false) ((λ b, [b]) <$> x)) as Hn.
  { apply Forall_fmap. eapply Forall_impl; [exact Hx|]. intros b Hb. unfold graphic in Hb. by reflect. }
  rewrite drop_while_none, trim_end_with_none by done. apply concat_singletons.
Qed.

(** ** [u16::from_str] reads what [to_string] prints *)

Lemma parse_u16_digits_char ds acc :
  Forall (λ d, d < 10) ds → foldl (λ a d, a * 10 + d) acc ds ≤ u16_max →
  parse_u16_digits (digit_char <$> ds) acc = Some (foldl (λ a d, a * 10 + d) acc ds).
Proof.
  intros Hds. revert acc. induction Hds as [|d ds Hd _ IH]; intros acc Hle; [done|].
  cbn [fmap list_fmap parse_u16_digits foldl] in *. rewrite to_digit_char by lia.
  assert (acc * 10 + d ≤ u16_max).
  { clear -Hle. revert Hle. generalize (acc * 10 + d). intros v. revert v.
    induction ds as [|e ds IH]; intros v; cbn; [done|]. intros H%IH. lia. }
  rewrite (proj2 (N.leb_le _ _)) by done. by apply IH.
Qed.

Lemma digit_char_not_plus d : d < 16 → Byte.eqb (digit_char d) "+" = false.
Proof.
  intros H. destruct d as [|p]; [reflexivity|].
  do 4 (try destruct p as [p|p|]); first [reflexivity | exfalso; lia].
Qed.

Lemma parse_u16_fmt_dec n : n ≤ u16_max → parse_u16 (fmt_dec n) = Some n.
Proof.
  intros Hn. unfold fmt_dec, fmt_radix.
  pose proof (eval_digits_digits 10 ltac:(lia) n) as Hv.
  pose proof (digits_bounded 10 ltac:(lia) n) as Hb.
  pose proof (digits_canonical 10 ltac:(lia) n) as Hc.
  destruct (digits 10 n) as [|d ds]; [done|].
  unfold parse_u16. cbn [fmap list_fmap].
  apply Forall_cons in Hb as Hb'. destruct Hb' as [Hd _]. rewrite digit_char_not_plus by lia.
  rewrite <- Hv. apply (parse_u16_digits_char (d :: ds) 0); [done|].
  unfold eval_digits in Hv. by rewrite Hv.
Qed.

(** Lower-casing a hexadecimal digit. *)
Lemma lowercase_hexdigit (b : byte) :
  is_ascii_hexdigit b = true →
  is_ascii_hexdigit (byte_to_ascii_lowercase b) = true
  ∧ is_ascii_uppercase (byte_to_ascii_lowercase b) = false.
Proof.
  intros Hb. rewrite <- negb_true_iff, <- andb_true_iff. revert Hb. rewrite <- implb_true_iff.
  exact (byte_forall (λ b, implb (is_ascii_hexdigit b)
    (is_ascii_hexdigit (byte_to_ascii_lowercase b) && negb (is_ascii_uppercase (byte_to_ascii_lowercase b))))
    ltac:(vm_compute; reflexivity) b).
Qed.
