(* ===== verification/RustNet.v ===== *)
(** * The parts of Rust's [std::net] the proxy uses

    [IpAddr] and [SocketAddr] with their textual parser and printer, written
    after the standard library's recursive-descent [Parser]: a parser takes
    the remaining input and returns the value read and what is left, and
    [None] leaves the caller with its own input ([read_atomically]). *)

From S2P Require Import Prelude RustStr.
From Stdlib Require Import Strings.Byte.

Open Scope N_scope.

Inductive IpAddr : Type :=
| V4 (a b c d : N)
| V6 (segments : list N).

#[export] Instance IpAddr_eq_dec : EqDecision IpAddr.
Proof. solve_decision. Defined.

(** Octets are [u8]s, segments are eight [u16]s. *)
Definition IpAddr_wf (ip : IpAddr) : Prop :=
  match ip with
  | V4 a b c d => a < 256 ∧ b < 256 ∧ c < 256 ∧ d < 256
  | V6 segs => length segs = 8%nat ∧ Forall (λ g, g < 65536) segs
  end.

Record SocketAddr : Type := mkSocketAddr {
  sa_ip : IpAddr;
  sa_port : N;
  sa_scope_id : N
}.

Definition SocketAddr_wf (a : SocketAddr) : Prop := IpAddr_wf (sa_ip a) ∧ sa_port a ≤ u16_max.

Definition is_loopback (ip : IpAddr) : bool :=
  match ip with
  | V4 a _ _ _ => a =? 127
  | V6 segs => bool_decide (segs = [0; 0; 0; 0; 0; 0; 0; 1])
  end.

Definition is_unspecified (ip : IpAddr) : bool :=
  match ip with
  | V4 a b c d => (a =? 0) && (b =? 0) && (c =? 0) && (d =? 0)
  | V6 segs => bool_decide (segs = [0; 0; 0; 0; 0; 0; 0; 0])
  end.

(** ** Parsing *)

Definition parser (A : Type) : Type := str → option (A * str).

Definition pbind {A B} (p : parser A) (k : A → parser B) : parser B :=
  λ x, match p x with Some (a, r) => k a r | None => None end.

Notation "'let*' a ':=' p 'in' k" := (pbind p (fun a => k))
  (at level 10, a pattern, p at level 100, k at level 200) : rust_scope.
Open Scope rust_scope.

Definition preturn {A} (a : A) : parser A := λ x, Some (a, x).

Definition por {A} (p q : parser A) : parser A :=
  λ x, match p x with Some r => Some r | None => q x end.

Definition pmap {A B} (f : A → B) (p : parser A) : parser B := let* a := p in preturn (f a).

Definition read_given_char (c : byte) : parser unit :=
  λ x, match x with
       | b :: r => if Byte.eqb b c then Some (tt, r) else None
       | [] => None
       end.

Definition read_separator {A} (sep : byte) (index : nat) (inner : parser A) : parser A :=
  match index with
  | O => inner
  | S _ => let* _ := read_given_char sep in inner
  end.

(** The digit loop of [read_number]: with [Some m], more than [m] digits fail;
    with [None], leaving the width of the target type ([tmax]) fails. *)
Fixpoint read_number_loop (radix : N) (max_digits : option N) (tmax : N)
    (x : str) (value digit_count : N) : option (N * N * str) :=
  match x with
  | [] => Some (value, digit_count, x)
  | b :: r =>
      match to_digit radix b with
      | None => Some (value, digit_count, x)
      | Some d =>
          let value' := value * radix + d in
          let digit_count' := digit_count + 1 in
          match max_digits with
          | Some m =>
              if m <? digit_count' then None
              else read_number_loop radix max_digits tmax r value' digit_count'
          | None =>
              if tmax <? value' then None
              else read_number_loop radix max_digits tmax r value' digit_count'
          end
      end
  end.

Definition read_number (radix : N) (max_digits : option N) (allow_zero_prefix : bool)
    (tmax : N) : parser N :=
  λ x,
    let has_leading_zero := head_is (Byte.eqb "0") x in
    match read_number_loop radix max_digits tmax x 0 0 with
    | None => None
    | Some (value, digit_count, r) =>
        if digit_count =? 0 then None
        else if negb allow_zero_prefix && has_leading_zero && (1 <? digit_count) then None
        else if value <=? tmax then Some (value, r) else None
    end.

Definition read_octet (index : nat) : parser N :=
  read_separator "." index (read_number 10 (Some 3) false 255).

Definition read_ipv4_addr : parser (N * N * N * N) :=
  let* a := read_octet 0 in
  let* b := read_octet 1 in
  let* c := read_octet 2 in
  let* d := read_octet 3 in
  preturn (a, b, c, d).

(** Reads up to [n] further groups, the next one having index [i]; the flag
    says that the last two groups were written as an IPv4 address. *)
Fixpoint read_groups (n i : nat) (x : str) : list N * bool * str :=
  match n with
  | O => ([], false, x)
  | S n' =>
      let ipv4 := match n' with
                  | O => None
                  | S _ => read_separator ":" i read_ipv4_addr x
                  end in
      match ipv4 with
      | Some ((one, two, three, four), r) =>
          ([one * 256 + two; three * 256 + four], true, r)
      | None =>
          match read_separator ":" i (read_number 16 (Some 4) true u16_max) x with
          | Some (g, r) => let '(gs, v4, r') := read_groups n' (S i) r in (g :: gs, v4, r')
          | None => ([], false, x)
          end
      end
  end.

Definition read_ipv6_addr : parser (list N) :=
  λ x,
    let '(head, head_ipv4, r) := read_groups 8 0 x in
    if bool_decide (length head = 8%nat) then Some (head, r)
    else if head_ipv4 then None
    else (let* _ := read_given_char ":" in
          let* _ := read_given_char ":" in
          λ r',
            let '(tail, _, r'') := read_groups (8 - (length head + 1)) 0 r' in
            Some (head ++ replicate (8 - length head - length tail) 0 ++ tail, r'')) r.

Definition V4_of (o : N * N * N * N) : IpAddr := let '(a, b, c, d) := o in V4 a b c d.

Definition read_ip_addr : parser IpAddr :=
  por (pmap V4_of read_ipv4_addr) (pmap V6 read_ipv6_addr).

Definition read_port : parser N :=
  let* _ := read_given_char ":" in read_number 10 None true u16_max.

Definition read_scope_id : parser N :=
  let* _ := read_given_char "%" in read_number 10 None true u32_max.

Definition read_socket_addr_v4 : parser SocketAddr :=
  let* ip := read_ipv4_addr in
  let* port := read_port in
  preturn (mkSocketAddr (V4_of ip) port 0).

Definition read_socket_addr_v6 : parser SocketAddr :=
  let* _ := read_given_char "[" in
  let* ip := read_ipv6_addr in
  let* scope_id := por read_scope_id (preturn 0) in
  let* _ := read_given_char "]" in
  let* port := read_port in
  preturn (mkSocketAddr (V6 ip) port scope_id).

Definition read_socket_addr : parser SocketAddr := por read_socket_addr_v4 read_socket_addr_v6.

(** [parse_with]: the whole input must be consumed. *)
Definition parse_with {A} (p : parser A) (x : str) : option A :=
  match p x with
  | Some (a, []) => Some a
  | _ => None
  end.

(** [str::parse::<IpAddr>] and [str::parse::<SocketAddr>] *)
Definition parse_ip (x : str) : option IpAddr := parse_with read_ip_addr x.
Definition parse_socket (x : str) : option SocketAddr := parse_with read_socket_addr x.

(** ** Printing *)

Definition fmt_ipv4 (a b c d : N) : str :=
  fmt_dec a ++ lit "." ++ fmt_dec b ++ lit "." ++ fmt_dec c ++ lit "." ++ fmt_dec d.

(** The longest run of zero segments, the first one on ties: the scan keeps
    the longest span seen and the current one, each a start and a length. *)
Fixpoint zero_span (segs : list N) (i : nat) (longest current : nat * nat) : nat * nat :=
  match segs with
  | [] => longest
  | g :: segs' =>
      if g =? 0 then
        let current' := match current.2 with O => (i, 1%nat) | S _ => (current.1, S current.2) end in
        let longest' := if (longest.2 <? current'.2)%nat then current' else longest in
        zero_span segs' (S i) longest' current'
      else zero_span segs' (S i) longest (0%nat, 0%nat)
  end.

Fixpoint fmt_subslice (chunk : list N) : str :=
  match chunk with
  | [] => []
  | [g] => fmt_hex g
  | g :: chunk' => fmt_hex g ++ lit ":" ++ fmt_subslice chunk'
  end.

(** [Ipv6Addr::to_ipv4_mapped] *)
Definition to_ipv4_mapped (segs : list N) : option (N * N * N * N) :=
  match segs with
  | [0; 0; 0; 0; 0; 65535; g; h] => Some (g / 256, g mod 256, h / 256, h mod 256)
  | _ => None
  end.

Definition fmt_ipv6 (segs : list N) : str :=
  match to_ipv4_mapped segs with
  | Some (a, b, c, d) => lit "::ffff:" ++ fmt_ipv4 a b c d
  | None =>
      let '(start, n) := zero_span segs 0 (0%nat, 0%nat) (0%nat, 0%nat) in
      if (1 <? n)%nat then
        fmt_subslice (take start segs) ++ lit "::" ++ fmt_subslice (drop (start + n) segs)
      else fmt_subslice segs
  end.

(** [IpAddr::to_string] *)
Definition ip_to_string (ip : IpAddr) : str :=
  match ip with
  | V4 a b c d => fmt_ipv4 a b c d
  | V6 segs => fmt_ipv6 segs
  end.

(** ** Lemmas: numbers *)

Definition stops (radix : N) (r : str) : Prop :=
  match r with [] => True | b :: _ => to_digit radix b = None end.

Section Numbers.
Context (radix : N) (Hlo : 2 ≤ radix) (Hhi : radix ≤ 16).

Abbreviation accumulate := (foldl (λ acc d, acc * radix + d)).

Lemma accumulate_ge ds v : v ≤ accumulate v ds.
Proof. revert v. induction ds as [|d ds IH]; intros v; cbn; [lia|]. specialize (IH (v * radix + d)). nia. Qed.

Lemma read_number_loop_digits md tmax ds r v c :
  Forall (λ d, d < radix) ds → stops radix r →
  match md with Some m => c + len ds ≤ m | None => accumulate v ds ≤ tmax end →
  read_number_loop radix md tmax ((digit_char <$> ds) ++ r) v c
  = Some (accumulate v ds, c + len ds, r).
Proof.
  intros Hds Hr. revert v c. induction Hds as [|d ds Hd _ IH]; intros v c Hm; cbn.
  { rewrite len_nil, N.add_0_r. destruct r as [|b r]; [done|]. cbn in *. by rewrite Hr. }
  rewrite to_digit_char by done. rewrite len_cons in *. destruct md as [m|].
  - rewrite (proj2 (N.ltb_ge m (c + 1))) by lia. rewrite IH by lia. do 3 f_equal. lia.
  - cbn in Hm. pose proof (accumulate_ge ds (v * radix + d)).
    rewrite (proj2 (N.ltb_ge tmax _)) by lia. rewrite IH by lia. do 3 f_equal. lia.
Qed.

Lemma digit_char_zero d : d < 16 → Byte.eqb "0" (digit_char d) = (d =? 0).
Proof.
  intros H. destruct d as [|p]; [reflexivity|].
  do 4 (try destruct p as [p|p|]); first [reflexivity | exfalso; lia].
Qed.

Lemma fmt_radix_leading_zero n r :
  head_is (Byte.eqb "0") (fmt_radix radix n ++ r) && (1 <? len (digits radix n)) = false.
Proof.
  pose proof (digits_canonical radix Hlo n) as Hc.
  pose proof (digits_bounded radix Hlo n) as Hb.
  unfold fmt_radix. destruct (digits radix n) as [|d [|e ds]];
    cbn [fmap list_fmap app head_is]; [done|apply andb_false_r|].
  apply Forall_cons in Hb as [Hb _]. rewrite digit_char_zero by lia. cbn in Hc.
  by rewrite (proj2 (N.eqb_neq d 0)).
Qed.

Lemma read_number_fmt md azp tmax n r :
  stops radix r → n ≤ tmax → match md with Some m => len (digits radix n) ≤ m | None => True end →
  read_number radix md azp tmax (fmt_radix radix n ++ r) = Some (n, r).
Proof.
  intros Hr Hn Hm. unfold read_number. unfold fmt_radix at 1.
  pose proof (eval_digits_digits radix Hlo n) as Hv. unfold eval_digits in Hv.
  rewrite read_number_loop_digits; [|by apply digits_bounded|done|destruct md; [lia|rewrite Hv; done]].
  rewrite Hv, N.add_0_l.
  pose proof (digits_canonical radix Hlo n) as Hc.
  destruct (N.eqb_spec (len (digits radix n)) 0) as [E|_].
  { destruct (digits radix n); [done|]. rewrite len_cons in E. lia. }
  rewrite <- andb_assoc, fmt_radix_leading_zero, andb_false_r.
  by rewrite (proj2 (N.leb_le n tmax)).
Qed.

(** What a successful [read_number] has consumed. *)
Lemma read_number_loop_inv md tmax x v c v' c' r :
  read_number_loop radix md tmax x v c = Some (v', c', r) →
  ∃ p ds, x = p ++ r ∧ (to_digit radix <$> p) = Some <$> ds ∧ stops radix r
          ∧ v' = accumulate v ds ∧ c' = c + len p.
Proof.
  revert v c. induction x as [|b x IH]; cbn; intros v c H.
  { injection H as <- <- <-. exists [], []. rewrite len_nil. repeat split; cbn; lia. }
  destruct (to_digit radix b) as [d|] eqn:Hd.
  - assert (read_number_loop radix md tmax x (v * radix + d) (c + 1) = Some (v', c', r)) as H'.
    { destruct md as [m|]; [destruct (m <? c + 1)|destruct (tmax <? v * radix + d)]; done. }
    apply IH in H' as (p & ds & -> & Hp & Hr & -> & ->).
    exists (b :: p), (d :: ds). rewrite len_cons. cbn. rewrite Hd, Hp. repeat split; [done|lia].
  - injection H as <- <- <-. exists [], []. rewrite len_nil. repeat split; cbn; [done|lia].
Qed.

Lemma read_number_inv md azp tmax x n r :
  read_number radix md azp tmax x = Some (n, r) →
  ∃ p ds, x = p ++ r ∧ p ≠ [] ∧ (to_digit radix <$> p) = Some <$> ds ∧ stops radix r
          ∧ n = eval_digits radix ds ∧ n ≤ tmax
          ∧ (azp = false → head_is (Byte.eqb "0") x = true → len p ≤ 1).
Proof.
  unfold read_number. destruct (read_number_loop _ _ _ _ _ _) as [[[v c] r']|] eqn:E; [|done].
  apply read_number_loop_inv in E as (p & ds & -> & Hp & Hr & -> & ->).
  rewrite N.add_0_l. destruct (N.eqb_spec (len p) 0) as [|Hne]; [done|].
  destruct (negb azp && _ && _) eqn:Hz; [done|].
  destruct (N.leb_spec (accumulate 0 ds) tmax); [|done]. intros [= <- <-].
  exists p, ds. repeat split; [intros ->; done|done..|].
  intros -> Hh. rewrite Hh in Hz. cbn in Hz. by apply N.ltb_ge in Hz.
Qed.
End Numbers.

Lemma to_digit_10_inv b d : to_digit 10 b = Some d → b = digit_char d ∧ d < 10.
Proof.
  intros H.
  assert (match to_digit 10 b with
          | Some d => Byte.eqb b (digit_char d) && (d <? 10)
          | None => true
          end = true) as E.
  { revert b H. intros b _. revert b. apply byte_forall. vm_compute. reflexivity. }
  rewrite H in E. reflect. split; [by apply Byte.byte_dec_bl|done].
Qed.

Lemma decimal_digits_inv p ds :
  (to_digit 10 <$> p) = Some <$> ds → p = digit_char <$> ds ∧ Forall (λ d, d < 10) ds.
Proof.
  revert ds. induction p as [|b p IH]; intros [|d ds] H; try done.
  cbn [fmap list_fmap] in *. injection H as Hb Hp. apply to_digit_10_inv in Hb as [-> ?].
  apply IH in Hp as [-> ?]. split; [done|by constructor].
Qed.

(** Without a zero prefix, a decimal number has exactly one spelling. *)
Lemma read_decimal_inv md tmax x n r :
  read_number 10 md false tmax x = Some (n, r) → x = fmt_dec n ++ r ∧ n ≤ tmax ∧ stops 10 r.
Proof.
  intros H. apply read_number_inv in H as (p & ds & -> & Hne & Hp & Hr & -> & Hle & Hz); [|lia..].
  apply decimal_digits_inv in Hp as [-> Hds]. specialize (Hz eq_refl).
  unfold fmt_dec, fmt_radix. rewrite digits_eval; [done|lia|done|].
  destruct ds as [|d [|e ds]]; [done|done|]. cbn. intros ->.
  revert Hz. cbn [fmap list_fmap app head_is]. change (Byte.eqb "0" (digit_char 0)) with true.
  intros Hz. specialize (Hz eq_refl). rewrite !len_cons in Hz. lia.
Qed.

Lemma len_digits_le radix n (k : nat) :
  2 ≤ radix → n < radix ^ N.of_nat (S k) → len (digits radix n) ≤ N.of_nat (S k).
Proof. intros Hr H. unfold len, digits. apply (to_digits_length radix Hr (S (N.to_nat (N.log2 n)))) in H. lia. Qed.

Lemma read_octet_fmt a r : a < 256 → stops 10 r →
  read_number 10 (Some 3) false 255 (fmt_dec a ++ r) = Some (a, r).
Proof.
  intros. apply read_number_fmt; [lia..|done|lia|].
  apply (len_digits_le 10 a 2); [lia|]. change (10 ^ N.of_nat 3) with 1000. lia.
Qed.

Lemma fmt_ipv4_app a b c d r :
  fmt_ipv4 a b c d ++ r
  = fmt_dec a ++ "."%byte :: fmt_dec b ++ "."%byte :: fmt_dec c ++ "."%byte :: fmt_dec d ++ r.
Proof. unfold fmt_ipv4. change (lit ".") with ["."%byte]. by rewrite <- !app_assoc. Qed.

Lemma read_ipv4_addr_fmt a b c d r : IpAddr_wf (V4 a b c d) → stops 10 r →
  read_ipv4_addr (fmt_ipv4 a b c d ++ r) = Some ((a, b, c, d), r).
Proof.
  intros (? & ? & ? & ?) Hr. rewrite fmt_ipv4_app.
  unfold read_ipv4_addr, read_octet, pbind, read_separator, preturn, pbind.
  rewrite read_octet_fmt by done. cbn [read_given_char]. change (Byte.eqb "." ".") with true. cbn iota.
  rewrite read_octet_fmt by done. cbn [read_given_char]. change (Byte.eqb "." ".") with true. cbn iota.
  rewrite read_octet_fmt by done. cbn [read_given_char]. change (Byte.eqb "." ".") with true. cbn iota.
  by rewrite read_octet_fmt.
Qed.

Lemma pbind_inv {A B} (p : parser A) (k : A → parser B) x y :
  pbind p k x = Some y → ∃ a r, p x = Some (a, r) ∧ k a r = Some y.
Proof. unfold pbind. destruct (p x) as [[a r]|]; [eauto|done]. Qed.

Lemma read_given_char_inv c x u r : read_given_char c x = Some (u, r) → x = c :: r.
Proof.
  destruct x as [|b x]; cbn; [done|]. destruct (Byte.eqb b c) eqn:E; [|done].
  apply Byte.byte_dec_bl in E. naive_solver.
Qed.

Lemma read_given_char_eq c r : read_given_char c (c :: r) = Some (tt, r).
Proof. cbn. by rewrite (Byte.byte_dec_lb (eq_refl c)). Qed.

Ltac pinv :=
  repeat match goal with
  | H : pbind _ _ _ = Some _ |- _ =>
      let a := fresh "a" in let r := fresh "r" in let E := fresh "Hp" in
      apply pbind_inv in H as (a & r & E & H)
  | H : preturn _ _ = Some _ |- _ => unfold preturn in H; injection H as H; subst
  | H : read_given_char _ _ = Some _ |- _ => apply read_given_char_inv in H; subst
  | H : read_number 10 _ false _ _ = Some _ |- _ =>
      let Hle := fresh "Hle" in let Hs := fresh "Hs" in
      apply read_decimal_inv in H as (? & Hle & Hs); subst
  end.

Lemma read_ipv4_addr_inv x a b c d r : read_ipv4_addr x = Some ((a, b, c, d), r) →
  x = fmt_ipv4 a b c d ++ r ∧ IpAddr_wf (V4 a b c d) ∧ stops 10 r.
Proof.
  intros H. unfold read_ipv4_addr, read_octet, read_separator in H. pinv.
  simplify_eq. rewrite fmt_ipv4_app. repeat split; [lia..|done].
Qed.

(** ** Lemmas: IPv6 text *)

Lemma fmt_hex_hexdigits g : Forall (λ b, is_ascii_hexdigit b = true) (fmt_hex g).
Proof.
  unfold fmt_hex, fmt_radix. apply Forall_fmap.
  eapply Forall_impl; [apply (digits_bounded 16); lia|]. intros d Hd. cbn beta in *.
  destruct d as [|p]; [reflexivity|].
  do 4 (try destruct p as [p|p|]); first [reflexivity | exfalso; lia].
Qed.

Lemma fmt_dec_digits n : Forall (λ b, is_ascii_digit b = true) (fmt_dec n).
Proof.
  unfold fmt_dec, fmt_radix. apply Forall_fmap.
  eapply Forall_impl; [apply (digits_bounded 10); lia|]. intros d Hd. cbn beta in *.
  destruct d as [|p]; [reflexivity|].
  do 4 (try destruct p as [p|p|]); first [reflexivity | exfalso; lia].
Qed.

Lemma digit_hexdigit b : is_ascii_digit b = true → is_ascii_hexdigit b = true.
Proof. unfold is_ascii_hexdigit. by intros ->. Qed.

Lemma drop_while_all {A} (p : A → bool) l r :
  Forall (λ b, p b = true) l → head_is p r = false → drop_while p (l ++ r) = r.
Proof.
  intros Hl Hr. induction Hl as [|b l Hb _ IH]; cbn; [|by rewrite Hb].
  destruct r as [|c r]; [done|]. cbn in *. by rewrite Hr.
Qed.

(** Text that does not look like the start of an IPv4 address. *)
Definition group_end (r : str) : Prop :=
  match r with [] => True | b :: _ => b = ":"%byte ∨ b = "]"%byte end.

Lemma read_ipv4_addr_group g r : group_end r → read_ipv4_addr (fmt_hex g ++ r) = None.
Proof.
  intros Hr. destruct (read_ipv4_addr _) as [[[[[a b] c] d] r']|] eqn:E; [|done].
  apply read_ipv4_addr_inv in E as (E & _ & _). rewrite fmt_ipv4_app in E.
  apply (f_equal (drop_while is_ascii_hexdigit)) in E.
  rewrite !drop_while_all in E; [subst r; by destruct Hr| | |apply fmt_hex_hexdigits|].
  - eapply Forall_impl; [apply fmt_dec_digits|]. apply digit_hexdigit.
  - reflexivity.
  - destruct r as [|? r]; [done|]. by destruct Hr as [-> | ->].
Qed.

Lemma read_ipv4_addr_colon r : group_end r → read_ipv4_addr r = None.
Proof. destruct r as [|b r]; [done|]. by intros [-> | ->]. Qed.

Lemma read_hex_group g r : g < 65536 → group_end r →
  read_number 16 (Some 4) true u16_max (fmt_hex g ++ r) = Some (g, r).
Proof.
  intros. apply read_number_fmt; [lia..| |unfold u16_max; lia|].
  - destruct r; [done|]. match goal with H : group_end _ |- _ => by destruct H as [-> | ->] end.
  - apply (len_digits_le 16 g 3); [lia|]. change (16 ^ N.of_nat 4) with 65536. lia.
Qed.

(** The text of groups [i], [i+1], ... as [read_groups] expects it. *)
Fixpoint groups_text (i : nat) (gs : list N) : str :=
  match gs with
  | [] => []
  | g :: gs' => (match i with O => [] | S _ => lit ":" end) ++ fmt_hex g ++ groups_text (S i) gs'
  end.

Lemma groups_text_S i gs : groups_text (S i) gs = groups_text 1 gs.
Proof.
  revert i. induction gs as [|g gs IH]; intros i; [done|].
  cbn [groups_text]. by rewrite (IH (S i)), (IH 1%nat).
Qed.

Lemma fmt_subslice_cons g gs : fmt_subslice (g :: gs) = fmt_hex g ++ groups_text 1 gs.
Proof.
  revert g. induction gs as [|h gs IH]; intros g; [by rewrite app_nil_r|].
  change (fmt_subslice (g :: h :: gs)) with (fmt_hex g ++ lit ":" ++ fmt_subslice (h :: gs)).
  rewrite IH. cbn [groups_text]. by rewrite (groups_text_S 1).
Qed.

Lemma fmt_subslice_text gs : fmt_subslice gs = groups_text 0 gs.
Proof. destruct gs; [done|]. by rewrite fmt_subslice_cons. Qed.

(** Nothing more to read as a group: the end of the address, or the [::] gap. *)
Definition address_end (r : str) : Prop := r = [] ∨ ∃ r', r = "]"%byte :: r'.
Definition groups_end (r : str) : Prop := address_end r ∨ ∃ r', r = ":"%byte :: ":"%byte :: r'.

Lemma read_groups_stop n i r : groups_end r → read_groups n i r = ([], false, r).
Proof.
  destruct n as [|n]; [done|]. intros [[->|[r' ->]]|[r' ->]]; destruct i, n; reflexivity.
Qed.

Lemma groups_text_end i gs r : groups_end r → group_end (groups_text (S i) gs ++ r).
Proof. destruct gs; [|by left]. intros [[->|[? ->]]|[? ->]]; [done|by right|by left]. Qed.

Lemma read_groups_text n i gs r :
  (length gs ≤ n)%nat → Forall (λ g, g < 65536) gs → groups_end r →
  read_groups n i (groups_text i gs ++ r) = (gs, false, r).
Proof.
  revert n i. induction gs as [|g gs IH]; intros n i Hn Hgs Hr; [by apply read_groups_stop|].
  destruct n as [|n]; [cbn in Hn; lia|]. apply Forall_cons in Hgs as [Hg Hgs].
  assert (∀ A (p : parser A), read_separator ":" i p (groups_text i (g :: gs) ++ r)
          = p (fmt_hex g ++ groups_text (S i) gs ++ r)) as Hsep.
  { intros A p. destruct i; cbn [groups_text read_separator app]; rewrite <- !app_assoc; [done|].
    unfold pbind. change (lit ":") with [":"%byte]. cbn [app]. by rewrite read_given_char_eq. }
  pose proof (groups_text_end i gs r Hr) as Hend.
  cbn [read_groups]. rewrite !Hsep, read_hex_group, read_ipv4_addr_group by done.
  rewrite IH by (cbn in Hn; done || lia). by destruct n.
Qed.

(** The span [zero_span] finds consists of zeros. *)
Definition span_ok (segs : list N) (s : nat * nat) : Prop :=
  segs = take s.1 segs ++ replicate s.2 0 ++ drop (s.1 + s.2) segs.

Lemma span_ok_nil segs : span_ok segs (0%nat, 0%nat).
Proof. reflexivity. Qed.

Lemma span_ok_grow pre post k n :
  span_ok (pre ++ 0 :: post) (k, n) → (k + n = length pre)%nat →
  span_ok (pre ++ 0 :: post) (k, S n).
Proof.
  unfold span_ok. cbn [fst snd]. intros H Hk. rewrite H at 1. f_equal.
  rewrite replicate_S_end, <- app_assoc, Nat.add_succ_r, Hk, drop_app_length.
  f_equal. rewrite drop_app_ge by lia.
  by replace (S (length pre) - length pre)%nat with 1%nat by lia.
Qed.

Lemma zero_span_ok pre post longest current :
  span_ok (pre ++ post) longest → span_ok (pre ++ post) current →
  (current.2 = 0 ∨ current.1 + current.2 = length pre)%nat →
  span_ok (pre ++ post) (zero_span post (length pre) longest current).
Proof.
  revert pre longest current.
  induction post as [|g post IH]; intros pre longest current Hl Hc Hi; [done|].
  cbn [zero_span]. set (current' := match current.2 with O => _ | S _ => _ end).
  assert (pre ++ g :: post = (pre ++ [g]) ++ post) as Happ by by rewrite <- app_assoc.
  assert (length (pre ++ [g]) = S (length pre)) as Hlen by (rewrite length_app; cbn; lia).
  destruct (N.eqb_spec g 0) as [->|_].
  - assert (span_ok (pre ++ 0 :: post) current' ∧ (current'.1 + current'.2 = S (length pre))%nat)
      as [Hc' Hi'].
    { subst current'. destruct current as [k [|n]]; cbn [fst snd] in *.
      - split; [|lia]. apply span_ok_grow; [|lia].
        unfold span_ok. cbn. rewrite Nat.add_0_r. by rewrite take_drop.
      - destruct Hi as [?|Hi]; [done|]. split; [|lia]. by apply span_ok_grow. }
    rewrite Happ, <- Hlen in *. apply IH; [|done|by right].
    by destruct (longest.2 <? current'.2)%nat.
  - rewrite Happ, <- Hlen in *. apply IH; [done|apply span_ok_nil|by left].
Qed.

Lemma zero_span_spec segs :
  span_ok segs (zero_span segs 0 (0%nat, 0%nat) (0%nat, 0%nat)).
Proof. apply (zero_span_ok [] segs); [apply span_ok_nil..|by left]. Qed.

(** ** Round trip of addresses *)

Lemma read_ipv6_addr_gap head tail r :
  (length head + length tail < 8)%nat →
  Forall (λ g, g < 65536) head → Forall (λ g, g < 65536) tail → groups_end r →
  read_ipv6_addr (fmt_subslice head ++ lit "::" ++ fmt_subslice tail ++ r)
  = Some (head ++ replicate (8 - length head - length tail) 0 ++ tail, r).
Proof.
  intros Hlen Hh Ht Hr. unfold read_ipv6_addr. rewrite !fmt_subslice_text.
  rewrite read_groups_text; [|lia|done|right; eexists; reflexivity].
  rewrite bool_decide_eq_false_2 by lia.
  unfold pbind. change (lit "::") with [":"; ":"]%byte. cbn [app].
  rewrite !read_given_char_eq. by rewrite read_groups_text by (done || lia).
Qed.

Lemma read_ipv6_addr_full segs r :
  length segs = 8%nat → Forall (λ g, g < 65536) segs → groups_end r →
  read_ipv6_addr (fmt_subslice segs ++ r) = Some (segs, r).
Proof.
  intros Hlen Hs Hr. unfold read_ipv6_addr. rewrite fmt_subslice_text.
  rewrite read_groups_text by (done || lia). by rewrite bool_decide_eq_true_2.
Qed.

Lemma to_ipv4_mapped_inv segs a b c d :
  to_ipv4_mapped segs = Some (a, b, c, d) →
  ∃ g h, segs = [0; 0; 0; 0; 0; 65535; g; h] ∧ a = g / 256 ∧ b = g mod 256 ∧ c = h / 256 ∧ d = h mod 256.
Proof.
  unfold to_ipv4_mapped.
  repeat case_match; simplify_eq; intros; simplify_eq; eauto 10.
Qed.

Lemma split_u16 g : g < 65536 → g / 256 < 256 ∧ g mod 256 < 256 ∧ g / 256 * 256 + g mod 256 = g.
Proof.
  intros H. split; [apply N.Div0.div_lt_upper_bound; lia|]. split; [apply N.mod_lt; lia|].
  rewrite N.mul_comm. symmetry. by apply N.div_mod.
Qed.

Lemma read_ipv6_addr_mapped a b c d r :
  IpAddr_wf (V4 a b c d) → address_end r →
  read_ipv6_addr (lit "::ffff:" ++ fmt_ipv4 a b c d ++ r)
  = Some ([0; 0; 0; 0; 0; 65535; a * 256 + b; c * 256 + d], r).
Proof.
  intros Hwf Hr. unfold read_ipv6_addr.
  change (lit "::ffff:" ++ fmt_ipv4 a b c d ++ r)
    with (":"%byte :: ":"%byte :: fmt_hex 65535 ++ ":"%byte :: fmt_ipv4 a b c d ++ r).
  rewrite read_groups_stop by (right; eauto). rewrite bool_decide_eq_false_2 by (cbn; lia).
  unfold pbind. rewrite !read_given_char_eq.
  change (8 - (length [] + 1))%nat with 7%nat. cbn [read_groups read_separator].
  rewrite read_ipv4_addr_group, read_hex_group by (by left || lia).
  unfold pbind. rewrite read_given_char_eq.
  rewrite read_ipv4_addr_fmt; [done|done|]. by destruct Hr as [->|[? ->]].
Qed.

Lemma read_ipv6_addr_fmt segs r :
  IpAddr_wf (V6 segs) → address_end r → read_ipv6_addr (fmt_ipv6 segs ++ r) = Some (segs, r).
Proof.
  intros [Hlen Hs] Hr. unfold fmt_ipv6.
  destruct (to_ipv4_mapped segs) as [[[[a b] c] d]|] eqn:E.
  - apply to_ipv4_mapped_inv in E as (g & h & -> & -> & -> & -> & ->).
    rewrite !Forall_cons in Hs. destruct Hs as (_ & _ & _ & _ & _ & _ & Hg & Hh & _).
    apply split_u16 in Hg as (? & ? & Eg), Hh as (? & ? & Eh).
    rewrite <- app_assoc, read_ipv6_addr_mapped by done. by rewrite Eg, Eh.
  - pose proof (zero_span_spec segs) as Hz. destruct (zero_span _ _ _ _) as [start n] eqn:Ez.
    unfold span_ok in Hz. cbn [fst snd] in Hz. destruct (Nat.ltb_spec 1 n).
    + assert (length (take start segs) + n + length (drop (start + n) segs) = 8)%nat as Hl.
      { rewrite <- Hlen. rewrite Hz at 3. rewrite !length_app, length_replicate. lia. }
      rewrite <- !app_assoc.
      rewrite read_ipv6_addr_gap; [|lia|by apply Forall_take|by apply Forall_drop|by left].
      do 2 f_equal. rewrite Hz at 5. do 2 f_equal. f_equal. lia.
    + apply read_ipv6_addr_full; [done|done|by left].
Qed.

Lemma fmt_ipv6_not_ipv4 segs : IpAddr_wf (V6 segs) → read_ipv4_addr (fmt_ipv6 segs) = None.
Proof.
  intros [Hlen Hs]. unfold fmt_ipv6.
  destruct (to_ipv4_mapped segs) as [[[[a b] c] d]|] eqn:E; [by apply read_ipv4_addr_colon; left|].
  destruct (zero_span _ _ _ _) as [start n].
  assert (∀ l r, group_end r → read_ipv4_addr (fmt_subslice l ++ r) = None) as Hgen.
  { intros [|g l] r Hr; [by apply read_ipv4_addr_colon|].
    rewrite fmt_subslice_cons, <- app_assoc. apply read_ipv4_addr_group.
    destruct l; [done|by left]. }
  destruct (1 <? n)%nat; [by apply Hgen; left|].
  rewrite <- (app_nil_r (fmt_subslice segs)). by apply Hgen.
Qed.

(** Printing an address and parsing it back gives the address. *)
Lemma parse_ip_to_string ip : IpAddr_wf ip → parse_ip (ip_to_string ip) = Some ip.
Proof.
  intros Hwf. unfold parse_ip, parse_with, read_ip_addr, por, pmap, pbind, preturn.
  destruct ip as [a b c d|segs]; cbn [ip_to_string].
  - rewrite <- (app_nil_r (fmt_ipv4 a b c d)). by rewrite read_ipv4_addr_fmt.
  - rewrite fmt_ipv6_not_ipv4 by done.
    rewrite <- (app_nil_r (fmt_ipv6 segs)). by rewrite read_ipv6_addr_fmt by (done || by left).
Qed.

(** ** Parsed addresses are well formed *)

Lemma read_number_le radix md azp tmax x n r :
  read_number radix md azp tmax x = Some (n, r) → n ≤ tmax.
Proof.
  unfold read_number. destruct (read_number_loop _ _ _ _ _ _) as [[[v c] r']|]; [|done].
  destruct (c =? 0); [done|]. destruct (negb azp && _ && _); [done|].
  destruct (N.leb_spec v tmax); [|done]. by intros [= <- <-].
Qed.

Lemma read_separator_inv {A} sep i (p : parser A) x y :
  read_separator sep i p x = Some y → ∃ x', p x' = Some y.
Proof. destruct i; [eauto|]. cbn. intros (? & ? & _ & ?)%pbind_inv. eauto. Qed.

Lemma read_groups_wf n i x gs v4 r :
  read_groups n i x = (gs, v4, r) → (length gs ≤ n)%nat ∧ Forall (λ g, g < 65536) gs.
Proof.
  revert i x gs v4 r. induction n as [|n IH]; intros i x gs v4 r; cbn [read_groups].
  { intros [= <- <- <-]. split; [done|constructor]. }
  destruct (match n with O => None | S _ => read_separator ":" i read_ipv4_addr x end)
    as [[[[[a b] c] d] r']|] eqn:E4.
  - intros [= <- <- <-]. destruct n as [|n]; [done|].
    apply read_separator_inv in E4 as (x' & E4).
    apply read_ipv4_addr_inv in E4 as (_ & (? & ? & ? & ?) & _).
    split; [cbn; lia|]. repeat constructor; lia.
  - destruct (read_separator ":" i (read_number _ _ _ _) x) as [[g r']|] eqn:E.
    + destruct (read_groups n (S i) r') as [[gs' v4'] r''] eqn:E'. intros H. simplify_eq.
      apply IH in E' as [Hl Hf]. apply read_separator_inv in E as (x' & E).
      apply read_number_le in E. unfold u16_max in E. split; [cbn; lia|].
      constructor; [lia|done].
    + intros [= <- <- <-]. split; [cbn; lia|constructor].
Qed.

Lemma read_ipv6_addr_wf x segs r : read_ipv6_addr x = Some (segs, r) → IpAddr_wf (V6 segs).
Proof.
  unfold read_ipv6_addr. destruct (read_groups 8 0 x) as [[head v4] r1] eqn:Eh.
  apply read_groups_wf in Eh as [Hl Hf]. case_bool_decide; [by intros [= <- <-]|].
  destruct v4; [done|]. intros (? & ? & _ & H1)%pbind_inv.
  apply pbind_inv in H1 as (? & r2 & _ & H1).
  destruct (read_groups _ 0 r2) as [[tail v4'] r3] eqn:Et.
  apply read_groups_wf in Et as [Hl' Hf']. injection H1 as <- <-. split.
  - rewrite !length_app, length_replicate. lia.
  - rewrite !Forall_app. repeat split; [done|apply Forall_replicate; lia|done].
Qed.

Lemma parse_ip_inv x ip : parse_ip x = Some ip →
  IpAddr_wf ip ∧ match ip with
                 | V4 a b c d => x = fmt_ipv4 a b c d
                 | V6 segs => read_ipv6_addr x = Some (segs, [])
                 end.
Proof.
  unfold parse_ip, parse_with, read_ip_addr, por, pmap, pbind, preturn.
  destruct (read_ipv4_addr x) as [[[[[a b] c] d] r]|] eqn:E4.
  - destruct r; [|done]. intros [= <-]. cbn [V4_of].
    apply read_ipv4_addr_inv in E4 as (-> & Hwf & _). by rewrite app_nil_r.
  - destruct (read_ipv6_addr x) as [[segs r]|] eqn:E6; [|done].
    destruct r; [|done]. intros [= <-]. split; [by eapply read_ipv6_addr_wf|done].
Qed.

Lemma parse_ip_wf x ip : parse_ip x = Some ip → IpAddr_wf ip.
Proof. by intros [? _]%parse_ip_inv. Qed.

Lemma read_port_le x p r : read_port x = Some (p, r) → p ≤ u16_max.
Proof. intros (? & ? & _ & H)%pbind_inv. by apply read_number_le in H. Qed.

Lemma parse_socket_wf x sa : parse_socket x = Some sa → SocketAddr_wf sa.
Proof.
  unfold parse_socket, parse_with, read_socket_addr, por.
  destruct (read_socket_addr_v4 x) as [[sa' r]|] eqn:E4.
  - destruct r; [|done]. intros [= <-]. unfold read_socket_addr_v4 in E4. pinv.
    destruct a as [[[a b] c] d]. apply read_ipv4_addr_inv in Hp as (_ & Hwf & _).
    split; [done|by eapply read_port_le].
  - destruct (read_socket_addr_v6 x) as [[sa' r]|] eqn:E6; [|done].
    destruct r; [|done]. intros [= <-]. unfold read_socket_addr_v6 in E6. pinv.
    split; [by eapply read_ipv6_addr_wf|by eapply read_port_le].
Qed.

(** ** Printed socket addresses *)

Lemma read_port_fmt p : p ≤ u16_max → read_port (":"%byte :: fmt_dec p) = Some (p, []).
Proof.
  intros Hp. unfold read_port, pbind. rewrite read_given_char_eq.
  rewrite <- (app_nil_r (fmt_dec p)). by apply read_number_fmt.
Qed.

Lemma parse_socket_v4 a b c d p :
  IpAddr_wf (V4 a b c d) → p ≤ u16_max →
  parse_socket (fmt_ipv4 a b c d ++ lit ":" ++ fmt_dec p) = Some (mkSocketAddr (V4 a b c d) p 0).
Proof.
  intros Hwf Hp. unfold parse_socket, parse_with, read_socket_addr, por, read_socket_addr_v4, pbind.
  rewrite read_ipv4_addr_fmt by done. change (lit ":") with [":"%byte]. cbn [app].
  by rewrite read_port_fmt.
Qed.

Lemma parse_socket_v6 segs p :
  IpAddr_wf (V6 segs) → p ≤ u16_max →
  parse_socket (lit "[" ++ fmt_ipv6 segs ++ lit "]:" ++ fmt_dec p) = Some (mkSocketAddr (V6 segs) p 0).
Proof.
  intros Hwf Hp. unfold parse_socket, parse_with, read_socket_addr, por.
  change (read_socket_addr_v4 _) with (@None (SocketAddr * str)). cbn iota.
  unfold read_socket_addr_v6, pbind, por, preturn.
  change (lit "[" ++ ?x) with ("["%byte :: x). change (lit "]:" ++ ?x) with ("]"%byte :: ":"%byte :: x).
  rewrite read_given_char_eq, read_ipv6_addr_fmt by (done || right; eauto).
  change (read_scope_id _) with (@None (N * str)). cbn iota.
  by rewrite read_given_char_eq, read_port_fmt.
Qed.

(** A parsed socket address starts with an IPv4 address or an open bracket. *)
Lemma parse_socket_inv x sa : parse_socket x = Some sa →
  (∃ a b c d r, x = fmt_ipv4 a b c d ++ ":"%byte :: r ∧ IpAddr_wf (V4 a b c d))
  ∨ (∃ r, x = "["%byte :: r).
Proof.
  unfold parse_socket, parse_with, read_socket_addr, por.
  destruct (read_socket_addr_v4 x) as [[sa' r]|] eqn:E4.
  - intros _. left. unfold read_socket_addr_v4 in E4. pinv. destruct a as [[[a b] c] d].
    apply read_ipv4_addr_inv in Hp as (-> & Hwf & _). unfold read_port in Hp0. pinv. eauto 10.
  - destruct (read_socket_addr_v6 x) as [[sa' r]|] eqn:E6; [|done].
    intros _. right. unfold read_socket_addr_v6 in E6. pinv. eauto.
Qed.

(** ** The bytes of an address *)

Definition ip_byte (b : byte) : bool := is_ascii_hexdigit b || Byte.eqb b ":" || Byte.eqb b ".".

Definition consumes {A} (p : parser A) : Prop :=
  ∀ x y r, p x = Some (y, r) → ∃ q, x = q ++ r ∧ Forall (λ b, ip_byte b = true) q.

Lemma consumes_bind {A B} (p : parser A) (k : A → parser B) :
  consumes p → (∀ a, consumes (k a)) → consumes (pbind p k).
Proof.
  intros Hp Hk x y r (a & r1 & (q1 & -> & ?)%Hp & (q2 & -> & ?)%Hk)%pbind_inv.
  exists (q1 ++ q2). by rewrite <- app_assoc, Forall_app.
Qed.

Lemma consumes_return {A} (a : A) : consumes (preturn a).
Proof. intros x y r [= <- <-]. by exists []. Qed.

Lemma consumes_char c : ip_byte c = true → consumes (read_given_char c).
Proof. intros Hc x y r ->%read_given_char_inv. exists [c]. by rewrite Forall_singleton. Qed.

Lemma to_digit_ip_byte radix b d : radix ≤ 16 → to_digit radix b = Some d → ip_byte b = true.
Proof.
  intros Hr H. assert (negb (bool_decide (is_Some (to_digit 16 b))) || ip_byte b = true) as E.
  { clear. revert b. apply byte_forall. vm_compute. reflexivity. }
  unfold to_digit in *. destruct (digit_value b) as [v|]; [|done].
  destruct (N.ltb_spec v radix); [|done].
  rewrite (proj2 (N.ltb_lt v 16)) in E by lia. rewrite bool_decide_eq_true_2 in E by eauto. done.
Qed.

Lemma consumes_number radix md azp tmax :
  2 ≤ radix → radix ≤ 16 → consumes (read_number radix md azp tmax).
Proof.
  intros Hlo Hhi x y r H. apply read_number_inv in H as (p & ds & -> & _ & Hp & _); [|done..].
  exists p. split; [done|]. clear -Hp Hhi. revert ds Hp.
  induction p as [|b p IH]; intros [|d ds] Hp; try done.
  cbn [fmap list_fmap] in Hp. injection Hp as Hb Hp.
  constructor; [by eapply to_digit_ip_byte|by eapply IH].
Qed.

Create HintDb consumes discriminated.
#[export] Hint Resolve consumes_bind consumes_return : consumes.
#[export] Hint Extern 1 (consumes (read_given_char _)) => by apply consumes_char : consumes.
#[export] Hint Extern 1 (consumes (read_number _ _ _ _)) => apply consumes_number; lia : consumes.

Lemma consumes_separator {A} sep i (p : parser A) :
  ip_byte sep = true → consumes p → consumes (read_separator sep i p).
Proof. intros. destruct i; cbn; auto using consumes_char with consumes. Qed.
#[export] Hint Extern 1 (consumes (read_separator _ _ _)) =>
  apply consumes_separator; [reflexivity|] : consumes.

Lemma consumes_ipv4 : consumes read_ipv4_addr.
Proof. unfold read_ipv4_addr, read_octet. auto 10 with consumes. Qed.
#[export] Hint Resolve consumes_ipv4 : consumes.

Lemma read_groups_consumes n i x gs v4 r :
  read_groups n i x = (gs, v4, r) → ∃ q, x = q ++ r ∧ Forall (λ b, ip_byte b = true) q.
Proof.
  revert i x gs v4 r. induction n as [|n IH]; intros i x gs v4 r; cbn [read_groups].
  { intros [= <- <- <-]. by exists []. }
  destruct (match n with O => None | S _ => read_separator ":" i read_ipv4_addr x end)
    as [[[[[a b] c] d] r']|] eqn:E4.
  - intros [= <- <- <-]. destruct n as [|n]; [done|].
    by eapply (consumes_separator ":" i read_ipv4_addr eq_refl consumes_ipv4).
  - destruct (read_separator ":" i (read_number _ _ _ _) x) as [[g r']|] eqn:E.
    + destruct (read_groups n (S i) r') as [[gs' v4'] r''] eqn:E'. intros H. simplify_eq.
      apply IH in E' as (q2 & -> & ?).
      apply consumes_separator in E as (q1 & -> & ?); [|done|auto with consumes].
      exists (q1 ++ q2). by rewrite <- app_assoc, Forall_app.
    + intros [= <- <- <-]. by exists [].
Qed.

Lemma consumes_ipv6 : consumes read_ipv6_addr.
Proof.
  intros x segs r. unfold read_ipv6_addr. destruct (read_groups 8 0 x) as [[head v4] r1] eqn:Eh.
  apply read_groups_consumes in Eh as (q1 & -> & Hq1).
  case_bool_decide; [intros [= <- <-]; eauto|]. destruct v4; [done|].
  intros (? & ? & ->%read_given_char_inv & H1)%pbind_inv.
  apply pbind_inv in H1 as (? & r2 & ->%read_given_char_inv & H1).
  destruct (read_groups _ 0 r2) as [[tail v4'] r3] eqn:Et. injection H1 as <- <-.
  apply read_groups_consumes in Et as (q2 & -> & Hq2).
  exists (q1 ++ ":"%byte :: ":"%byte :: q2). rewrite <- app_assoc. split; [done|].
  apply Forall_app; split; [done|]. by repeat constructor.
Qed.

Lemma fmt_ipv4_bytes a b c d : Forall (λ x, is_ascii_digit x || Byte.eqb x "." = true) (fmt_ipv4 a b c d).
Proof.
  assert (∀ n, Forall (λ x, is_ascii_digit x || Byte.eqb x "." = true) (fmt_dec n)) as H.
  { intros n. eapply Forall_impl; [apply fmt_dec_digits|]. by intros x ->. }
  unfold fmt_ipv4. rewrite !Forall_app. repeat split; (apply H || by repeat constructor).
Qed.

Lemma parse_ip_bytes x ip : parse_ip x = Some ip → Forall (λ b, ip_byte b = true) x.
Proof.
  intros [Hwf H]%parse_ip_inv. destruct ip as [a b c d|segs].
  - subst. eapply Forall_impl; [apply fmt_ipv4_bytes|]. intros y Hy.
    unfold ip_byte, is_ascii_hexdigit. cbn beta in Hy. apply orb_true_iff in Hy. destruct Hy as [-> | ->]; [done|by rewrite !orb_true_r].
  - apply consumes_ipv6 in H as (q & -> & Hq). by rewrite app_nil_r.
Qed.

(** IPv6 text always contains a colon. *)

Lemma read_groups_colon n i x gs v4 r :
  read_groups n (S i) x = (gs, v4, r) → gs ≠ [] → ":"%byte ∈ x.
Proof.
  destruct n as [|n]; cbn [read_groups]; [by intros [= <- <- <-]|].
  assert (∀ A (p : parser A) y, read_separator ":" (S i) p x = Some y → ":"%byte ∈ x) as Hsep.
  { intros A p y (? & ? & ->%read_given_char_inv & _)%pbind_inv. by left. }
  destruct (match n with O => None | S _ => _ end) as [[[[[a b] c] d] r']|] eqn:E4.
  { intros _ _. destruct n; [done|]. by eapply Hsep. }
  destruct (read_separator ":" (S i) (read_number _ _ _ _) x) as [[g r']|] eqn:E.
  - intros _ _. by eapply Hsep.
  - by intros [= <- <- <-].
Qed.

Lemma read_ipv6_addr_colon x segs r : read_ipv6_addr x = Some (segs, r) → ":"%byte ∈ x.
Proof.
  unfold read_ipv6_addr. destruct (read_groups 8 0 x) as [[head v4] r1] eqn:Eh.
  pose proof Eh as (q1 & -> & _)%read_groups_consumes.
  case_bool_decide as Hlen.
  - intros _. revert Eh. remember 7%nat as n. cbn [read_groups].
    change (match n with O => _ | S _ => _ end) with
      (match n with O => None | S _ => read_ipv4_addr (q1 ++ r1) end).
    destruct (match n with O => None | S _ => read_ipv4_addr (q1 ++ r1) end)
      as [[[[[a b] c] d] r']|]; [intros H; simplify_eq; by cbn in Hlen|]. cbn [read_separator].
    destruct (read_number 16 (Some 4) true u16_max (q1 ++ r1)) as [[g r']|] eqn:E;
      [|intros H; simplify_eq; by cbn in Hlen].
    destruct (read_groups n 1 r') as [[gs' v4'] r''] eqn:E'. intros H. simplify_eq.
    apply consumes_number in E as (q & -> & _); [|lia..].
    apply elem_of_app. right. eapply read_groups_colon; [exact E'|]. by destruct gs'.
  - destruct v4; [done|]. intros (? & ? & ->%read_given_char_inv & _)%pbind_inv.
    apply elem_of_app. right. by left.
Qed.
