(* ===== verification/Endpoint.v ===== *)
(** * Endpoints (src/endpoint.rs)

    [host:port] endpoints: strict parsing and validation, printing, and the
    two syntactic alias tests of the configuration guardrails. *)

From S2P Require Import Prelude RustStr RustNet.
From Stdlib Require Import Strings.Byte.

Open Scope N_scope.
Open Scope rust_scope.

Record Endpoint : Type := mkEndpoint {
  ep_host : str;
  ep_port : N
}.

#[export] Instance Endpoint_eq_dec : EqDecision Endpoint.
Proof. solve_decision. Defined.

Record EndpointParseError : Type := EPE { epe_message : str }.

#[export] Instance EndpointParseError_eq_dec : EqDecision EndpointParseError.
Proof. solve_decision. Defined.

(** [Endpoint::new]; the port is a [u16]. *)
Definition Endpoint_new (h : str) (p : N) : Endpoint := mkEndpoint h p.

Definition host (self : Endpoint) : str := ep_host self.
Definition port (self : Endpoint) : N := ep_port self.

Definition Endpoint_wf (e : Endpoint) : Prop := port e ≤ u16_max.

Definition has_forbidden_endpoint_syntax (value : str) : bool :=
  contains_str (lit "://") value
  || contains_byte "@" value
  || contains_byte "/" value
  || contains_byte "?" value
  || contains_byte "#" value.

(** One DNS label: non-empty, at most 63 bytes, no hyphen at either end,
    ASCII letters, digits and hyphens only. *)
Definition label_rejected (label : str) : bool :=
  bool_decide (label = [])
  || (63 <? len label)
  || head_is (Byte.eqb "-") label
  || last_is (Byte.eqb "-") label
  || negb (forallb (λ b, is_ascii_alphanumeric b || Byte.eqb b "-") label).

Fixpoint validate_labels (labels : list str) : result unit EndpointParseError :=
  match labels with
  | [] => Ok tt
  | label :: rest =>
      if label_rejected label then Err (EPE (lit "endpoint DNS host is invalid"))
      else validate_labels rest
  end.

Definition validate_host (h : str) : result unit EndpointParseError :=
  if bool_decide (h = []) || any_whitespace h
  then Err (EPE (lit "endpoint host is invalid"))
  else if has_forbidden_endpoint_syntax h
  then Err (EPE (lit "endpoint must use host:port without scheme, credentials, or path"))
  else match parse_ip h with
  | Some _ => Ok tt
  | None =>
      if negb (forallb is_ascii h)
      then Err (EPE (lit "endpoint DNS host must use ASCII or punycode"))
      else if contains_byte ":" h
      then Err (EPE (lit "IPv6 endpoints must use bracketed host:port syntax"))
      else
        let dns_name := default h (strip_suffix "." h) in
        if bool_decide (dns_name = []) || (253 <? len dns_name)
        then Err (EPE (lit "endpoint DNS host is invalid"))
        else validate_labels (split "." dns_name)
  end.

Definition validate (e : Endpoint) : result unit EndpointParseError :=
  if port e =? 0 then Err (EPE (lit "endpoint port must be non-zero"))
  else validate_host (host e).

Definition normalized_host (e : Endpoint) : str := trim_end_matches "." (host e).

Definition same_target (self other : Endpoint) : bool :=
  if negb (port self =? port other) then false
  else
    let left := normalized_host self in
    let right := normalized_host other in
    match parse_ip left, parse_ip right with
    | Some left_ip, Some right_ip =>
        bool_decide (left_ip = right_ip) || (is_loopback left_ip && is_loopback right_ip)
    | Some ip, None => eq_ignore_ascii_case right (lit "localhost") && is_loopback ip
    | None, Some ip => eq_ignore_ascii_case left (lit "localhost") && is_loopback ip
    | None, None => eq_ignore_ascii_case left right
    end.

Definition could_target_listener (self : Endpoint) (listener : SocketAddr) : bool :=
  if negb (port self =? sa_port listener) then false
  else
    let h := normalized_host self in
    if eq_ignore_ascii_case h (lit "localhost")
    then is_loopback (sa_ip listener) || is_unspecified (sa_ip listener)
    else match parse_ip h with
    | None => false
    | Some endpoint_ip =>
        bool_decide (endpoint_ip = sa_ip listener)
        || (is_loopback endpoint_ip && is_loopback (sa_ip listener))
        || (is_unspecified (sa_ip listener)
            && (is_loopback endpoint_ip || is_unspecified endpoint_ip))
        || (is_unspecified endpoint_ip && is_loopback (sa_ip listener))
    end.

(** [impl Display for Endpoint] *)
Definition to_string (e : Endpoint) : str :=
  if contains_byte ":" (host e)
  then lit "[" ++ host e ++ lit "]:" ++ fmt_dec (port e)
  else host e ++ lit ":" ++ fmt_dec (port e).

(** [impl FromStr for Endpoint] *)
Definition from_str (value : str) : result Endpoint EndpointParseError :=
  if negb (bool_decide (trim value = value)) || bool_decide (value = [])
  then Err (EPE (lit "endpoint must not be empty or padded"))
  else if has_forbidden_endpoint_syntax value
  then Err (EPE (lit "endpoint must use host:port without scheme, credentials, or path"))
  else if (1 <? count_byte ":" value) && negb (head_is (Byte.eqb "[") value)
  then Err (EPE (lit "IPv6 endpoints must use bracketed host:port syntax"))
  else match parse_socket value with
  | Some socket =>
      let endpoint := Endpoint_new (ip_to_string (sa_ip socket)) (sa_port socket) in
      let? _ := validate endpoint in
      Ok endpoint
  | None =>
      let? parts := ok_or (rsplit_once ":" value) (EPE (lit "endpoint must use host:port syntax")) in
      let? p := ok_or (parse_u16 (snd parts)) (EPE (lit "endpoint port is invalid")) in
      let endpoint := Endpoint_new (fst parts) p in
      let? _ := validate endpoint in
      Ok endpoint
  end.

(** ** The host grammar *)

(** What [validate_host] accepts besides addresses: DNS names with an optional
    final root dot. *)
Definition ldh (b : byte) : bool := is_ascii_alphanumeric b || Byte.eqb b "-".

Definition dns_label (l : str) : Prop :=
  l ≠ [] ∧ len l ≤ 63 ∧ head l ≠ Some "-"%byte ∧ last l ≠ Some "-"%byte
  ∧ Forall (λ b, ldh b = true) l.

Definition dns_host (h : str) : Prop :=
  ∃ (labels : list str) (root : bool),
    labels ≠ [] ∧ Forall dns_label labels ∧ len (join "." labels) ≤ 253
    ∧ h = join "." labels ++ (if root then lit "." else []).

Definition plain (b : byte) : bool :=
  ldh b || Byte.eqb b "." || Byte.eqb b ":" || Byte.eqb b "[" || Byte.eqb b "]".

Definition allowed (b : byte) : bool :=
  graphic b && negb (existsb (Byte.eqb b) ["@"; "/"; "?"; "#"]%byte).

Lemma plain_allowed b : plain b = true → allowed b = true.
Proof.
  intros H. assert (negb (plain b) || allowed b = true) as E.
  { clear. revert b. apply byte_forall. vm_compute. reflexivity. }
  by rewrite H in E.
Qed.

Lemma ip_byte_plain b : ip_byte b = true → plain b = true.
Proof.
  intros H. assert (negb (ip_byte b) || plain b = true) as E.
  { clear. revert b. apply byte_forall. vm_compute. reflexivity. }
  by rewrite H in E.
Qed.

Section Plain.
Context (x : str) (Hx : Forall (λ b, plain b = true) x).

Lemma plain_graphic : Forall (λ b, graphic b = true) x.
Proof.
  eapply Forall_impl; [exact Hx|]. intros b Hb%plain_allowed. unfold allowed in Hb. by reflect.
Qed.

Lemma plain_ascii : forallb is_ascii x = true.
Proof.
  apply forallb_Forall. eapply Forall_impl; [exact plain_graphic|].
  intros b Hb. unfold graphic in Hb. by reflect.
Qed.

Lemma plain_not_elem c : allowed c = false → c ∉ x.
Proof.
  intros Hc Hin. eapply Forall_forall in Hx; [|exact Hin]. apply plain_allowed in Hx. congruence.
Qed.

Lemma plain_not_forbidden : has_forbidden_endpoint_syntax x = false.
Proof.
  unfold has_forbidden_endpoint_syntax.
  rewrite !orb_false_iff, !contains_byte_false. repeat split; try by apply plain_not_elem.
  destruct (contains_str (lit "://") x) eqn:E; [|done].
  apply (contains_str_elem "/") in E; [|by right; left]. by apply plain_not_elem in E.
Qed.
End Plain.

Lemma parse_ip_plain x ip : parse_ip x = Some ip → Forall (λ b, plain b = true) x.
Proof. intros H%parse_ip_bytes. eapply Forall_impl; [exact H|apply ip_byte_plain]. Qed.

Lemma ldh_plain b : ldh b = true → plain b = true.
Proof. unfold plain. by intros ->. Qed.

Lemma ldh_not_dot b : ldh b = true → b ≠ "."%byte.
Proof. intros H ->. done. Qed.

Lemma Forall_join {P : byte → Prop} c pieces :
  P c → Forall (Forall P) pieces → Forall P (join c pieces).
Proof.
  intros Hc. induction pieces as [|p [|q rest] IH]; [constructor|by intros [? _]%Forall_cons|].
  intros [Hp Hrest]%Forall_cons. change (join c (p :: q :: rest)) with (p ++ c :: join c (q :: rest)).
  apply Forall_app; split; [done|]. constructor; [done|by apply IH].
Qed.

Lemma dns_labels_plain labels :
  Forall dns_label labels → Forall (λ b, ldh b || Byte.eqb b "." = true) (join "." labels).
Proof.
  intros H. apply Forall_join; [done|]. eapply Forall_impl; [exact H|].
  intros l (_ & _ & _ & _ & Hl). eapply Forall_impl; [exact Hl|]. by intros b ->.
Qed.

Lemma label_rejected_spec l : label_rejected l = false ↔ dns_label l.
Proof.
  unfold label_rejected, dns_label. rewrite !orb_false_iff, negb_false_iff, forallb_Forall.
  rewrite bool_decide_eq_false, N.ltb_ge.
  assert (∀ o, match o with Some b => Byte.eqb "-" b | None => false end = false ↔ o ≠ Some "-"%byte) as Ho.
  { intros [b|]; [rewrite byte_eqb_neq; naive_solver|naive_solver]. }
  assert (head_is (Byte.eqb "-") l = false ↔ head l ≠ Some "-"%byte) as ->.
  { rewrite <- Ho. by destruct l. }
  unfold last_is. rewrite Ho. unfold ldh. naive_solver.
Qed.

Lemma validate_labels_spec labels : validate_labels labels = Ok tt ↔ Forall dns_label labels.
Proof.
  induction labels as [|l labels IH]; cbn; [by split|].
  rewrite Forall_cons, <- label_rejected_spec, <- IH. destruct (label_rejected l); naive_solver.
Qed.

Lemma dns_label_no_dot l : dns_label l → "."%byte ∉ l.
Proof.
  intros (_ & _ & _ & _ & Hl) Hin. eapply Forall_forall in Hl; [|exact Hin]. done.
Qed.

Lemma join_last c pieces b : join c pieces ≠ [] → last (join c pieces) = Some b →
  Forall (λ p, p ≠ []) pieces → ∃ p, p ∈ pieces ∧ b ∈ p.
Proof.
  induction pieces as [|p [|q rest] IH]; [done| |].
  - cbn. intros _ Hb _. exists p. split; [by left|]. by apply last_Some_elem_of.
  - intros _ Hb [Hp Hrest]%Forall_cons.
    change (join c (p :: q :: rest)) with (p ++ c :: join c (q :: rest)) in Hb.
    assert (join c (q :: rest) ≠ []) as Hne.
    { apply Forall_cons in Hrest as [Hq _]. destruct rest, q; done. }
    rewrite last_app in Hb. change (c :: join c (q :: rest)) with ([c] ++ join c (q :: rest)) in Hb.
    rewrite last_app in Hb. destruct (last (join c (q :: rest))) as [b'|] eqn:El.
    + injection Hb as ->. destruct (IH Hne eq_refl Hrest) as (p' & ? & ?). exists p'. split; [by right|done].
    + apply last_None in El. done.
Qed.

Lemma join_dns_not_root labels :
  labels ≠ [] → Forall dns_label labels →
  join "." labels ≠ [] ∧ strip_suffix "." (join "." labels) = None.
Proof.
  intros Hne Hl. assert (Forall (λ p, p ≠ []) labels) as Hp
    by (eapply Forall_impl; [exact Hl|by intros l [? _]]).
  assert (join "." labels ≠ []) as Hj
    by (destruct labels as [|[|b p] [|q rest]]; [done|by apply Forall_inv in Hp..|done|done]).
  split; [done|]. apply strip_suffix_None. intros E.
  apply join_last in E as (p & Hin & Hdot); [|done..].
  eapply Forall_forall in Hl; [|exact Hin]. by apply dns_label_no_dot in Hl.
Qed.

Lemma dns_host_plain h : dns_host h → Forall (λ b, ldh b || Byte.eqb b "." = true) h.
Proof.
  intros (labels & root & _ & Hl & _ & ->). apply Forall_app; split; [by apply dns_labels_plain|].
  destruct root; [by repeat constructor|constructor].
Qed.

Lemma dns_byte_plain b : ldh b || Byte.eqb b "." = true → plain b = true.
Proof. unfold plain. by intros ->. Qed.

Lemma dns_host_checks h : dns_host h → h ≠ [] ∧ contains_byte ":" h = false ∧
  (let dns_name := default h (strip_suffix "." h) in
   dns_name ≠ [] ∧ len dns_name ≤ 253 ∧ validate_labels (split "." dns_name) = Ok tt).
Proof.
  intros Hh. pose proof (dns_host_plain h Hh) as Hplain.
  destruct Hh as (labels & root & Hne & Hl & Hlen & ->).
  destruct (join_dns_not_root labels Hne Hl) as [Hj Hs].
  split; [by intros [? _]%app_nil|]. split.
  { apply contains_byte_false. intros Hin. eapply Forall_forall in Hplain; [|exact Hin]. done. }
  replace (default _ _) with (join "." labels).
  - split; [done|]. split; [done|]. apply validate_labels_spec. rewrite split_join; [done..|].
    eapply Forall_impl; [exact Hl|]. apply dns_label_no_dot.
  - destruct root; [change (lit ".") with ["."%byte];
      by rewrite (proj2 (strip_suffix_Some _ _ _) eq_refl)|].
    rewrite app_nil_r. by rewrite Hs.
Qed.

Lemma validate_host_iff (h : str) :
  validate_host h = Ok tt ↔ is_Some (parse_ip h) ∨ dns_host h.
Proof.
  unfold validate_host. split.
  - intros H. inv_ok. destruct (parse_ip h) eqn:Hip; [eauto|]. right. inv_ok. reflect.
    set (dns_name := default h (strip_suffix "." h)) in *.
    exists (split "." dns_name), (bool_decide (is_Some (strip_suffix "." h))).
    rewrite join_split. split; [apply split_nonempty|]. split; [by apply validate_labels_spec|].
    split; [done|]. subst dns_name. destruct (strip_suffix "." h) as [y|] eqn:E; cbn.
    + apply strip_suffix_Some in E. by subst.
    + by rewrite app_nil_r.
  - intros Hh. assert (Forall (λ b, plain b = true) h ∧ h ≠ []) as [Hp Hne].
    { destruct Hh as [[ip Hip]|Hd]; [split; [by eapply parse_ip_plain|by intros ->]|].
      split; [|by apply dns_host_checks in Hd as [? _]].
      eapply Forall_impl; [by apply dns_host_plain|apply dns_byte_plain]. }
    rewrite bool_decide_eq_false_2, graphic_no_whitespace, plain_not_forbidden
      by auto using plain_graphic.
    cbn [orb]. destruct Hh as [[ip ->]|Hd]; [done|]. destruct (parse_ip h); [done|].
    rewrite plain_ascii by done. cbn [negb].
    apply dns_host_checks in Hd as (_ & -> & Hn & Hlen & Hlab).
    rewrite bool_decide_eq_false_2 by done. rewrite (proj2 (N.ltb_ge 253 _)) by done. exact Hlab.
Qed.

(** C36: Host grammar. A host is accepted by [validate_host] exactly when it is
    the text of an IP address or a DNS name: one to many non-empty labels of at
    most 63 ASCII letters, digits and inner hyphens, at most 253 bytes in all,
    with an optional final root dot. White space, URL syntax, user information,
    paths and non-ASCII text are thereby excluded. *)
Theorem validate_host_grammar (h : str) :
  validate_host h = Ok tt ↔ is_Some (parse_ip h) ∨ dns_host h.
Proof. apply validate_host_iff. Qed.

(** ** Parsing and printing *)

Lemma parse_u16_le x n : parse_u16 x = Some n → n ≤ u16_max.
Proof.
  assert (∀ y acc, acc ≤ u16_max → parse_u16_digits y acc = Some n → n ≤ u16_max) as H.
  { induction y as [|b y IH]; intros acc Hacc; cbn; [by intros [= <-]|].
    destruct (to_digit 10 b); [|done]. destruct (N.leb_spec (acc * 10 + n0) u16_max); [|done].
    by apply IH. }
  unfold parse_u16. repeat case_match; try done; by apply H.
Qed.

Lemma validate_Ok e : validate e = Ok tt ↔ port e ≠ 0 ∧ validate_host (host e) = Ok tt.
Proof. unfold validate. destruct (N.eqb_spec (port e) 0); naive_solver. Qed.

Lemma host_bytes h : validate_host h = Ok tt →
  h ≠ [] ∧ Forall (λ b, ip_byte b || ldh b = true) h.
Proof.
  intros [[ip Hip]|Hd]%validate_host_iff.
  - split; [by intros ->|]. apply parse_ip_bytes in Hip.
    eapply Forall_impl; [exact Hip|]. by intros b ->.
  - split; [by apply dns_host_checks in Hd as [? _]|]. apply dns_host_plain in Hd.
    eapply Forall_impl; [exact Hd|]. intros b Hb. cbn beta in *. unfold ip_byte.
    apply orb_true_iff in Hb as [-> | ->]; by rewrite ?orb_true_r.
Qed.

Lemma host_byte_plain b : ip_byte b || ldh b = true → plain b = true.
Proof. intros [H|H]%orb_true_iff; [by apply ip_byte_plain|by apply ldh_plain]. Qed.

Lemma fmt_dec_plain n : Forall (λ b, plain b = true) (fmt_dec n).
Proof.
  eapply Forall_impl; [apply fmt_dec_digits|]. intros b Hb.
  unfold plain, ldh, is_ascii_alphanumeric. by rewrite Hb.
Qed.

Lemma fmt_dec_no_colon n : ":"%byte ∉ fmt_dec n.
Proof. intros Hin. pose proof (fmt_dec_digits n) as H. eapply Forall_forall in H; [|exact Hin]. done. Qed.

Lemma fmt_ipv4_no_colon a b c d : ":"%byte ∉ fmt_ipv4 a b c d.
Proof. intros Hin. pose proof (fmt_ipv4_bytes a b c d) as H. eapply Forall_forall in H; [|exact Hin]. done. Qed.

(** The hosts that parsing produces: no colon, or a canonical IPv6 address. *)
Definition parsed_host (h : str) : Prop :=
  ":"%byte ∉ h ∨ ∃ segs, IpAddr_wf (V6 segs) ∧ h = fmt_ipv6 segs.

Lemma from_str_inv value e : from_str value = Ok e →
  validate e = Ok tt ∧ Endpoint_wf e ∧ parsed_host (host e).
Proof.
  unfold from_str. intros H. inv_ok. destruct (parse_socket value) as [sa|] eqn:Hs.
  - inv_ok. destruct v. split; [done|]. apply parse_socket_wf in Hs as [Hip Hp].
    split; [done|]. cbn. destruct (sa_ip sa) as [a b c d|segs]; [|right; eauto].
    left. apply fmt_ipv4_no_colon.
  - inv_ok. destruct v as [h p], v1. cbn [fst snd] in *. split; [done|].
    split; [by eapply parse_u16_le|]. left. cbn [host ep_host port ep_port Endpoint_new] in *.
    apply validate_Ok in Hv1 as [_ [Hne Hh]%host_bytes]. cbn [host ep_host port ep_port Endpoint_new] in *.
    apply rsplit_once_inv in Hv as [-> _]. reflect. destruct Hg1 as [Hc|Hc]; reflect.
    + rewrite count_byte_app in Hc. cbn [count_byte] in Hc. rewrite byte_eqb_refl in Hc.
      apply count_byte_zero. lia.
    + destruct h as [|b h]; [done|]. cbn [app head_is] in Hc. apply byte_eqb_eq in Hc. subst.
      by apply Forall_inv in Hh.
Qed.

Lemma to_string_accepted e :
  validate_host (host e) = Ok tt →
  trim (to_string e) = to_string e ∧ to_string e ≠ []
  ∧ has_forbidden_endpoint_syntax (to_string e) = false.
Proof.
  intros [Hne Hb]%host_bytes.
  assert (Forall (λ b, plain b = true) (to_string e)) as Hp.
  { assert (Forall (λ b, plain b = true) (host e)) as Hh
      by (eapply Forall_impl; [exact Hb|apply host_byte_plain]).
    unfold to_string. pose proof (fmt_dec_plain (port e)).
    destruct (contains_byte _ _); rewrite !Forall_app; repeat split; done || by repeat constructor. }
  split; [by apply graphic_trim, plain_graphic|]. split; [|by apply plain_not_forbidden].
  unfold to_string. destruct (contains_byte _ _); [done|]. by intros [? _]%app_nil.
Qed.

Lemma from_str_v6 e segs :
  IpAddr_wf (V6 segs) → host e = fmt_ipv6 segs → validate e = Ok tt → Endpoint_wf e →
  from_str (to_string e) = Ok e.
Proof.
  intros Hwf Hh Hv Hp. apply validate_Ok in Hv as Hv'. destruct Hv' as [_ Hvh].
  destruct (to_string_accepted e Hvh) as (Ht & Hne & Hf). unfold from_str.
  rewrite Ht, Hf, bool_decide_eq_true_2, bool_decide_eq_false_2 by done. cbn [negb orb].
  assert (contains_byte ":" (host e) = true) as Hc.
  { apply contains_byte_true. rewrite Hh, <- (app_nil_r (fmt_ipv6 segs)).
    eapply read_ipv6_addr_colon, read_ipv6_addr_fmt; [done|by left]. }
  assert (to_string e = lit "[" ++ fmt_ipv6 segs ++ lit "]:" ++ fmt_dec (port e)) as Hts
    by (unfold to_string; rewrite Hc; by rewrite Hh).
  rewrite Hts, parse_socket_v6 by done.
  change (head_is _ (lit "[" ++ _)) with true. rewrite andb_false_r.
  cbn [sa_ip sa_port ip_to_string]. rewrite <- Hh. unfold Endpoint_new.
  destruct e as [h p]. cbn [host ep_host port ep_port] in *. by rewrite Hv.
Qed.

Lemma parse_socket_dns e :
  parse_ip (host e) = None → validate_host (host e) = Ok tt → ":"%byte ∉ host e →
  parse_socket (host e ++ lit ":" ++ fmt_dec (port e)) = None.
Proof.
  intros Hip Hv Hc. destruct (parse_socket _) as [sa|] eqn:E; [|done]. exfalso.
  apply host_bytes in Hv as [Hne Hb].
  apply parse_socket_inv in E as [(a & b & c & d & r & E & Hwf)|[r E]].
  - change (lit ":" ++ fmt_dec (port e)) with (":"%byte :: fmt_dec (port e)) in E.
    assert (host e = fmt_ipv4 a b c d) as Hh.
    { apply (f_equal (split ":")) in E. rewrite !split_app in E by auto using fmt_ipv4_no_colon.
      by injection E. }
    rewrite Hh in Hip. change (fmt_ipv4 a b c d) with (ip_to_string (V4 a b c d)) in Hip.
    by rewrite parse_ip_to_string in Hip.
  - destruct (host e) as [|b h]; [done|]. injection E as -> _. by apply Forall_inv in Hb.
Qed.

Lemma from_str_no_colon e :
  ":"%byte ∉ host e → validate e = Ok tt → Endpoint_wf e → from_str (to_string e) = Ok e.
Proof.
  intros Hc Hv Hp. apply validate_Ok in Hv as Hv'. destruct Hv' as [_ Hvh].
  destruct (to_string_accepted e Hvh) as (Ht & Hne & Hf). unfold from_str.
  rewrite Ht, Hf, bool_decide_eq_true_2, bool_decide_eq_false_2 by done. cbn [negb orb].
  assert (to_string e = host e ++ lit ":" ++ fmt_dec (port e)) as ->
    by (unfold to_string; by rewrite (proj2 (contains_byte_false _ _))).
  rewrite !count_byte_app, (proj2 (count_byte_zero _ _) Hc),
    (proj2 (count_byte_zero _ _) (fmt_dec_no_colon (port e))).
  change (1 <? 0 + (count_byte ":" (lit ":") + 0)) with false. cbn [andb].
  destruct (parse_ip (host e)) as [ip|] eqn:Hip.
  - apply parse_ip_inv in Hip as [Hwf Hip]. destruct ip as [a b c d|segs].
    + rewrite Hip, parse_socket_v4 by done. cbn [sa_ip sa_port ip_to_string].
      rewrite <- Hip. destruct e as [h p]. unfold Endpoint_new. cbn [host ep_host port ep_port] in *. by rewrite Hv.
    + apply read_ipv6_addr_colon in Hip. done.
  - rewrite parse_socket_dns by done.
    change (lit ":" ++ fmt_dec (port e)) with (":"%byte :: fmt_dec (port e)).
    rewrite rsplit_once_last by apply fmt_dec_no_colon. cbn [ok_or try_ fst snd].
    rewrite parse_u16_fmt_dec by done. cbn [ok_or try_].
    destruct e as [h p]. unfold Endpoint_new. cbn [host ep_host port ep_port] in *. by rewrite Hv.
Qed.

(** C35: Canonical round trip. Every endpoint that parsing returns has a non-zero
    16-bit port and a valid host, and printing it and parsing the text again
    returns the same endpoint, bracketed IPv6 literals included. *)
Theorem from_str_to_string (value : str) (e : Endpoint) :
  from_str value = Ok e →
  validate e = Ok tt ∧ 0 < port e ≤ u16_max ∧ from_str (to_string e) = Ok e.
Proof.
  intros (Hv & Hwf & Hh)%from_str_inv. split; [done|]. unfold Endpoint_wf in Hwf.
  split; [apply validate_Ok in Hv as [? _]; lia|].
  destruct Hh as [Hc|(segs & Hs & Hh)]; [by apply from_str_no_colon|by eapply from_str_v6].
Qed.

Lemma from_str_to_string_witness :
  from_str (lit "[::1]:50001") = Ok (mkEndpoint (lit "::1") 50001)
  ∧ from_str (to_string (mkEndpoint (lit "::1") 50001)) = Ok (mkEndpoint (lit "::1") 50001).
Proof.
  split; [vm_compute; reflexivity|].
  apply (from_str_to_string (lit "[::1]:50001") (mkEndpoint (lit "::1") 50001)).
  vm_compute. reflexivity.
Defined.

(** ** Alias tests *)

(** What an endpoint obviously designates, without name resolution. *)
Inductive Target : Type :=
| Loopback
| Address (ip : IpAddr)
| Name (lowercase : str).

Definition target_of (e : Endpoint) : Target :=
  let h := normalized_host e in
  match parse_ip h with
  | Some ip => if is_loopback ip then Loopback else Address ip
  | None =>
      if eq_ignore_ascii_case h (lit "localhost") then Loopback else Name (to_ascii_lowercase h)
  end.

Lemma same_target_iff a b :
  same_target a b = true ↔ port a = port b ∧ target_of a = target_of b.
Proof.
  unfold same_target, target_of, eq_ignore_ascii_case.
  destruct (N.eqb_spec (port a) (port b)) as [Hp|Hp]; cbn [negb]; [|naive_solver].
  destruct (parse_ip (normalized_host a)) as [l|], (parse_ip (normalized_host b)) as [r|].
  - rewrite orb_true_iff, andb_true_iff, bool_decide_eq_true.
    destruct (is_loopback l) eqn:El, (is_loopback r) eqn:Er;
      (split; [intros [->|[? ?]]; split; congruence
              |intros [_ ?]; solve [by right | left; congruence | congruence]]).
  - rewrite andb_true_iff, bool_decide_eq_true.
    case_bool_decide; destruct (is_loopback l); naive_solver.
  - rewrite andb_true_iff, bool_decide_eq_true.
    case_bool_decide; destruct (is_loopback r); naive_solver.
  - rewrite bool_decide_eq_true. repeat case_bool_decide; naive_solver congruence.
Qed.

(** C37: [same_target] decides whether two endpoints obviously designate the same
    target: equal ports, and the same address, both loopback aliases
    ([localhost] included), or the same DNS name up to ASCII case and trailing
    dots. It is therefore an equivalence relation, so no choice of spelling for
    a third endpoint can separate two that are recognised as aliases. *)
Theorem same_target_refines :
  (∀ a b, same_target a b = true ↔ port a = port b ∧ target_of a = target_of b)
  ∧ Equivalence (λ a b, same_target a b = true).
Proof.
  split; [apply same_target_iff|]. split.
  - intros a. by apply same_target_iff.
  - intros a b. rewrite !same_target_iff. naive_solver.
  - intros a b c. rewrite !same_target_iff. intros [-> ->] [-> ->]. done.
Qed.

Lemma localhost_not_ip h : eq_ignore_ascii_case h (lit "localhost") = true → parse_ip h = None.
Proof.
  intros H. destruct (parse_ip h) as [ip|] eqn:E; [|done]. apply parse_ip_bytes in E.
  unfold eq_ignore_ascii_case in H. reflect. destruct h as [|b h]; [done|].
  apply Forall_inv in E. cbn in H. injection H as Hb _.
  assert (negb (ip_byte b) || negb (Byte.eqb (byte_to_ascii_lowercase b) "l") = true) as Hf.
  { clear. revert b. apply byte_forall. vm_compute. reflexivity. }
  rewrite E, Hb in Hf. done.
Qed.

Lemma trim_end_matches_last c x : last x ≠ Some c → trim_end_matches c x = x.
Proof.
  intros H. unfold trim_end_matches, trim_end_with.
  destruct x as [|b x _] using rev_ind; [done|]. rewrite last_snoc in H.
  rewrite rev_app_distr. cbn [rev app drop_while].
  rewrite (proj2 (byte_eqb_neq c b)) by congruence.
  cbn [rev]. by rewrite rev_involutive.
Qed.

Lemma fmt_dec_nonempty n : fmt_dec n ≠ [].
Proof.
  pose proof (digits_canonical 10 ltac:(lia) n) as H. unfold fmt_dec, fmt_radix.
  by destruct (digits 10 n).
Qed.

Lemma fmt_ipv4_last a b c d : last (fmt_ipv4 a b c d) ≠ Some "."%byte.
Proof.
  intros H. unfold fmt_ipv4 in H. rewrite !app_assoc, last_app in H.
  pose proof (fmt_dec_digits d) as Hd. destruct (last (fmt_dec d)) as [x|] eqn:E.
  - injection H as ->. apply last_Some_elem_of in E. eapply Forall_forall in Hd; [|exact E]. done.
  - apply last_None in E. by apply fmt_dec_nonempty in E.
Qed.

Lemma fmt_subslice_no_dot gs : "."%byte ∉ fmt_subslice gs.
Proof.
  assert (∀ g, "."%byte ∉ fmt_hex g) as Hh.
  { intros g Hin. pose proof (fmt_hex_hexdigits g) as H. eapply Forall_forall in H; [|exact Hin]. done. }
  induction gs as [|g [|h gs] IH]; [apply not_elem_of_nil|apply Hh|].
  change (fmt_subslice (g :: h :: gs)) with (fmt_hex g ++ lit ":" ++ fmt_subslice (h :: gs)).
  rewrite !not_elem_of_app. repeat split; [apply Hh| |done].
  change (lit ":") with [":"%byte]. by rewrite list_elem_of_singleton.
Qed.

Lemma ip_to_string_last ip : last (ip_to_string ip) ≠ Some "."%byte.
Proof.
  destruct ip as [a b c d|segs]; [apply fmt_ipv4_last|]. cbn [ip_to_string]. unfold fmt_ipv6.
  destruct (to_ipv4_mapped segs) as [[[[a b] c] d]|].
  - rewrite last_app. destruct (last (fmt_ipv4 a b c d)) eqn:E; [|done].
    rewrite <- E. apply fmt_ipv4_last.
  - destruct (zero_span _ _ _ _) as [s n]. intros H%last_Some_elem_of. revert H.
    pose proof fmt_subslice_no_dot as Hd. destruct (1 <? n)%nat; [|apply Hd].
    rewrite !elem_of_app. change (lit "::") with [":"; ":"]%byte. intros [H|[H|H]]; [by apply Hd in H| |by apply Hd in H].
    rewrite !elem_of_cons in H. destruct H as [H|[H|H]]; [done..|by apply elem_of_nil in H].
Qed.

Lemma target_of_ip ip p : IpAddr_wf ip →
  target_of (Endpoint_new (ip_to_string ip) p) = if is_loopback ip then Loopback else Address ip.
Proof.
  intros Hwf. unfold target_of, normalized_host. cbn [host ep_host port ep_port Endpoint_new].
  rewrite trim_end_matches_last by apply ip_to_string_last. by rewrite parse_ip_to_string.
Qed.

Lemma listener_alias (e : Endpoint) (listener : SocketAddr) :
  SocketAddr_wf listener →
  same_target e (Endpoint_new (ip_to_string (sa_ip listener)) (sa_port listener)) = true →
  could_target_listener e listener = true.
Proof.
  intros [Hip _]. rewrite same_target_iff, target_of_ip by done. cbn [port Endpoint_new].
  intros [Hp Ht]. unfold could_target_listener. rewrite Hp, N.eqb_refl. cbn [negb].
  unfold target_of in Ht. destruct (eq_ignore_ascii_case _ _) eqn:El.
  - rewrite localhost_not_ip in Ht by done. by destruct (is_loopback (sa_ip listener)).
  - destruct (parse_ip _) as [ip|]; [|by destruct (is_loopback (sa_ip listener))].
    destruct (is_loopback ip) eqn:E1, (is_loopback (sa_ip listener)) eqn:E2; simplify_eq.
    + by rewrite orb_true_r.
    + by rewrite bool_decide_eq_true_2.
Qed.

(** Loop guard. An endpoint that [same_target] identifies with the listener's
    own address and port is always reported by [could_target_listener]: every
    spelling of the listener address, every loopback alias of a loopback
    listener and [localhost] are caught. *)
Theorem could_target_listener_complete (e : Endpoint) (listener : SocketAddr) :
  SocketAddr_wf listener →
  same_target e (Endpoint_new (ip_to_string (sa_ip listener)) (sa_port listener)) = true →
  could_target_listener e listener = true.
Proof. apply listener_alias. Qed.

Lemma could_target_listener_complete_witness :
  could_target_listener (mkEndpoint (lit "LocalHost.") 50003)
    (mkSocketAddr (V4 127 0 0 1) 50003 0) = true.
Proof.
  apply could_target_listener_complete; [vm_compute; repeat split; congruence|vm_compute; reflexivity].
Defined.
