(* ===== verification/Config.v ===== *)
(** * Configuration (src/config.rs)

    The command-line record, the validated configuration, the two validated
    limits, and the conversion that refuses every unsafe combination. *)

From S2P Require Import Prelude RustStr RustNet Endpoint.

Open Scope N_scope.
Open Scope rust_scope.

Definition DEFAULT_MAX_FRAME_BYTES : N := 2 * 1024 * 1024.
Definition MAX_CONFIGURABLE_FRAME_BYTES : N := 16 * 1024 * 1024.
Definition DEFAULT_MAX_CONNECTIONS : N := 128.
Definition MAX_CONFIGURABLE_CONNECTIONS : N := 16 * 1024.
Definition DEFAULT_MAX_PENDING_REQUESTS : N := 1024.
Definition MAX_CONFIGURABLE_PENDING_REQUESTS : N := 16 * 1024.
Definition DEFAULT_MAX_CONCURRENT_BROADCASTS : N := 8.
Definition MAX_CONFIGURABLE_CONCURRENT_BROADCASTS : N := 1024.
Definition MAX_CONFIGURABLE_IN_FLIGHT_BROADCAST_BYTES : N := 128 * 1024 * 1024.

(** The tuple structs with a private field; [..._get] is the accessor. *)
Record PendingRequestLimit : Type := mkPendingRequestLimit { PendingRequestLimit_get : N }.
Record ConcurrentBroadcastLimit : Type :=
  mkConcurrentBroadcastLimit { ConcurrentBroadcastLimit_get : N }.

Inductive RelayMode : Type := Reject | SocksElectrum.

#[export] Instance RelayMode_eq_dec : EqDecision RelayMode.
Proof. solve_decision. Defined.

(** [std::time::Duration], in nanoseconds. *)
Definition nanos_per_sec : N := 1000000000.
Definition Duration_max : N := usize_modulus * nanos_per_sec - 1.
Definition Duration_from_secs (secs : N) : N := secs * nanos_per_sec.
Definition Duration_saturating_add (a b : N) : N := N.min (a + b) Duration_max.

Record Cli : Type := mkCli {
  cli_check_config : bool;
  cli_listen : SocketAddr;
  cli_upstream : Endpoint;
  cli_relay_mode : RelayMode;
  cli_relay_endpoint : option Endpoint;
  cli_socks5_proxy : SocketAddr;
  cli_max_connections : N;
  cli_max_concurrent_broadcasts : N;
  cli_max_pending_requests : N;
  cli_max_frame_bytes : N;
  cli_connect_timeout_seconds : N;
  cli_relay_timeout_seconds : N;
  cli_allow_non_loopback_listen : bool
}.

Record Config : Type := mkConfig {
  cfg_listen : SocketAddr;
  cfg_upstream : Endpoint;
  cfg_relay_mode : RelayMode;
  cfg_relay_endpoint : option Endpoint;
  cfg_socks5_proxy : SocketAddr;
  cfg_max_connections : N;
  cfg_max_concurrent_broadcasts : ConcurrentBroadcastLimit;
  cfg_max_pending_requests : PendingRequestLimit;
  cfg_max_frame_bytes : N;
  cfg_connect_timeout : N;
  cfg_relay_timeout : N
}.

Record ConfigError : Type := CE { ce_message : str }.

Definition PendingRequestLimit_try_from (value : N) : result PendingRequestLimit ConfigError :=
  if negb (range_contains 1 MAX_CONFIGURABLE_PENDING_REQUESTS value)
  then Err (CE (lit "max pending requests must be between 1 and "
                ++ fmt_dec MAX_CONFIGURABLE_PENDING_REQUESTS))
  else Ok (mkPendingRequestLimit value).

Definition ConcurrentBroadcastLimit_try_from (value : N)
    : result ConcurrentBroadcastLimit ConfigError :=
  if negb (range_contains 1 MAX_CONFIGURABLE_CONCURRENT_BROADCASTS value)
  then Err (CE (lit "max concurrent broadcasts must be between 1 and "
                ++ fmt_dec MAX_CONFIGURABLE_CONCURRENT_BROADCASTS))
  else Ok (mkConcurrentBroadcastLimit value).

(** The checks of [socks-electrum] mode (the [if] at the end of [try_from]). *)
Definition check_socks_electrum (cli : Cli) : result unit ConfigError :=
  let? relay_endpoint :=
    ok_or (cli_relay_endpoint cli) (CE (lit "socks-electrum mode requires --relay-endpoint")) in
  if same_target relay_endpoint (cli_upstream cli)
  then Err (CE (lit "private relay endpoint must differ from the query upstream"))
  else if could_target_listener relay_endpoint (cli_listen cli)
  then Err (CE (lit "private relay endpoint must not target the client listener"))
  else
    let socks_endpoint :=
      Endpoint_new (ip_to_string (sa_ip (cli_socks5_proxy cli))) (sa_port (cli_socks5_proxy cli)) in
    if could_target_listener socks_endpoint (cli_listen cli)
    then Err (CE (lit "SOCKS5 proxy must not target the client listener"))
    else Ok tt.

Definition Config_try_from (cli : Cli) : result Config ConfigError :=
  if sa_port (cli_listen cli) =? 0
  then Err (CE (lit "listener port must be non-zero"))
  else if negb (is_loopback (sa_ip (cli_listen cli))) && negb (cli_allow_non_loopback_listen cli)
  then Err (CE (lit "refusing a non-loopback listener without --allow-non-loopback-listen"))
  else
  let? _ := map_err (λ error, CE (lit "invalid query upstream: " ++ epe_message error))
              (validate (cli_upstream cli)) in
  if could_target_listener (cli_upstream cli) (cli_listen cli)
  then Err (CE (lit "query upstream must not target the client listener"))
  else if sa_port (cli_socks5_proxy cli) =? 0
  then Err (CE (lit "SOCKS5 proxy port must be non-zero"))
  else
  let? _ := match cli_relay_endpoint cli with
            | Some relay_endpoint =>
                map_err (λ error, CE (lit "invalid private relay endpoint: " ++ epe_message error))
                  (validate relay_endpoint)
            | None => Ok tt
            end in
  if negb (range_contains 1 MAX_CONFIGURABLE_CONNECTIONS (cli_max_connections cli))
  then Err (CE (lit "max connections must be between 1 and " ++ fmt_dec MAX_CONFIGURABLE_CONNECTIONS))
  else
  let? max_concurrent_broadcasts :=
    ConcurrentBroadcastLimit_try_from (cli_max_concurrent_broadcasts cli) in
  let? max_pending_requests := PendingRequestLimit_try_from (cli_max_pending_requests cli) in
  if negb (range_contains 1024 MAX_CONFIGURABLE_FRAME_BYTES (cli_max_frame_bytes cli))
  then Err (CE (lit "max frame bytes must be between 1024 and " ++ fmt_dec MAX_CONFIGURABLE_FRAME_BYTES))
  else
  let? maximum_in_flight_broadcast_bytes :=
    ok_or (checked_mul (cli_max_concurrent_broadcasts cli) (cli_max_frame_bytes cli))
      (CE (lit "broadcast payload budget overflowed")) in
  if MAX_CONFIGURABLE_IN_FLIGHT_BROADCAST_BYTES <? maximum_in_flight_broadcast_bytes
  then Err (CE (lit "max concurrent broadcasts multiplied by max frame bytes must not exceed "
                ++ fmt_dec MAX_CONFIGURABLE_IN_FLIGHT_BROADCAST_BYTES))
  else if (cli_connect_timeout_seconds cli =? 0) || (cli_relay_timeout_seconds cli =? 0)
  then Err (CE (lit "timeouts must be greater than zero"))
  else
  let? _ := if bool_decide (cli_relay_mode cli = SocksElectrum)
            then check_socks_electrum cli else Ok tt in
  Ok {| cfg_listen := cli_listen cli;
        cfg_upstream := cli_upstream cli;
        cfg_relay_mode := cli_relay_mode cli;
        cfg_relay_endpoint := cli_relay_endpoint cli;
        cfg_socks5_proxy := cli_socks5_proxy cli;
        cfg_max_connections := cli_max_connections cli;
        cfg_max_concurrent_broadcasts := max_concurrent_broadcasts;
        cfg_max_pending_requests := max_pending_requests;
        cfg_max_frame_bytes := cli_max_frame_bytes cli;
        cfg_connect_timeout := Duration_from_secs (cli_connect_timeout_seconds cli);
        cfg_relay_timeout := Duration_from_secs (cli_relay_timeout_seconds cli) |}.

(** ** What is accepted *)

Definition distinct_targets (a b : Endpoint) : Prop := port a ≠ port b ∨ target_of a ≠ target_of b.

Definition endpoint_of (a : SocketAddr) : Endpoint := Endpoint_new (ip_to_string (sa_ip a)) (sa_port a).

Record socks_accepted (cli : Cli) (relay : Endpoint) : Prop := {
  sa_separate : distinct_targets relay (cli_upstream cli);
  sa_relay_no_loop : could_target_listener relay (cli_listen cli) = false;
  sa_socks_no_loop : could_target_listener (endpoint_of (cli_socks5_proxy cli)) (cli_listen cli) = false
}.

(** The documented acceptance conditions, one field per guardrail. *)
Record accepted (cli : Cli) : Prop := {
  acc_listen_port : sa_port (cli_listen cli) ≠ 0;
  acc_loopback : is_loopback (sa_ip (cli_listen cli)) = true ∨ cli_allow_non_loopback_listen cli = true;
  acc_upstream : validate (cli_upstream cli) = Ok tt;
  acc_upstream_no_loop : could_target_listener (cli_upstream cli) (cli_listen cli) = false;
  acc_socks_port : sa_port (cli_socks5_proxy cli) ≠ 0;
  acc_relay : ∀ e, cli_relay_endpoint cli = Some e → validate e = Ok tt;
  acc_connections : 1 ≤ cli_max_connections cli ≤ MAX_CONFIGURABLE_CONNECTIONS;
  acc_broadcasts : 1 ≤ cli_max_concurrent_broadcasts cli ≤ MAX_CONFIGURABLE_CONCURRENT_BROADCASTS;
  acc_pending : 1 ≤ cli_max_pending_requests cli ≤ MAX_CONFIGURABLE_PENDING_REQUESTS;
  acc_frame : 1024 ≤ cli_max_frame_bytes cli ≤ MAX_CONFIGURABLE_FRAME_BYTES;
  acc_budget : cli_max_concurrent_broadcasts cli * cli_max_frame_bytes cli
               ≤ MAX_CONFIGURABLE_IN_FLIGHT_BROADCAST_BYTES;
  acc_timeouts : cli_connect_timeout_seconds cli ≠ 0 ∧ cli_relay_timeout_seconds cli ≠ 0;
  acc_socks : cli_relay_mode cli = SocksElectrum →
              ∃ e, cli_relay_endpoint cli = Some e ∧ socks_accepted cli e
}.

Definition config_of (cli : Cli) : Config :=
  {| cfg_listen := cli_listen cli;
     cfg_upstream := cli_upstream cli;
     cfg_relay_mode := cli_relay_mode cli;
     cfg_relay_endpoint := cli_relay_endpoint cli;
     cfg_socks5_proxy := cli_socks5_proxy cli;
     cfg_max_connections := cli_max_connections cli;
     cfg_max_concurrent_broadcasts := mkConcurrentBroadcastLimit (cli_max_concurrent_broadcasts cli);
     cfg_max_pending_requests := mkPendingRequestLimit (cli_max_pending_requests cli);
     cfg_max_frame_bytes := cli_max_frame_bytes cli;
     cfg_connect_timeout := Duration_from_secs (cli_connect_timeout_seconds cli);
     cfg_relay_timeout := Duration_from_secs (cli_relay_timeout_seconds cli) |}.

Lemma same_target_false a b : same_target a b = false ↔ distinct_targets a b.
Proof.
  unfold distinct_targets. pose proof (same_target_iff a b) as H.
  destruct (same_target a b); split; intros G; try done.
  - destruct (proj1 H eq_refl) as [? ?]. by destruct G.
  - destruct (N.eq_dec (port a) (port b)) as [Hp|]; [|by left].
    right. intros Ht. by apply (conj Hp), H in Ht.
Qed.

Lemma check_socks_electrum_Ok cli :
  check_socks_electrum cli = Ok tt ↔
  ∃ e, cli_relay_endpoint cli = Some e ∧ socks_accepted cli e.
Proof.
  unfold check_socks_electrum. split.
  - intros H. inv_ok. apply same_target_false in Hg. eauto using socks_accepted.
  - intros (e & -> & [Hs Hl Hp]). apply same_target_false in Hs. cbn [ok_or try_].
    unfold endpoint_of in Hp. by rewrite Hs, Hl, Hp.
Qed.

Lemma limits_Ok b p bl pl :
  ConcurrentBroadcastLimit_try_from b = Ok bl → PendingRequestLimit_try_from p = Ok pl →
  (1 ≤ b ≤ MAX_CONFIGURABLE_CONCURRENT_BROADCASTS ∧ bl = mkConcurrentBroadcastLimit b)
  ∧ (1 ≤ p ≤ MAX_CONFIGURABLE_PENDING_REQUESTS ∧ pl = mkPendingRequestLimit p).
Proof.
  unfold ConcurrentBroadcastLimit_try_from, PendingRequestLimit_try_from.
  intros Hb Hp. inv_ok. reflect. done.
Qed.

Lemma Config_try_from_sound cli c : Config_try_from cli = Ok c → accepted cli ∧ c = config_of cli.
Proof.
  unfold Config_try_from. intros H. inv_ok.
  destruct (limits_Ok _ _ _ _ Hv1 Hv2) as [[Hb ->] [Hp ->]]. split; [|done].
  apply checked_mul_Some in Hv3 as [-> _]. reflect. destruct v, v0, v4. constructor; try done.
  - by destruct Hg0 as [?|?]; reflect; [left|right].
  - intros e He. rewrite He in Hv0. by apply map_err_Ok in Hv0.
  - intros Hm. rewrite bool_decide_eq_true_2 in Hv4 by done. by apply check_socks_electrum_Ok.
Qed.

Lemma budget_no_overflow b f :
  b ≤ MAX_CONFIGURABLE_CONCURRENT_BROADCASTS → f ≤ MAX_CONFIGURABLE_FRAME_BYTES →
  checked_mul b f = Some (b * f).
Proof.
  intros Hb Hf. apply checked_mul_Some. split; [done|].
  assert (b * f ≤ MAX_CONFIGURABLE_CONCURRENT_BROADCASTS * MAX_CONFIGURABLE_FRAME_BYTES) as H
    by (apply N.mul_le_mono; done).
  eapply N.le_trans; [exact H|]. vm_compute. discriminate.
Qed.

Lemma Config_try_from_complete cli : accepted cli → Config_try_from cli = Ok (config_of cli).
Proof.
  intros [Hlp Hlb Hu Hul Hsp Hr Hc Hb Hp Hf Hbud [Ht1 Ht2] Hs].
  unfold Config_try_from, ConcurrentBroadcastLimit_try_from, PendingRequestLimit_try_from.
  rewrite (proj2 (N.eqb_neq _ _) Hlp), Hu, Hul, (proj2 (N.eqb_neq _ _) Hsp).
  replace (negb (is_loopback _) && _) with false
    by (destruct Hlb as [-> | ->]; by rewrite ?andb_false_r).
  cbn [map_err try_].
  replace (match cli_relay_endpoint cli with Some _ => _ | None => _ end) with (@Ok unit ConfigError tt)
    by (destruct (cli_relay_endpoint cli) as [e|]; [by rewrite (Hr e eq_refl)|done]).
  cbn [try_]. rewrite !(proj2 (range_contains_true _ _ _)) by done. cbn [negb try_].
  rewrite budget_no_overflow by lia. cbn [ok_or try_].
  rewrite (proj2 (N.ltb_ge _ _)), (proj2 (N.eqb_neq _ _) Ht1), (proj2 (N.eqb_neq _ _) Ht2) by done.
  cbn [orb]. case_bool_decide as Hm; [|done].
  by rewrite (proj2 (check_socks_electrum_Ok cli) (Hs Hm)).
Qed.

(** C16: Acceptance. [Config::try_from] succeeds exactly on the command lines that
    meet every documented guardrail (non-zero ports, loopback listener unless
    overridden, valid endpoints, no obvious loop, query and relay separated in
    socks-electrum mode, all limits in range and the payload budget kept), and
    the configuration it returns is the command line field by field, with the
    limits wrapped and the timeouts in seconds. *)
Theorem Config_try_from_iff (cli : Cli) (c : Config) :
  Config_try_from cli = Ok c ↔ accepted cli ∧ c = config_of cli.
Proof.
  split; [apply Config_try_from_sound|]. intros [H ->]. by apply Config_try_from_complete.
Qed.

(** ** Consequences the runtime relies on *)

(** A validated configuration, as the server receives it. *)
Definition valid_config (c : Config) : Prop := ∃ cli, Config_try_from cli = Ok c.

Lemma valid_config_inv c : valid_config c → ∃ cli, accepted cli ∧ c = config_of cli.
Proof. intros [cli H%Config_try_from_sound]. eauto. Qed.

(** Resource bounds. In a validated configuration every limit is within its
    hard ceiling, the concurrency times the frame size stays within 128 MiB (so
    at most 64 slots at the default 2 MiB frame and 8 at the 16 MiB maximum),
    and the [max_frame_bytes + 1] of the frame reader does not wrap around. *)
Theorem config_resource_bounds (c : Config) :
  valid_config c →
  let slots := ConcurrentBroadcastLimit_get (cfg_max_concurrent_broadcasts c) in
  (1 ≤ cfg_max_connections c ≤ 16384)
  ∧ (1 ≤ slots ≤ 1024)
  ∧ (1 ≤ PendingRequestLimit_get (cfg_max_pending_requests c) ≤ 16384)
  ∧ (1024 ≤ cfg_max_frame_bytes c ≤ 16777216)
  ∧ slots * cfg_max_frame_bytes c ≤ 134217728
  ∧ (cfg_max_frame_bytes c = DEFAULT_MAX_FRAME_BYTES → slots ≤ 64)
  ∧ (cfg_max_frame_bytes c = MAX_CONFIGURABLE_FRAME_BYTES → slots ≤ 8)
  ∧ wrapping_add (cfg_max_frame_bytes c) 1 = cfg_max_frame_bytes c + 1
  ∧ 0 < cfg_connect_timeout c ∧ 0 < cfg_relay_timeout c.
Proof.
  intros (cli & [_ _ _ _ _ _ Hc Hb Hp Hf Hbud [Ht1 Ht2] _] & ->)%valid_config_inv. cbn.
  unfold MAX_CONFIGURABLE_CONNECTIONS, MAX_CONFIGURABLE_CONCURRENT_BROADCASTS,
    MAX_CONFIGURABLE_PENDING_REQUESTS, MAX_CONFIGURABLE_IN_FLIGHT_BROADCAST_BYTES,
    DEFAULT_MAX_FRAME_BYTES, MAX_CONFIGURABLE_FRAME_BYTES, Duration_from_secs, nanos_per_sec in *.
  rewrite wrapping_add_small by (unfold usize_max; lia). repeat split; lia || nia.
Qed.

(** C18: No loop and no reuse. In a validated configuration the query upstream is
    no recognised alias of the client listener (a well-formed socket address, as
    the parser of command lines gives); in socks-electrum mode a relay
    endpoint is present (so start-up cannot panic on it), it is no alias of the
    query upstream nor of the listener, and neither is the SOCKS proxy. *)
Theorem config_endpoints_separated (c : Config) :
  valid_config c → SocketAddr_wf (cfg_listen c) →
  let listener := endpoint_of (cfg_listen c) in
  distinct_targets (cfg_upstream c) listener
  ∧ (cfg_relay_mode c = SocksElectrum →
     ∃ relay, cfg_relay_endpoint c = Some relay
       ∧ distinct_targets relay (cfg_upstream c)
       ∧ distinct_targets relay listener
       ∧ distinct_targets (endpoint_of (cfg_socks5_proxy c)) listener).
Proof.
  intros (cli & [_ _ _ Hul _ _ _ _ _ _ _ _ Hs] & ->)%valid_config_inv Hwf. cbn in *.
  assert (∀ e, could_target_listener e (cli_listen cli) = false →
               distinct_targets e (endpoint_of (cli_listen cli))) as Hloop.
  { intros e He. apply same_target_false.
    destruct (same_target e _) eqn:E; [|done].
    apply listener_alias in E; [|done]. congruence. }
  split; [by apply Hloop|]. intros Hm. destruct (Hs Hm) as (e & He & [Hsep Hrl Hsl]). eauto 10.
Qed.

(** C17: The overflow branch of the payload-budget check is unreachable: whatever
    the command line, the conversion never reports an overflowed budget, because
    both factors have been bounded before they are multiplied. *)
Theorem budget_overflow_unreachable (cli : Cli) :
  Config_try_from cli ≠ Err (CE (lit "broadcast payload budget overflowed")).
Proof.
  unfold Config_try_from, ConcurrentBroadcastLimit_try_from, PendingRequestLimit_try_from.
  intros H.
  repeat match type of H with
  | (if ?b then Err _ else _) = _ => destruct b eqn:?; [discriminate H|]
  | try_ (if ?b then Err _ else _) _ = _ => destruct b eqn:?; [discriminate H|]; cbn [try_] in H
  | try_ (map_err _ ?r) _ = _ => destruct r; cbn [map_err try_] in H; [|discriminate H]
  | try_ (match ?o with Some _ => _ | None => _ end) _ = _ =>
      destruct o; cbn [try_] in H
  | try_ (ok_or (checked_mul _ _) _) _ = _ =>
      rewrite budget_no_overflow in H by (reflect; lia); cbn [ok_or try_] in H
  | try_ (Ok _) _ = _ => cbn [try_] in H
  end.
  all: try discriminate H.
  all: unfold check_socks_electrum in H;
    repeat match type of H with
    | context [if ?b then _ else _] => destruct b; cbn [ok_or try_] in H; try discriminate H
    | context [cli_relay_endpoint ?c] =>
        destruct (cli_relay_endpoint c); cbn [ok_or try_] in H; try discriminate H
    end.
Qed.

(** A command line the conversion accepts: the defaults, in socks-electrum mode. *)
Definition sample_cli : Cli :=
  {| cli_check_config := false;
     cli_listen := mkSocketAddr (V4 127 0 0 1) 50003 0;
     cli_upstream := mkEndpoint (lit "127.0.0.1") 50001;
     cli_relay_mode := SocksElectrum;
     cli_relay_endpoint := Some (mkEndpoint (lit "relay.example") 50001);
     cli_socks5_proxy := mkSocketAddr (V4 127 0 0 1) 9050 0;
     cli_max_connections := DEFAULT_MAX_CONNECTIONS;
     cli_max_concurrent_broadcasts := DEFAULT_MAX_CONCURRENT_BROADCASTS;
     cli_max_pending_requests := DEFAULT_MAX_PENDING_REQUESTS;
     cli_max_frame_bytes := DEFAULT_MAX_FRAME_BYTES;
     cli_connect_timeout_seconds := 10;
     cli_relay_timeout_seconds := 30;
     cli_allow_non_loopback_listen := false |}.

Lemma sample_valid : valid_config (config_of sample_cli).
Proof. exists sample_cli. vm_compute. reflexivity. Defined.

Lemma config_resource_bounds_witness :
  ConcurrentBroadcastLimit_get (cfg_max_concurrent_broadcasts (config_of sample_cli)) ≤ 64.
Proof.
  destruct (config_resource_bounds (config_of sample_cli) sample_valid)
    as (_ & _ & _ & _ & _ & H & _). apply H. vm_compute. reflexivity.
Defined.

Lemma config_endpoints_separated_witness :
  distinct_targets (cfg_upstream (config_of sample_cli)) (endpoint_of (cfg_listen (config_of sample_cli)))
  ∧ ∃ relay, cfg_relay_endpoint (config_of sample_cli) = Some relay
             ∧ distinct_targets relay (cfg_upstream (config_of sample_cli)).
Proof.
  destruct (config_endpoints_separated (config_of sample_cli) sample_valid) as [H1 H2];
    [vm_compute; repeat split; congruence|].
  split; [exact H1|]. destruct (H2 eq_refl) as (relay & Hr & Hd & _). exists relay. split; [exact Hr|exact Hd].
Defined.
