(* ===== verification/Serde.v ===== *)
(** * The JSON interface of the proxy (serde and serde_json)

    [serde_json] is a dependency, so only its data model is a type here and its
    two functions are parameters: [from_slice], one per deserialised type, as
    the class [Deserialize], and [to_vec] as the class [Serialize]. What the
    proxy relies on is the class [SerializeLaws]. *)

From S2P Require Import Prelude.

Open Scope N_scope.

(** [serde_json::Number]: an integer, or an [f64] given by its bit pattern. *)
Inductive Number : Type :=
| Int (z : Z)
| Float (bits : N).

#[export] Instance Number_eq_dec : EqDecision Number.
Proof. solve_decision. Defined.

(** [serde_json::Value] *)
Inductive Value : Type :=
| Null
| Bool (b : bool)
| Num (n : Number)
| Str (s : str)
| Array (values : list Value)
| Object (members : list (str * Value)).

(** [Number::is_i64] and [Number::is_u64] *)
Definition is_i64 (n : Number) : bool :=
  match n with
  | Int z => ((-9223372036854775808 <=? z) && (z <=? 9223372036854775807))%Z
  | Float _ => false
  end.

Definition is_u64 (n : Number) : bool :=
  match n with
  | Int z => ((0 <=? z) && (z <=? 18446744073709551615))%Z
  | Float _ => false
  end.

(** [Value::as_str] *)
Definition as_str (v : Value) : option str :=
  match v with Str s => Some s | _ => None end.

(** [serde_json::from_slice::<T>]; [None] is any deserialisation error. *)
Class Deserialize (T : Type) : Type := from_slice : bytes → option T.

(** [serde_json::to_vec] and [serde_json::to_string] on a [Value]; neither
    fails on a [Value]. *)
Class Serialize : Type := to_vec : Value → bytes.

Definition newline : byte := u8 10.

(** A scalar with an exact JSON representation: what request IDs are made of. *)
Definition exact_scalar (v : Value) : Prop :=
  match v with
  | Null | Bool _ | Str _ => True
  | Num n => is_i64 n = true ∨ is_u64 n = true
  | Array _ | Object _ => False
  end.

(** Documented behaviour of [serde_json]: compact output never contains a raw
    line feed, output is never empty, and exact scalars read back unchanged. *)
Class SerializeLaws `{Serialize} `{Deserialize Value} : Prop := {
  to_vec_no_newline : ∀ v, newline ∉ to_vec v;
  to_vec_nonempty : ∀ v, to_vec v ≠ [];
  from_slice_to_vec : ∀ v, exact_scalar v → from_slice (to_vec v) = Some v
}.

Lemma to_vec_scalar_inj `{SerializeLaws} (v w : Value) :
  exact_scalar v → exact_scalar w → to_vec v = to_vec w → v = w.
Proof.
  intros Hv%from_slice_to_vec Hw%from_slice_to_vec E. rewrite E in Hv. congruence.
Qed.
