(* ===== verification/Protocol.v ===== *)
(** * The client protocol (src/protocol.rs)

    Classification of one newline-delimited client frame, and the responses
    the proxy itself produces. *)

From S2P Require Import Prelude RustStr Serde.

Open Scope N_scope.
Open Scope rust_scope.

Definition BROADCAST_METHOD : str := lit "blockchain.transaction.broadcast".
Definition MAX_REQUEST_ID_STRING_BYTES : N := 256.

Inductive ClientFrame : Type :=
| Broadcast (id : Value) (raw_transaction : str)
| Passthrough (id : option Value).

Record ProtocolError : Type := mkProtocolError {
  pe_id : Value;
  pe_code : Z;
  pe_message : str
}.

(** The fields serde fills in; a missing or [null] [id] is [None]. *)
Record Request : Type := mkRequest {
  req_id : option Value;
  req_method : str;
  req_params : option Value
}.

(** An [Option<Value>] field is [None] where the JSON has [null]. *)
Definition non_null (v : Value) : option Value := match v with Null => None | _ => Some v end.

(** Documented behaviour of [#[derive(Deserialize)]] on a struct: it is read from a
    JSON object or from a sequence of its fields in declaration order. This is
    the second form, for a text that holds a JSON array of three elements. *)
Class RequestFromSequence `{Deserialize Value} `{Deserialize Request} : Prop :=
  request_from_sequence : ∀ (x : bytes) (id : Value) (method : str) (params : Value),
    from_slice x = Some (Array [id; Str method; params]) →
    from_slice x = Some (mkRequest (non_null id) method (non_null params)).

Definition is_valid_request_id (id : Value) : bool :=
  match id with
  | Num number => is_i64 number || is_u64 number
  | Str value => len value <=? MAX_REQUEST_ID_STRING_BYTES
  | _ => false
  end.

Definition invalid_request : ProtocolError :=
  mkProtocolError Null (-32600) (lit "invalid Electrum request").

Definition invalid_params (id : Value) : ProtocolError :=
  mkProtocolError id (-32602) (lit "broadcast expects one hex-encoded transaction").

Section Classify.
Context `{Deserialize Request}.

Definition classify (frame : bytes) : result ClientFrame ProtocolError :=
  let? request := ok_or (from_slice frame) invalid_request in
  let? id := match req_id request with
             | Some id => if is_valid_request_id id then Ok (Some id) else Err invalid_request
             | None => Ok None
             end in
  if negb (bool_decide (req_method request = BROADCAST_METHOD)) then Ok (Passthrough id)
  else
    let id := default Null id in
    let? raw_transaction :=
      ok_or (match req_params request with
             | Some (Array values) =>
                 if bool_decide (length values = 1%nat)
                 then match values with value :: _ => as_str value | [] => None end
                 else None
             | Some (Str value) => Some value
             | _ => None
             end) (invalid_params id) in
    if bool_decide (raw_transaction = [])
       || negb (len raw_transaction mod 2 =? 0)
       || negb (forallb is_ascii_hexdigit raw_transaction)
    then Err (invalid_params id)
    else Ok (Broadcast id raw_transaction).
End Classify.

Section Responses.
Context `{Serialize}.

Definition encode_response (value : Value) : bytes := to_vec value ++ [newline].

(** [json!({"id": id, "error": {"code": code, "message": message}})] *)
Definition error_object (id : Value) (code : Z) (message : str) : Value :=
  Object [(lit "id", id);
          (lit "error", Object [(lit "code", Num (Int code)); (lit "message", Str message)])].

(** [ProtocolError::response] *)
Definition response (e : ProtocolError) : bytes :=
  encode_response (error_object (pe_id e) (pe_code e) (pe_message e)).

Definition success_response (id : Value) (transaction_id : str) : bytes :=
  encode_response (Object [(lit "id", id); (lit "result", Str transaction_id)]).

Definition relay_error_response (id : Value) (relay_is_disabled : bool) : bytes :=
  let '(code, message) :=
    if relay_is_disabled
    then ((-32090)%Z, lit "private broadcasting is not configured")
    else ((-32091)%Z, lit "private broadcast failed; no public fallback was attempted") in
  encode_response (error_object id code message).

Definition invalid_frame_response : bytes := response invalid_request.

Definition pending_request_limit_response (id : Value) : bytes :=
  encode_response (error_object id (-32092) (lit "too many pending requests")).
End Responses.

(** ** Classification theorems *)

Definition valid_id (id : option Value) : Prop :=
  match id with Some v => is_valid_request_id v = true | None => True end.

Definition raw_transaction_ok (raw : str) : Prop :=
  raw ≠ [] ∧ len raw mod 2 = 0 ∧ Forall (λ b, is_ascii_hexdigit b = true) raw.

(** The accepted shapes of the broadcast parameters. *)
Definition broadcast_params (params : option Value) (raw : str) : Prop :=
  params = Some (Array [Str raw]) ∨ params = Some (Str raw).

Section ClassifyFacts.
Context `{Deserialize Request}.

Lemma params_raw params raw :
  match params with
  | Some (Array values) =>
      if bool_decide (length values = 1%nat)
      then match values with value :: _ => as_str value | [] => None end
      else None
  | Some (Str value) => Some value
  | _ => None
  end = Some raw ↔ broadcast_params params raw.
Proof.
  unfold broadcast_params. destruct params as [[| | |x|values|]|]; try naive_solver.
  case_bool_decide as Hl.
  - destruct values as [|v [|]]; [done| |done]. destruct v; cbn; naive_solver.
  - split; [done|]. intros [[= ->]|?]; [done|congruence].
Qed.

Lemma classify_Ok frame f :
  classify frame = Ok f ↔
  ∃ request, from_slice frame = Some request ∧ valid_id (req_id request) ∧
    match f with
    | Passthrough id => req_method request ≠ BROADCAST_METHOD ∧ id = req_id request
    | Broadcast id raw =>
        req_method request = BROADCAST_METHOD ∧ id = default Null (req_id request)
        ∧ broadcast_params (req_params request) raw ∧ raw_transaction_ok raw
    end.
Proof.
  unfold classify. destruct (from_slice frame) as [request|] eqn:Hf; cbn [ok_or try_];
    [|split; [done|by intros (? & ? & _)]].
  set (rid := match req_id request with Some _ => _ | None => _ end).
  assert (∀ id, rid = Ok id ↔ valid_id (req_id request) ∧ id = req_id request) as Hid.
  { intros id. unfold rid, valid_id. destruct (req_id request) as [v|]; [|naive_solver].
    destruct (is_valid_request_id v); naive_solver. }
  destruct rid as [id|e] eqn:Hr; cbn [try_].
  2:{ split; [done|]. intros (r & [= <-] & Hv & _). by discriminate (proj2 (Hid _) (conj Hv eq_refl)). }
  destruct (proj1 (Hid id) eq_refl) as [Hv ->]. clear Hid Hr rid.
  case_bool_decide as Hm; cbn [negb].
  2:{ split; [intros [= <-]; eauto 10|]. intros (r & [= <-] & _ & Hf'). destruct f; naive_solver. }
  destruct (match req_params request with Some _ => _ | None => _ end) as [raw|] eqn:Hp;
    cbn [ok_or try_].
  - pose proof (proj1 (params_raw _ _) Hp) as Hb.
    assert (bool_decide (raw = []) || negb (len raw mod 2 =? 0) || negb (forallb is_ascii_hexdigit raw) = false
            ↔ raw_transaction_ok raw) as Hraw.
    { unfold raw_transaction_ok. rewrite !orb_false_iff, !negb_false_iff, bool_decide_eq_false.
      rewrite N.eqb_eq, forallb_Forall. tauto. }
    destruct (bool_decide (raw = []) || _ || _) eqn:Hc.
    + split; [done|]. intros (r & [= <-] & _ & Hf'). destruct f as [id raw'|]; [|naive_solver].
      destruct Hf' as (_ & _ & Hb' & Hok). apply params_raw in Hb'.
      assert (raw' = raw) as -> by congruence. by apply Hraw in Hok.
    + split.
      * intros [= <-]. exists request. split; [done|]. split; [done|].
        pose proof (proj1 Hraw eq_refl). done.
      * intros (r & [= <-] & _ & Hf'). destruct f as [id raw'|]; [|naive_solver].
        destruct Hf' as (_ & -> & Hb' & _). apply params_raw in Hb'. congruence.
  - split; [done|]. intros (r & [= <-] & _ & Hf'). destruct f as [id raw'|]; [|naive_solver].
    destruct Hf' as (_ & _ & Hb' & _). apply params_raw in Hb'. congruence.
Qed.

(** The outcome of classification, branch by branch, as a relation between what
    the deserialiser returned and the result. *)
Inductive classified : option Request → result ClientFrame ProtocolError → Prop :=
| classified_malformed :
    classified None (Err invalid_request)
| classified_bad_id r :
    ¬ valid_id (req_id r) → classified (Some r) (Err invalid_request)
| classified_passthrough r :
    valid_id (req_id r) → req_method r ≠ BROADCAST_METHOD →
    classified (Some r) (Ok (Passthrough (req_id r)))
| classified_bad_params r :
    valid_id (req_id r) → req_method r = BROADCAST_METHOD →
    (∀ raw, broadcast_params (req_params r) raw → ¬ raw_transaction_ok raw) →
    classified (Some r) (Err (invalid_params (default Null (req_id r))))
| classified_broadcast r raw :
    valid_id (req_id r) → req_method r = BROADCAST_METHOD →
    broadcast_params (req_params r) raw → raw_transaction_ok raw →
    classified (Some r) (Ok (Broadcast (default Null (req_id r)) raw)).

Lemma classified_total frame : ∃ r, classified (from_slice frame) r ∧ classify frame = r.
Proof.
  destruct (classify frame) as [f|e] eqn:E.
  - pose proof (proj1 (classify_Ok frame f) E) as (r & -> & Hv & Hf).
    exists (Ok f). split; [|done].
    destruct f as [id raw|id].
    + destruct Hf as (? & -> & ? & ?). by apply classified_broadcast.
    + destruct Hf as [? ->]. by apply classified_passthrough.
  - exists (Err e). split; [|done]. revert E. unfold classify.
    destruct (from_slice frame) as [r|]; cbn [ok_or try_]; [|intros [= <-]; constructor].
    assert ((∃ id, req_id r = Some id ∧ is_valid_request_id id = false) ∨ valid_id (req_id r)) as [Hid|Hv].
    { unfold valid_id. destruct (req_id r) as [id|]; [|by right].
      destruct (is_valid_request_id id) eqn:Hid; [by right|]. left. by exists id. }
    { destruct Hid as (id & Hr & Hid). rewrite Hr, Hid. cbn [try_]. intros [= <-].
      apply classified_bad_id. rewrite Hr. cbn. congruence. }
    replace (match req_id r with Some _ => _ | None => _ end)
      with (@Ok (option Value) ProtocolError (req_id r))
      by (unfold valid_id in Hv; destruct (req_id r); [by rewrite Hv|done]).
    cbn [try_]. case_bool_decide as Hm; cbn [negb]; [|done].
    destruct (match req_params r with Some _ => _ | None => _ end) as [raw|] eqn:Hp; cbn [ok_or try_].
    + destruct (bool_decide (raw = []) || _ || _) eqn:Hc; [|done]. intros [= <-].
      apply classified_bad_params; [done..|]. intros raw' Hb%params_raw.
      assert (raw' = raw) as -> by congruence. intros (Hne & Hl & Hh).
      rewrite bool_decide_eq_false_2 in Hc by done.
      rewrite (proj2 (N.eqb_eq _ _) Hl), (proj2 (forallb_Forall _ _) Hh) in Hc. done.
    + intros [= <-]. apply classified_bad_params; [done..|]. intros raw' Hb%params_raw. congruence.
Qed.

Lemma classified_fun o r1 r2 : classified o r1 → classified o r2 → r1 = r2.
Proof.
  assert (∀ p raw raw', broadcast_params p raw → broadcast_params p raw' → raw = raw') as Hp.
  { intros p raw raw' [-> | ->] [E|E]; congruence. }
  destruct 1; inversion 1; subst; try done; try naive_solver.
  repeat f_equal. by eapply Hp.
Qed.

(** C15: Classification, on every branch. The result of [classify] is determined
    by what the deserialiser returns: input that it rejects and IDs that are not
    exact 64-bit integers or strings of at most 256 bytes give the generic error; a broadcast is recognised exactly when the method matches
    and the parameters are one non-empty even-length hex string (alone or as
    the only array element), and a broadcast with other parameters gives the
    parameter error under its own ID; everything else passes through. *)
Theorem classify_spec (frame : bytes) (r : result ClientFrame ProtocolError) :
  classify frame = r ↔ classified (from_slice frame) r.
Proof.
  destruct (classified_total frame) as (r' & Hr & E). split.
  - intros <-. by rewrite E.
  - intros Hr'. rewrite E. by eapply classified_fun.
Qed.
End ClassifyFacts.
