(* ===== verification/JsonRef.v ===== *)
(** * A reference instance of the JSON interface

    A concrete printer, parser and struct deserialiser that satisfies
    [SerializeLaws], so that every statement made against the interface can be
    evaluated on real frames. It follows the JSON grammar and serde's documented
    treatment of derived structs (unknown fields ignored, duplicate fields
    refused, [null] or a missing defaulted [Option] field read as [None], and a
    JSON array read field by field in declaration order). Two corners are left
    out: surrogate-pair escapes are refused, and the bit pattern of a number
    that is not an exact 64-bit integer is not computed. *)

From S2P Require Import Prelude RustStr Serde Protocol.
From Stdlib Require Import Strings.Byte.

Open Scope N_scope.

(** ** Printing *)

Definition backslash : byte := u8 92.
Definition dquote : byte := u8 34.

Definition escape (b : byte) : bytes :=
  if Byte.eqb b dquote then [backslash; dquote]
  else if Byte.eqb b backslash then [backslash; backslash]
  else if bval b <? 32
  then [backslash; "u"%byte; "0"%byte; "0"%byte; digit_char (bval b / 16); digit_char (bval b mod 16)]
  else [b].

Definition print_string (s : str) : bytes := dquote :: concat (escape <$> s) ++ [dquote].

Definition print_int (z : Z) : bytes :=
  match z with
  | Zneg p => "-"%byte :: fmt_dec (Npos p)
  | _ => fmt_dec (Z.to_N z)
  end.

Fixpoint intersperse (sep : bytes) (l : list bytes) : bytes :=
  match l with
  | [] => []
  | [x] => x
  | x :: l' => x ++ sep ++ intersperse sep l'
  end.

Fixpoint print (v : Value) : bytes :=
  match v with
  | Null => lit "null"
  | Bool true => lit "true"
  | Bool false => lit "false"
  | Num (Int z) => print_int z
  | Num (Float bits) => fmt_dec bits ++ lit ".0"
  | Str s => print_string s
  | Array vs => lit "[" ++ intersperse (lit ",") (map print vs) ++ lit "]"
  | Object ms =>
      lit "{"
      ++ intersperse (lit ",") (map (λ m, print_string (fst m) ++ lit ":" ++ print (snd m)) ms)
      ++ lit "}"
  end.

(** ** Parsing *)

Definition is_space (b : byte) : bool :=
  existsb (N.eqb (bval b)) [32; 9; 10; 13].

Definition skip (x : bytes) : bytes := drop_while is_space x.

Definition hex4 (a b c d : byte) : option N :=
  match to_digit 16 a, to_digit 16 b, to_digit 16 c, to_digit 16 d with
  | Some p, Some q, Some r, Some s => Some (((p * 16 + q) * 16 + r) * 16 + s)
  | _, _, _, _ => None
  end.

(** UTF-8 of a code point below 65536 that is not a surrogate. *)
Definition utf8 (c : N) : option bytes :=
  if c <? 128 then Some [u8 c]
  else if c <? 2048 then Some [u8 (192 + c / 64); u8 (128 + c mod 64)]
  else if (55296 <=? c) && (c <=? 57343) then None
  else Some [u8 (224 + c / 4096); u8 (128 + (c / 64) mod 64); u8 (128 + c mod 64)].

Definition short_escape (c : byte) : option byte :=
  if existsb (Byte.eqb c) [dquote; backslash; "/"%byte] then Some c
  else if Byte.eqb c "b" then Some (u8 8)
  else if Byte.eqb c "f" then Some (u8 12)
  else if Byte.eqb c "n" then Some (u8 10)
  else if Byte.eqb c "r" then Some (u8 13)
  else if Byte.eqb c "t" then Some (u8 9)
  else None.

(** The characters of a string up to its closing quote. *)
Fixpoint parse_chars (x : bytes) : option (str * bytes) :=
  match x with
  | [] => None
  | b :: r =>
      if Byte.eqb b dquote then Some ([], r)
      else if Byte.eqb b backslash then
        match r with
        | [] => None
        | c :: r1 =>
            match short_escape c with
            | Some e => '(s, y) ← parse_chars r1; Some (e :: s, y)
            | None =>
                if Byte.eqb c "u" then
                  match r1 with
                  | h1 :: h2 :: h3 :: h4 :: r2 =>
                      code ← hex4 h1 h2 h3 h4;
                      e ← utf8 code;
                      '(s, y) ← parse_chars r2; Some (e ++ s, y)
                  | _ => None
                  end
                else None
            end
        end
      else if bval b <? 32 then None
      else '(s, y) ← parse_chars r; Some (b :: s, y)
  end.

Fixpoint take_while {A} (p : A → bool) (l : list A) : list A * list A :=
  match l with
  | [] => ([], [])
  | x :: l' => if p x then let '(a, b) := take_while p l' in (x :: a, b) else ([], l)
  end.

Definition digits_value (ds : bytes) : N :=
  eval_digits 10 (default 0 <$> (to_digit 10 <$> ds)).

(** An optional exponent, after its letter. *)
Definition parse_exponent (x : bytes) : option bytes :=
  let x' := match x with
            | b :: r => if Byte.eqb b "+" || Byte.eqb b "-" then r else x
            | [] => x
            end in
  match take_while is_ascii_digit x' with
  | ([], _) => None
  | (_, r) => Some r
  end.

Definition is_exponent (b : byte) : bool := Byte.eqb b "e" || Byte.eqb b "E".

(** What follows the integer part: whether the number is fractional. *)
Definition parse_fraction (x : bytes) : option (bool * bytes) :=
  '(dotted, x1) ← match x with
                  | b :: r =>
                      if Byte.eqb b "." then
                        match take_while is_ascii_digit r with
                        | ([], _) => None
                        | (_, r') => Some (true, r')
                        end
                      else Some (false, x)
                  | [] => Some (false, x)
                  end;
  match x1 with
  | b :: r => if is_exponent b then r' ← parse_exponent r; Some (true, r') else Some (dotted, x1)
  | [] => Some (dotted, x1)
  end.

Definition number_of (negative : bool) (n : N) : Number :=
  let z := if negative then Z.opp (Z.of_N n) else Z.of_N n in
  if is_i64 (Int z) || is_u64 (Int z) then Int z else Float 0.

Definition parse_number (x : bytes) : option (Value * bytes) :=
  let '(negative, x1) := match x with
                         | b :: r => if Byte.eqb b "-" then (true, r) else (false, x)
                         | [] => (false, x)
                         end in
  let '(ds, r) := take_while is_ascii_digit x1 in
  if bool_decide (ds = []) || (head_is (Byte.eqb "0") ds && (1 <? len ds)) then None
  else '(fractional, r') ← parse_fraction r;
       Some (Num (if fractional : bool then Float 0 else number_of negative (digits_value ds)), r').

Definition parse_literal (x : bytes) : option (Value * bytes) :=
  if starts_with (lit "null") x then Some (Null, drop 4 x)
  else if starts_with (lit "true") x then Some (Bool true, drop 4 x)
  else if starts_with (lit "false") x then Some (Bool false, drop 5 x)
  else parse_number x.

(** Values, array elements and object members, by nesting depth. Every nested
    call has consumed at least one byte, so the input length is enough fuel. *)
Fixpoint parse_value (fuel : nat) (x : bytes) : option (Value * bytes) :=
  match fuel with
  | O => None
  | S fuel' =>
      let elements := fix elements (n : nat) (y : bytes) : option (list Value * bytes) :=
        match n with
        | O => None
        | S n' =>
            '(v, y1) ← parse_value fuel' y;
            match skip y1 with
            | b :: y2 =>
                if Byte.eqb b "," then '(vs, y3) ← elements n' y2; Some (v :: vs, y3)
                else if Byte.eqb b "]" then Some ([v], y2)
                else None
            | [] => None
            end
        end in
      let members := fix members (n : nat) (y : bytes) : option (list (str * Value) * bytes) :=
        match n with
        | O => None
        | S n' =>
            match skip y with
            | q :: y1 =>
                if Byte.eqb q dquote then
                  '(k, y2) ← parse_chars y1;
                  match skip y2 with
                  | c :: y3 =>
                      if Byte.eqb c ":" then
                        '(v, y4) ← parse_value fuel' y3;
                        match skip y4 with
                        | b :: y5 =>
                            if Byte.eqb b "," then '(ms, y6) ← members n' y5; Some ((k, v) :: ms, y6)
                            else if Byte.eqb b "}" then Some ([(k, v)], y5)
                            else None
                        | [] => None
                        end
                      else None
                  | [] => None
                  end
                else None
            | [] => None
            end
        end in
      match skip x with
      | [] => None
      | b :: r =>
          if Byte.eqb b dquote then '(s, y) ← parse_chars r; Some (Str s, y)
          else if Byte.eqb b "[" then
            match skip r with
            | c :: r' => if Byte.eqb c "]" then Some (Array [], r')
                         else '(vs, y) ← elements fuel' r; Some (Array vs, y)
            | [] => None
            end
          else if Byte.eqb b "{" then
            match skip r with
            | c :: r' => if Byte.eqb c "}" then Some (Object [], r')
                         else '(ms, y) ← members fuel' r; Some (Object ms, y)
            | [] => None
            end
          else parse_literal (b :: r)
      end
  end.

Definition parse_json (x : bytes) : option Value :=
  '(v, r) ← parse_value (S (length x)) x;
  match skip r with [] => Some v | _ => None end.

#[export] Instance Value_Deserialize : Deserialize Value := parse_json.
#[export] Instance Value_Serialize : Serialize := print.

(** ** Derived structs *)

(** A field of a derived struct: absent, present once, or an error. *)
Inductive field : Type := Absent | Present (v : Value) | Duplicate.

Definition object_field (name : str) (ms : list (str * Value)) : field :=
  match filter (λ m, fst m = name) ms with
  | [] => Absent
  | [m] => Present (snd m)
  | _ => Duplicate
  end.

(** The fields of a JSON value read as a struct with the given field names. *)
Definition struct_fields (names : list str) (v : Value) : option (list field) :=
  match v with
  | Object ms => Some ((λ n, object_field n ms) <$> names)
  | Array vs =>
      if (length vs <=? length names)%nat
      then Some ((Present <$> vs) ++ replicate (length names - length vs) Absent)
      else None
  | _ => None
  end.

(** [Option<Value>] with [#[serde(default)]] *)
Definition optional_value (f : field) : option (option Value) :=
  match f with
  | Absent | Present Null => Some None
  | Present v => Some (Some v)
  | Duplicate => None
  end.

Definition required_string (f : field) : option str :=
  match f with Present (Str s) => Some s | _ => None end.

#[export] Instance Request_Deserialize : Deserialize Request := λ x,
  v ← parse_json x;
  fields ← struct_fields [lit "id"; lit "method"; lit "params"] v;
  match fields with
  | [fid; fmethod; fparams] =>
      id ← optional_value fid; method ← required_string fmethod; params ← optional_value fparams;
      Some (mkRequest id method params)
  | _ => None
  end.

(** ** The laws hold *)

Lemma escape_no_newline b : newline ∉ escape b.
Proof.
  apply contains_byte_false. apply negb_true_iff. revert b.
  apply (byte_forall (λ b, negb (contains_byte newline (escape b)))). vm_compute. reflexivity.
Qed.

Lemma print_string_no_newline s : newline ∉ print_string s.
Proof.
  unfold print_string. rewrite not_elem_of_cons, not_elem_of_app. split; [done|]. split.
  - induction s as [|b s IH]; [apply not_elem_of_nil|]. cbn. rewrite not_elem_of_app.
    split; [apply escape_no_newline|done].
  - by rewrite list_elem_of_singleton.
Qed.

Lemma fmt_dec_no_newline n : newline ∉ fmt_dec n.
Proof.
  intros Hin. unfold fmt_dec, fmt_radix in Hin. apply list_elem_of_fmap in Hin as (d & E & Hd).
  pose proof (digits_bounded 10 ltac:(lia) n) as Hb. eapply Forall_forall in Hb; [|exact Hd].
  cbn beta in Hb. assert (digit_value (digit_char d) = Some d) as Hv by (apply digit_value_char; lia).
  rewrite <- E in Hv. discriminate Hv.
Qed.

Lemma intersperse_no_newline sep l :
  newline ∉ sep → Forall (λ x, newline ∉ x) l → newline ∉ intersperse sep l.
Proof.
  intros Hs. induction l as [|x [|y l] IH]; [intros _; apply not_elem_of_nil|by intros [? _]%Forall_cons|].
  intros [Hx Hl]%Forall_cons. change (intersperse sep (x :: y :: l)) with (x ++ sep ++ intersperse sep (y :: l)).
  rewrite !not_elem_of_app. repeat split; [done|done|by apply IH].
Qed.

Ltac no_newline_lit := apply contains_byte_false; vm_compute; reflexivity.

Fixpoint print_no_newline (v : Value) : newline ∉ print v.
Proof.
  destruct v as [|[]|[z|bits]|s|vs|ms]; cbn [print].
  - no_newline_lit.
  - no_newline_lit.
  - no_newline_lit.
  - destruct z; cbn [print_int]; try apply fmt_dec_no_newline.
    rewrite not_elem_of_cons. split; [done|apply fmt_dec_no_newline].
  - rewrite not_elem_of_app. split; [apply fmt_dec_no_newline|no_newline_lit].
  - apply print_string_no_newline.
  - rewrite !not_elem_of_app. repeat split; [no_newline_lit| |no_newline_lit].
    apply intersperse_no_newline; [no_newline_lit|].
    induction vs as [|v vs IH]; cbn [map]; constructor; [apply print_no_newline|apply IH].
  - rewrite !not_elem_of_app. repeat split; [no_newline_lit| |no_newline_lit].
    apply intersperse_no_newline; [no_newline_lit|].
    induction ms as [|[k v] ms IH]; cbn [map fst snd]; constructor; [|apply IH].
    rewrite !not_elem_of_app. repeat split; [apply print_string_no_newline|no_newline_lit|].
    apply print_no_newline.
Qed.

Lemma print_nonempty v : print v ≠ [].
Proof.
  assert (∀ n, fmt_dec n ≠ []) as Hd.
  { intros n. pose proof (digits_canonical 10 ltac:(lia) n). unfold fmt_dec, fmt_radix.
    by destruct (digits 10 n). }
  destruct v as [|[]|[[]|]| | |]; cbn [print print_int]; try done; try apply Hd.
  intros [E _]%app_nil. by apply Hd in E.
Qed.

(** Strings *)

Lemma short_escape_quote : short_escape dquote = Some dquote ∧ short_escape backslash = Some backslash.
Proof. done. Qed.

Lemma parse_escape b rest s y :
  parse_chars rest = Some (s, y) → parse_chars (escape b ++ rest) = Some (b :: s, y).
Proof.
  intros Hr. unfold escape.
  destruct (Byte.eqb b dquote) eqn:E1; [apply byte_eqb_eq in E1; subst; cbn; by rewrite Hr|].
  destruct (Byte.eqb b backslash) eqn:E2; [apply byte_eqb_eq in E2; subst; cbn; by rewrite Hr|].
  destruct (bval b <? 32) eqn:E3.
  - cbn [app parse_chars]. change (Byte.eqb backslash dquote) with false.
    rewrite byte_eqb_refl. change (short_escape "u") with (@None byte).
    change (Byte.eqb "u" "u") with true. cbn iota.
    assert (hex4 "0" "0" (digit_char (bval b / 16)) (digit_char (bval b mod 16)) = Some (bval b)) as Hh.
    { reflect. unfold hex4.
      assert (bval b / 16 < 16) by (apply N.Div0.div_lt_upper_bound; lia).
      assert (bval b mod 16 < 16) by (apply N.mod_lt; lia).
      rewrite !to_digit_char by lia. change (to_digit 16 "0") with (Some 0). cbn iota. f_equal.
      rewrite (N.div_mod (bval b) 16) at 3 by lia. lia. }
    rewrite Hh. cbn [mbind option_bind]. unfold utf8. reflect. rewrite (proj2 (N.ltb_lt _ _)) by lia.
    cbn [mbind option_bind]. rewrite Hr. cbn. do 3 f_equal. unfold u8. by rewrite Byte.of_to_N.
  - cbn [app parse_chars]. rewrite E1, E2, E3. by rewrite Hr.
Qed.

Lemma parse_print_string s r : parse_chars (concat (escape <$> s) ++ dquote :: r) = Some (s, r).
Proof.
  induction s as [|b s IH]; [done|]. cbn [fmap list_fmap concat]. rewrite <- app_assoc.
  by apply parse_escape.
Qed.

(** Integers *)

Lemma take_while_all {A} (p : A → bool) l : Forall (λ x, p x = true) l → take_while p l = (l, []).
Proof. induction 1 as [|x l Hx _ IH]; [done|]. cbn. by rewrite Hx, IH. Qed.

Lemma fmt_dec_all_digits n : Forall (λ b, is_ascii_digit b = true) (fmt_dec n).
Proof.
  unfold fmt_dec, fmt_radix. apply Forall_fmap.
  eapply Forall_impl; [apply (digits_bounded 10); lia|]. intros d Hd. cbn beta in *.
  destruct d as [|p]; [reflexivity|].
  do 4 (try destruct p as [p|p|]); first [reflexivity | exfalso; lia].
Qed.

Lemma digits_value_fmt n : digits_value (fmt_dec n) = n.
Proof.
  unfold digits_value, fmt_dec, fmt_radix.
  rewrite <- (eval_digits_digits 10 ltac:(lia) n) at 2. f_equal.
  pose proof (digits_bounded 10 ltac:(lia) n) as Hb.
  induction Hb as [|d ds Hd _ IH]; [done|]. cbn [fmap list_fmap].
  rewrite to_digit_char by lia. cbn. f_equal. exact IH.
Qed.

Lemma fmt_dec_no_leading_zero n :
  bool_decide (fmt_dec n = []) || (head_is (Byte.eqb "0") (fmt_dec n) && (1 <? len (fmt_dec n))) = false.
Proof.
  unfold fmt_dec, fmt_radix. pose proof (digits_canonical 10 ltac:(lia) n) as Hc.
  pose proof (digits_bounded 10 ltac:(lia) n) as Hb.
  destruct (digits 10 n) as [|d [|e ds]]; [done|by cbn; rewrite andb_false_r|].
  apply Forall_inv in Hb. cbn in Hc. rewrite bool_decide_eq_false_2 by done.
  cbn [fmap list_fmap head_is orb].
  destruct (Byte.eqb "0" (digit_char d)) eqn:E; [|done]. apply byte_eqb_eq in E.
  assert (digit_value (digit_char d) = Some d) as Hv by (apply digit_value_char; lia).
  rewrite <- E in Hv. change (digit_value "0") with (Some 0) in Hv. congruence.
Qed.

Lemma parse_number_digits n : parse_number (fmt_dec n) = Some (Num (number_of false n), []).
Proof.
  unfold parse_number. pose proof (fmt_dec_all_digits n) as Hd.
  assert (match fmt_dec n with
          | b :: r => if Byte.eqb b "-" then (true, r) else (false, fmt_dec n)
          | [] => (false, fmt_dec n)
          end = (false, fmt_dec n)) as ->.
  { destruct (fmt_dec n) as [|b r]; [done|]. apply Forall_inv in Hd.
    destruct (Byte.eqb b "-") eqn:E; [|done]. apply byte_eqb_eq in E. by subst. }
  rewrite take_while_all by done. rewrite fmt_dec_no_leading_zero.
  change (parse_fraction []) with (Some (false, @nil byte)). cbn [mbind option_bind].
  by rewrite digits_value_fmt.
Qed.

Lemma parse_number_negative n :
  parse_number ("-"%byte :: fmt_dec n) = Some (Num (number_of true n), []).
Proof.
  unfold parse_number. rewrite byte_eqb_refl.
  rewrite take_while_all by apply fmt_dec_all_digits. rewrite fmt_dec_no_leading_zero.
  change (parse_fraction []) with (Some (false, @nil byte)). cbn [mbind option_bind].
  by rewrite digits_value_fmt.
Qed.

Lemma parse_print_int z :
  is_i64 (Int z) = true ∨ is_u64 (Int z) = true → parse_number (print_int z) = Some (Num (Int z), []).
Proof.
  intros Hz. assert (is_i64 (Int z) || is_u64 (Int z) = true) as Hok by by apply orb_true_iff.
  destruct z as [|p|p]; cbn [print_int].
  - reflexivity.
  - rewrite parse_number_digits.
    change (number_of false (Z.to_N (Z.pos p))) with
      (if is_i64 (Int (Z.pos p)) || is_u64 (Int (Z.pos p)) then Int (Z.pos p) else Float 0).
    by rewrite Hok.
  - rewrite parse_number_negative.
    change (number_of true (N.pos p)) with
      (if is_i64 (Int (Z.neg p)) || is_u64 (Int (Z.neg p)) then Int (Z.neg p) else Float 0).
    by rewrite Hok.
Qed.

Lemma parse_value_int fuel z : parse_value (S fuel) (print_int z) = parse_number (print_int z).
Proof.
  assert (∀ b r, (is_ascii_digit b || Byte.eqb b "-" = true) →
                 parse_value (S fuel) (b :: r) = parse_number (b :: r)) as H.
  { intros b r Hb.
    assert (negb (is_space b || Byte.eqb b dquote || Byte.eqb b "[" || Byte.eqb b "{"
                  || Byte.eqb "n" b || Byte.eqb "t" b || Byte.eqb "f" b) = true) as Hn.
    { assert (negb (is_ascii_digit b || Byte.eqb b "-") || negb (is_space b || Byte.eqb b dquote
        || Byte.eqb b "[" || Byte.eqb b "{" || Byte.eqb "n" b || Byte.eqb "t" b || Byte.eqb "f" b) = true)
        as H by (clear; revert b; apply byte_forall; vm_compute; reflexivity).
      by rewrite Hb in H. }
    rewrite negb_true_iff, !orb_false_iff in Hn.
    destruct Hn as ((((((Hsp & Hq) & Hsq) & Hcb) & Hnu) & Htr) & Hfa).
    cbn [parse_value]. unfold skip. cbn [drop_while]. rewrite Hsp, Hq, Hsq, Hcb. unfold parse_literal.
    change (starts_with (lit "null") (b :: r)) with (Byte.eqb "n" b && starts_with (lit "ull") r).
    change (starts_with (lit "true") (b :: r)) with (Byte.eqb "t" b && starts_with (lit "rue") r).
    change (starts_with (lit "false") (b :: r)) with (Byte.eqb "f" b && starts_with (lit "alse") r).
    by rewrite Hnu, Htr, Hfa. }
  assert (∀ n, ∃ b r, fmt_dec n = b :: r ∧ is_ascii_digit b = true) as Hd.
  { intros n. pose proof (fmt_dec_all_digits n) as Hd. pose proof (digits_canonical 10 ltac:(lia) n) as Hc.
    unfold fmt_dec, fmt_radix in *. destruct (digits 10 n) as [|d ds]; [done|]. cbn in *.
    apply Forall_inv in Hd. eauto. }
  destruct z as [|p|p]; cbn [print_int]; [|destruct (Hd (Z.to_N (Zpos p))) as (b & r & -> & Hb)|].
  - by apply H.
  - apply H. by rewrite Hb.
  - by apply H.
Qed.

Lemma parse_print_scalar v : exact_scalar v → parse_json (print v) = Some v.
Proof.
  unfold parse_json. destruct v as [|[]|n|s|vs|ms]; cbn [exact_scalar]; try done.
  - intros Hn. destruct n as [z|bits]; [|by destruct Hn].
    cbn [print]. by rewrite parse_value_int, parse_print_int.
  - intros _. cbn [print]. unfold print_string.
    assert (∀ fuel r, parse_value (S fuel) (dquote :: r) = '(s, y) ← parse_chars r; Some (Str s, y)) as ->
      by done.
    by rewrite parse_print_string.
Qed.

#[export] Instance reference_laws : SerializeLaws.
Proof.
  split; [exact print_no_newline|exact print_nonempty|exact parse_print_scalar].
Qed.

(** The reference deserialiser reads requests from sequences too. *)
#[export] Instance reference_sequence : RequestFromSequence.
Proof.
  intros x id method params E. unfold from_slice, Value_Deserialize in E.
  unfold from_slice, Request_Deserialize. rewrite E. by destruct id, params.
Qed.

(** ** Frames to evaluate the model on *)

(** JSON text written with single quotes, for readability. *)
Definition json (x : string) : bytes := (λ b, if Byte.eqb b "'" then dquote else b) <$> lit x.
Definition frame (x : string) : bytes := json x ++ [newline].
