(* ===== verification/Async.v ===== *)
(** * Asynchronous tasks

    The execution model for the proxy's [async] code. A task is a program over
    synchronous sections (code between two await points that takes one lock or
    one atomic operation), awaits on the environment, RAII guards and loops;
    tasks interleave at every section, and a task can be cancelled at an await,
    which drops its live guards, innermost first, exactly as dropping a
    suspended future does. A small program logic with per-task shares of a
    ghost resource proves invariants of every interleaving; a task also keeps
    the last state it has seen, from which the current one is reachable by
    guaranteed steps, so that its result can speak about lasting facts. *)

From S2P Require Import Prelude.

(** ** Programs *)

Section Programs.
Context {S G : Type} {E : Type → Type}.

Inductive prog (R : Type) : Type :=
| Ret (r : R)
| Atomic {X : Type} (f : S → X * S) (k : X → prog R)
| Await {X : Type} (e : E X) (k : X → prog R)
| Hold (g : G) (k : prog R)
| Release (k : prog R)
| Loop {A B : Type} (body : A → prog (A + B)) (a : A) (k : B → prog R).
End Programs.

Arguments prog S G E R : clear implicits.
Arguments Ret {S G E R} r.
Arguments Atomic {S G E R X} f k.
Arguments Await {S G E R X} e k.
Arguments Hold {S G E R} g k.
Arguments Release {S G E R} k.
Arguments Loop {S G E R A B} body a k.

Fixpoint bind {S G E A B} (p : prog S G E A) (k : A → prog S G E B) : prog S G E B :=
  match p with
  | Ret r => k r
  | Atomic f c => Atomic f (λ x, bind (c x) k)
  | Await e c => Await e (λ x, bind (c x) k)
  | Hold g c => Hold g (bind c k)
  | Release c => Release (bind c k)
  | Loop body a c => Loop body a (λ b, bind (c b) k)
  end.

Declare Scope async_scope.
Delimit Scope async_scope with async.

Notation "'do' x ':=' p 'in' k" := (bind p (fun x => k))
  (at level 10, x pattern, p at level 100, k at level 200) : async_scope.

(** A synchronous section; an await; a guard bound for the extent of [p]. *)
Definition atomic {S G E X} (f : S → X * S) : prog S G E X := Atomic f Ret.
Definition await {S G E X} (e : E X) : prog S G E X := Await e Ret.
Definition scope {S G E R} (g : G) (p : prog S G E R) : prog S G E R :=
  Hold g (bind p (λ r, Release (Ret r))).
Definition loop {S G E A B} (body : A → prog S G E (A + B)) (a : A) : prog S G E B :=
  Loop body a Ret.

(** What dropping a guard does: synchronous sections only. *)
Inductive dprog (S : Type) : Type :=
| DDone
| DStep {X : Type} (f : S → X * S) (k : X → dprog S).
Arguments DDone {S}.
Arguments DStep {S X} f k.

Fixpoint dseq {S} (d1 d2 : dprog S) : dprog S :=
  match d1 with
  | DDone => d2
  | DStep f k => DStep f (λ x, dseq (k x) d2)
  end.

(** ** Tasks and their steps *)

Section Semantics.
Context {S G : Type} {E : Type → Type}.
Context (drop : G → dprog S).
(** [env e σ (Some x) σ']: the await ends with [x]; [env e σ None σ']: the
    future is dropped while it waits, which may leave partial work behind. *)
Context (env : ∀ X, E X → S → option X → S → Prop).

Inductive task (R : Type) : Type :=
| Running (p : prog S G E R) (held : list G)
| Dropping (d : dprog S) (p : prog S G E R) (held : list G)
| Unwinding (d : dprog S).
Arguments Running {R} p held.
Arguments Dropping {R} d p held.
Arguments Unwinding {R} d.

(** The drops of a cancelled task. *)
Fixpoint drop_all (held : list G) : dprog S :=
  match held with
  | [] => DDone
  | g :: held' => dseq (drop g) (drop_all held')
  end.

Definition tstep {R} (σ : S) (t : task R) (σ' : S) (t' : task R) : Prop :=
  match t with
  | Running (Ret _) _ => False
  | Running (Atomic f k) h => ∃ x, f σ = (x, σ') ∧ t' = Running (k x) h
  | Running (Await e k) h =>
      ∃ o, env _ e σ o σ' ∧ t' = match o with
                                 | Some x => Running (k x) h
                                 | None => Unwinding (drop_all h)
                                 end
  | Running (Hold g k) h => σ' = σ ∧ t' = Running k (g :: h)
  | Running (Release k) (g :: h) => σ' = σ ∧ t' = Dropping (drop g) k h
  | Running (Release _) [] => False
  | Running (Loop body a k) h =>
      σ' = σ ∧ t' = Running (bind (body a) (λ r, match r with
                                                 | inl a' => Loop body a' k
                                                 | inr b => k b
                                                 end)) h
  | Dropping DDone k h => σ' = σ ∧ t' = Running k h
  | Dropping (DStep f d) k h => ∃ x, f σ = (x, σ') ∧ t' = Dropping (d x) k h
  | Unwinding DDone => False
  | Unwinding (DStep f d) => ∃ x, f σ = (x, σ') ∧ t' = Unwinding (d x)
  end.

(** A pool of tasks over one shared state; tasks may be spawned at any time. *)
Record system (R : Type) : Type := mkSystem { shared : S; pool : list (task R) }.
Arguments mkSystem {R} shared pool.
Arguments shared {R} s.
Arguments pool {R} s.

Inductive step {R} (spawnable : prog S G E R → Prop) : system R → system R → Prop :=
| step_task σ ts i t σ' t' :
    ts !! i = Some t → tstep σ t σ' t' →
    step spawnable (mkSystem σ ts) (mkSystem σ' (<[i:=t']> ts))
| step_spawn σ ts p :
    spawnable p → step spawnable (mkSystem σ ts) (mkSystem σ (ts ++ [Running p []])).

Definition steps {R} (spawnable : prog S G E R → Prop) : system R → system R → Prop :=
  rtc (step spawnable).
End Semantics.

Arguments Running {S G E R} p held.
Arguments Dropping {S G E R} d p held.
Arguments Unwinding {S G E R} d.
Arguments mkSystem {S G E R} shared pool.
Arguments shared {S G E R} s.
Arguments pool {S G E R} s.

(** ** A program logic with shares

    [M] is a commutative monoid of ghost shares. The invariant [I σ m] relates
    the shared state to the sum of all shares; a task owns its share across the
    steps of the others. [pre e h m s] is what must hold whenever a task with
    guards [h] and share [m] waits on [e]; [guar] relates the states before and
    after every step. The last argument of the predicates is the snapshot. *)

Class Shares (M : Type) : Type := { share_op : M → M → M; share_unit : M }.

Class SharesLaws (M : Type) `{Shares M} : Prop := {
  share_assoc : ∀ a b c, share_op a (share_op b c) = share_op (share_op a b) c;
  share_comm : ∀ a b, share_op a b = share_op b a;
  share_unit_l : ∀ a, share_op share_unit a = a
}.

Infix "⋅" := share_op (at level 50, left associativity) : async_scope.
Open Scope async_scope.

(** Exclusive ownership of a value: two owners are a contradiction. *)
Inductive excl (A : Type) : Type := ExNone | ExOwn (a : A) | ExBot.
Arguments ExNone {A}.
Arguments ExOwn {A} a.
Arguments ExBot {A}.

#[export] Instance excl_Shares A : Shares (excl A) := {|
  share_op a b := match a, b with
                  | ExNone, _ => b
                  | _, ExNone => a
                  | _, _ => ExBot
                  end;
  share_unit := ExNone
|}.

#[export] Instance excl_laws A : SharesLaws (excl A).
Proof. split; repeat intros []; reflexivity. Qed.

(** The owner, if any, knows the value. *)
Definition owned {A} (a : excl A) (x : A) : Prop :=
  match a with ExNone => True | ExOwn v => v = x | ExBot => False end.

(** A step either leaves an owned value alone or is made by its owner. *)
Definition moves {A} (a a' : excl A) (x x' : A) : Prop :=
  (a' = a ∧ x' = x) ∨ (∃ v, a = ExOwn v ∧ a' = ExOwn x').

Lemma owned_moves {A} (a a' fr : excl A) x x' : moves a a' x x' → owned (a ⋅ fr) x → owned (a' ⋅ fr) x'.
Proof. intros [[-> ->]|(v & -> & ->)]; [done|]. by destruct fr. Qed.

Lemma owned_l {A} (a fr : excl A) x : owned (a ⋅ fr) x → owned a x.
Proof. by destruct a, fr. Qed.

Lemma owned_r {A} (a fr : excl A) x : owned (a ⋅ fr) x → owned fr x.
Proof. by destruct a, fr. Qed.

Section Logic.
Context {S G : Type} {E : Type → Type} {M : Type} `{SharesLaws M}.
Context (drop : G → dprog S).
Context (env : ∀ X, E X → S → option X → S → Prop).
Context (I : S → M → Prop).
Context (pre : ∀ X, E X → list G → M → S → Prop).
Context (guar : S → S → Prop) `{!PreOrder guar}.

(** One step of a task with snapshot [s] and share [m] that turns [σ] into
    [σ']: it is guaranteed, and its new share restores the invariant. *)
Definition update (s : S) (m : M) (rel : S → S → Prop) (Q : S → M → Prop) : Prop :=
  ∀ σ fr σ', guar s σ → I σ (m ⋅ fr) → rel σ σ' →
    guar σ σ' ∧ ∃ m', I σ' (m' ⋅ fr) ∧ Q σ' m'.

Fixpoint wpd (d : dprog S) (Q : M → S → Prop) (m : M) (s : S) : Prop :=
  match d with
  | DDone => Q m s
  | DStep f k => ∀ x, update s m (λ σ σ', f σ = (x, σ')) (λ σ' m', wpd (k x) Q m' σ')
  end.

(** A share that may be forgotten. *)
Definition droppable (m : M) : Prop := ∀ σ fr, I σ (m ⋅ fr) → I σ fr.

(** A task suspended with guards [h] is left with nothing that matters when
    dropped. *)
Definition cancel_ok (h : list G) (m : M) (s : S) : Prop :=
  wpd (drop_all drop h) (λ m' _, droppable m') m s.

Fixpoint wp {R} (p : prog S G E R) (Q : R → list G → M → S → Prop) (h : list G) (m : M) (s : S) : Prop :=
  match p with
  | Ret r => Q r h m s
  | Atomic f k => ∀ x, update s m (λ σ σ', f σ = (x, σ')) (λ σ' m', wp (k x) Q h m' σ')
  | Await e k =>
      pre _ e h m s
      ∧ update s m (λ σ σ', env _ e σ None σ') (λ σ' m', cancel_ok h m' σ')
      ∧ ∀ x, update s m (λ σ σ', env _ e σ (Some x) σ') (λ σ' m', wp (k x) Q h m' σ')
  | Hold g k => wp k Q (g :: h) m s
  | Release k => match h with [] => False | g :: h' => wpd (drop g) (λ m' s', wp k Q h' m' s') m s end
  | Loop body a k =>
      ∃ Inv : _ → list G → M → S → Prop, Inv a h m s ∧
        ∀ a' h' m' s', Inv a' h' m' s' →
          wp (body a') (λ r h'' m'' s'', match r with
                                         | inl a'' => Inv a'' h'' m'' s''
                                         | inr b => wp (k b) Q h'' m'' s''
                                         end) h' m' s'
  end.

Lemma droppable_unit : droppable share_unit.
Proof. intros σ fr. by rewrite share_unit_l. Qed.

Lemma update_mono s m rel (Q Q' : S → M → Prop) :
  (∀ σ' m', Q σ' m' → Q' σ' m') → update s m rel Q → update s m rel Q'.
Proof.
  intros HQ Hu σ fr σ' Hs Hi Hr. destruct (Hu σ fr σ' Hs Hi Hr) as (? & m' & ? & ?). eauto.
Qed.

Lemma wpd_mono d (Q Q' : M → S → Prop) m s :
  (∀ m' s', Q m' s' → Q' m' s') → wpd d Q m s → wpd d Q' m s.
Proof.
  intros HQ. revert m s. induction d as [|X f k IH]; intros m s; cbn; [apply HQ|].
  intros Hd x. eapply update_mono; [|apply Hd]. auto.
Qed.

Lemma wpd_dseq d1 d2 Q m s : wpd d1 (λ m' s', wpd d2 Q m' s') m s → wpd (dseq d1 d2) Q m s.
Proof.
  revert m s. induction d1 as [|X f k IH]; intros m s; cbn; [done|].
  intros Hd x. eapply update_mono; [|apply Hd]. auto.
Qed.

Lemma wp_mono {R} (p : prog S G E R) (Q Q' : R → list G → M → S → Prop) h m s :
  (∀ r h' m' s', Q r h' m' s' → Q' r h' m' s') → wp p Q h m s → wp p Q' h m s.
Proof.
  revert Q Q' h m s.
  induction p as [R r|R X f k IH|R X e k IH|R g k IH|R k IH|R A B body IHb a k IHk];
    intros Q Q' h m s HQ; cbn.
  - apply HQ.
  - intros Hp x. eapply update_mono; [|apply Hp]. intros σ' m'. by apply IH.
  - intros (? & ? & Hp). split; [done|]. split; [done|]. intros x.
    eapply update_mono; [|apply Hp]. intros σ' m'. by apply IH.
  - by apply IH.
  - destruct h as [|g h]; [done|]. apply wpd_mono. intros m' s'. by apply IH.
  - intros (Inv & Ha & Hb). exists Inv. split; [done|]. intros a' h' m' s' Hi.
    eapply IHb; [|by apply Hb]. intros [a''|b] h'' m'' s''; [done|]. by apply IHk.
Qed.

Lemma wp_bind {A B} (p : prog S G E A) (k : A → prog S G E B) Q h m s :
  wp p (λ r h' m' s', wp (k r) Q h' m' s') h m s → wp (bind p k) Q h m s.
Proof.
  revert B k Q h m s.
  induction p as [R r|R X f c IH|R X e c IH|R g c IH|R c IH|R A B body IHb a c IHc];
    intros C k Q h m s; cbn.
  - done.
  - intros Hp x. eapply update_mono; [|apply Hp]. intros σ' m'. by apply IH.
  - intros (? & ? & Hp). split; [done|]. split; [done|]. intros x.
    eapply update_mono; [|apply Hp]. intros σ' m'. by apply IH.
  - by apply IH.
  - destruct h as [|g h]; [done|]. apply wpd_mono. intros m' s'. by apply IH.
  - intros (Inv & Ha & Hb). exists Inv. split; [done|]. intros a' h' m' s' Hi.
    eapply wp_mono; [|by apply Hb]. intros [a''|b] h'' m'' s''; [done|]. by apply IHc.
Qed.

(** A guard bound around [p]: it is dropped when [p] is done. *)
Lemma wp_guarded {R} g (p : prog S G E R) Q h m s :
  wp p (λ r h' m' s', h' = g :: h ∧ wpd (drop g) (λ m'' s'', Q r h m'' s'') m' s') (g :: h) m s →
  wp (scope g p) Q h m s.
Proof.
  intros Hp. unfold scope. cbn [wp]. apply wp_bind. eapply wp_mono; [|exact Hp]. by intros r h' m' s' [-> Hd].
Qed.

(** ** Adequacy *)

Context {R : Type} (Q : R → S → Prop).

(** A task ends with no guard and no share that matters. *)
Definition finished (r : R) (h : list G) (m : M) (s : S) : Prop := Q r s ∧ h = [] ∧ droppable m.

Definition task_ok (t : task (S:=S) R) (m : M) (s : S) : Prop :=
  match t with
  | Running p h => wp p finished h m s
  | Dropping d p h => wpd d (λ m' s', wp p finished h m' s') m s
  | Unwinding d => wpd d (λ m' _, droppable m') m s
  end.

Lemma task_ok_step σ t m s fr σ' t' :
  task_ok t m s → guar s σ → I σ (m ⋅ fr) → tstep drop env σ t σ' t' →
  guar σ σ' ∧ ∃ m' s', task_ok t' m' s' ∧ guar s' σ' ∧ I σ' (m' ⋅ fr).
Proof.
  intros Hok Hs Hi Hstep.
  assert (∀ rel P, update s m rel P → rel σ σ' →
            (∀ m', P σ' m' → task_ok t' m' σ') →
            guar σ σ' ∧ ∃ m' s', task_ok t' m' s' ∧ guar s' σ' ∧ I σ' (m' ⋅ fr)) as Hup.
  { intros rel P Hu Hr HP. destruct (Hu σ fr σ' Hs Hi Hr) as (? & m' & ? & ?).
    split; [done|]. exists m', σ'. split; [auto|]. by split. }
  assert (σ' = σ → task_ok t' m s →
          guar σ σ' ∧ ∃ m' s', task_ok t' m' s' ∧ guar s' σ' ∧ I σ' (m' ⋅ fr)) as Hpure.
  { intros ->. split; [reflexivity|]. eauto. }
  destruct t as [p h|d p h|d]; cbn in Hok.
  - destruct p as [r|X f k|X e k|g k|k|A B body a k]; cbn in Hstep, Hok.
    + done.
    + destruct Hstep as (x & Hf & ->). by eapply Hup; [apply Hok|exact Hf|].
    + destruct Hok as (_ & Hc & Hp). destruct Hstep as ([x|] & He & ->).
      * by eapply Hup; [apply Hp|exact He|].
      * by eapply Hup; [apply Hc|exact He|].
    + destruct Hstep as [-> ->]. by apply Hpure.
    + destruct h as [|g h]; [done|]. destruct Hstep as [-> ->]. by apply Hpure.
    + destruct Hstep as [-> ->]. apply Hpure; [done|]. cbn. apply wp_bind.
      destruct Hok as (Inv & Ha & Hb). eapply wp_mono; [|by apply Hb].
      intros [a'|b] h' m' s' Hr; [|done]. exists Inv. by split.
  - destruct d as [|X f k]; cbn in Hstep, Hok.
    + destruct Hstep as [-> ->]. by apply Hpure.
    + destruct Hstep as (x & Hf & ->). by eapply Hup; [apply Hok|exact Hf|].
  - destruct d as [|X f k]; cbn in Hstep, Hok; [done|].
    destruct Hstep as (x & Hf & ->). by eapply Hup; [apply Hok|exact Hf|].
Qed.

Definition total_share (ms : list M) : M := foldr share_op share_unit ms.

Lemma share_unit_r (a : M) : a ⋅ share_unit = a.
Proof. rewrite share_comm. apply share_unit_l. Qed.

Lemma total_share_app ms ms' : total_share (ms ++ ms') = total_share ms ⋅ total_share ms'.
Proof.
  induction ms as [|m ms IH]; [unfold total_share; cbn; by rewrite share_unit_l|].
  change (total_share ((m :: ms) ++ ms')) with (m ⋅ total_share (ms ++ ms')).
  change (total_share (m :: ms)) with (m ⋅ total_share ms). by rewrite IH, share_assoc.
Qed.

Lemma total_share_focus ms i m :
  ms !! i = Some m → ∃ rest, ∀ m', total_share (<[i:=m']> ms) = m' ⋅ rest ∧ total_share ms = m ⋅ rest.
Proof.
  intros Hi. apply list_elem_of_split_length in Hi as (l1 & l2 & -> & ->).
  exists (total_share l1 ⋅ total_share l2). intros m'.
  assert (∀ x, total_share (l1 ++ x :: l2) = x ⋅ (total_share l1 ⋅ total_share l2)) as Hx.
  { intros x. rewrite total_share_app. change (total_share (x :: l2)) with (x ⋅ total_share l2).
    rewrite !share_assoc. f_equal. apply share_comm. }
  rewrite insert_app_r_alt by lia. replace (length l1 - length l1)%nat with 0%nat by lia. cbn.
  by rewrite !Hx.
Qed.

(** A task with its share, in a state that its snapshot leads to. *)
Definition owns (σ : S) (t : task (S:=S) R) (m : M) : Prop := ∃ s, guar s σ ∧ task_ok t m s.

Definition system_ok (c : system (S:=S) (E:=E) R) : Prop :=
  ∃ ms, Forall2 (owns (shared c)) (pool c) ms ∧ I (shared c) (total_share ms).

Context (spawnable : prog S G E R → Prop).
Context (Hspawn : ∀ p s, spawnable p → wp p finished [] share_unit s).

Lemma owns_guar σ σ' t m : guar σ σ' → owns σ t m → owns σ' t m.
Proof. intros Hg (s & Hs & Hok). exists s. split; [by etrans|done]. Qed.

(** A step of one task among its peers, whatever else [fr] is owned. *)
Lemma pool_step σ ts ms fr i t σ' t' :
  Forall2 (owns σ) ts ms → I σ (total_share ms ⋅ fr) → ts !! i = Some t → tstep drop env σ t σ' t' →
  guar σ σ' ∧ ∃ ms', Forall2 (owns σ') (<[i:=t']> ts) ms' ∧ I σ' (total_share ms' ⋅ fr).
Proof.
  intros Hts Hi Ht Hstep. destruct (Forall2_lookup_l _ _ _ _ _ Hts Ht) as (m & Hm & s & Hs & Hok).
  destruct (total_share_focus _ _ _ Hm) as (rest & Hrest).
  rewrite (proj2 (Hrest m)), <- share_assoc in Hi.
  destruct (task_ok_step _ _ _ _ _ _ _ Hok Hs Hi Hstep) as (Hg & m' & s' & Hok' & Hs' & Hi').
  split; [done|]. exists (<[i:=m']> ms). split; [|by rewrite (proj1 (Hrest m')), <- share_assoc].
  apply Forall2_insert; [|by exists s']. eapply Forall2_impl; [exact Hts|]. intros ??. by apply owns_guar.
Qed.

(** A new task takes its share [m] from what else is owned. *)
Lemma pool_spawn σ ts ms m fr p :
  Forall2 (owns σ) ts ms → I σ (total_share ms ⋅ (m ⋅ fr)) → (∀ s, wp p finished [] m s) →
  ∃ ms', Forall2 (owns σ) (ts ++ [Running p []]) ms' ∧ I σ (total_share ms' ⋅ fr).
Proof.
  intros Hts Hi Hp. exists (ms ++ [m]). split.
  - apply Forall2_app; [done|]. constructor; [|constructor]. exists σ. split; [reflexivity|apply Hp].
  - rewrite total_share_app. change (total_share [m]) with (m ⋅ share_unit).
    by rewrite share_unit_r, <- share_assoc.
Qed.

Lemma system_ok_step c c' :
  system_ok c → step drop env spawnable c c' → guar (shared c) (shared c') ∧ system_ok c'.
Proof.
  intros (ms & Hts & Hi) Hs. rewrite <- share_unit_r in Hi.
  destruct Hs as [σ ts i t σ' t' Ht Hstep|σ ts p Hp]; cbn in *.
  - destruct (pool_step _ _ _ _ _ _ _ _ Hts Hi Ht Hstep) as (Hg & ms' & ? & Hi').
    rewrite share_unit_r in Hi'. split; [done|]. by exists ms'.
  - split; [reflexivity|]. rewrite <- (share_unit_l share_unit) in Hi.
    destruct (pool_spawn _ _ _ _ _ p Hts Hi) as (ms' & ? & Hi'); [intros s; by apply Hspawn|].
    rewrite share_unit_r in Hi'. by exists ms'.
Qed.

(** Every state that interleaved steps reach satisfies the invariant, and the
    guarantee relates any two states along an execution. *)
Lemma system_ok_steps c c' :
  system_ok c → steps drop env spawnable c c' → guar (shared c) (shared c') ∧ system_ok c'.
Proof.
  intros Hc Hs. induction Hs as [|c c1 c' H1 _ IH]; [split; [reflexivity|done]|].
  eapply system_ok_step in H1 as [Hg Hok]; [|done]. destruct (IH Hok) as [? ?].
  split; [by etrans|done].
Qed.

Lemma system_ok_start σ : I σ share_unit → system_ok (mkSystem σ []).
Proof. intros Hi. exists []. by split; [constructor|]. Qed.

(** A task that waits does so within its precondition. *)
Lemma system_ok_waiting c i X (e : E X) k h :
  system_ok c → pool c !! i = Some (Running (Await e k) h) → ∃ m s, pre X e h m s ∧ guar s (shared c).
Proof.
  intros (ms & Hts & _) Hi. destruct (Forall2_lookup_l _ _ _ _ _ Hts Hi) as (m & _ & s & ? & Hok).
  cbn in Hok. destruct Hok as (? & _). eauto.
Qed.

(** A task that has returned has established its postcondition. *)
Lemma system_ok_returned c i r h :
  system_ok c → pool c !! i = Some (Running (Ret r) h) → ∃ s, Q r s ∧ guar s (shared c).
Proof.
  intros (ms & Hts & _) Hi. destruct (Forall2_lookup_l _ _ _ _ _ Hts Hi) as (m & _ & s & ? & Hok).
  cbn in Hok. destruct Hok as (? & _). eauto.
Qed.

(** No task is left: every one has returned or finished unwinding. *)
Definition ended (t : task (S:=S) (G:=G) (E:=E) R) : Prop :=
  match t with
  | Running (Ret _) _ => True
  | Unwinding DDone => True
  | _ => False
  end.

Lemma system_ok_ended c : system_ok c → Forall ended (pool c) → I (shared c) share_unit.
Proof.
  destruct c as [σ ts]. intros (ms & Hts & Hi). cbn in *.
  induction Hts as [|t m ts ms (s & _ & Hok) _ IH]; [done|].
  intros [Ht He]%Forall_cons. apply IH; [|done].
  change (total_share (m :: ms)) with (m ⋅ total_share ms) in Hi.
  destruct t as [[] ?| |[]]; cbn in Ht, Hok; try done; [|by apply Hok].
  destruct Hok as (_ & _ & Hd). by apply Hd.
Qed.
End Logic.

(** ** Executable schedules

    A schedule names which task moves, which is cancelled and what is spawned;
    an oracle answers the awaits it can. Running a schedule gives a reachable state. *)

Section Schedules.
Context {S G : Type} {E : Type → Type} {R : Type}.
Context (drop : G → dprog S).
Context (env : ∀ X, E X → S → option X → S → Prop).
Context (oracle : ∀ X, E X → S → option (X * S)).
Context (abandon : ∀ X, E X → S → option S).

Definition exec_task (σ : S) (t : task (G:=G) (E:=E) R) : option (S * task (G:=G) (E:=E) R) :=
  match t with
  | Running (Ret _) _ => None
  | Running (Atomic f k) h => let '(x, σ') := f σ in Some (σ', Running (k x) h)
  | Running (Await e k) h => '(x, σ') ← oracle _ e σ; Some (σ', Running (k x) h)
  | Running (Hold g k) h => Some (σ, Running k (g :: h))
  | Running (Release k) (g :: h) => Some (σ, Dropping (drop g) k h)
  | Running (Release _) [] => None
  | Running (Loop body a k) h =>
      Some (σ, Running (bind (body a) (λ r, match r with
                                            | inl a' => Loop body a' k
                                            | inr b => k b
                                            end)) h)
  | Dropping DDone k h => Some (σ, Running k h)
  | Dropping (DStep f d) k h => let '(x, σ') := f σ in Some (σ', Dropping (d x) k h)
  | Unwinding DDone => None
  | Unwinding (DStep f d) => let '(x, σ') := f σ in Some (σ', Unwinding (d x))
  end.

Definition cancel_task (σ : S) (t : task (S:=S) (G:=G) (E:=E) R) : option (S * task (S:=S) (G:=G) (E:=E) R) :=
  match t with
  | Running (Await e _) h => σ' ← abandon _ e σ; Some (σ', Unwinding (drop_all drop h))
  | _ => None
  end.

Inductive action : Type :=
| Run (i : nat)
| Cancel (i : nat)
| Spawn (p : prog S G E R).

Definition exec_action (c : system R) (a : action) : option (system R) :=
  match a with
  | Run i =>
      t ← pool c !! i;
      '(σ', t') ← exec_task (shared c) t;
      Some (mkSystem σ' (<[i:=t']> (pool c)))
  | Cancel i =>
      t ← pool c !! i;
      '(σ', t') ← cancel_task (shared c) t;
      Some (mkSystem σ' (<[i:=t']> (pool c)))
  | Spawn p => Some (mkSystem (shared c) (pool c ++ [Running p []]))
  end.

Fixpoint exec (c : system R) (schedule : list action) : option (system R) :=
  match schedule with
  | [] => Some c
  | a :: rest => c' ← exec_action c a; exec c' rest
  end.

Lemma exec_app c s1 s2 : exec c (s1 ++ s2) = c' ← exec c s1; exec c' s2.
Proof.
  revert c. induction s1 as [|a s1 IH]; intros c; [done|]. cbn [app exec].
  destruct (exec_action c a); cbn; [apply IH|done].
Qed.

Context (spawnable : prog S G E R → Prop).
Context (Horacle : ∀ X (e : E X) σ x σ', oracle X e σ = Some (x, σ') → env X e σ (Some x) σ').
Context (Habandon : ∀ X (e : E X) σ σ', abandon X e σ = Some σ' → env X e σ None σ').

Definition allowed_action (a : action) : Prop := match a with Spawn p => spawnable p | _ => True end.

Lemma exec_task_sound σ t σ' t' : exec_task σ t = Some (σ', t') → tstep drop env σ t σ' t'.
Proof.
  destruct t as [[r|X f k|X e k|g k|k|A B body a k] h|[|X f k] p h|[|X f k]]; cbn; try done.
  - destruct (f σ) as [x σ1]. intros [= <- <-]. eauto.
  - destruct (oracle X e σ) as [[x σ1]|] eqn:Ho; [|done]. cbn. intros [= <- <-].
    exists (Some x). split; [by apply Horacle|done].
  - by intros [= <- <-].
  - destruct h as [|g h]; [done|]. by intros [= <- <-].
  - by intros [= <- <-].
  - by intros [= <- <-].
  - destruct (f σ) as [x σ1]. intros [= <- <-]. eauto.
  - destruct (f σ) as [x σ1]. intros [= <- <-]. eauto.
Qed.

Lemma cancel_task_sound σ t σ' t' : cancel_task σ t = Some (σ', t') → tstep drop env σ t σ' t'.
Proof.
  destruct t as [[| |X e k| | |] h| |]; try done. cbn.
  destruct (abandon X e σ) as [σ1|] eqn:Ea; [|done]. intros [= <- <-]. exists None. by split; [apply Habandon|].
Qed.

Lemma exec_action_sound c a c' :
  allowed_action a → exec_action c a = Some c' → step drop env spawnable c c'.
Proof.
  destruct c as [σ ts]. destruct a as [i|i|p]; cbn; intros Ha.
  - destruct (ts !! i) as [t|] eqn:Ht; [|done]. cbn.
    destruct (exec_task σ t) as [[σ' t']|] eqn:Et; [|done]. intros [= <-].
    apply (step_task _ _ _ _ _ _ t); [done|by apply exec_task_sound].
  - destruct (ts !! i) as [t|] eqn:Ht; [|done]. cbn.
    destruct (cancel_task σ t) as [[σ' t']|] eqn:Et; [|done]. intros [= <-].
    apply (step_task _ _ _ _ _ _ t); [done|by apply cancel_task_sound].
  - intros [= <-]. by constructor.
Qed.

Lemma exec_sound c schedule c' :
  Forall allowed_action schedule → exec c schedule = Some c' → steps drop env spawnable c c'.
Proof.
  intros Hs. revert c. induction Hs as [|a rest Ha _ IH]; intros c; cbn.
  - intros [= <-]. apply rtc_refl.
  - destruct (exec_action c a) as [c1|] eqn:E1; [|done]. cbn. intros E2.
    eapply rtc_l; [by eapply exec_action_sound|by apply IH].
Qed.
End Schedules.

Arguments Run {S G E R} i.
Arguments Cancel {S G E R} i.
Arguments Spawn {S G E R} p.
