(* ===== verification/AsyncLift.v ===== *)
(** * Programs of a component inside a larger system

    A component's programs run on its part of a larger state, with its guards
    and events among the larger system's. What the program logic proves of them
    holds there too, provided that the larger system's invariant takes each of
    the component's steps. *)

From S2P Require Import Prelude Async.

Open Scope async_scope.

Section Lift.
Context {S G : Type} {E : Type → Type} {S' G' : Type} {E' : Type → Type}.
Context (get : S' → S) (put : S → S' → S').
Context (guard_in : G → G') (event_in : ∀ X, E X → E' X).

Definition on_part {X} (f : S → X * S) (σ : S') : X * S' :=
  let '(x, s) := f (get σ) in (x, put s σ).

Fixpoint lift_prog {R} (p : prog S G E R) : prog S' G' E' R :=
  match p with
  | Ret r => Ret r
  | Atomic f k => Atomic (on_part f) (λ x, lift_prog (k x))
  | Await e k => Await (event_in _ e) (λ x, lift_prog (k x))
  | Hold g k => Hold (guard_in g) (lift_prog k)
  | Release k => Release (lift_prog k)
  | Loop body a k => Loop (λ a, lift_prog (body a)) a (λ b, lift_prog (k b))
  end.

Fixpoint lift_drop (d : dprog S) : dprog S' :=
  match d with
  | DDone => DDone
  | DStep f k => DStep (on_part f) (λ x, lift_drop (k x))
  end.

(** A relation on the part, as one on the whole. *)
Definition part_rel (rel : S → S → Prop) (σ σ' : S') : Prop := ∃ s, rel (get σ) s ∧ σ' = put s σ.

Lemma on_part_rel {X} (f : S → X * S) x σ σ' :
  on_part f σ = (x, σ') → part_rel (λ s s', f s = (x, s')) σ σ'.
Proof. unfold on_part. destruct (f (get σ)) as [y s] eqn:E1. intros [= -> <-]. exists s. by split. Qed.

(** ** The logic *)

Context {M M' : Type} `{SharesLaws M} `{SharesLaws M'}.
Context (drop : G → dprog S) (drop' : G' → dprog S').
Context (env : ∀ X, E X → S → option X → S → Prop) (env' : ∀ X, E' X → S' → option X → S' → Prop).
Context (I : S → M → Prop) (I' : S' → M' → Prop).
Context (pre : ∀ X, E X → list G → M → S → Prop) (pre' : ∀ X, E' X → list G' → M' → S' → Prop).
Context (guar : S → S → Prop) (guar' : S' → S' → Prop).
(** The share of a task of the component, in the system; the states in which
    the component may step. *)
Context (up : M → M') (ok : S' → Prop).

Context (Hdrop : ∀ g, drop' (guard_in g) = lift_drop (drop g)).
Context (Henv : ∀ X (e : E X) o σ σ', env' X (event_in X e) σ o σ' → part_rel (λ s s', env X e s o s') σ σ').
Context (Hpre : ∀ X (e : E X) h m s, ok s → pre X e h m (get s) → pre' X (event_in X e) (guard_in <$> h) (up m) s).
Context (Hdroppable : ∀ m, droppable I m → droppable I' (up m)).
Context (Hup : ∀ s m rel Q, ok s → update I guar (get s) m rel Q →
           update I' guar' s (up m) (part_rel rel) (λ σ' m', ∃ m0, m' = up m0 ∧ ok σ' ∧ Q (get σ') m0)).

Lemma update_rel s m (rel rel' : S' → S' → Prop) (Q : S' → M' → Prop) :
  (∀ σ σ', rel' σ σ' → rel σ σ') → update I' guar' s m rel Q → update I' guar' s m rel' Q.
Proof. intros Hr Hu σ fr σ' Hs Hi ?. eauto. Qed.

(** A step of the component is a step of the system. *)
Lemma lift_update s m rel rel' (Q : S → M → Prop) (Q' : S' → M' → Prop) :
  ok s → (∀ σ σ', rel' σ σ' → part_rel rel σ σ') → update I guar (get s) m rel Q →
  (∀ σ' m', ok σ' → Q (get σ') m' → Q' σ' (up m')) → update I' guar' s (up m) rel' Q'.
Proof.
  intros Hs Hr Hu HQ. eapply update_rel; [exact Hr|]. eapply update_mono; [|by apply Hup].
  intros σ' m' (m0 & -> & Hok & Hq). by apply HQ.
Qed.

Lemma lift_wpd d Q (Q' : M' → S' → Prop) m s :
  ok s → wpd I guar d Q m (get s) →
  (∀ m' s', ok s' → Q m' (get s') → Q' (up m') s') →
  wpd I' guar' (lift_drop d) Q' (up m) s.
Proof.
  intros Hs Hd HQ. revert m s Hs Hd. induction d as [|X f k IH]; intros m s Hs Hd; cbn in *; [by apply HQ|].
  intros x. eapply lift_update; [done|intros ??; apply on_part_rel|apply Hd|]. auto.
Qed.

Lemma wpd_dseq_inv d1 d2 (Q : M → S → Prop) m r :
  wpd I guar (dseq d1 d2) Q m r → wpd I guar d1 (λ m' r', wpd I guar d2 Q m' r') m r.
Proof.
  revert m r. induction d1 as [|X f k IH]; intros m r; cbn; [done|].
  intros Hd x. eapply update_mono; [|apply Hd]. auto.
Qed.

Lemma lift_cancel h m s :
  ok s → cancel_ok drop I guar h m (get s) → cancel_ok drop' I' guar' (guard_in <$> h) (up m) s.
Proof.
  unfold cancel_ok. revert m s. induction h as [|g h IH]; intros m s Hs Hd; [by apply Hdroppable|].
  cbn [fmap list_fmap drop_all]. rewrite Hdrop. apply wpd_dseq.
  eapply lift_wpd; [done|by apply wpd_dseq_inv|]. auto.
Qed.

(** The component's reasoning carries over. *)
Lemma lift_wp {R} (p : prog S G E R) Q (Q' : R → list G' → M' → S' → Prop) h m s :
  wp drop env I pre guar p Q h m (get s) → ok s →
  (∀ r h' m' s', ok s' → Q r h' m' (get s') → Q' r (guard_in <$> h') (up m') s') →
  wp drop' env' I' pre' guar' (lift_prog p) Q' (guard_in <$> h) (up m) s.
Proof.
  revert Q Q' h m s.
  induction p as [R r|R X f k IH|R X e k IH|R g k IH|R k IH|R A B body IHb a k IHk];
    intros Q Q' h m s Hp Hs HQ; cbn in *.
  - by apply HQ.
  - intros x. eapply lift_update; [done|intros ??; apply on_part_rel|apply Hp|].
    intros σ' m' Hs' Hp'. eapply IH; [exact Hp'|done|done].
  - destruct Hp as (He & Hc & Hp). split; [by apply Hpre|]. split.
    + eapply lift_update; [done|intros ??; apply Henv|exact Hc|]. intros σ' m' Hs' Hc'. by apply lift_cancel.
    + intros x. eapply lift_update; [done|intros ??; apply Henv|exact (Hp x)|].
      intros σ' m' Hs' Hp'. eapply IH; [exact Hp'|done|done].
  - by eapply (IH Q Q' (g :: h)).
  - destruct h as [|g h]; [done|]. cbn. rewrite Hdrop. eapply lift_wpd; [done|exact Hp|].
    intros m' s' Hs' Hp'. eapply IH; [exact Hp'|done|done].
  - destruct Hp as (Inv & Ha & Hb).
    exists (λ a h m s, ∃ h0 m0, h = guard_in <$> h0 ∧ m = up m0 ∧ ok s ∧ Inv a h0 m0 (get s)).
    split; [by exists h, m|]. intros a' h' m' s' (h0 & m0 & -> & -> & Hs' & Hi).
    eapply IHb; [by apply Hb|done|]. intros [a''|b] h'' m'' s'' Hs'' Hr; cbn in Hr |- *; [by exists h'', m''|].
    by eapply IHk.
Qed.
End Lift.

(** ** Programs that leave a part of the state alone

    A program without guards whose sections do not change [f], and whose awaits
    are all among [awaits]. *)

Section Keeps.
Context {S G : Type} {E : Type → Type} {A : Type}.
Context (drop : G → dprog S).
Context (env : ∀ X, E X → S → option X → S → Prop).
Context (f : S → A) (awaits : ∀ X, E X → bool).

Fixpoint keeps_part {R} (p : prog S G E R) : Prop :=
  match p with
  | Ret _ => True
  | Atomic g k => (∀ σ, f (g σ).2 = f σ) ∧ ∀ x, keeps_part (k x)
  | Await e k => awaits _ e = true ∧ ∀ x, keeps_part (k x)
  | Hold _ _ | Release _ => False
  | Loop body a k => (∀ a', keeps_part (body a')) ∧ ∀ b, keeps_part (k b)
  end.

Lemma keeps_part_bind {B C} (p : prog S G E B) (k : B → prog S G E C) :
  keeps_part p → (∀ b, keeps_part (k b)) → keeps_part (bind p k).
Proof.
  intros Hp Hk. revert C k Hp Hk. induction p as [R r|R X g c IH|R X e c IH|R g c IH|R c IH|R D B body IHb a c IHc];
    intros C k; cbn; intros Hp Hk; [apply Hk|..]; try done.
  - destruct Hp as [? Hp]. split; [done|]. intros x. by apply IH.
  - destruct Hp as [? Hp]. split; [done|]. intros x. by apply IH.
  - destruct Hp as [? Hp]. split; [done|]. intros b. by apply IHc.
Qed.

Definition task_keeps {R} (t : task (S:=S) (G:=G) (E:=E) R) : Prop :=
  match t with
  | Running p h => h = [] ∧ keeps_part p
  | Dropping _ _ _ => False
  | Unwinding d => d = DDone
  end.

(** A step changes [f] only by an await that does. *)
Lemma tstep_keeps {R} σ (t : task (S:=S) (G:=G) (E:=E) R) σ' t' :
  task_keeps t → tstep drop env σ t σ' t' →
  task_keeps t'
  ∧ (f σ' = f σ ∨ ∃ X (e : E X) k h o, t = Running (Await e k) h ∧ awaits X e = true ∧ env X e σ o σ').
Proof.
  destruct t as [[r|X g k|X e k|g k|k|C B body a k] h|d p h|d]; cbn; intros Hk Hstep; [done|..].
  - destruct Hk as [-> [Hf Hk]], Hstep as (x & Hx & ->). specialize (Hf σ). rewrite Hx in Hf. split; [by split|by left].
  - destruct Hk as [-> [Ha Hk]], Hstep as (o & He & ->). split; [by destruct o|]. right. eauto 10.
  - by destruct Hk.
  - by destruct Hk.
  - destruct Hk as [-> [Hb Hk]], Hstep as [-> ->]. split; [split; [done|]|by left].
    apply keeps_part_bind; [done|]. intros [a'|b]; [by split|apply Hk].
  - done.
  - by subst d.
Qed.

(** Such a program keeps every invariant on [f], whoever owns what. *)
Lemma keeps_part_wp {M R} `{SharesLaws M} (J : A → M → Prop) pre guar (p : prog S G E R) m s :
  (∀ X e h m s, pre X e h m s) → (∀ σ σ', guar σ σ') → droppable (λ σ, J (f σ)) m →
  (∀ X (e : E X) σ o σ', awaits X e = true → env X e σ o σ' → f σ' = f σ) →
  keeps_part p →
  wp drop env (λ σ, J (f σ)) pre guar p (λ _ h' m' _, h' = [] ∧ m' = m) [] m s.
Proof.
  intros Hpre Hguar Hdrop Henv.
  assert (∀ s rel (Q : S → M → Prop), (∀ σ σ', rel σ σ' → f σ' = f σ) → (∀ σ', Q σ' m) →
            update (λ σ, J (f σ)) guar s m rel Q) as Hup.
  { intros s' rel Q Hrel HQ σ fr σ' _ Hi Hr%Hrel. split; [done|]. exists m. split; [by rewrite Hr|done]. }
  assert (∀ Q, (∀ r h m' s', h = [] ∧ m' = m → Q r h m' s') → keeps_part p →
            wp drop env (λ σ, J (f σ)) pre guar p Q [] m s) as Hwp; [|auto].
  revert s. induction p as [R r|R X g k IH|R X e k IH|R g k IH|R k IH|R C B body IHb a k IHk]; intros s Q HQ Hp; cbn in *.
  - by apply HQ.
  - destruct Hp as [Hf Hk]. intros x. apply Hup; [|auto]. intros σ σ' Hx. specialize (Hf σ). by rewrite Hx in Hf.
  - destruct Hp as [Ha Hk]. split; [done|]. split; [apply Hup; [eauto|done]|]. intros x. apply Hup; [eauto|auto].
  - done.
  - done.
  - destruct Hp as [Hb Hk]. exists (λ _ h m' _, h = [] ∧ m' = m). split; [done|]. intros a' h m' s' [-> ->].
    apply IHb; [|done]. intros [a''|b] h m' s'' [-> ->]; [done|]. by apply IHk.
Qed.
End Keeps.

(** ** Programs whose every section is of some kind

    Sections and drop code that only make changes in [rel]; the awaits are left
    to the environment. *)

Section Sections.
Context {S G : Type} {E : Type → Type}.
Context (drop : G → dprog S).
Context (env : ∀ X, E X → S → option X → S → Prop).
Context (rel : S → S → Prop) `{!Reflexive rel}.

Fixpoint dsections (d : dprog S) : Prop :=
  match d with
  | DDone => True
  | DStep g k => (∀ σ, rel σ (g σ).2) ∧ ∀ x, dsections (k x)
  end.

Fixpoint sections {R} (p : prog S G E R) : Prop :=
  match p with
  | Ret _ => True
  | Atomic g k => (∀ σ, rel σ (g σ).2) ∧ ∀ x, sections (k x)
  | Await e k => ∀ x, sections (k x)
  | Hold _ k | Release k => sections k
  | Loop body a k => (∀ a', sections (body a')) ∧ ∀ b, sections (k b)
  end.

Definition task_sections {R} (t : task (S:=S) (G:=G) (E:=E) R) : Prop :=
  match t with
  | Running p _ => sections p
  | Dropping d p _ => dsections d ∧ sections p
  | Unwinding d => dsections d
  end.

Lemma sections_bind {B C} (p : prog S G E B) (k : B → prog S G E C) :
  sections p → (∀ b, sections (k b)) → sections (bind p k).
Proof.
  intros Hp Hk. revert C k Hp Hk.
  induction p as [R r|R X g c IH|R X e c IH|R g c IH|R c IH|R D B body IHb a c IHc]; intros C k; cbn; naive_solver.
Qed.

Lemma dsections_seq d1 d2 : dsections d1 → dsections d2 → dsections (dseq d1 d2).
Proof. induction d1; cbn; naive_solver. Qed.

Context (Hdrop : ∀ g, dsections (drop g)).

Lemma dsections_all h : dsections (drop_all drop h).
Proof. induction h; cbn; [done|]. by apply dsections_seq. Qed.

Lemma tstep_sections {R} σ (t : task (S:=S) (G:=G) (E:=E) R) σ' t' :
  task_sections t → tstep drop env σ t σ' t' →
  task_sections t' ∧ (rel σ σ' ∨ ∃ X (e : E X) o, env X e σ o σ').
Proof.
  assert (∀ X (g : S → X * S) x, (∀ σ, rel σ (g σ).2) → g σ = (x, σ') → rel σ σ') as Hsec.
  { intros X g x Hg Hx. specialize (Hg σ). by rewrite Hx in Hg. }
  destruct t as [[r|X g k|X e k|g k|k|C B body a k] h|[|X g k] p h|[|X g k]]; cbn; intros Hk Hstep; [done|..].
  - destruct Hk as [Hf Hk], Hstep as (x & Hx & ->). split; [apply Hk|left; by eapply Hsec].
  - destruct Hstep as (o & He & ->). split; [destruct o; [apply Hk|apply dsections_all]|right; eauto].
  - destruct Hstep as [-> ->]. by split; [|left].
  - destruct h as [|g h]; [done|]. destruct Hstep as [-> ->]. split; [by split|by left].
  - destruct Hk as [Hb Hk], Hstep as [-> ->]. split; [|by left].
    apply sections_bind; [done|]. intros [a'|b]; [by split|apply Hk].
  - destruct Hk as [_ Hk], Hstep as [-> ->]. by split; [|left].
  - destruct Hk as [[Hf Hd] Hk], Hstep as (x & Hx & ->). split; [by split; [apply Hd|]|left; by eapply Hsec].
  - done.
  - destruct Hk as [Hf Hd], Hstep as (x & Hx & ->). split; [apply Hd|left; by eapply Hsec].
Qed.
End Sections.
