(* ===== verification/AsyncCost.v ===== *)
(** * How long a task runs

    The cost of a task along an execution (its own steps, or the time it may
    spend waiting), and a logic that bounds it. A bound on a task's own steps
    means that it cannot run forever: it ends as soon as the scheduler and its
    awaits have let it take that many steps. *)

From S2P Require Import Prelude Async.

Open Scope N_scope.

Section Cost.
Context {S G : Type} {E : Type → Type}.
Context (drop : G → dprog S).
Context (env : ∀ X, E X → S → option X → S → Prop).
(** What an await costs ([None]: it has no bound), and any other step; steps are
    charged only in the states that count. *)
Context (await_cost : ∀ X, E X → option N) (section_cost : N) (counts : S → bool).
(** What every step of the system guarantees. *)
Context (guar : S → S → Prop) `{!PreOrder guar}.

Definition charge (σ : S) (c : N) : N := if counts σ then c else 0.

(** A step at cost [c] is within budget [n] in every state that may follow [s],
    and leaves [K] with the rest of the budget. *)
Definition charged (c : N) (s : S) (n : N) (K : S → N → Prop) : Prop :=
  ∀ σ, guar s σ → charge σ c ≤ n ∧ K σ (n - charge σ c).

(** Dropping guards with budget [n], and going on with what is left of it. *)
Fixpoint dwithin (d : dprog S) (K : N → S → Prop) (n : N) (s : S) : Prop :=
  match d with
  | DDone => K n s
  | DStep f k =>
      charged section_cost s n (λ σ n', ∀ x σ', f σ = (x, σ') → dwithin (k x) K n' σ')
  end.

(** [p] ends within budget [n] in [Q], from snapshot [s] and with guards [h]. *)
Fixpoint within {R} (p : prog S G E R) (Q : R → list G → N → S → Prop) (h : list G) (n : N) (s : S) : Prop :=
  match p with
  | Ret r => Q r h n s
  | Atomic f k => charged section_cost s n (λ σ n', ∀ x σ', f σ = (x, σ') → within (k x) Q h n' σ')
  | Await e k =>
      ∃ c, await_cost _ e = Some c
        ∧ charged c s n (λ σ n',
            (∀ σ', env _ e σ None σ' → dwithin (drop_all drop h) (λ _ _, True) n' σ')
            ∧ ∀ x σ', env _ e σ (Some x) σ' → within (k x) Q h n' σ')
  | Hold g k => charged section_cost s n (λ σ n', within k Q (g :: h) n' σ)
  | Release k =>
      match h with
      | [] => False
      | g :: h' =>
          charged section_cost s n (λ σ n',
            dwithin (drop g) (λ n'' s', charged section_cost s' n'' (λ σ' n3, within k Q h' n3 σ')) n' σ)
      end
  | Loop body a k =>
      ∃ Inv : _ → list G → N → S → Prop, Inv a h n s ∧
        ∀ a' h' n' s', Inv a' h' n' s' →
          charged section_cost s' n' (λ σ n3,
            within (body a') (λ r h'' n'' s'', match r with
                                               | inl a'' => Inv a'' h'' n'' s''
                                               | inr b => within (k b) Q h'' n'' s''
                                               end) h' n3 σ)
  end.

Lemma charged_mono c s n (K K' : S → N → Prop) :
  (∀ σ m, K σ m → K' σ m) → charged c s n K → charged c s n K'.
Proof. intros HK Hc σ Hσ. destruct (Hc σ Hσ). auto. Qed.

Lemma dwithin_mono d (K K' : N → S → Prop) n s : (∀ m s', K m s' → K' m s') → dwithin d K n s → dwithin d K' n s.
Proof.
  intros HK. revert n s. induction d as [|X f k IH]; intros n s; cbn; [apply HK|].
  apply charged_mono. intros σ m Hd x σ' Hf. by apply IH, Hd.
Qed.

Lemma within_mono {R} (p : prog S G E R) (Q Q' : R → list G → N → S → Prop) h n s :
  (∀ r h' k s', Q r h' k s' → Q' r h' k s') → within p Q h n s → within p Q' h n s.
Proof.
  revert Q Q' h n s.
  induction p as [R r|R X f k IH|R X e k IH|R g k IH|R k IH|R A B body IHb a k IHk];
    intros Q Q' h n s HQ; cbn.
  - apply HQ.
  - apply charged_mono. intros σ m Hp x σ' Hf. eapply IH; [exact HQ|by apply Hp].
  - intros (c & Hc & Hp). exists c. split; [done|]. revert Hp. apply charged_mono. intros σ m [Hd Hp].
    split; [done|]. intros x σ' He. eapply IH; [exact HQ|by apply Hp].
  - apply charged_mono. intros σ m. by apply IH.
  - destruct h as [|g h]; [done|]. apply charged_mono. intros σ m. apply dwithin_mono. intros m' s'.
    apply charged_mono. intros σ' m''. by apply IH.
  - intros (Inv & Ha & Hb). exists Inv. split; [done|]. intros a' h' m s' Hi. generalize (Hb _ _ _ _ Hi).
    apply charged_mono. intros σ m' Hp. eapply IHb; [|exact Hp]. intros [a''|b] h'' m'' s'' Hr; [done|]. by eapply IHk.
Qed.

Lemma within_bind {A B} (p : prog S G E A) (k : A → prog S G E B) Q h n s :
  within p (λ r h' n' s', within (k r) Q h' n' s') h n s → within (bind p k) Q h n s.
Proof.
  revert B k Q h n s.
  induction p as [R r|R X f c IH|R X e c IH|R g c IH|R c IH|R A B body IHb a c IHc];
    intros C k Q h n s; cbn.
  - done.
  - apply charged_mono. intros σ m Hp x σ' Hf. by apply IH, Hp.
  - intros (w & Hw & Hp). exists w. split; [done|]. revert Hp. apply charged_mono. intros σ m [Hd Hp].
    split; [done|]. intros x σ' He. by apply IH, Hp.
  - apply charged_mono. intros σ m. apply IH.
  - destruct h as [|g h]; [done|]. apply charged_mono. intros σ m. apply dwithin_mono. intros m' s'.
    apply charged_mono. intros σ' m''. apply IH.
  - intros (Inv & Ha & Hb). exists Inv. split; [done|]. intros a' h' m s' Hi. generalize (Hb _ _ _ _ Hi).
    apply charged_mono. intros σ m' Hp. eapply within_mono; [|exact Hp].
    intros [a''|b] h'' m'' s'' Hr; [done|]. by apply IHc.
Qed.

(** ** Tasks and executions *)

Context {R : Type}.

Definition task_within (t : task (S:=S) (G:=G) (E:=E) R) (n : N) (s : S) : Prop :=
  match t with
  | Running p h => within p (λ _ _ _ _, True) h n s
  | Dropping d p h =>
      dwithin d (λ n' s', charged section_cost s' n' (λ σ m, within p (λ _ _ _ _, True) h m σ)) n s
  | Unwinding d => dwithin d (λ _ _, True) n s
  end.

(** The cost of a task's next step. *)
Definition task_cost (t : task (S:=S) (G:=G) (E:=E) R) : option N :=
  match t with Running (Await e _) _ => await_cost _ e | _ => Some section_cost end.

Lemma task_within_step σ t n s σ' t' c :
  task_within t n s → guar s σ → tstep drop env σ t σ' t' → task_cost t = Some c →
  charge σ c ≤ n ∧ task_within t' (n - charge σ c) σ'.
Proof.
  intros Ht Hs Hstep Hc. destruct t as [p h|d p h|d]; cbn in *.
  - destruct p as [r|X f k|X e k|g k|k|A B body a k]; cbn in *; [done|..].
    + injection Hc as <-. destruct Hstep as (x & Hf & ->), (Ht σ Hs) as [Hle Hk]. split; [done|by apply Hk].
    + destruct Ht as (w & Hw & Ht). assert (w = c) as -> by congruence. destruct (Ht σ Hs) as [Hle [Hd Hk]].
      split; [done|]. destruct Hstep as ([x|] & He & ->); [by apply Hk|by apply Hd].
    + injection Hc as <-. destruct Hstep as [-> ->]. exact (Ht σ Hs).
    + injection Hc as <-. destruct h as [|g h]; [done|]. destruct Hstep as [-> ->]. exact (Ht σ Hs).
    + injection Hc as <-. destruct Ht as (Inv & Ha & Hb), Hstep as [-> ->].
      destruct (Hb _ _ _ _ Ha σ Hs) as [Hle Hp]. split; [done|].
      apply within_bind. eapply within_mono; [|exact Hp]. intros [a'|b] h' n' s' Hr; [|done]. by exists Inv.
  - injection Hc as <-. destruct d as [|X f k]; cbn in *.
    + destruct Hstep as [-> ->]. exact (Ht σ Hs).
    + destruct Hstep as (x & Hf & ->), (Ht σ Hs) as [Hle Hk]. split; [done|by apply Hk].
  - injection Hc as <-. destruct d as [|X f k]; cbn in *; [done|].
    destruct Hstep as (x & Hf & ->), (Ht σ Hs) as [Hle Hk]. split; [done|by apply Hk].
Qed.

Context (spawnable : prog S G E R → Prop).

(** [spends i w c c']: an execution from [c] to [c'] along which the steps of
    task [i] cost [w]. *)
Inductive spends (i : nat) : N → system R → system R → Prop :=
| spends_refl c : spends i 0 c c
| spends_own σ ts t σ' t' w n c' :
    ts !! i = Some t → tstep drop env σ t σ' t' → task_cost t = Some w →
    spends i n (mkSystem σ' (<[i:=t']> ts)) c' → spends i (charge σ w + n) (mkSystem σ ts) c'
| spends_other σ ts j t σ' t' n c' :
    j ≠ i → ts !! j = Some t → tstep drop env σ t σ' t' →
    spends i n (mkSystem σ' (<[j:=t']> ts)) c' → spends i n (mkSystem σ ts) c'
| spends_spawn σ ts p n c' :
    spawnable p → spends i n (mkSystem σ (ts ++ [Running p []])) c' → spends i n (mkSystem σ ts) c'.

Lemma spends_steps i w c c' : spends i w c c' → steps drop env spawnable c c'.
Proof.
  induction 1; [apply rtc_refl|..]; (eapply rtc_l; [|eassumption]).
  - by eapply step_task.
  - by eapply step_task.
  - by apply step_spawn.
Qed.

(** Every execution has a cost, where the costs of a task's steps are defined. *)
Lemma steps_spends i c c' :
  (∀ X (e : E X), is_Some (await_cost X e)) → steps drop env spawnable c c' → ∃ w, spends i w c c'.
Proof.
  intros Hdef. induction 1 as [c|c c1 c' Hstep _ [w IH]]; [eexists; constructor|].
  destruct Hstep as [σ ts j t σ' t' Hj Ht|σ ts p Hp]; [|eexists; by eapply spends_spawn].
  destruct (decide (j = i)) as [-> |]; [|eexists; by eapply spends_other].
  assert (is_Some (task_cost t)) as [n Hn].
  { destruct t as [[]| |]; cbn; try by eexists. apply Hdef. }
  eexists. by eapply spends_own.
Qed.

(** The bound holds along every execution whose steps are guaranteed. *)
Lemma within_spends (ok : system R → Prop) i w c c' t n s :
  (∀ c1 c2, ok c1 → step drop env spawnable c1 c2 → guar (shared c1) (shared c2) ∧ ok c2) →
  ok c → pool c !! i = Some t → task_within t n s → guar s (shared c) → spends i w c c' → w ≤ n.
Proof.
  intros Hok Hc Ht Hw Hs Hsp. revert t n s Hc Ht Hw Hs.
  induction Hsp as [c|σ ts t0 σ' t' c0 k c' Hi Hstep Hcost _ IH|σ ts j t0 σ' t' k c' Hj Hl Hstep _ IH|σ ts p k c' Hp _ IH];
    intros t n s Hc Ht Hw Hs; cbn in *; [lia|..].
  - assert (t0 = t) as -> by congruence.
    destruct (Hok _ _ Hc (step_task _ _ _ σ ts i t σ' t' Hi Hstep)) as [_ Hc1].
    destruct (task_within_step _ _ _ _ _ _ _ Hw Hs Hstep Hcost) as [Hle Hw'].
    assert (k ≤ n - charge σ c0); [|lia]. eapply IH; [done| |exact Hw'|reflexivity].
    cbn. rewrite list_lookup_insert_eq; [done|]. by eapply lookup_lt_Some.
  - destruct (Hok _ _ Hc (step_task _ _ _ σ ts j t0 σ' t' Hl Hstep)) as [Hg Hc1]. cbn in Hg.
    eapply IH; [done| |exact Hw|by etrans]. by rewrite list_lookup_insert_ne.
  - destruct (Hok _ _ Hc (step_spawn _ _ _ σ ts p Hp)) as [Hg Hc1].
    eapply IH; [done| |exact Hw|done]. by apply lookup_app_l_Some.
Qed.
End Cost.

(** Steps count in every state. *)
Definition always {S : Type} (σ : S) : bool := true.

(** Runs through a program without loops, [drop] being what its guards do. *)
Ltac run_within drop :=
  repeat first
    [ progress cbn [within dwithin drop_all dseq drop bind charge always]
    | exact I
    | match goal with
      | |- _ ∧ _ => split
      | |- charged _ _ _ _ _ _ => let σ := fresh "σ" in intros σ _; cbn [charge always]
      | |- ∃ c, _ = Some c ∧ _ => eexists; split; [reflexivity|]
      | |- within _ _ _ _ _ _ ?p _ _ _ _ => match p with context [match ?x with _ => _ end] => destruct x end
      | |- (_ ≤ _)%N => lia
      | |- ∀ _, _ => intro
      end ].

(** Every step counts, the awaits too. *)
Definition unit_cost {E : Type → Type} (X : Type) (e : E X) : option N := Some 1.

(** A task that can take a step other than being cancelled. *)
Definition can_step {S G E R} (drop : G → dprog S) (env : ∀ X, E X → S → option X → S → Prop) (σ : S)
    (t : task (S:=S) (G:=G) (E:=E) R) : Prop :=
  match t with
  | Running (Await e _) _ => ∃ x σ', env _ e σ (Some x) σ'
  | _ => ∃ σ' t', tstep drop env σ t σ' t'
  end.

(** Only an await, or a release that nothing matches, can keep a task from
    going on. *)
Lemma can_step_running {S G E R} (drop : G → dprog S) (env : ∀ X, E X → S → option X → S → Prop) σ
    (t : task (S:=S) (G:=G) (E:=E) R) :
  ended t ∨ can_step drop env σ t ∨ (∃ X (e : E X) k h, t = Running (Await e k) h)
  ∨ ∃ k, t = Running (Release k) [].
Proof.
  destruct t as [[r|X f k|X e k|g k|k|A B body a k] h|[|X f k] p h|[|X f k]]; cbn.
  - by left.
  - right; left. destruct (f σ) as [x σ'] eqn:Ef. eauto 10.
  - right; right; left. eauto 10.
  - right; left. eauto.
  - destruct h as [|g h]; [right; right; right; eauto|right; left; eauto].
  - right; left. eauto.
  - right; left. eauto.
  - right; left. destruct (f σ) as [x σ'] eqn:Ef. eauto 10.
  - by left.
  - right; left. destruct (f σ) as [x σ'] eqn:Ef. eauto 10.
Qed.

(** In a system that satisfies its invariant a task is kept waiting only by an
    await that cannot be answered. *)
Lemma system_ok_can_step {S G E M R} `{SharesLaws M} (drop : G → dprog S)
    (env : ∀ X, E X → S → option X → S → Prop) (I : S → M → Prop) pre guar (Q : R → S → Prop) c i t :
  system_ok drop env I pre guar Q c → pool c !! i = Some t →
  (∀ X (e : E X) k h, t = Running (Await e k) h → ∃ x σ', env X e (shared c) (Some x) σ') →
  ended t ∨ can_step drop env (shared c) t.
Proof.
  intros (ms & Hts & _) Hi Hawait.
  destruct (can_step_running drop env (shared c) t) as [?|[?|[(X & e & k & h & ->)|[k ->]]]]; [by left|by right|..].
  - right. by eapply Hawait.
  - destruct (Forall2_lookup_l _ _ _ _ _ Hts Hi) as (m & _ & s & _ & Hok). done.
Qed.

(** ** Costs of executed schedules *)

Section Executed.
Context {S G : Type} {E : Type → Type} {R : Type}.
Context (drop : G → dprog S).
Context (env : ∀ X, E X → S → option X → S → Prop).
Context (oracle : ∀ X, E X → S → option (X * S)).
Context (await_cost : ∀ X, E X → option N) (section_cost : N) (counts : S → bool).
Context (spawnable : prog S G E R → Prop).
Context (Horacle : ∀ X (e : E X) σ x σ', oracle X e σ = Some (x, σ') → env X e σ (Some x) σ').

(** Task [i] alone takes [n] steps; their cost and where they lead. *)
Fixpoint run_alone (i n : nat) (c : system (S:=S) (G:=G) (E:=E) R) : option (N * system R) :=
  match n with
  | O => Some (0, c)
  | Datatypes.S n' =>
      t ← pool c !! i;
      w ← task_cost await_cost section_cost t;
      '(σ', t') ← exec_task drop oracle (shared c) t;
      '(k, c') ← run_alone i n' (mkSystem σ' (<[i:=t']> (pool c)));
      Some (charge counts (shared c) w + k, c')
  end.

Lemma run_alone_spends i n c w c' :
  run_alone i n c = Some (w, c') → spends drop env await_cost section_cost counts spawnable i w c c'.
Proof.
  revert c w. induction n as [|n IH]; intros [σ ts] w; cbn; [intros [= <- <-]; constructor|].
  destruct (ts !! i) as [t|] eqn:Ht; [|done]. cbn.
  destruct (task_cost await_cost section_cost t) as [w0|] eqn:Hw; [|done]. cbn.
  destruct (exec_task drop oracle σ t) as [[σ' t']|] eqn:He; [|done]. cbn.
  destruct (run_alone i n _) as [[k c1]|] eqn:Hr; [|done]. cbn. intros [= <- <-].
  eapply spends_own; [done| |done|by apply IH]. by eapply exec_task_sound.
Qed.
End Executed.
