(* ===== verification/Tokio.v ===== *)
(** * Interfaces of the runtime (tokio)

    [tokio] is a dependency: what the proxy uses of its synchronisation and I/O
    primitives is stated here as classes, the operations as parameters and the
    documented behaviour as laws, with one counter-based instance each to show
    that the laws can hold. *)

From S2P Require Import Prelude.

Open Scope N_scope.

(** ** [tokio::sync::Semaphore]

    [sem_try_acquire_many] is both [try_acquire] (one permit) and
    [try_acquire_many]; [sem_add_permits] is what dropping a permit does. *)
Class Semaphore : Type := {
  Sem : Type;
  sem_new : N → Sem;
  sem_available : Sem → N;
  sem_try_acquire_many : Sem → N → option Sem;
  sem_add_permits : Sem → N → Sem
}.

Class SemaphoreLaws `{Semaphore} : Prop := {
  sem_available_new : ∀ n, sem_available (sem_new n) = n;
  sem_acquire_some : ∀ s n s',
    sem_try_acquire_many s n = Some s' → n + sem_available s' = sem_available s;
  sem_acquire_none : ∀ s n, sem_try_acquire_many s n = None → sem_available s < n;
  sem_available_add : ∀ s n, sem_available (sem_add_permits s n) = sem_available s + n
}.

(** Non-blocking acquisition, with its outcome. *)
Definition sem_acquire `{Semaphore} (n : N) (s : Sem) : bool * Sem :=
  match sem_try_acquire_many s n with
  | Some s' => (true, s')
  | None => (false, s)
  end.

Lemma sem_acquire_spec `{SemaphoreLaws} n s :
  if (n <=? sem_available s)
  then ∃ s', sem_acquire n s = (true, s') ∧ n + sem_available s' = sem_available s
  else sem_acquire n s = (false, s).
Proof.
  unfold sem_acquire. destruct (sem_try_acquire_many s n) as [s'|] eqn:E.
  - apply sem_acquire_some in E. rewrite (proj2 (N.leb_le _ _)) by lia. eauto.
  - apply sem_acquire_none in E. by rewrite (proj2 (N.leb_gt _ _)).
Qed.

#[export] Instance counter_semaphore : Semaphore := {|
  Sem := N;
  sem_new n := n;
  sem_available s := s;
  sem_try_acquire_many s n := if n <=? s then Some (s - n) else None;
  sem_add_permits s n := s + n
|}.

#[export] Instance counter_semaphore_laws : SemaphoreLaws.
Proof.
  split; cbn; intros; try done.
  - destruct (N.leb_spec n s); simplify_eq; lia.
  - destruct (N.leb_spec n s); [done|lia].
Qed.

(** ** [AsyncReadExt::take] with [AsyncBufReadExt::read_until]

    [read_until_spec limit delim input buf rest]: of the bytes [input] the peer
    sends before closing, reading through [take(limit)] up to [delim] appends
    [buf] to the buffer and leaves [rest]: the bytes up to and including the
    first delimiter, cut at the limit and at the end of the stream. *)
Definition read_until_spec (limit : N) (delim : byte) (input buf rest : bytes) : Prop :=
  input = buf ++ rest ∧ len buf ≤ limit
  ∧ delim ∉ removelast buf
  ∧ (last buf = Some delim ∨ len buf = limit ∨ rest = []).

(** An executable function with that behaviour. *)
Fixpoint read_until (limit : nat) (delim : byte) (input : bytes) : bytes * bytes :=
  match limit, input with
  | O, _ => ([], input)
  | _, [] => ([], [])
  | S limit', b :: input' =>
      if bool_decide (b = delim) then ([b], input')
      else let '(buf, rest) := read_until limit' delim input' in (b :: buf, rest)
  end.

Lemma read_until_ok limit delim input buf rest :
  read_until limit delim input = (buf, rest) → read_until_spec (N.of_nat limit) delim input buf rest.
Proof.
  unfold read_until_spec.
  revert input buf rest. induction limit as [|limit IH]; intros input buf rest; cbn.
  { destruct input; intros [= <- <-]; (repeat split; [rewrite len_nil; lia|apply not_elem_of_nil|by auto]). }
  destruct input as [|b input];
    [intros [= <- <-]; repeat split; [rewrite len_nil; lia|apply not_elem_of_nil|by auto]|].
  case_bool_decide as Hb.
  - intros [= <- <-]. subst. repeat split; [rewrite len_cons, len_nil; lia|apply not_elem_of_nil|by left].
  - destruct (read_until limit delim input) as [buf' rest'] eqn:E. intros [= <- <-].
    destruct (IH _ _ _ E) as (-> & Hl & Hd & Hend). split; [done|]. rewrite len_cons.
    split; [lia|]. split.
    + destruct buf' as [|c buf']; [apply not_elem_of_nil|].
      change (removelast (b :: c :: buf')) with (b :: removelast (c :: buf')).
      rewrite not_elem_of_cons. by split.
    + destruct buf' as [|c buf']; [|destruct Hend as [?|[?|?]]; [by left|right; left; lia|by auto]].
      destruct Hend as [?|[?|?]]; [done|right; left; lia|by auto].
Qed.

Lemma read_until_spec_fun limit delim input buf1 rest1 buf2 rest2 :
  read_until_spec limit delim input buf1 rest1 → read_until_spec limit delim input buf2 rest2 →
  buf1 = buf2 ∧ rest1 = rest2.
Proof.
  assert (∀ b1 r1 b2 r2, read_until_spec limit delim input b1 r1 →
            read_until_spec limit delim input b2 r2 → (length b1 ≤ length b2)%nat → b1 = b2 ∧ r1 = r2) as H.
  { intros b1 r1 b2 r2 (E1 & Hl1 & Hd1 & He1) (E2 & Hl2 & Hd2 & He2) Hle.
    rewrite E1 in E2. apply app_eq_inv in E2 as [(k & -> & ->)|(k & -> & ->)].
    - rewrite length_app in Hle. destruct k; [|cbn in Hle; lia]. by rewrite app_nil_r.
    - destruct k as [|c k]; [by rewrite app_nil_r|]. exfalso. destruct He1 as [Hlast|[Hlim|Hnil]].
      + rewrite removelast_app in Hd2 by done. apply not_elem_of_app in Hd2 as [Hn _].
        apply last_Some_elem_of in Hlast. done.
      + rewrite len_app, len_cons in Hl2. lia.
      + by destruct r2. }
  intros H1 H2. destruct (Nat.le_ge_cases (length buf1) (length buf2)); [by eapply H|].
  destruct (H _ _ _ _ H2 H1) as [-> ->]; done.
Qed.

(** ** [tokio::sync::watch], on counters *)
Class Watch : Type := {
  WatchChan : Type;
  watch_channel : N → WatchChan;
  watch_borrow : WatchChan → N;
  watch_send_replace : N → WatchChan → WatchChan
}.

Class WatchLaws `{Watch} : Prop := {
  watch_borrow_channel : ∀ v, watch_borrow (watch_channel v) = v;
  watch_borrow_send : ∀ v c, watch_borrow (watch_send_replace v c) = v
}.

#[export] Instance cell_watch : Watch := {|
  WatchChan := N;
  watch_channel v := v;
  watch_borrow c := c;
  watch_send_replace v _ := v
|}.

#[export] Instance cell_watch_laws : WatchLaws.
Proof. by split. Qed.

(** The outcome of [timeout(d, future)]. *)
Inductive timed (A : Type) : Type :=
| Elapsed
| InTime (a : A).
Arguments Elapsed {A}.
Arguments InTime {A} a.
