(* ===== verification/Relay.v ===== *)
(** * The private relays (src/relay/)

    The relay trait and its errors, the two adapters ([RejectRelay],
    [SocksElectrumRelay]) and the two process-wide wrappers ([LimitedRelay],
    [DrainingRelay] with its lifecycle handle), as asynchronous programs over
    the relay state of the process. *)

From S2P Require Import Prelude RustStr RustNet Endpoint Config Serde Protocol Async Tokio.

Open Scope N_scope.
Open Scope rust_scope.
Open Scope async_scope.

(** ** Errors and the trait (mod.rs) *)

Inductive RelayErrorKind : Type := Disabled | Failed.

#[export] Instance RelayErrorKind_eq_dec : EqDecision RelayErrorKind.
Proof. solve_decision. Defined.

Record RelayError : Type := mkRelayError { kind : RelayErrorKind }.

Definition disabled : RelayError := mkRelayError Disabled.
Definition failed : RelayError := mkRelayError Failed.

Definition RelayError_fmt (e : RelayError) : str :=
  match kind e with
  | Disabled => lit "private relay is disabled"
  | Failed => lit "private relay failed"
  end.

(** ** Shared state, guards and awaits *)

(** draining.rs: the admission flag and the number of admitted calls. *)
Record DrainState : Type := mkDrainState { accepting : bool; active : N }.

(** What has been done on the network on behalf of relay calls. *)
Inductive wire_event : Type :=
| Connected (proxy : SocketAddr) (target : Endpoint)
| Sent (target : Endpoint) (data : bytes).

(** The RAII guards: an admitted call, a request slot, payload permits. *)
Inductive guard : Type :=
| ActiveRelayCall
| RequestPermit
| PayloadPermit (permits : N).

#[export] Instance guard_eq_dec : EqDecision guard.
Proof. solve_decision. Defined.

(** The await points of a relay call: each network operation under its
    timeout, and the change notification of the active-count channel. *)
Inductive relayE : Type → Type :=
| SocksConnect (deadline : N) (proxy : SocketAddr) (target : Endpoint)
    : relayE (timed (result unit unit))
| SocksWriteAll (deadline : N) (target : Endpoint) (data : bytes)
    : relayE (timed (result unit unit))
| SocksReadUntil (deadline limit : N) (target : Endpoint)
    : relayE (timed (result bytes unit))
| ActiveChanged (deadline : N) : relayE (timed (result unit unit)).

Section Relays.
Context `{Semaphore} `{Watch} `{Serialize}.

Record RelayState : Type := mkRelayState {
  drain : DrainState;
  active_watch : WatchChan;
  requests : Sem;
  payload_bytes : Sem;
  wire : list wire_event
}.

Definition set_drain (d : DrainState) (σ : RelayState) : RelayState :=
  mkRelayState d (active_watch σ) (requests σ) (payload_bytes σ) (wire σ).
Definition set_watch (w : WatchChan) (σ : RelayState) : RelayState :=
  mkRelayState (drain σ) w (requests σ) (payload_bytes σ) (wire σ).
Definition set_requests (s : Sem) (σ : RelayState) : RelayState :=
  mkRelayState (drain σ) (active_watch σ) s (payload_bytes σ) (wire σ).
Definition set_payload (s : Sem) (σ : RelayState) : RelayState :=
  mkRelayState (drain σ) (active_watch σ) (requests σ) s (wire σ).
Definition add_wire (e : wire_event) (σ : RelayState) : RelayState :=
  mkRelayState (drain σ) (active_watch σ) (requests σ) (payload_bytes σ) (wire σ ++ [e]).

Definition relay_prog : Type → Type := prog RelayState guard relayE.

(** [trait BroadcastRelay] and [Arc<dyn BroadcastRelay>] *)
Class BroadcastRelay (T : Type) : Type :=
  broadcast : T → str → relay_prog (result str RelayError).

Definition SharedRelay : Type := str → relay_prog (result str RelayError).
Definition Arc_new {T} `{BroadcastRelay T} (relay : T) : SharedRelay := broadcast relay.

(** ** [RejectRelay] (reject.rs) *)

Inductive RejectRelay : Type := mkRejectRelay.

#[export] Instance RejectRelay_broadcast : BroadcastRelay RejectRelay :=
  λ _ _raw_transaction, Ret (Err disabled).

(** ** [SocksElectrumRelay] (socks_electrum.rs) *)

Definition RELAY_REQUEST_ID : str := lit "electrum-private-relay".
Definition MAX_RELAY_RESPONSE_BYTES : N := 64 * 1024.

Record RelayResponse : Type := mkRelayResponse {
  resp_id : Value;
  resp_result : option Value;
  resp_error : option Value
}.

Record SocksElectrumRelay : Type := mkSocksElectrumRelay {
  socks5_proxy : SocketAddr;
  endpoint : Endpoint;
  timeout : N
}.

Definition SocksElectrumRelay_new (p : SocketAddr) (e : Endpoint) (t : N) : SocksElectrumRelay :=
  mkSocksElectrumRelay p e t.

(** The request line submitted for a transaction. *)
Definition relay_request (raw_transaction : str) : bytes :=
  to_vec (Object [(lit "id", Str RELAY_REQUEST_ID);
                  (lit "method", Str (lit "blockchain.transaction.broadcast"));
                  (lit "params", Array [Str raw_transaction])])
  ++ [newline].

Context `{Deserialize RelayResponse}.

(** The checks on the response line, from its bytes to the transaction ID. *)
Definition relay_transaction_id (response : bytes) : result str RelayError :=
  if (len response =? 0)
     || (MAX_RELAY_RESPONSE_BYTES <? len response)
     || negb (last_is (Byte.eqb newline) response)
  then Err failed
  else
    let? response := ok_or (from_slice response) failed in
    if negb (bool_decide (as_str (resp_id response) = Some RELAY_REQUEST_ID))
       || bool_decide (is_Some (resp_error response))
    then Err failed
    else
      let? transaction_id :=
        ok_or (candidate ← (result ← resp_result response; as_str result);
               if (len candidate =? 64) && forallb is_ascii_hexdigit candidate
               then Some candidate else None) failed in
      Ok (to_ascii_lowercase transaction_id).

(** [timeout(..).await.map_err(..)?.map_err(..)?] *)
Definition timed_ok {A} (r : timed (result A unit)) : option A :=
  match r with InTime (Ok a) => Some a | _ => None end.

#[export] Instance SocksElectrumRelay_broadcast : BroadcastRelay SocksElectrumRelay :=
  λ self raw_transaction,
    do connected := await (SocksConnect (timeout self) (socks5_proxy self) (endpoint self)) in
    match timed_ok connected with
    | None => Ret (Err failed)
    | Some _ =>
        do written := await (SocksWriteAll (timeout self) (endpoint self) (relay_request raw_transaction)) in
        match timed_ok written with
        | None => Ret (Err failed)
        | Some _ =>
            do response := await (SocksReadUntil (timeout self) (MAX_RELAY_RESPONSE_BYTES + 1) (endpoint self)) in
            match timed_ok response with
            | None => Ret (Err failed)
            | Some response => Ret (relay_transaction_id response)
            end
        end
    end.

(** ** [LimitedRelay] (limited.rs) *)

Record LimitedRelay : Type := mkLimitedRelay { limited_inner : SharedRelay }.

(** The relay and its two semaphores, request slots first. *)
Definition with_payload_budget (inner : SharedRelay) (limit : ConcurrentBroadcastLimit)
    (payload_budget : N) : LimitedRelay * (Sem * Sem) :=
  (mkLimitedRelay inner, (sem_new (ConcurrentBroadcastLimit_get limit), sem_new payload_budget)).

Definition LimitedRelay_new (inner : SharedRelay) (limit : ConcurrentBroadcastLimit)
    : LimitedRelay * (Sem * Sem) :=
  with_payload_budget inner limit MAX_CONFIGURABLE_IN_FLIGHT_BROADCAST_BYTES.

Definition u32_try_from (n : N) : option N := if n <=? u32_max then Some n else None.

Definition try_acquire_request (σ : RelayState) : bool * RelayState :=
  let '(acquired, s) := sem_acquire 1 (requests σ) in (acquired, set_requests s σ).

Definition try_acquire_payload (permits : N) (σ : RelayState) : bool * RelayState :=
  let '(acquired, s) := sem_acquire permits (payload_bytes σ) in (acquired, set_payload s σ).

#[export] Instance LimitedRelay_broadcast : BroadcastRelay LimitedRelay :=
  λ self raw_transaction,
    match u32_try_from (len raw_transaction) with
    | None => Ret (Err failed)
    | Some payload_permits =>
        do acquired := atomic try_acquire_request in
        if negb acquired then Ret (Err failed)
        else scope RequestPermit
          (do acquired := atomic (try_acquire_payload payload_permits) in
           if negb acquired then Ret (Err failed)
           else scope (PayloadPermit payload_permits) (limited_inner self raw_transaction))
    end.

(** ** [DrainingRelay] and [RelayDrainHandle] (draining.rs) *)

Record DrainingRelay : Type := mkDrainingRelay { draining_inner : SharedRelay }.

(** The wrapper, its lock-protected state and the active-count channel. *)
Definition DrainingRelay_new (inner : SharedRelay) : DrainingRelay * (DrainState * WatchChan) :=
  (mkDrainingRelay inner, (mkDrainState true 0, watch_channel 0)).

(** The critical section of [DrainingRelay::broadcast]. *)
Definition admit_call (state : DrainState) : result N RelayError * DrainState :=
  if negb (accepting state) then (Err failed, state)
  else match checked_add (active state) 1 with
       | None => (Err failed, state)
       | Some n => (Ok n, mkDrainState (accepting state) n)
       end.

(** The critical section of [ActiveRelayCall::drop]. *)
Definition retire (state : DrainState) : N * DrainState :=
  let n := if 0 <? active state then active state - 1 else active state in
  (n, mkDrainState (accepting state) n).

(** The critical section of [RelayDrainHandle::begin_shutdown]. *)
Definition stop_accepting (state : DrainState) : N * DrainState :=
  (active state, mkDrainState false (active state)).

(** [self.shared.lock()] around a section; a poisoned lock is entered too. *)
Definition locked {X} (f : DrainState → X * DrainState) (σ : RelayState) : X * RelayState :=
  let '(x, d) := f (drain σ) in (x, set_drain d σ).

(** [self.shared.active.send_replace(active)], outside the lock. *)
Definition publish (n : N) (σ : RelayState) : unit * RelayState :=
  (tt, set_watch (watch_send_replace n (active_watch σ)) σ).

#[export] Instance DrainingRelay_broadcast : BroadcastRelay DrainingRelay :=
  λ self raw_transaction,
    do admitted := atomic (locked admit_call) in
    match admitted with
    | Err e => Ret (Err e)
    | Ok n =>
        do _ := atomic (publish n) in
        scope ActiveRelayCall (draining_inner self raw_transaction)
    end.

(** [impl Drop], for each guard. *)
Definition drop_guard (g : guard) : dprog RelayState :=
  match g with
  | ActiveRelayCall => DStep (locked retire) (λ n, DStep (publish n) (λ _, DDone))
  | RequestPermit => DStep (λ σ, (tt, set_requests (sem_add_permits (requests σ) 1) σ)) (λ _, DDone)
  | PayloadPermit n => DStep (λ σ, (tt, set_payload (sem_add_permits (payload_bytes σ) n) σ)) (λ _, DDone)
  end.

Definition begin_shutdown : relay_prog N :=
  do n := atomic (locked stop_accepting) in
  do _ := atomic (publish n) in
  Ret n.

Definition read_active (σ : RelayState) : N * RelayState := (watch_borrow (active_watch σ), σ).

Definition wait_for_idle (maximum_wait : N) : relay_prog bool :=
  do n := atomic read_active in
  if n =? 0 then Ret true
  else loop (λ _ : unit,
         do changed := await (ActiveChanged maximum_wait) in
         match changed with
         | Elapsed => Ret (inr false)
         | InTime (Err _) => Ret (inr false)
         | InTime (Ok _) =>
             do n := atomic read_active in
             if n =? 0 then Ret (inr true) else Ret (inl tt)
         end) tt.

Definition active_calls : relay_prog N := atomic (locked (λ d, (active d, d))).
Definition is_accepting : relay_prog bool := atomic (locked (λ d, (accepting d, d))).

(** ** The environment of relay calls

    Any outcome of a network operation is possible at any time; a write puts
    the data, or on failure or cancellation a prefix of it, on the wire; a read
    returns at most its limit, with a line feed only at the end. *)
Definition relay_env (X : Type) (e : relayE X) : RelayState → option X → RelayState → Prop :=
  match e in relayE X return RelayState → option X → RelayState → Prop with
  | SocksConnect _ proxy target => λ σ x σ',
      match x with
      | Some (InTime (Ok _)) => σ' = add_wire (Connected proxy target) σ
      | _ => σ' = σ ∨ σ' = add_wire (Connected proxy target) σ
      end
  | SocksWriteAll _ target data => λ σ x σ',
      match x with
      | Some (InTime (Ok _)) => σ' = add_wire (Sent target data) σ
      | _ => ∃ part, part `prefix_of` data ∧ σ' = add_wire (Sent target part) σ
      end
  | SocksReadUntil _ limit _ => λ σ x σ',
      σ' = σ ∧ match x with
               | Some (InTime (Ok buf)) => len buf ≤ limit ∧ newline ∉ removelast buf
               | _ => True
               end
  | ActiveChanged _ => λ σ x σ', σ' = σ
  end.
End Relays.
