(* ===== verification/RelaySafety.v ===== *)
(** * Safety of the relay stack

    [DrainingRelay] over [LimitedRelay] over an adapter, called by any number
    of interleaved and possibly cancelled tasks, with the lifecycle handle used
    concurrently: admission accounting, payload bounds, the shutdown boundary
    and what reaches the network. Each relay is specified once against the
    interface [relay_spec]; the wrappers' specifications are proved from their
    inner relay's. *)

From S2P Require Import Prelude RustStr RustNet Endpoint Config Serde Protocol JsonRef Async Tokio Relay.

Open Scope N_scope.
Open Scope rust_scope.
Open Scope async_scope.

(** ** Shares: admitted calls, request permits, payload permits *)

Record share : Type := mkShare { sh_active : N; sh_requests : N; sh_bytes : N }.

#[export] Instance share_Shares : Shares share := {|
  share_op a b := mkShare (sh_active a + sh_active b) (sh_requests a + sh_requests b) (sh_bytes a + sh_bytes b);
  share_unit := mkShare 0 0 0
|}.

Lemma share_eq a b :
  sh_active a = sh_active b → sh_requests a = sh_requests b → sh_bytes a = sh_bytes b → a = b.
Proof. destruct a, b; cbn. congruence. Qed.

#[export] Instance share_laws : SharesLaws share.
Proof. split; intros; apply share_eq; cbn; lia. Qed.

Definition guard_share (g : guard) : share :=
  match g with
  | ActiveRelayCall => mkShare 1 0 0
  | RequestPermit => mkShare 0 1 0
  | PayloadPermit n => mkShare 0 0 n
  end.

(** What a list of live guards stands for. *)
Fixpoint held_share (h : list guard) : share :=
  match h with [] => share_unit | g :: h' => guard_share g ⋅ held_share h' end.

(** The guards a network operation runs under, for a transaction. *)
Definition call_guards (raw : str) : list guard := [PayloadPermit (len raw); RequestPermit; ActiveRelayCall].

Section RelaySafety.
Context `{Sm : Semaphore} `{SmL : !SemaphoreLaws} `{Wt : Watch} `{Ser : Serialize}
  `{Des : Deserialize RelayResponse}.
Context (limit budget : N) (wire_ok : wire_event → Prop).

(** The accounting invariant: the counters are exactly the sum of the shares. *)
Record inv (σ : RelayState) (m : share) : Prop := {
  inv_active : active (drain σ) = sh_active m;
  inv_requests : sem_available (requests σ) + sh_requests m = limit;
  inv_payload : sem_available (payload_bytes σ) + sh_bytes m = budget;
  inv_wire : Forall wire_ok (wire σ)
}.

(** A waiting task's share is what its guards stand for; it uses the network
    only while it holds all three guards, and only as [wire_ok] allows. *)
Definition pre (X : Type) (e : relayE X) (h : list guard) (m : share) (s : RelayState) : Prop :=
  m = held_share h ∧
  match e with
  | SocksConnect _ proxy target => (∃ raw, h = call_guards raw) ∧ wire_ok (Connected proxy target)
  | SocksWriteAll _ target data =>
      (∃ raw, data = relay_request raw ∧ h = call_guards raw)
      ∧ ∀ part, part `prefix_of` data → wire_ok (Sent target part)
  | SocksReadUntil _ _ _ => ∃ raw, h = call_guards raw
  | ActiveChanged _ => True
  end.

(** Every single step: once admission has stopped it stays stopped, the number
    of admitted calls only falls, and with none left the wire is silent. *)
Definition guar (σ σ' : RelayState) : Prop :=
  wire σ `prefix_of` wire σ' ∧
  (accepting (drain σ) = false →
   accepting (drain σ') = false ∧ active (drain σ') ≤ active (drain σ)
   ∧ (active (drain σ) = 0 → wire σ' = wire σ)).

#[export] Instance guar_preorder : PreOrder guar.
Proof.
  split; [intros σ; split; [done|]; intros ?; by repeat split|].
  intros σ1 σ2 σ3 [Hw1 H1] [Hw2 H2]. split; [by etrans|]. intros Ha.
  destruct (H1 Ha) as (Ha2 & Hle1 & Hq1). destruct (H2 Ha2) as (? & Hle2 & Hq2).
  split; [done|]. split; [lia|]. intros Hz. rewrite Hq2, Hq1 by lia. done.
Qed.

Abbreviation WP := (wp drop_guard relay_env inv pre guar).
Abbreviation WPD := (wpd inv guar).

(** ** Sections and drops *)

Lemma guar_same_drain σ σ' : drain σ' = drain σ → wire σ' = wire σ → guar σ σ'.
Proof. intros Hd Hw. split; [by rewrite Hw|]. rewrite Hd, Hw. intros ?. by repeat split. Qed.

Lemma guar_wire σ σ' : guar σ σ' → wire σ `prefix_of` wire σ'.
Proof. by intros [? _]. Qed.

(** A step that changes neither the counters nor the wire. *)
Lemma inv_same σ σ' m :
  drain σ' = drain σ → requests σ' = requests σ → payload_bytes σ' = payload_bytes σ →
  wire σ' = wire σ → inv σ m → inv σ' m.
Proof. intros E1 E2 E3 E4 []. split; by rewrite ?E1, ?E2, ?E3, ?E4. Qed.

Lemma update_same s m rel (Q : RelayState → share → Prop) :
  (∀ σ σ', rel σ σ' → drain σ' = drain σ ∧ requests σ' = requests σ
                      ∧ payload_bytes σ' = payload_bytes σ ∧ wire σ' = wire σ) →
  (∀ σ', guar s σ' → Q σ' m) → update inv guar s m rel Q.
Proof.
  intros Hrel HQ σ fr σ' Hs Hi Hr. destruct (Hrel _ _ Hr) as (E1 & E2 & E3 & E4).
  assert (guar σ σ') by by apply guar_same_drain. split; [done|].
  exists m. split; [by eapply inv_same|]. apply HQ. by etrans.
Qed.

Lemma publish_update s m n x (Q : RelayState → share → Prop) :
  (∀ σ', guar s σ' → Q σ' m) → update inv guar s m (λ σ σ', publish n σ = (x, σ')) Q.
Proof. intros HQ. apply update_same; [|done]. by intros σ σ' [= _ <-]. Qed.

Lemma drop_guard_wpd g (Q : share → RelayState → Prop) m s :
  (∀ s', guar s s' → Q m s') → WPD (drop_guard g) Q (guard_share g ⋅ m) s.
Proof.
  intros HQ. destruct g as [| |n]; cbn [drop_guard wpd].
  - intros x σ fr σ' Hs [Ha Hr Hp Hw] [= <- <-]. cbn in *.
    rewrite (proj2 (N.ltb_lt 0 _)) by lia.
    assert (guar σ (set_drain (mkDrainState (accepting (drain σ)) (active (drain σ) - 1)) σ)) as Hg.
    { split; [done|]. intros ?; split; [done|]. split; [cbn; lia|done]. }
    split; [done|]. exists m. split; [split; cbn; done || lia|]. intros [].
    apply publish_update. intros s' ?. apply HQ. etrans; [exact Hs|]. by etrans.
  - intros x σ fr σ' Hs [Ha Hr Hp Hw] [= _ <-]. cbn in *.
    assert (guar σ (set_requests (sem_add_permits (requests σ) 1) σ)) by by apply guar_same_drain.
    split; [done|]. exists m. split; [|apply HQ; by etrans].
    split; cbn; rewrite ?sem_available_add; done || lia.
  - intros x σ fr σ' Hs [Ha Hr Hp Hw] [= _ <-]. cbn in *.
    assert (guar σ (set_payload (sem_add_permits (payload_bytes σ) n) σ)) by by apply guar_same_drain.
    split; [done|]. exists m. split; [|apply HQ; by etrans].
    split; cbn; rewrite ?sem_available_add; done || lia.
Qed.

Lemma cancel_held h s : cancel_ok drop_guard inv guar h (held_share h) s.
Proof.
  unfold cancel_ok. revert s. induction h as [|g h IH]; intros s; [by apply droppable_unit|].
  cbn [drop_all held_share].
  apply wpd_dseq. apply drop_guard_wpd. intros s' _. apply IH.
Qed.

(** ** The interface of a relay

    Called with its guards and their share, a relay returns with the same
    guards and share; a successful result is a transaction ID, and the request
    for the transaction has then been written to the wire in full. *)

Definition is_txid (t : str) : Prop :=
  len t = 64 ∧ Forall (λ b, is_ascii_hexdigit b = true ∧ is_ascii_uppercase b = false) t.

Definition relayed (raw : str) (r : result str RelayError) (σ : RelayState) : Prop :=
  match r with
  | Ok txid => is_txid txid ∧ ∃ target, Sent target (relay_request raw) ∈ wire σ
  | Err _ => True
  end.

Lemma relayed_guar raw r σ σ' : guar σ σ' → relayed raw r σ → relayed raw r σ'.
Proof.
  intros [[k E] _]. destruct r; [|done]. intros (? & t & ?). split; [done|].
  exists t. rewrite E. apply elem_of_app. by left.
Qed.

(** Returns with its guards and their share, having established [P]. *)
Definition keeps {R} (P : R → RelayState → Prop) (h : list guard)
    : R → list guard → share → RelayState → Prop :=
  λ r h' m s, h' = h ∧ m = held_share h ∧ P r s.

Definition relay_spec (guards : str → list guard) (relay : SharedRelay) : Prop :=
  ∀ raw s, WP (relay raw) (keeps (relayed raw) (guards raw)) (guards raw) (held_share (guards raw)) s.

(** A guard bound around a program whose share it joins. *)
Lemma wp_scope {R} g (p : relay_prog R) (P : R → RelayState → Prop) h s :
  (∀ r σ σ', guar σ σ' → P r σ → P r σ') →
  WP p (keeps P (g :: h)) (g :: h) (held_share (g :: h)) s →
  WP (scope g p) (keeps P h) h (held_share (g :: h)) s.
Proof.
  intros HP Hp. apply wp_guarded. eapply wp_mono; [|exact Hp].
  intros r h' m s' (-> & -> & Hr). split; [done|]. apply drop_guard_wpd.
  intros s'' ?. split; [done|]. split; [done|]. by eapply HP.
Qed.

(** ** The adapters *)

Lemma RejectRelay_spec guards : relay_spec guards (Arc_new mkRejectRelay).
Proof. intros raw s. by split. Qed.

(** The response checks, exactly: a complete line within the bound, a reply to
    the relay's own request without error, carrying a transaction ID. *)
Lemma relay_transaction_id_Ok response txid :
  relay_transaction_id response = Ok txid ↔
  (0 < len response ≤ MAX_RELAY_RESPONSE_BYTES) ∧ last response = Some newline ∧
  ∃ r candidate, from_slice response = Some r
    ∧ resp_id r = Str RELAY_REQUEST_ID ∧ resp_error r = None ∧ resp_result r = Some (Str candidate)
    ∧ len candidate = 64 ∧ Forall (λ b, is_ascii_hexdigit b = true) candidate
    ∧ txid = to_ascii_lowercase candidate.
Proof.
  unfold relay_transaction_id.
  assert (last_is (Byte.eqb newline) response = true ↔ last response = Some newline) as Hlast.
  { unfold last_is. destruct (last response) as [b|]; [|done]. split; [|by intros [= ->]].
    intros E. apply Byte.byte_dec_bl in E. by subst. }
  destruct (_ || negb (last_is _ _)) eqn:Hc; cbn [try_].
  { split; [done|]. intros ((? & ?) & Hl & _). apply Hlast in Hl. rewrite Hl in Hc.
    apply orb_true_iff in Hc as [Hc|]; [|done].
    apply orb_true_iff in Hc as [Hc|Hc]; [apply N.eqb_eq in Hc|apply N.ltb_lt in Hc]; lia. }
  apply orb_false_iff in Hc as [[Hz%N.eqb_neq Hm%N.ltb_ge]%orb_false_iff Hl%negb_false_iff].
  apply Hlast in Hl. transitivity (∃ r candidate, from_slice response = Some r
    ∧ resp_id r = Str RELAY_REQUEST_ID ∧ resp_error r = None ∧ resp_result r = Some (Str candidate)
    ∧ len candidate = 64 ∧ Forall (λ b, is_ascii_hexdigit b = true) candidate
    ∧ txid = to_ascii_lowercase candidate).
  2:{ split; [intros ?; split; [lia|by split]|by intros (_ & _ & ?)]. }
  destruct (from_slice response) as [r|]; cbn [ok_or try_]; [|split; [done|by intros (? & ? & ? & _)]].
  destruct (_ || bool_decide (is_Some _)) eqn:Hc.
  { split; [done|]. intros (r' & ? & [= <-] & Hid & He & _). rewrite Hid, He in Hc.
    cbn [as_str] in Hc. rewrite bool_decide_eq_true_2 in Hc by done.
    by rewrite (bool_decide_eq_false_2 (is_Some None)) in Hc by (by intros [? ?]). }
  apply orb_false_iff in Hc as [Hid%negb_false_iff%bool_decide_eq_true He%bool_decide_eq_false].
  apply eq_None_not_Some in He. assert (resp_id r = Str RELAY_REQUEST_ID) as Hid'.
  { destruct (resp_id r); cbn in Hid; simplify_eq; done. }
  destruct (resp_result r) as [v|] eqn:Hr; cbn [mbind option_bind ok_or try_];
    [|split; [done|]; intros (? & ? & [= <-] & _ & _ & E & _); by rewrite Hr in E].
  destruct (as_str v) as [candidate|] eqn:Hv; cbn [option_bind];
    [|split; [done|]; intros (? & c & [= <-] & _ & _ & E & _);
      rewrite Hr in E; injection E as ->; done].
  assert (v = Str candidate) as -> by (destruct v; cbn in Hv; simplify_eq; done).
  cbn. destruct ((len candidate =? 64) && forallb is_ascii_hexdigit candidate) eqn:Hc; cbn [ok_or try_].
  - apply andb_true_iff in Hc as [Hn%N.eqb_eq Hx%forallb_Forall]. split.
    + intros [= <-]. by exists r, candidate.
    + intros (? & c & [= <-] & _ & _ & E & _ & _ & ->). rewrite Hr in E. by injection E as ->.
  - split; [done|]. intros (? & c & [= <-] & _ & _ & E & Hn & Hx & _).
    rewrite Hr in E. injection E as ->.
    by rewrite (proj2 (N.eqb_eq _ _) Hn), (proj2 (forallb_Forall _ _) Hx) in Hc.
Qed.

Lemma relay_transaction_id_Err response e : relay_transaction_id response = Err e → e = failed.
Proof.
  unfold relay_transaction_id. destruct (_ || _); [by intros [= <-]|].
  destruct (from_slice response) as [r|]; cbn [ok_or try_]; [|by intros [= <-]].
  destruct (_ || _); [by intros [= <-]|].
  destruct (_ ≫= _); cbn [ok_or try_]; [done|by intros [= <-]].
Qed.

Lemma relay_transaction_id_txid response txid : relay_transaction_id response = Ok txid → is_txid txid.
Proof.
  rewrite relay_transaction_id_Ok. intros (_ & _ & r & c & _ & _ & _ & _ & Hn & Hx & ->).
  unfold to_ascii_lowercase. split; [by unfold len in *; rewrite length_fmap|].
  apply Forall_fmap. eapply Forall_impl; [exact Hx|]. exact lowercase_hexdigit.
Qed.

(** A network step of an admitted call. *)
Lemma wire_update s raw rel (Q : RelayState → share → Prop) :
  (∀ σ σ', rel σ σ' → σ' = σ ∨ ∃ e, wire_ok e ∧ σ' = add_wire e σ) →
  (∀ σ σ', guar s σ' → rel σ σ' → Q σ' (held_share (call_guards raw))) →
  update inv guar s (held_share (call_guards raw)) rel Q.
Proof.
  intros Hrel HQ σ fr σ' Hs Hi Hr.
  assert (guar σ σ' ∧ inv σ' (held_share (call_guards raw) ⋅ fr)) as [Hg Hi'].
  { destruct (Hrel _ _ Hr) as [-> |(e & He & ->)]; [by split; [reflexivity|]|].
    destruct Hi as [Ha Hq Hp Hw]. split.
    - split; [by exists [e]|]. intros Hacc. split; [done|]. split; [done|]. cbn in *. lia.
    - split; [done..|]. cbn. apply Forall_app. split; [done|by constructor]. }
  split; [done|]. exists (held_share (call_guards raw)). split; [done|].
  eapply HQ; [by etrans|done].
Qed.

Lemma timed_ok_Some {A} (r : timed (result A unit)) a : timed_ok r = Some a → r = InTime (Ok a).
Proof. destruct r as [|[]]; cbn; congruence. Qed.

(** An adapter's network events stay within [wire_ok]. *)
Definition socks_allowed (self : SocksElectrumRelay) : Prop :=
  wire_ok (Connected (socks5_proxy self) (endpoint self)) ∧
  ∀ raw part, part `prefix_of` relay_request raw → wire_ok (Sent (endpoint self) part).

Lemma SocksElectrumRelay_spec self :
  socks_allowed self → relay_spec call_guards (Arc_new self).
Proof.
  intros [Hc Hw] raw s.
  unfold Arc_new, broadcast, SocksElectrumRelay_broadcast, await. cbn [bind wp].
  split; [split; [done|]; split; [by exists raw|done]|].
  split; [apply (wire_update _ raw); [cbn; intuition eauto|intros; apply cancel_held]|].
  intros connected. apply (wire_update _ raw).
  { cbn. intros σ σ'. destruct connected as [|[]]; intuition eauto. }
  intros _ s1 _ _. destruct (timed_ok connected); [|by split]. cbn [bind wp].
  assert (∀ o σ σ', relay_env _ (SocksWriteAll (timeout self) (endpoint self) (relay_request raw)) σ o σ' →
            σ' = σ ∨ ∃ e, wire_ok e ∧ σ' = add_wire e σ) as Hwrite.
  { intros o σ σ' Ho. assert (∃ part, part `prefix_of` relay_request raw
                                ∧ σ' = add_wire (Sent (endpoint self) part) σ) as (part & ? & ->).
    { revert Ho. cbn. destruct o as [[|[]]|]; try done. intros ->. by exists (relay_request raw). }
    eauto 10. }
  split; [split; [done|]; split; [by exists raw|]; by apply Hw|].
  split; [apply (wire_update _ raw); [intros ??; apply Hwrite|intros; apply cancel_held]|].
  intros written. apply (wire_update _ raw); [intros ??; apply Hwrite|].
  intros σ2 s2 _ Hsent. destruct (timed_ok written) as [[]|] eqn:E; [|by split]. cbn [bind wp].
  apply timed_ok_Some in E as ->. cbn in Hsent.
  split; [split; [done|]; by exists raw|].
  split; [apply (wire_update _ raw); [cbn; intuition eauto|intros; apply cancel_held]|].
  intros response. apply (wire_update _ raw); [cbn; intuition eauto|].
  intros _ s3 Hs3 _. destruct (timed_ok response) as [buf|]; [|by split].
  split; [done|]. split; [done|]. destruct (relay_transaction_id buf) as [txid|] eqn:Et; [|done].
  split; [by eapply relay_transaction_id_txid|]. exists (endpoint self).
  destruct Hs3 as [[k Hk] _]. rewrite Hk, Hsent. cbn. set_solver.
Qed.

(** ** The wrappers *)

Lemma acquire_request_update s h (x : bool) (Q : RelayState → share → Prop) :
  (∀ σ', guar s σ' → Q σ' (if x then guard_share RequestPermit ⋅ held_share h else held_share h)) →
  update inv guar s (held_share h) (λ σ σ', try_acquire_request σ = (x, σ')) Q.
Proof.
  intros HQ σ fr σ' Hs [Ha Hr Hp Hw]. unfold try_acquire_request.
  pose proof (sem_acquire_spec 1 (requests σ)) as Hsem.
  destruct (1 <=? sem_available (requests σ)).
  - destruct Hsem as (s' & -> & E). intros [= <- <-].
    assert (guar σ (set_requests s' σ)) by by apply guar_same_drain.
    split; [done|]. eexists. split; [|apply HQ; by etrans]. split; cbn in *; done || lia.
  - rewrite Hsem. intros [= <- <-].
    assert (guar σ (set_requests (requests σ) σ)) by by apply guar_same_drain.
    split; [done|]. eexists. split; [|apply HQ; by etrans]. by split.
Qed.

Lemma acquire_payload_update s h n (x : bool) (Q : RelayState → share → Prop) :
  (∀ σ', guar s σ' → Q σ' (if x then guard_share (PayloadPermit n) ⋅ held_share h else held_share h)) →
  update inv guar s (held_share h) (λ σ σ', try_acquire_payload n σ = (x, σ')) Q.
Proof.
  intros HQ σ fr σ' Hs [Ha Hr Hp Hw]. unfold try_acquire_payload.
  pose proof (sem_acquire_spec n (payload_bytes σ)) as Hsem.
  destruct (n <=? sem_available (payload_bytes σ)).
  - destruct Hsem as (s' & -> & E). intros [= <- <-].
    assert (guar σ (set_payload s' σ)) by by apply guar_same_drain.
    split; [done|]. eexists. split; [|apply HQ; by etrans]. split; cbn in *; done || lia.
  - rewrite Hsem. intros [= <- <-].
    assert (guar σ (set_payload (payload_bytes σ) σ)) by by apply guar_same_drain.
    split; [done|]. eexists. split; [|apply HQ; by etrans]. by split.
Qed.

Lemma LimitedRelay_spec (inner : SharedRelay) outer :
  relay_spec (λ raw, PayloadPermit (len raw) :: RequestPermit :: outer) inner →
  relay_spec (λ _, outer) (Arc_new (mkLimitedRelay inner)).
Proof.
  intros Hinner raw s.
  unfold Arc_new, broadcast, LimitedRelay_broadcast, u32_try_from.
  destruct (len raw <=? u32_max); [|by split]. cbn [atomic bind wp].
  intros acquired. apply acquire_request_update. intros s1 _.
  destruct acquired; cbn [negb]; [|by split].
  apply wp_scope; [apply relayed_guar|]. cbn [bind wp].
  intros acquired. apply (acquire_payload_update _ (RequestPermit :: outer)). intros s2 _.
  destruct acquired; cbn [negb]; [|by split].
  apply wp_scope; [apply relayed_guar|]. apply Hinner.
Qed.

(** The admission section gives the call its share of the active count. *)
Lemma admit_update s h (x : result N RelayError) (Q : RelayState → share → Prop) :
  (∀ σ', guar s σ' → Q σ' match x with
                          | Ok _ => guard_share ActiveRelayCall ⋅ held_share h
                          | Err _ => held_share h
                          end) →
  update inv guar s (held_share h) (λ σ σ', locked admit_call σ = (x, σ')) Q.
Proof.
  intros HQ σ fr σ' Hs [Ha Hr Hp Hw]. unfold locked, admit_call.
  destruct (accepting (drain σ)) eqn:Hacc; cbn [negb];
    [|intros [= <- <-]; assert (guar σ (set_drain (drain σ) σ)) by (by apply guar_same_drain);
      split; [done|]; eexists; split; [|apply HQ; by etrans]; by split].
  destruct (checked_add (active (drain σ)) 1) as [n|] eqn:En;
    [|intros [= <- <-]; assert (guar σ (set_drain (drain σ) σ)) by (by apply guar_same_drain);
      split; [done|]; eexists; split; [|apply HQ; by etrans]; by split].
  intros [= <- <-]. unfold checked_add in En. destruct (_ <=? usize_max); [|done]. injection En as <-.
  assert (guar σ (set_drain (mkDrainState true (active (drain σ) + 1)) σ)) by (split; [done|congruence]).
  split; [done|]. eexists. split; [|apply HQ; by etrans]. split; cbn in *; done || lia.
Qed.

Lemma DrainingRelay_spec (inner : SharedRelay) :
  relay_spec (λ _, [ActiveRelayCall]) inner →
  relay_spec (λ _, []) (Arc_new (mkDrainingRelay inner)).
Proof.
  intros Hinner raw s. unfold Arc_new, broadcast, DrainingRelay_broadcast. cbn [atomic bind wp].
  intros admitted. apply (admit_update _ []). intros s1 _.
  destruct admitted as [n|e]; [|by split]. cbn [bind wp].
  intros []. apply publish_update. intros s2 _.
  apply wp_scope; [apply relayed_guar|]. apply Hinner.
Qed.

(** ** The lifecycle handle *)

Lemma begin_shutdown_wp s :
  WP begin_shutdown (keeps (λ n σ, accepting (drain σ) = false ∧ active (drain σ) ≤ n) []) [] share_unit s.
Proof.
  unfold begin_shutdown, atomic. cbn [bind wp].
  intros n σ fr σ' Hs [Ha Hr Hp Hw]. unfold locked, stop_accepting. intros [= <- <-].
  assert (guar σ (set_drain (mkDrainState false (active (drain σ))) σ)).
  { split; [done|]. intros _. by split. }
  split; [done|]. eexists. split; [by split|].
  intros []. apply publish_update. intros s' [_ Hg]. destruct (Hg eq_refl) as (? & ? & _). by split.
Qed.

Lemma read_only_update {X} s m (f : RelayState → X * RelayState) x (Q : RelayState → share → Prop) :
  (∀ σ, (f σ).2 = σ) → (∀ σ', guar s σ' → Q σ' m) → update inv guar s m (λ σ σ', f σ = (x, σ')) Q.
Proof.
  intros Hf HQ. apply update_same; [|done]. intros σ σ' E. specialize (Hf σ). rewrite E in Hf. cbn in Hf. by subst.
Qed.

Lemma set_drain_id σ : set_drain (drain σ) σ = σ. Proof. by destruct σ. Qed.

Lemma wait_for_idle_wp maximum_wait s :
  WP (wait_for_idle maximum_wait) (keeps (λ _ _, True) []) [] share_unit s.
Proof.
  unfold wait_for_idle, atomic, loop, await. cbn [bind wp]. intros n. apply read_only_update; [done|].
  intros s1 _. destruct (n =? 0); [by split|]. cbn [wp].
  exists (λ _ h m _, h = [] ∧ m = share_unit). split; [done|]. intros [] h m s2 [-> ->]. cbn [bind wp].
  split; [by split|]. split; [apply update_same; [by intros ?? ->|intros; apply (cancel_held [])]|].
  intros changed. apply update_same; [by intros ?? ->|]. intros s3 _.
  destruct changed as [|[]]; [by split| |by split]. cbn [bind wp].
  intros n'. apply read_only_update; [done|]. intros s4 _. by destruct (n' =? 0).
Qed.

Lemma active_calls_wp s : WP active_calls (keeps (λ _ _, True) []) [] share_unit s.
Proof.
  unfold active_calls, atomic. cbn [wp]. intros n. apply read_only_update; [apply set_drain_id|by split].
Qed.

Lemma is_accepting_wp s : WP is_accepting (keeps (λ _ _, True) []) [] share_unit s.
Proof.
  unfold is_accepting, atomic. cbn [wp]. intros n. apply read_only_update; [apply set_drain_id|by split].
Qed.
End RelaySafety.
