(* ===== verification/RelayStack.v ===== *)
(** * The relay stack of the process (src/main.rs, src/relay/)

    How [run] composes the relays for a configuration, and what holds in every
    state the process reaches while any number of broadcasts, cancellations and
    uses of the lifecycle handle interleave. *)

From S2P Require Import Prelude RustStr RustNet Endpoint Config Serde Protocol JsonRef Async Tokio Relay RelaySafety.

Open Scope N_scope.
Open Scope rust_scope.
Open Scope async_scope.

Section Stack.
Context `{Sm : Semaphore} `{Wt : Watch} `{Ser : Serialize} `{Des : Deserialize RelayResponse}.

(** The relay for a configuration with the state it starts in; [None] is the
    [expect] on a missing relay endpoint. *)
Definition build_relay (config : Config) : option (SharedRelay * RelayState) :=
  relay ← match cfg_relay_mode config with
          | Reject => Some (Arc_new mkRejectRelay)
          | SocksElectrum =>
              relay_endpoint ← cfg_relay_endpoint config;
              Some (Arc_new (SocksElectrumRelay_new (cfg_socks5_proxy config) relay_endpoint
                               (cfg_relay_timeout config)))
          end;
  let '(limited, (requests, payload_bytes)) :=
    LimitedRelay_new relay (cfg_max_concurrent_broadcasts config) in
  let '(draining, (state, active)) := DrainingRelay_new (Arc_new limited) in
  Some (Arc_new draining, mkRelayState state active requests payload_bytes []).

(** The stack over one of the two adapters. *)
Lemma build_relay_cases config relay σ :
  build_relay config = Some (relay, σ) →
  ∃ adapter : SharedRelay,
    relay = Arc_new (mkDrainingRelay (Arc_new (mkLimitedRelay adapter)))
    ∧ (adapter = Arc_new mkRejectRelay
       ∨ ∃ proxy endpoint, adapter = Arc_new (SocksElectrumRelay_new proxy endpoint (cfg_relay_timeout config))).
Proof.
  unfold build_relay. destruct (match cfg_relay_mode config with Reject => _ | SocksElectrum => _ end)
    as [adapter|] eqn:Ea; [|done]. cbn. intros [= <- _]. exists adapter. split; [done|].
  destruct (cfg_relay_mode config); [injection Ea as <-; by left|right].
  destruct (cfg_relay_endpoint config); [|done]. injection Ea as <-. eauto.
Qed.

(** What tasks of the process do with the relay and its handle. *)
Inductive relay_op : Type :=
| CallBroadcast (raw_transaction : str)
| CallBeginShutdown
| CallWaitForIdle (maximum_wait : N)
| CallActiveCalls
| CallIsAccepting.

Inductive relay_outcome : Type :=
| BroadcastReturned (raw_transaction : str) (r : result str RelayError)
| ShutdownBegun (n : N)
| IdleWaited (idle : bool)
| ActiveCallsRead (n : N)
| AcceptingRead (b : bool).

Definition run_op (relay : SharedRelay) (op : relay_op) : relay_prog relay_outcome :=
  match op with
  | CallBroadcast raw => do r := relay raw in Ret (BroadcastReturned raw r)
  | CallBeginShutdown => do n := begin_shutdown in Ret (ShutdownBegun n)
  | CallWaitForIdle w => do b := wait_for_idle w in Ret (IdleWaited b)
  | CallActiveCalls => do n := active_calls in Ret (ActiveCallsRead n)
  | CallIsAccepting => do b := is_accepting in Ret (AcceptingRead b)
  end.

Definition relay_steps (relay : SharedRelay) :=
  steps drop_guard relay_env (λ p, ∃ op, p = run_op relay op).

(** States of a process that runs with [config]. *)
Definition reachable (config : Config) (c : system relay_outcome) : Prop :=
  ∃ relay σ, build_relay config = Some (relay, σ) ∧ relay_steps relay (mkSystem σ []) c.

(** What the configuration allows on the network. *)
Definition allowed_wire (config : Config) (e : wire_event) : Prop :=
  cfg_relay_mode config = SocksElectrum ∧
  ∃ target, cfg_relay_endpoint config = Some target ∧
    match e with
    | Connected proxy target' => proxy = cfg_socks5_proxy config ∧ target' = target
    | Sent target' data => target' = target ∧ ∃ raw, data `prefix_of` relay_request raw
    end.

Context `{SmL : !SemaphoreLaws}.

Abbreviation limit config := (ConcurrentBroadcastLimit_get (cfg_max_concurrent_broadcasts config)).
Abbreviation budget := MAX_CONFIGURABLE_IN_FLIGHT_BROADCAST_BYTES.

(** What a finished operation has established. *)
Definition outcome_ok (o : relay_outcome) (σ : RelayState) : Prop :=
  match o with
  | BroadcastReturned raw r => relayed raw r σ
  | ShutdownBegun n => accepting (drain σ) = false ∧ active (drain σ) ≤ n
  | _ => True
  end.

Abbreviation stack_ok config :=
  (system_ok drop_guard relay_env (inv (limit config) budget (allowed_wire config))
     (pre (allowed_wire config)) guar outcome_ok).

Lemma build_relay_spec config relay σ :
  build_relay config = Some (relay, σ) →
  relay_spec (limit config) budget (allowed_wire config) (λ _, []) relay
  ∧ inv (limit config) budget (allowed_wire config) σ share_unit.
Proof.
  unfold build_relay. intros E.
  destruct (match cfg_relay_mode config with Reject => _ | SocksElectrum => _ end) as [adapter|] eqn:Ea;
    [|done]. cbn in E. injection E as <- <-. split.
  2:{ split; cbn; rewrite ?sem_available_new; unfold LimitedRelay_new; rewrite ?N.add_0_r; done. }
  apply DrainingRelay_spec, LimitedRelay_spec.
  assert (relay_spec (limit config) budget (allowed_wire config) call_guards adapter) as Hs; [|exact Hs].
  destruct (cfg_relay_mode config) eqn:Em; [injection Ea as <-; apply RejectRelay_spec|].
  destruct (cfg_relay_endpoint config) as [e|] eqn:Ee; [|done]. cbn in Ea. injection Ea as <-.
  apply SocksElectrumRelay_spec. split; [|intros raw part ?]; (split; [done|]; exists e; eauto).
Qed.

Lemma run_op_wp config relay op s :
  relay_spec (limit config) budget (allowed_wire config) (λ _, []) relay →
  wp drop_guard relay_env (inv (limit config) budget (allowed_wire config)) (pre (allowed_wire config)) guar
    (run_op relay op) (finished (inv (limit config) budget (allowed_wire config)) outcome_ok) [] share_unit s.
Proof.
  intros Hr. destruct op as [raw| |w| |]; cbn [run_op]; apply wp_bind; eapply wp_mono.
  all: try (apply begin_shutdown_wp || apply wait_for_idle_wp || apply active_calls_wp
            || apply is_accepting_wp || apply Hr).
  all: intros r h m s' (-> & -> & ?); split; [done|]; split; [done|]; apply droppable_unit.
Qed.

Lemma relay_steps_ok config relay c c' :
  relay_spec (limit config) budget (allowed_wire config) (λ _, []) relay →
  stack_ok config c → relay_steps relay c c' → guar (shared c) (shared c') ∧ stack_ok config c'.
Proof.
  intros Hr. apply system_ok_steps; [apply _..|]. intros p s [op ->]. by apply run_op_wp.
Qed.

Lemma reachable_ok config c : reachable config c → stack_ok config c.
Proof.
  intros (relay & σ & Hb & Hs). apply build_relay_spec in Hb as [Hr Hi].
  by eapply relay_steps_ok in Hs as [_ ?]; [|done|apply system_ok_start].
Qed.


Lemma stack_returned config c i o h :
  stack_ok config c → pool c !! i = Some (Running (Ret o) h) → ∃ s, outcome_ok o s ∧ guar s (shared c).
Proof. apply system_ok_returned. Qed.

Lemma stack_ended config c :
  stack_ok config c → Forall ended (pool c) →
  inv (limit config) budget (allowed_wire config) (shared c) share_unit.
Proof. apply system_ok_ended; apply _. Qed.

(** ** Admission and payload bounds *)

Definition waiting_guards (t : task (S:=RelayState) (G:=guard) (E:=relayE) relay_outcome) : list guard :=
  match t with Running (Await _ _) h => h | _ => [] end.

(** The guards of all tasks suspended at an await, added up. *)
Definition in_flight (c : system relay_outcome) : share :=
  total_share ((λ t, held_share (waiting_guards t)) <$> pool c).


Lemma in_flight_le config c :
  stack_ok config c →
  ∃ m, inv (limit config) budget (allowed_wire config) (shared c) m ∧
       sh_active (in_flight c) ≤ sh_active m ∧ sh_requests (in_flight c) ≤ sh_requests m
       ∧ sh_bytes (in_flight c) ≤ sh_bytes m.
Proof.
  intros (ms & Hts & Hi). exists (total_share ms). split; [done|]. clear Hi. unfold in_flight.
  induction Hts as [|t m ts ms (s & _ & Hok) _ IH]; [cbn; lia|].
  assert (waiting_guards t = [] ∨ m = held_share (waiting_guards t)) as Hm.
  { destruct t as [[] ?| |]; cbn in *; auto. destruct Hok as ([? _] & _). by right. }
  unfold total_share in *. cbn in *. destruct IH as (? & ? & ?). destruct Hm as [-> | ->]; cbn; lia.
Qed.


(** C8: Nothing leaks. Once every task has returned, or has been cancelled at any
    await and finished dropping its guards, all request slots and payload
    permits are available again and no admitted call is counted. *)
Theorem permits_returned (config : Config) (c : system relay_outcome) :
  reachable config c → Forall ended (pool c) →
  sem_available (requests (shared c))
    = ConcurrentBroadcastLimit_get (cfg_max_concurrent_broadcasts config)
  ∧ sem_available (payload_bytes (shared c)) = MAX_CONFIGURABLE_IN_FLIGHT_BROADCAST_BYTES
  ∧ active (drain (shared c)) = 0.
Proof.
  intros Hc%reachable_ok He. destruct (stack_ended _ _ Hc He) as [Ha Hr Hp _].
  cbn in *. by rewrite N.add_0_r in Hr, Hp.
Qed.

(** C5: Network confinement. With a validated configuration, reject mode never
    touches the network on behalf of a broadcast; socks-electrum mode connects
    only through the configured SOCKS5 proxy and only to the configured relay
    endpoint, which is not the query upstream, and all it ever writes there is
    a relay request or, after a failure or cancellation, a prefix of one. *)
Theorem wire_confined (config : Config) (c : system relay_outcome) :
  valid_config config → reachable config c →
  match cfg_relay_mode config with
  | Reject => wire (shared c) = []
  | SocksElectrum =>
      ∃ target, cfg_relay_endpoint config = Some target
        ∧ distinct_targets target (cfg_upstream config)
        ∧ Forall (λ e, match e with
                       | Connected proxy target' => proxy = cfg_socks5_proxy config ∧ target' = target
                       | Sent target' data => target' = target ∧ ∃ raw, data `prefix_of` relay_request raw
                       end) (wire (shared c))
  end.
Proof.
  intros (cli & Hacc & ->)%valid_config_inv Hc%reachable_ok.
  destruct (in_flight_le _ _ Hc) as (m & [_ _ _ Hw] & _).
  destruct (cfg_relay_mode (config_of cli)) eqn:Em.
  - destruct (wire (shared c)) as [|e w]; [done|]. apply Forall_cons in Hw as [[Hm _] _]. congruence.
  - destruct (acc_socks _ Hacc Em) as (target & Ht & Hs). exists target. split; [done|].
    split; [apply (sa_separate _ _ Hs)|]. eapply Forall_impl; [exact Hw|].
    intros e (_ & target' & Ht' & He). assert (target' = target) as -> by (cbn in Ht'; congruence).
    by destruct e.
Qed.

(** C9: The shutdown boundary. When [begin_shutdown] has returned, admission has
    stopped and at most the returned number of calls is admitted. From the moment
    admission has stopped, along any execution, it never resumes, the number of
    admitted calls never grows, and once none is left nothing more is put on the
    network. *)
Theorem shutdown_boundary (config : Config) (relay : SharedRelay) (σ : RelayState)
    (c c' : system relay_outcome) :
  build_relay config = Some (relay, σ) →
  relay_steps relay (mkSystem σ []) c → relay_steps relay c c' →
  (∀ i n h, pool c !! i = Some (Running (Ret (ShutdownBegun n)) h) →
     accepting (drain (shared c)) = false ∧ active (drain (shared c)) ≤ n)
  ∧ (accepting (drain (shared c)) = false →
     accepting (drain (shared c')) = false
     ∧ active (drain (shared c')) ≤ active (drain (shared c))
     ∧ (active (drain (shared c)) = 0 → wire (shared c') = wire (shared c))).
Proof.
  intros Hb Hs Hs'. apply build_relay_spec in Hb as [Hr Hi].
  eapply relay_steps_ok in Hs as [_ Hc]; [|done|by apply system_ok_start]. split.
  - intros i n h Hp. destruct (stack_returned _ _ _ _ _ Hc Hp) as (s & [Ha Hn] & [_ Hg]).
    destruct (Hg Ha) as (? & ? & _). split; [done|lia].
  - eapply relay_steps_ok in Hs' as [[_ Hg] _]; [|done|done]. exact Hg.
Qed.

(** Success is earned. When a broadcast has returned success, the process is
    in socks-electrum mode, the complete request for exactly that transaction
    has been written to the configured relay endpoint, and the returned ID is 64
    lower-case hexadecimal digits. *)
Theorem success_means_submitted (config : Config) (c : system relay_outcome) (i : nat)
    (raw txid : str) (h : list guard) :
  reachable config c → pool c !! i = Some (Running (Ret (BroadcastReturned raw (Ok txid))) h) →
  is_txid txid ∧ cfg_relay_mode config = SocksElectrum ∧
  ∃ target, cfg_relay_endpoint config = Some target
    ∧ Sent target (relay_request raw) ∈ wire (shared c).
Proof.
  intros Hc%reachable_ok Hi. destruct (stack_returned _ _ _ _ _ Hc Hi) as (s & [Ht (target & Hs)] & [[k Hk] _]).
  destruct (in_flight_le _ _ Hc) as (m & [_ _ _ Hw] & _).
  assert (Sent target (relay_request raw) ∈ wire (shared c)) as Hin by (rewrite Hk; set_solver).
  rewrite Forall_forall in Hw. destruct (Hw _ Hin) as (Hm & target' & He & -> & _). eauto 10.
Qed.
End Stack.

Lemma build_relay_some `{Semaphore} `{Watch} `{Serialize} `{Deserialize RelayResponse} (config : Config) :
  valid_config config → is_Some (build_relay config).
Proof.
  intros (cli & Hacc & ->)%valid_config_inv. unfold build_relay.
  destruct (cfg_relay_mode (config_of cli)) eqn:Em; [by eexists|].
  destruct (acc_socks _ Hacc Em) as (target & Ht & _). cbn. rewrite Ht. by eexists.
Qed.
