(* ===== verification/RelayScenarios.v ===== *)
(** * The relay stack, on concrete executions

    The checks on the relay's response, the fail-closed paths of the two
    wrappers, and executed scenarios: the witnesses of the stack's theorems and
    the stale publication of the active count. *)

From S2P Require Import Prelude RustStr RustNet Endpoint Config Serde Protocol JsonRef Async Tokio Relay RelaySafety RelayStack.

Open Scope N_scope.
Open Scope rust_scope.
Open Scope async_scope.

(** ** Fail-closed paths *)

(** Steps of a task that reaches no await. *)
Definition sync_steps `{Semaphore} `{Watch} {R} : relation (RelayState * task (E:=relayE) R) :=
  rtc (λ a b, tstep drop_guard (λ _ _ _ _ _, False) a.1 a.2 b.1 b.2).

Section FailClosed.
Context `{Sm : Semaphore} `{Wt : Watch}.

Lemma sync_atomic {R X} (f : RelayState → X * RelayState) (k : X → relay_prog R) h σ x σ' b :
  f σ = (x, σ') → sync_steps (σ', Running (k x) h) b → sync_steps (σ, Running (Atomic f k) h) b.
Proof. intros Hf Hb. eapply rtc_l; [|exact Hb]. cbn. eauto. Qed.

Lemma sync_hold {R} g (k : relay_prog R) h σ b :
  sync_steps (σ, Running k (g :: h)) b → sync_steps (σ, Running (Hold g k) h) b.
Proof. intros Hb. eapply rtc_l; [|exact Hb]. by cbn. Qed.

Lemma sync_release {R} g (k : relay_prog R) h σ b :
  sync_steps (σ, Dropping (drop_guard g) k h) b → sync_steps (σ, Running (Release k) (g :: h)) b.
Proof. intros Hb. eapply rtc_l; [|exact Hb]. by cbn. Qed.

Lemma sync_drop {R X} (f : RelayState → X * RelayState) (k : relay_prog R) h σ x σ' b :
  f σ = (x, σ') → sync_steps (σ', Running k h) b → sync_steps (σ, Dropping (DStep f (λ _, DDone)) k h) b.
Proof.
  intros Hf Hb. apply (rtc_l _ _ (σ', Dropping DDone k h)); [cbn; eauto|].
  eapply rtc_l; [|exact Hb]. by cbn.
Qed.

(** C27: The admission limiter fails closed. When no request slot is free, or the
    payload permits left are fewer than the transaction's bytes, or its length
    does not fit 32 bits, a broadcast returns the relay failure without waiting
    and without calling the wrapped relay (which is arbitrary here), and leaves
    both semaphores, the drain state and the network as they were. *)
Theorem limited_fails_closed `{SmL : !SemaphoreLaws} (inner : SharedRelay) (raw : str) (σ : RelayState) :
  sem_available (requests σ) = 0 ∨ sem_available (payload_bytes σ) < len raw ∨ u32_max < len raw →
  ∃ σ', sync_steps (σ, Running (broadcast (mkLimitedRelay inner) raw) [])
                   (σ', Running (Ret (Err failed)) [])
    ∧ sem_available (requests σ') = sem_available (requests σ)
    ∧ sem_available (payload_bytes σ') = sem_available (payload_bytes σ)
    ∧ drain σ' = drain σ ∧ active_watch σ' = active_watch σ ∧ wire σ' = wire σ.
Proof.
  intros Hfull. unfold broadcast, LimitedRelay_broadcast, u32_try_from.
  destruct (N.leb_spec (len raw) u32_max); [|exists σ; by split; [apply rtc_refl|]].
  cbn [atomic bind]. pose proof (sem_acquire_spec 1 (requests σ)) as H1.
  destruct (N.leb_spec 1 (sem_available (requests σ))).
  2:{ exists (set_requests (requests σ) σ). split; [|done].
      eapply sync_atomic; [unfold try_acquire_request; by rewrite H1|]. apply rtc_refl. }
  destruct H1 as (s1 & E1 & Hs1). set (σ1 := set_requests s1 σ).
  pose proof (sem_acquire_spec (len raw) (payload_bytes σ)) as H2.
  rewrite (proj2 (N.leb_gt _ _)) in H2 by lia.
  exists (set_requests (sem_add_permits (requests σ1) 1) (set_payload (payload_bytes σ1) σ1)). split.
  - eapply sync_atomic; [unfold try_acquire_request; by rewrite E1|]. cbn [negb]. apply sync_hold.
    cbn [bind]. eapply (sync_atomic _ _ _ σ1); [unfold try_acquire_payload, σ1; cbn; by rewrite H2|].
    cbn [negb bind]. eapply sync_release, sync_drop; [done|]. apply rtc_refl.
  - cbn. rewrite sem_available_add. split; [lia|done].
Qed.

(** C28: The drain boundary fails closed. Once admission has stopped, a broadcast
    returns the relay failure without waiting, without calling the wrapped relay
    and without changing the relay state. *)
Theorem draining_fails_closed (inner : SharedRelay) (raw : str) (σ : RelayState) :
  accepting (drain σ) = false →
  sync_steps (σ, Running (broadcast (mkDrainingRelay inner) raw) []) (σ, Running (Ret (Err failed)) []).
Proof.
  intros Ha. unfold broadcast, DrainingRelay_broadcast. cbn [atomic bind].
  eapply sync_atomic; [unfold locked, admit_call; by rewrite Ha|]. cbn [negb].
  rewrite set_drain_id. apply rtc_refl.
Qed.

(** An acceptable reply: a complete line of at most 64 KiB that deserialises to
    a response with the relay's own request ID, no error and a 64-digit
    hexadecimal result. *)
Definition acceptable `{Des : Deserialize RelayResponse} (response : bytes) (candidate : str) : Prop :=
  0 < len response ≤ 64 * 1024 ∧ last response = Some newline ∧
  ∃ resp, from_slice response = Some resp
    ∧ resp_id resp = Str RELAY_REQUEST_ID ∧ resp_error resp = None ∧ resp_result resp = Some (Str candidate)
    ∧ len candidate = 64 ∧ Forall (λ b, is_ascii_hexdigit b = true) candidate.

(** C29: What counts as success. The relay's reply yields a transaction ID, in
    lower case, exactly when it is acceptable: a complete line of at most 64 KiB
    with the relay's own request ID, no error and a 64-digit hexadecimal result;
    every other reply is the relay failure. *)
Theorem relay_response_checked `{Des : Deserialize RelayResponse} (response : bytes) (r : result str RelayError) :
  relay_transaction_id response = r ↔
  (∃ candidate, acceptable response candidate ∧ r = Ok (to_ascii_lowercase candidate))
  ∨ (r = Err failed ∧ ∀ candidate, ¬ acceptable response candidate).
Proof.
  assert (∀ txid, relay_transaction_id response = Ok txid ↔
            ∃ c, acceptable response c ∧ Ok (E:=RelayError) txid = Ok (to_ascii_lowercase c)) as Hok.
  { intros txid. rewrite relay_transaction_id_Ok. unfold acceptable, MAX_RELAY_RESPONSE_BYTES. split.
    - intros (? & ? & resp & c & ? & ? & ? & ? & ? & ? & ->). eauto 15.
    - intros (c & (? & ? & resp & ? & ? & ? & ? & ? & ?) & [= ->]). split; [done|]. split; [done|]. eauto 15. }
  split.
  - intros E. destruct r as [txid|e]; [left; by apply Hok|right].
    pose proof (relay_transaction_id_Err _ _ E) as ->. split; [done|]. intros c Hc.
    assert (relay_transaction_id response = Ok (to_ascii_lowercase c)) by (apply Hok; eauto). congruence.
  - intros [(c & Hc & ->)|[-> Hn]]; [apply Hok; eauto|].
    destruct (relay_transaction_id response) as [txid|e] eqn:E.
    + destruct (proj1 (Hok txid) eq_refl) as (c & Hc & _). by destruct (Hn c).
    + by rewrite (relay_transaction_id_Err _ _ E).
Qed.
End FailClosed.

(** ** Executed scenarios *)

#[export] Instance RelayResponse_Deserialize : Deserialize RelayResponse := λ x,
  v ← parse_json x;
  fields ← struct_fields [lit "id"; lit "result"; lit "error"] v;
  match fields with
  | [Present id; fresult; ferror] =>
      result ← optional_value fresult; error ← optional_value ferror;
      Some (mkRelayResponse id result error)
  | _ => None
  end.

Definition txid_reply : bytes :=
  frame "{'id':'electrum-private-relay','result':'00112233445566778899AABBCCDDEEFF00112233445566778899AABBCCDDEEFF'}".

(** A network on which everything works and the relay accepts. *)
Definition working_network (X : Type) (e : relayE X) : RelayState → option (X * RelayState) :=
  match e in relayE X return RelayState → option (X * RelayState) with
  | SocksConnect _ proxy target => λ σ, Some (InTime (Ok tt), add_wire (Connected proxy target) σ)
  | SocksWriteAll _ target data => λ σ, Some (InTime (Ok tt), add_wire (Sent target data) σ)
  | SocksReadUntil _ limit _ => λ σ,
      Some (InTime (Ok (if len txid_reply <=? limit then txid_reply else [])), σ)
  | ActiveChanged _ => λ σ, Some (Elapsed, σ)
  end.

Definition dropped_network (X : Type) (e : relayE X) (σ : RelayState) : option RelayState :=
  Some (match e with SocksWriteAll _ target _ => add_wire (Sent target []) σ | _ => σ end).

Lemma working_network_env X (e : relayE X) σ x σ' :
  working_network X e σ = Some (x, σ') → relay_env X e σ (Some x) σ'.
Proof.
  destruct e as [| |d limit t|]; cbn [working_network]; intros [= <- <-]; [done|done| |done].
  split; [done|]. destruct (N.leb_spec (len txid_reply) limit);
    [|by split; [rewrite len_nil; lia|apply not_elem_of_nil]].
  split; [done|]. apply contains_byte_false. vm_compute. reflexivity.
Qed.

Lemma dropped_network_env X (e : relayE X) σ σ' : dropped_network X e σ = Some σ' → relay_env X e σ None σ'.
Proof. intros [= <-]. destruct e; cbn; auto. exists []. split; [apply prefix_nil|done]. Qed.

Abbreviation relay_system := (system (S:=RelayState) (G:=guard) (E:=relayE) relay_outcome).

Definition sample : Config := config_of sample_cli.
Definition sample_stack : SharedRelay * RelayState :=
  default (Arc_new mkRejectRelay, mkRelayState (mkDrainState false 0) 0 0 0 []) (build_relay sample).

(** A schedule: which task moves, which is cancelled, which call starts. *)
Inductive move : Type := Go (i : nat) | Stop (i : nat) | Do (op : relay_op).

Definition to_action (m : move) : action :=
  match m with
  | Go i => Run i
  | Stop i => Cancel i
  | Do op => Spawn (run_op sample_stack.1 op)
  end.

Definition run_from (c : relay_system) (schedule : list move) : option relay_system :=
  exec drop_guard working_network dropped_network c (to_action <$> schedule).

Definition run (schedule : list move) : option relay_system :=
  run_from (mkSystem sample_stack.2 []) schedule.

Lemma run_from_steps c schedule c' : run_from c schedule = Some c' → relay_steps sample_stack.1 c c'.
Proof.
  apply exec_sound; [apply working_network_env|apply dropped_network_env|].
  apply Forall_fmap, Forall_true. intros []; cbn; eauto.
Qed.

Lemma sample_built : build_relay sample = Some (sample_stack.1, sample_stack.2).
Proof. reflexivity. Qed.

Lemma run_reachable schedule c : run schedule = Some c → reachable sample c.
Proof.
  intros Hr. exists sample_stack.1, sample_stack.2. split; [exact sample_built|]. by eapply run_from_steps.
Qed.

Lemma ran schedule : match run schedule with Some _ => true | None => false end = true → ∃ c, run schedule = Some c.
Proof. destruct (run schedule); [eauto|done]. Qed.

(** A schedule that goes on from the end of another. *)
Lemma ran_on schedule more c :
  run schedule = Some c → match run (schedule ++ more) with Some _ => true | None => false end = true →
  ∃ c', run_from c more = Some c' ∧ run (schedule ++ more) = Some c'.
Proof.
  unfold run, run_from. rewrite fmap_app, exec_app. intros ->. cbn. destruct (exec _ _ _ c _); [eauto|done].
Qed.

(** Reads a value off the state a schedule ends in. *)
Lemma observed {A} (f : relay_system → A) (d : A) schedule c x :
  run schedule = Some c → from_option f d (run schedule) = x → f c = x.
Proof. by intros ->. Qed.

(** What task [i] has returned. *)
Definition returned (c : relay_system) (i : nat) : option relay_outcome :=
  match pool c !! i with Some (Running (Ret o) _) => Some o | _ => None end.

Lemma returned_pool c i o : returned c i = Some o → ∃ h, pool c !! i = Some (Running (Ret o) h).
Proof.
  unfold returned. destruct (pool c !! i) as [[[] h| |]|]; try done. intros [= ->]. eauto.
Qed.

(** One broadcast that runs to completion; two that wait on the network. *)
Definition one_broadcast : list move := Do (CallBroadcast (lit "00ff")) :: replicate 20 (Go 0).
Definition shut_down : list move := Do CallBeginShutdown :: replicate 2 (Go 0).


Definition all_ended (c : relay_system) : bool :=
  forallb (λ t, match t with Running (Ret _) _ | Unwinding DDone => true | _ => false end) (pool c).

Lemma all_ended_Forall c : all_ended c = true → Forall ended (pool c).
Proof.
  unfold all_ended. rewrite forallb_Forall. intros H. eapply Forall_impl; [exact H|].
  intros [[] ?| |[]]; done.
Qed.

(** A completed broadcast and one cancelled while it writes its request. *)
Definition one_cancelled : list move :=
  one_broadcast ++ Do (CallBroadcast (lit "abcdef")) :: replicate 8 (Go 1) ++ Stop 1 :: replicate 4 (Go 1).

Lemma permits_returned_witness :
  ∃ c, run one_cancelled = Some c ∧ sem_available (requests (shared c)) = 8 ∧ active (drain (shared c)) = 0.
Proof.
  destruct (ran one_cancelled ltac:(vm_compute; reflexivity)) as [c E].
  destruct (permits_returned sample c) as (H1 & _ & H2).
  - by apply (run_reachable one_cancelled).
  - apply all_ended_Forall, (observed all_ended false _ _ _ E). vm_compute. reflexivity.
  - exists c. split; [done|]. split; [exact H1|exact H2].
Defined.

Lemma wire_confined_witness :
  ∃ c, run one_broadcast = Some c ∧
       ∃ target, cfg_relay_endpoint sample = Some target ∧ distinct_targets target (cfg_upstream sample).
Proof.
  destruct (ran one_broadcast ltac:(vm_compute; reflexivity)) as [c E].
  destruct (wire_confined sample c) as (target & H1 & H2 & _).
  - exact sample_valid.
  - by apply (run_reachable one_broadcast).
  - eauto.
Defined.

Lemma shutdown_boundary_witness :
  ∃ c c', run shut_down = Some c
       ∧ run_from c (Do (CallBroadcast (lit "00")) :: [Go 1]) = Some c'
       ∧ accepting (drain (shared c)) = false ∧ wire (shared c') = wire (shared c).
Proof.
  destruct (ran shut_down ltac:(vm_compute; reflexivity)) as [c E].
  destruct (ran_on _ (Do (CallBroadcast (lit "00")) :: [Go 1]) _ E ltac:(vm_compute; reflexivity))
    as (c' & E' & _).
  assert (active (drain (shared c)) = 0) as Hd.
  { apply (observed (λ c, active (drain (shared c))) 1 _ _ _ E). vm_compute. reflexivity. }
  assert (returned c 0 = Some (ShutdownBegun 0)) as (h & Hp)%returned_pool.
  { apply (observed (λ c, returned c 0) None _ _ _ E). vm_compute. reflexivity. }
  destruct (shutdown_boundary sample _ _ c c' sample_built (run_from_steps _ shut_down _ E) (run_from_steps _ _ _ E'))
    as [Hbegun Hafter].
  destruct (Hbegun _ _ _ Hp) as [Ha _]. destruct (Hafter Ha) as (_ & _ & Hw).
  exists c, c'. split; [exact E|]. split; [exact E'|]. split; [exact Ha|exact (Hw Hd)].
Defined.

Lemma success_means_submitted_witness :
  ∃ c target, run one_broadcast = Some c ∧ cfg_relay_endpoint sample = Some target
              ∧ Sent target (relay_request (lit "00ff")) ∈ wire (shared c).
Proof.
  destruct (ran one_broadcast ltac:(vm_compute; reflexivity)) as [c E].
  assert (returned c 0 = Some (BroadcastReturned (lit "00ff")
    (Ok (lit "00112233445566778899aabbccddeeff00112233445566778899aabbccddeeff")))) as (h & Hp)%returned_pool.
  { apply (observed (λ c, returned c 0) None _ _ _ E). vm_compute. reflexivity. }
  destruct (success_means_submitted sample c 0 _ _ h (run_reachable one_broadcast c E) Hp)
    as (_ & _ & target & H1 & H2).
  eauto.
Defined.

Definition relay_state (d : DrainState) (w r p : N) : RelayState :=
  @mkRelayState counter_semaphore cell_watch d w r p [].

Lemma limited_fails_closed_witness :
  ∃ σ', sync_steps
          (relay_state (mkDrainState true 0) 0 0 100,
           Running (broadcast (mkLimitedRelay (Arc_new mkRejectRelay)) (lit "00ff")) [])
          (σ', Running (Ret (Err failed)) []).
Proof.
  destruct (limited_fails_closed (Arc_new mkRejectRelay) (lit "00ff")
              (relay_state (mkDrainState true 0) 0 0 100)) as (σ' & H & _).
  - left. reflexivity.
  - exists σ'. exact H.
Defined.

Lemma draining_fails_closed_witness :
  sync_steps
    (relay_state (mkDrainState false 1) 1 7 100,
     Running (broadcast (mkDrainingRelay (Arc_new mkRejectRelay)) (lit "00ff")) [])
    (relay_state (mkDrainState false 1) 1 7 100, Running (Ret (Err failed)) []).
Proof. apply draining_fails_closed. reflexivity. Defined.

(** ** The stale publication *)

(** A first call is about to publish its departure when a second is admitted
    and shutdown begins; then the first publishes its old count of zero. *)
Definition stale_publication : list move :=
  Do (CallBroadcast (lit "00ff")) :: replicate 18 (Go 0)
  ++ Do (CallBroadcast (lit "abcd")) :: replicate 7 (Go 1)
  ++ Do CallBeginShutdown :: replicate 2 (Go 2)
  ++ [Go 0; Do (CallWaitForIdle 5); Go 3].

(** C30: The active count is published outside the lock, so publications can
    overtake each other: in a reachable state, shutdown has begun and reported
    one admitted call, [wait_for_idle] has then returned [true], and yet that
    call is still admitted and goes on to submit its transaction. *)
Theorem idle_reported_while_active :
  ∃ c c' target, reachable sample c ∧ relay_steps sample_stack.1 c c'
    ∧ returned c 2 = Some (ShutdownBegun 1) ∧ returned c 3 = Some (IdleWaited true)
    ∧ drain (shared c) = mkDrainState false 1
    ∧ Sent target (relay_request (lit "abcd")) ∉ wire (shared c)
    ∧ Sent target (relay_request (lit "abcd")) ∈ wire (shared c').
Proof.
  destruct (ran stale_publication ltac:(vm_compute; reflexivity)) as [c E].
  destruct (ran_on _ [Go 1; Go 1] _ E ltac:(vm_compute; reflexivity)) as (c' & E' & E2).
  exists c, c', (mkEndpoint (lit "relay.example") 50001).
  split; [by apply (run_reachable stale_publication)|].
  split; [by eapply run_from_steps|].
  split; [apply (observed (λ c, returned c 2) None _ _ _ E); vm_compute; reflexivity|].
  split; [apply (observed (λ c, returned c 3) None _ _ _ E); vm_compute; reflexivity|].
  split; [apply (observed (λ c, drain (shared c)) (mkDrainState true 0) _ _ _ E); vm_compute; reflexivity|].
  split.
  - assert (length (wire (shared c)) = 2%nat ∧ wire (shared c) !! 1%nat
      = Some (Sent (mkEndpoint (lit "relay.example") 50001) (relay_request (lit "00ff")))) as [Hl H1].
    { split; [apply (observed (λ c, length (wire (shared c))) 0%nat _ _ _ E)
             |apply (observed (λ c, wire (shared c) !! 1%nat) None _ _ _ E)]; vm_compute; reflexivity. }
    assert (wire (shared c) !! 0%nat
      = Some (Connected (cfg_socks5_proxy sample) (mkEndpoint (lit "relay.example") 50001))) as H0.
    { apply (observed (λ c, wire (shared c) !! 0%nat) None _ _ _ E). vm_compute. reflexivity. }
    intros (i & Hi)%list_elem_of_lookup. pose proof (lookup_lt_Some _ _ _ Hi).
    destruct i as [|[|i]]; [congruence| |lia]. rewrite H1 in Hi. vm_compute in Hi. discriminate Hi.
  - apply (list_elem_of_lookup_2 _ 3).
    apply (observed (λ c, wire (shared c) !! 3%nat) None _ _ _ E2). vm_compute. reflexivity.
Qed.
