(* ===== verification/RelayOnce.v ===== *)
(** * At most one submission per broadcast call

    Every write to the relay's connection belongs to a broadcast call of its
    own: no call submits twice, none submits another call's transaction, and
    nothing is submitted without a call. *)

From stdpp Require Import gmultiset.
From S2P Require Import Prelude RustStr RustNet Endpoint Config Serde Protocol JsonRef Async Tokio Relay RelaySafety RelayStack.

Open Scope N_scope.
Open Scope rust_scope.
Open Scope async_scope.

(** The data written to relays, one entry for each write. *)
Definition sent_data (e : wire_event) : option bytes :=
  match e with Sent _ data => Some data | Connected _ _ => None end.
Definition sends (w : list wire_event) : list bytes := omap sent_data w.

(** Shares: the transactions a task may still submit. *)
#[local] Instance due_Shares : Shares (gmultiset str) := {| share_op := (⊎); share_unit := ∅ |}.

#[local] Instance due_laws : SharesLaws (gmultiset str).
Proof. split; [exact (assoc_L (⊎))|exact (comm_L (⊎))|exact (left_id_L ∅ (⊎))]. Qed.

Lemma due_op (a b : gmultiset str) : a ⋅ b = a ⊎ b.
Proof. done. Qed.

Section Once.
Context `{Sm : Semaphore} `{Wt : Watch} `{Ser : Serialize} `{Des : Deserialize RelayResponse}.
Context (calls : gmultiset str).
Implicit Types (σ s : RelayState) (due : gmultiset str) (g : guard) (h : list guard) (raw : str).

Lemma sends_add e σ :
  sends (wire (add_wire e σ)) = sends (wire σ) ++ match sent_data e with Some d => [d] | None => [] end.
Proof. unfold sends. cbn. rewrite omap_app. cbn. by destruct (sent_data e). Qed.

(** The transactions written, whole or in part, and those still due are among
    the calls. *)
Definition once_inv (σ : RelayState) (due : gmultiset str) : Prop :=
  ∃ raws, Forall2 (λ data raw, data `prefix_of` relay_request raw) (sends (wire σ)) raws
          ∧ list_to_set_disj raws ⊎ due ⊆ calls.

Definition any_pre (X : Type) (e : relayE X) (h : list guard) (due : gmultiset str) (s : RelayState) : Prop := True.
Definition any_guar (σ σ' : RelayState) : Prop := True.

#[export] Instance any_guar_preorder : PreOrder any_guar.
Proof. by split. Qed.

Abbreviation OWP := (wp drop_guard relay_env once_inv any_pre any_guar).
Abbreviation OUP := (update once_inv any_guar).

Lemma once_droppable due : droppable once_inv due.
Proof. intros σ fr (raws & Hr & Hs). exists raws. split; [done|]. rewrite due_op in Hs. multiset_solver. Qed.

(** A step that writes nothing. *)
Lemma unsent_update (s : RelayState) (due : gmultiset str) (rel : RelayState → RelayState → Prop) (Q : RelayState → gmultiset str → Prop) :
  (∀ σ σ', rel σ σ' → sends (wire σ') = sends (wire σ)) → (∀ σ', Q σ' due) → OUP s due rel Q.
Proof.
  intros Hrel HQ σ fr σ' _ Hi Hr%Hrel. split; [done|]. exists due. split; [|done]. unfold once_inv. by rewrite Hr.
Qed.

(** The write that a call was due. *)
Lemma sent_update (s : RelayState) (raw : str) (rel : RelayState → RelayState → Prop) (Q : RelayState → gmultiset str → Prop) :
  (∀ σ σ', rel σ σ' → ∃ target part, part `prefix_of` relay_request raw ∧ σ' = add_wire (Sent target part) σ) →
  (∀ σ', Q σ' ∅) → OUP s {[+ raw +]} rel Q.
Proof.
  intros Hrel HQ σ fr σ' _ (raws & Hf & Hs) Hr. destruct (Hrel _ _ Hr) as (target & part & Hp & ->).
  split; [done|]. exists ∅. split; [|done]. exists (raws ++ [raw]). rewrite sends_add. split.
  - apply Forall2_app; [done|by repeat constructor].
  - rewrite due_op in *. rewrite list_to_set_disj_app, list_to_set_disj_cons, list_to_set_disj_nil. multiset_solver.
Qed.

Lemma drop_guard_sends g (Q : gmultiset str → RelayState → Prop) due s :
  (∀ s', Q due s') → wpd once_inv any_guar (drop_guard g) Q due s.
Proof.
  intros HQ. destruct g; cbn [drop_guard wpd]; intros x; (apply unsent_update; [by intros ?? [= <- <-] || by intros ?? [= _ <-]|]);
    intros s1; [intros y; apply unsent_update; [by intros ?? [= _ <-]|]|..]; auto.
Qed.

Lemma cancel_once h due s : cancel_ok drop_guard once_inv any_guar h due s.
Proof.
  unfold cancel_ok. revert s. induction h as [|g h IH]; intros s; [apply once_droppable|].
  cbn [drop_all]. apply wpd_dseq, drop_guard_sends. intros s'. apply IH.
Qed.

(** A call may submit its transaction once. *)
Definition once_spec (relay : SharedRelay) : Prop :=
  ∀ raw h s, OWP (relay raw) (λ _ h' _ _, h' = h) h {[+ raw +]} s.

Lemma RejectRelay_once : once_spec (Arc_new mkRejectRelay).
Proof. by intros raw h s. Qed.

Lemma SocksElectrumRelay_once (self : SocksElectrumRelay) : once_spec (Arc_new self).
Proof.
  intros raw h s. unfold Arc_new, broadcast, SocksElectrumRelay_broadcast, await. cbn [bind wp].
  assert (∀ o σ σ', relay_env _ (SocksConnect (timeout self) (socks5_proxy self) (endpoint self)) σ o σ' →
            sends (wire σ') = sends (wire σ)) as Hconnect.
  { intros o σ σ' He. assert (σ' = σ ∨ σ' = add_wire (Connected (socks5_proxy self) (endpoint self)) σ) as [-> | ->]; [|done|].
    - destruct o as [[|[]]|]; cbn in He; auto.
    - rewrite sends_add. cbn. by rewrite app_nil_r. }
  assert (∀ o σ σ', relay_env _ (SocksWriteAll (timeout self) (endpoint self) (relay_request raw)) σ o σ' →
            ∃ target part, part `prefix_of` relay_request raw ∧ σ' = add_wire (Sent target part) σ) as Hwrite.
  { intros [[|[]]|] σ σ'; cbn; try (intros (part & ? & ->); eauto). intros ->. by exists (endpoint self), (relay_request raw). }
  split; [done|]. split; [apply unsent_update; [intros ??; apply Hconnect|intros; apply cancel_once]|].
  intros connected. apply unsent_update; [intros ??; apply Hconnect|]. intros s1.
  destruct (timed_ok connected); [|done]. cbn [bind wp].
  split; [done|]. split; [apply sent_update; [intros ??; apply Hwrite|intros; apply cancel_once]|].
  intros written. apply sent_update; [intros ??; apply Hwrite|]. intros s2.
  destruct (timed_ok written); [|done]. cbn [bind wp].
  split; [done|]. split; [apply unsent_update; [by intros ?? [-> _]|intros; apply cancel_once]|].
  intros response. apply unsent_update; [by intros ?? [-> _]|]. intros s3. by destruct (timed_ok response).
Qed.

Lemma once_scope {R} g (p : relay_prog R) h due s :
  OWP p (λ _ h' _ _, h' = g :: h) (g :: h) due s → OWP (scope g p) (λ _ h' _ _, h' = h) h due s.
Proof.
  intros Hp. apply wp_guarded. eapply wp_mono; [|exact Hp]. intros r h' m s' ->. split; [done|].
  by apply drop_guard_sends.
Qed.

Lemma LimitedRelay_once inner : once_spec inner → once_spec (Arc_new (mkLimitedRelay inner)).
Proof.
  intros Hinner raw h s. unfold Arc_new, broadcast, LimitedRelay_broadcast.
  destruct (u32_try_from (len raw)); [|done]. cbn [atomic bind wp].
  intros acquired. apply unsent_update.
  { intros σ σ'. unfold try_acquire_request. destruct (sem_acquire _ _). by intros [= _ <-]. }
  intros s1. destruct acquired; cbn [negb]; [|done]. apply once_scope. cbn [bind wp].
  intros acquired. apply unsent_update.
  { intros σ σ'. unfold try_acquire_payload. destruct (sem_acquire _ _). by intros [= _ <-]. }
  intros s2. destruct acquired; cbn [negb]; [|done]. apply once_scope, Hinner.
Qed.

Lemma DrainingRelay_once inner : once_spec inner → once_spec (Arc_new (mkDrainingRelay inner)).
Proof.
  intros Hinner raw h s. unfold Arc_new, broadcast, DrainingRelay_broadcast. cbn [atomic bind wp].
  intros admitted. apply unsent_update.
  { intros σ σ'. unfold locked. destruct (admit_call _). by intros [= _ <-]. }
  intros s1. destruct admitted as [n|e]; [|done]. cbn [bind wp].
  intros []. apply unsent_update; [by intros ?? [= <-]|]. intros s2. apply once_scope, Hinner.
Qed.

Lemma build_relay_once config relay σ : build_relay config = Some (relay, σ) → once_spec relay.
Proof.
  intros (adapter & -> & Ha)%build_relay_cases. apply DrainingRelay_once, LimitedRelay_once.
  destruct Ha as [-> |(proxy & endpoint & ->)]; [apply RejectRelay_once|apply SocksElectrumRelay_once].
Qed.

(** The calls that an operation makes. *)
Definition op_calls (op : relay_op) : list str :=
  match op with CallBroadcast raw => [raw] | _ => [] end.

Lemma run_op_once relay op s :
  once_spec relay →
  OWP (run_op relay op) (finished once_inv (λ _ _, True)) [] (list_to_set_disj (op_calls op)) s.
Proof.
  assert (∀ due, finished once_inv (λ _ _, True) tt ([] : list guard) due s) as Hf.
  { intros due. split; [done|]. split; [done|apply once_droppable]. }
  assert (∀ R (r : R) (h : list guard) due s', h = [] → finished once_inv (λ _ _, True) r h due s') as Hfin.
  { intros R r h due s' ->. split; [done|]. split; [done|apply once_droppable]. }
  intros Hr. destruct op as [raw| |w| |]; cbn [run_op op_calls list_to_set_disj].
  - apply wp_bind. rewrite gmultiset_disj_union_right_id. eapply wp_mono; [|apply Hr]. intros r h due s' ->. by apply Hfin.
  - intros n. apply unsent_update; [by intros ?? [= _ <-]|]. intros s1 x. apply unsent_update; [by intros ?? [= _ <-]|].
    intros s2. by apply Hfin.
  - apply wp_bind. unfold wait_for_idle, atomic, loop, await. cbn [bind wp]. intros n.
    apply unsent_update; [by intros ?? [= _ <-]|]. intros s1. destruct (n =? 0); [by apply Hfin|]. cbn [wp].
    exists (λ _ h _ _, h = []). split; [done|]. intros [] h m s2 ->. cbn [bind wp]. split; [done|].
    split; [apply unsent_update; [by intros ?? ->|intros; apply cancel_once]|].
    intros changed. apply unsent_update; [by intros ?? ->|]. intros s3.
    destruct changed as [|[]]; [by apply Hfin| |by apply Hfin]. cbn [bind wp].
    intros n'. apply unsent_update; [by intros ?? [= _ <-]|]. intros s4. destruct (n' =? 0); [by apply Hfin|done].
  - intros n. apply unsent_update; [by intros ?? [= _ <-]|]. intros s1. by apply Hfin.
  - intros n. apply unsent_update; [by intros ?? [= _ <-]|]. intros s1. by apply Hfin.
Qed.
End Once.

(** ** Executions and the calls made in them *)

Lemma elements_list_to_set_disj (l : list str) : elements (list_to_set_disj l : gmultiset str) ≡ₚ l.
Proof.
  induction l as [|x l IH]; [done|].
  rewrite list_to_set_disj_cons, gmultiset_elements_disj_union, gmultiset_elements_singleton, IH. done.
Qed.

Lemma list_to_set_disj_submseteq (l k : list str) :
  (list_to_set_disj l : gmultiset str) ⊆ list_to_set_disj k → l ⊆+ k.
Proof. intros H%gmultiset_elements_submseteq. by rewrite !elements_list_to_set_disj in H. Qed.

Section Runs.
Context `{Sm : Semaphore} `{Wt : Watch} `{Ser : Serialize} `{Des : Deserialize RelayResponse}.
Implicit Types (σ : RelayState) (ops : list relay_op) (c : system (S:=RelayState) (G:=guard) (E:=relayE) relay_outcome).

(** The states reached from [σ0], with the operations started on the way. *)
Inductive relay_run (relay : SharedRelay) (σ0 : RelayState) : list relay_op → system relay_outcome → Prop :=
| run_start : relay_run relay σ0 [] (mkSystem σ0 [])
| run_step ops σ ts i t σ' t' :
    relay_run relay σ0 ops (mkSystem σ ts) → ts !! i = Some t → tstep drop_guard relay_env σ t σ' t' →
    relay_run relay σ0 ops (mkSystem σ' (<[i:=t']> ts))
| run_spawn ops σ ts op :
    relay_run relay σ0 ops (mkSystem σ ts) →
    relay_run relay σ0 (ops ++ [op]) (mkSystem σ (ts ++ [Running (run_op relay op) []])).

Lemma relay_run_steps relay σ0 ops c : relay_run relay σ0 ops c → relay_steps relay (mkSystem σ0 []) c.
Proof.
  unfold relay_steps, steps. induction 1 as [|ops σ ts i t σ' t' _ IH Hi Ht|ops σ ts op _ IH]; [done|..];
    (eapply rtc_r; [exact IH|]).
  - by eapply step_task.
  - apply step_spawn. eauto.
Qed.

Lemma relay_steps_run relay σ0 c : relay_steps relay (mkSystem σ0 []) c → ∃ ops, relay_run relay σ0 ops c.
Proof.
  intros H. refine (rtc_ind_r (λ c, ∃ ops, relay_run relay σ0 ops c) _ _ _ _ H); [exists []; constructor|].
  clear c H. intros c c' _ Hstep [ops Hr]. destruct Hstep as [σ ts i t σ' t' Hi Ht|σ ts p [op ->]].
  - exists ops. by eapply run_step.
  - exists (ops ++ [op]). by constructor.
Qed.

(** All the broadcasts called. *)
Definition run_calls ops : list str := ops ≫= op_calls.

(** The shares of the tasks and [extra] calls that are still to be made. *)
Definition once_ok (calls extra : gmultiset str) c : Prop :=
  ∃ ms, Forall2 (owns drop_guard relay_env (once_inv calls) any_pre any_guar (λ _ _, True) (shared c)) (pool c) ms
        ∧ once_inv calls (shared c) (total_share ms ⋅ extra).

Lemma relay_run_once config relay σ0 ops c extra :
  build_relay config = Some (relay, σ0) → relay_run relay σ0 ops c →
  once_ok (list_to_set_disj (run_calls ops) ⊎ extra) extra c.
Proof.
  intros Hb Hr. revert extra. induction Hr as [|ops σ ts i t σ' t' _ IH Hi Ht|ops σ ts op _ IH]; intros extra.
  - exists []. split; [constructor|]. exists []. split.
    2:{ rewrite due_op. change (total_share []) with (∅ : gmultiset str). change (run_calls []) with ([] : list str).
        rewrite list_to_set_disj_nil. multiset_solver. }
    revert Hb. unfold build_relay.
    destruct (match cfg_relay_mode config with Reject => _ | SocksElectrum => _ end); [|done].
    intros [= _ <-]. constructor.
  - destruct (IH extra) as (ms & Hts & Hi'). cbn [shared pool] in Hts, Hi'.
    by destruct (pool_step _ _ _ _ _ _ σ ts ms extra i t σ' t' Hts Hi' Hi Ht) as (_ & ms' & ? & ?); [exists ms'].
  - destruct (IH (list_to_set_disj (op_calls op) ⊎ extra)) as (ms & Hts & Hi). cbn [shared pool] in Hts, Hi.
    unfold run_calls in *. rewrite bind_app, list_to_set_disj_app. cbn [mbind list_bind]. rewrite app_nil_r.
    rewrite <- (assoc_L (⊎)).
    destruct (pool_spawn drop_guard relay_env _ any_pre any_guar (λ _ _, True) σ ts ms (list_to_set_disj (op_calls op)) extra
                (run_op relay op) Hts Hi) as (ms' & ? & ?); [|by exists ms'].
    intros s. apply run_op_once. by eapply build_relay_once.
Qed.

(** No retry, no fan-out. In every execution of the relay stack each write to
    a relay's connection, whole or in part, is that of a broadcast call of its
    own and of that call's transaction: there are never more submissions of a
    transaction than there were calls for it. *)
Lemma submissions_answer_calls config relay σ0 ops c :
  build_relay config = Some (relay, σ0) → relay_run relay σ0 ops c →
  ∃ raws, Forall2 (λ data raw, data `prefix_of` relay_request raw) (sends (wire (shared c))) raws
          ∧ raws ⊆+ run_calls ops.
Proof.
  intros Hb Hr. destruct (relay_run_once _ _ _ _ _ ∅ Hb Hr) as (ms & _ & raws & Hf & Hs).
  exists raws. split; [done|]. apply list_to_set_disj_submseteq. multiset_solver.
Qed.
End Runs.
