(* ===== verification/Frames.v ===== *)
(** * Frames and pending requests (src/proxy.rs)

    Newline-delimited framing over a byte stream with its size bound, request
    ID keys, and the bounded table of pending requests. *)

From S2P Require Import Prelude RustStr Serde Protocol Tokio.

Open Scope N_scope.
Open Scope rust_scope.

(** The [io::ErrorKind]s that the proxy tells apart. *)
Inductive io_error : Type := InvalidData | OtherError.

#[export] Instance io_error_eq_dec : EqDecision io_error.
Proof. solve_decision. Defined.

(** ** [read_frame] *)

(** The bound passed to [take]: [(max_frame_bytes + 1) as u64]. *)
Definition frame_limit (max_frame_bytes : N) : N := wrapping_add max_frame_bytes 1.

(** What [read_frame] makes of the buffer that [read_until] filled. *)
Definition frame_of (max_frame_bytes : N) (frame : bytes) : result (option bytes) io_error :=
  if len frame =? 0 then Ok None
  else if (max_frame_bytes <? len frame) || negb (last_is (Byte.eqb newline) frame)
  then Err InvalidData
  else Ok (Some frame).

(** What awaiting [reader.take(limit).read_until(b'\n', ..)] does to a stream: it
    fills the buffer, or fails with an I/O error of any kind after having taken
    some of the bytes within the limit. *)
Inductive read_line (limit : N) (input : bytes) : result bytes io_error → bytes → Prop :=
| line_read frame rest : read_until_spec limit newline input frame rest → read_line limit input (Ok frame) rest
| line_failed error taken rest : input = taken ++ rest → len taken ≤ limit → read_line limit input (Err error) rest.

(** [read_frame], given the outcome of its await: an I/O error is passed on by the
    [?], a buffer is checked. *)
Definition read_frame (max_frame_bytes : N) (read : result bytes io_error) : result (option bytes) io_error :=
  let? frame := read in frame_of max_frame_bytes frame.

(** ** Request IDs *)

Record UpstreamEnvelope : Type := mkUpstreamEnvelope {
  env_id : option Value;
  env_method : option str
}.

Definition request_id_key `{Serialize} (id : Value) : option str :=
  if is_valid_request_id id then Some (to_vec id) else None.

(** ** The pending table *)

Inductive PendingRequest : Type := PendingUpstream | PendingBroadcast.

#[export] Instance PendingRequest_eq_dec : EqDecision PendingRequest.
Proof. solve_decision. Defined.

Inductive Reservation : Type := Reserved | Duplicate | LimitExceeded.

Record ConnectionLimits : Type := mkConnectionLimits {
  max_frame_bytes : N;
  max_pending_requests : N
}.

Abbreviation PendingRequests := (gmap str PendingRequest).

(** The critical section of [reserve_request]. *)
Definition reserve_request (key : str) (request : PendingRequest) (max_pending_requests : N)
    (pending : PendingRequests) : Reservation * PendingRequests :=
  if bool_decide (is_Some (pending !! key)) then (Duplicate, pending)
  else if max_pending_requests <=? N.of_nat (size pending) then (LimitExceeded, pending)
  else (Reserved, <[key := request]> pending).

(** The critical section of [forward_upstream_frames]: whether a response with
    this key is forwarded. *)
Definition take_upstream (key : str) (pending : PendingRequests) : bool * PendingRequests :=
  match pending !! key with
  | Some PendingUpstream => (true, delete key pending)
  | Some PendingBroadcast | None => (false, pending)
  end.

(** The critical section after a broadcast: [lock().await.remove(&key)]. *)
Definition finish_broadcast (key : str) (pending : PendingRequests) : unit * PendingRequests :=
  (tt, delete key pending).

(** ** Framing *)

(** A complete frame within the bound. *)
Definition fits (max : N) (x : bytes) : Prop :=
  ∃ body, x = body ++ [newline] ∧ newline ∉ body ∧ len x ≤ max.

Lemma last_is_newline (x : bytes) : last_is (Byte.eqb newline) x = true ↔ last x = Some newline.
Proof.
  unfold last_is. destruct (last x) as [b|]; [|done]. split; [|by intros [= ->]].
  intros E. apply Byte.byte_dec_bl in E. by subst.
Qed.

Lemma frame_of_Some max x y :
  frame_of max x = Ok (Some y) ↔ y = x ∧ x ≠ [] ∧ len x ≤ max ∧ last x = Some newline.
Proof.
  unfold frame_of. destruct x as [|b x]; [by cbn; split; [|intros (_ & ? & _)]|].
  rewrite (proj2 (N.eqb_neq _ _)) by (rewrite len_cons; lia).
  rewrite <- last_is_newline. destruct (last_is _ _); destruct (N.ltb_spec max (len (b :: x))); cbn;
    split; intros H'; try done; try (destruct H' as (-> & _ & ? & ?); done || lia).
  by injection H' as <-.
Qed.

Lemma frame_of_None max x : frame_of max x = Ok None ↔ x = [].
Proof.
  unfold frame_of. destruct x as [|b x]; [done|]. rewrite (proj2 (N.eqb_neq _ _)) by (rewrite len_cons; lia).
  destruct (_ || _); done.
Qed.

Lemma frame_of_Err max x e : frame_of max x = Err e → e = InvalidData.
Proof. unfold frame_of. repeat case_match; congruence. Qed.

Lemma frame_limit_eq max : max < usize_max → frame_limit max = max + 1.
Proof. unfold frame_limit, wrapping_add, usize_max, usize_modulus. intros ?. apply N.mod_small. lia. Qed.

Lemma last_snoc_inv (x : bytes) b : last x = Some b → ∃ y, x = y ++ [b].
Proof.
  destruct x as [|c x] using rev_ind; [done|]. rewrite last_snoc. intros [= ->]. eauto.
Qed.

Lemma read_until_fits max input frame rest :
  read_until_spec (frame_limit max) newline input frame rest → last frame = Some newline → len frame ≤ max →
  fits max frame ∧ input = frame ++ rest.
Proof.
  intros (-> & _ & Hn & _) (y & ->)%last_snoc_inv Hl. split; [|done].
  exists y. by rewrite removelast_last in Hn.
Qed.

Lemma fits_frame_of max x : fits max x → frame_of max x = Ok (Some x).
Proof.
  intros (body & -> & _ & ?). apply frame_of_Some. split; [done|]. split; [by destruct body|]. by rewrite last_snoc.
Qed.

Lemma frame_of_fits max x y : frame_of max x = Ok (Some y) → newline ∉ removelast x → y = x ∧ fits max x.
Proof.
  rewrite frame_of_Some. intros (-> & _ & ? & (body & ->)%last_snoc_inv). rewrite removelast_last.
  intros ?. split; [done|]. by exists body.
Qed.

(** A frame that fits is read in one piece, whatever follows it. *)
Lemma read_until_frame max x rest frame rest' :
  max < usize_max → fits max x →
  read_until_spec (frame_limit max) newline (x ++ rest) frame rest' ↔ frame = x ∧ rest' = rest.
Proof.
  intros Hmax (body & -> & Hn & Hl).
  assert (read_until_spec (frame_limit max) newline ((body ++ [newline]) ++ rest) (body ++ [newline]) rest) as Hr.
  { split; [done|]. rewrite frame_limit_eq by done. split; [lia|]. rewrite removelast_last. split; [done|].
    left. apply last_snoc. }
  split; [|by intros [-> ->]]. intros Hs. by destruct (read_until_spec_fun _ _ _ _ _ _ _ Hs Hr) as [-> ->].
Qed.

(** C33: Framing is exact and bounded. However the await of [read_until] ends,
    [read_frame] takes at most one byte more than the bound from the stream. It
    reports the end only of a stream that has ended; a frame it returns is the
    first line complete with its line feed, within the bound, and the bytes after
    it are left; and an error is the I/O error of the await, or invalid data, and
    then the stream is not at its end and no acceptable frame starts it. *)
Theorem read_frame_spec (max : N) (input rest : bytes) (read : result bytes io_error) :
  max < usize_max → read_line (frame_limit max) input read rest →
  (∃ taken, input = taken ++ rest ∧ len taken ≤ max + 1)
  ∧ match read_frame max read with
    | Ok None => input = [] ∧ rest = []
    | Ok (Some x) => fits max x ∧ input = x ++ rest
    | Err e => read = Err e ∨ e = InvalidData ∧ input ≠ [] ∧ ∀ x, fits max x → ¬ x `prefix_of` input
    end.
Proof.
  intros Hmax [frame rest' Hs|e taken rest' Hi Hl]; cbn [read_frame try_]; [|rewrite frame_limit_eq in Hl by done; eauto].
  pose proof Hs as (Hi & Hl & _ & He). rewrite frame_limit_eq in Hl, He by done. split; [eauto|].
  destruct (frame_of max frame) as [[x|]|e] eqn:E.
  - apply frame_of_Some in E as (-> & _ & ? & ?). by eapply read_until_fits.
  - apply frame_of_None in E as ->. destruct He as [?|[He| ->]]; [done| |done].
    rewrite len_nil in He. lia.
  - right. pose proof (frame_of_Err _ _ _ E) as ->. split; [done|]. split.
    { intros Hnil. rewrite Hnil in Hi. symmetry in Hi. apply app_nil in Hi as [-> _].
      by rewrite (proj2 (frame_of_None max []) eq_refl) in E. }
    intros x Hx [rest2 ->]. destruct (proj1 (read_until_frame max x rest2 _ _ Hmax Hx) Hs) as [-> _].
    by rewrite (fits_frame_of _ _ Hx) in E.
Qed.

(** Successive frames read from a stream. *)
Inductive read_frames (max : N) : bytes → list bytes → bytes → Prop :=
| read_frames_nil input : read_frames max input [] input
| read_frames_cons input read x rest xs rest' :
    read_line (frame_limit max) input read rest → read_frame max read = Ok (Some x) → read_frames max rest xs rest' →
    read_frames max input (x :: xs) rest'.

(** A frame that fits is the next to be read. *)
Lemma read_frames_fits max x rest y ys rest' :
  max < usize_max → fits max x →
  read_frames max (x ++ rest) (y :: ys) rest' ↔ y = x ∧ read_frames max rest ys rest'.
Proof.
  intros Hmax Hx. split.
  - inversion 1 as [|? read ? r ? ? Hl Hr Hrs]; subst. destruct Hl as [frame r Hs|]; [|done].
    apply read_until_frame in Hs as [-> ->]; [|done..]. cbn in Hr. rewrite fits_frame_of in Hr by done.
    by injection Hr as <-.
  - intros [-> Hrs]. eapply read_frames_cons; [constructor; by apply read_until_frame| |done]. by apply fits_frame_of.
Qed.

(** C34: Framing round trip. A stream that starts with frames within the bound is
    read back as exactly those frames, byte for byte and in order, with nothing
    merged, split or lost. *)
Theorem framing_roundtrip (max : N) (xs ys : list bytes) (tail rest : bytes) :
  max < usize_max → Forall (fits max) xs → length ys = length xs →
  read_frames max (concat xs ++ tail) ys rest ↔ ys = xs ∧ rest = tail.
Proof.
  intros Hmax Hxs. revert ys. induction Hxs as [|x xs Hx _ IH]; intros ys Hlen.
  - destruct ys; [|done]. cbn. split; [by inversion 1|]. intros [_ ->]. constructor.
  - destruct ys as [|y ys]; [done|]. injection Hlen as Hlen. cbn [concat].
    rewrite <- app_assoc, read_frames_fits, IH by done. naive_solver.
Qed.

(** ** Pending requests *)

Lemma is_valid_exact id : is_valid_request_id id = true → exact_scalar id.
Proof. destruct id; cbn; try done. by rewrite orb_true_iff. Qed.

Lemma request_id_key_Some `{Serialize} id key :
  request_id_key id = Some key ↔ is_valid_request_id id = true ∧ key = to_vec id.
Proof. unfold request_id_key. destruct (is_valid_request_id id); naive_solver. Qed.

(** Request IDs are told apart. Every valid ID has a key, no other value has
    one, and two IDs share a key only when they are the same JSON value: the
    number 1 and the string 1 are different requests. *)
Theorem request_id_key_injective `{SerializeLaws} (v w : Value) (k : str) :
  (is_Some (request_id_key v) ↔ is_valid_request_id v = true)
  ∧ (request_id_key v = Some k → request_id_key w = Some k → v = w).
Proof.
  split.
  - unfold request_id_key. destruct (is_valid_request_id v); [done|]. split; [by intros [? ?]|done].
  - intros [Hv ->]%request_id_key_Some [Hw E]%request_id_key_Some.
    by apply to_vec_scalar_inj; [apply is_valid_exact..|].
Qed.

(** The three outcomes of a reservation. *)
Inductive reserved_as (key : str) (request : PendingRequest) (max : N) (pending : PendingRequests)
    : Reservation * PendingRequests → Prop :=
| reserve_duplicate old : pending !! key = Some old → reserved_as key request max pending (Duplicate, pending)
| reserve_full : pending !! key = None → max ≤ N.of_nat (size pending) →
    reserved_as key request max pending (LimitExceeded, pending)
| reserve_new : pending !! key = None → N.of_nat (size pending) < max →
    reserved_as key request max pending (Reserved, <[key := request]> pending).

Lemma reserve_request_as key request max pending :
  reserved_as key request max pending (reserve_request key request max pending).
Proof.
  unfold reserve_request. destruct (pending !! key) as [old|] eqn:E.
  - rewrite bool_decide_eq_true_2 by eauto. by econstructor.
  - rewrite bool_decide_eq_false_2 by (by intros [? ?]).
    destruct (N.leb_spec max (N.of_nat (size pending))); by constructor.
Qed.

Lemma reserved_as_fun key request max pending r1 r2 :
  reserved_as key request max pending r1 → reserved_as key request max pending r2 → r1 = r2.
Proof. destruct 1; inversion 1; subst; try done; try congruence; lia. Qed.

Lemma reserve_request_size key request max pending :
  N.of_nat (size pending) ≤ max → N.of_nat (size (reserve_request key request max pending).2) ≤ max.
Proof.
  intros Hs. destruct (reserve_request_as key request max pending) as [| |Hn Hl]; cbn [snd]; [done|done|].
  rewrite map_size_insert_None by done. lia.
Qed.

(** Reservations, on every branch. A key already pending is a duplicate and a
    full table refuses, both without changing the table; otherwise exactly this
    key is added. A table within its bound stays within it. *)
Theorem reserve_request_spec (key : str) (request : PendingRequest) (max : N) (pending : PendingRequests)
    (r : Reservation * PendingRequests) :
  (reserve_request key request max pending = r ↔ reserved_as key request max pending r)
  ∧ (N.of_nat (size pending) ≤ max → N.of_nat (size (reserve_request key request max pending).2) ≤ max).
Proof.
  split; [|apply reserve_request_size]. split; [intros <-; apply reserve_request_as|].
  apply reserved_as_fun, reserve_request_as.
Qed.
