(* ===== verification/Connection.v ===== *)
(** * One proxied connection (src/proxy.rs)

    The three tasks of a connection (wallet reader, upstream reader, wallet
    writer) as asynchronous programs over the connection's shared state: the
    byte streams, the pending table and the bounded output channel. The private
    relay is called through its interface only. *)

From S2P Require Import Prelude RustStr Serde Protocol Async Tokio Relay RelaySafety Frames.

Open Scope N_scope.
Open Scope rust_scope.
Open Scope async_scope.

(** The two clones of the channel's sender. *)
Inductive sender : Type := FromClient | FromUpstream.

#[export] Instance sender_eq_dec : EqDecision sender.
Proof. solve_decision. Defined.

(** The streams as what is still to be read and what has been read or written;
    the channel as everything sent into it and how much has been received.
    [polling] records that the wallet reader's [select!] has found no shutdown in
    its current poll and goes on to its read. *)
Record ConnState : Type := mkConnState {
  client_in : bytes;
  client_read : list bytes;
  upstream_in : bytes;
  upstream_read : list bytes;
  upstream_out : bytes;
  pending : PendingRequests;
  sent : list (sender * bytes);
  received : nat;
  client_out : bytes;
  relay_log : list (str * option (result str RelayError));
  shutdown : bool;
  shutdown_closed : bool;
  polling : bool
}.

Definition conn_start (from_client from_upstream : bytes) : ConnState :=
  mkConnState from_client [] from_upstream [] [] ∅ [] 0 [] [] false false false.

Definition set_client_in (x : bytes) (σ : ConnState) : ConnState :=
  mkConnState x (client_read σ) (upstream_in σ) (upstream_read σ) (upstream_out σ) (pending σ) (sent σ) (received σ)
    (client_out σ) (relay_log σ) (shutdown σ) (shutdown_closed σ) (polling σ).
Definition add_read (x : bytes) (σ : ConnState) : ConnState :=
  mkConnState (client_in σ) (client_read σ ++ [x]) (upstream_in σ) (upstream_read σ) (upstream_out σ) (pending σ) (sent σ) (received σ)
    (client_out σ) (relay_log σ) (shutdown σ) (shutdown_closed σ) (polling σ).
Definition set_upstream_in (x : bytes) (σ : ConnState) : ConnState :=
  mkConnState (client_in σ) (client_read σ) x (upstream_read σ) (upstream_out σ) (pending σ) (sent σ) (received σ)
    (client_out σ) (relay_log σ) (shutdown σ) (shutdown_closed σ) (polling σ).
Definition add_upstream_read (x : bytes) (σ : ConnState) : ConnState :=
  mkConnState (client_in σ) (client_read σ) (upstream_in σ) (upstream_read σ ++ [x]) (upstream_out σ) (pending σ) (sent σ) (received σ)
    (client_out σ) (relay_log σ) (shutdown σ) (shutdown_closed σ) (polling σ).
Definition add_upstream_out (x : bytes) (σ : ConnState) : ConnState :=
  mkConnState (client_in σ) (client_read σ) (upstream_in σ) (upstream_read σ) (upstream_out σ ++ x) (pending σ) (sent σ) (received σ)
    (client_out σ) (relay_log σ) (shutdown σ) (shutdown_closed σ) (polling σ).
Definition set_pending (x : PendingRequests) (σ : ConnState) : ConnState :=
  mkConnState (client_in σ) (client_read σ) (upstream_in σ) (upstream_read σ) (upstream_out σ) x (sent σ) (received σ)
    (client_out σ) (relay_log σ) (shutdown σ) (shutdown_closed σ) (polling σ).
Definition add_sent (who : sender) (x : bytes) (σ : ConnState) : ConnState :=
  mkConnState (client_in σ) (client_read σ) (upstream_in σ) (upstream_read σ) (upstream_out σ) (pending σ) (sent σ ++ [(who, x)])
    (received σ) (client_out σ) (relay_log σ) (shutdown σ) (shutdown_closed σ) (polling σ).
Definition add_received (σ : ConnState) : ConnState :=
  mkConnState (client_in σ) (client_read σ) (upstream_in σ) (upstream_read σ) (upstream_out σ) (pending σ) (sent σ) (S (received σ))
    (client_out σ) (relay_log σ) (shutdown σ) (shutdown_closed σ) (polling σ).
Definition add_client_out (x : bytes) (σ : ConnState) : ConnState :=
  mkConnState (client_in σ) (client_read σ) (upstream_in σ) (upstream_read σ) (upstream_out σ) (pending σ) (sent σ) (received σ)
    (client_out σ ++ x) (relay_log σ) (shutdown σ) (shutdown_closed σ) (polling σ).
Definition add_relay_log (x : str * option (result str RelayError)) (σ : ConnState) : ConnState :=
  mkConnState (client_in σ) (client_read σ) (upstream_in σ) (upstream_read σ) (upstream_out σ) (pending σ) (sent σ) (received σ)
    (client_out σ) (relay_log σ ++ [x]) (shutdown σ) (shutdown_closed σ) (polling σ).
Definition set_shutdown (b closed : bool) (σ : ConnState) : ConnState :=
  mkConnState (client_in σ) (client_read σ) (upstream_in σ) (upstream_read σ) (upstream_out σ) (pending σ) (sent σ) (received σ)
    (client_out σ) (relay_log σ) b closed (polling σ).
Definition set_polling (b : bool) (σ : ConnState) : ConnState :=
  mkConnState (client_in σ) (client_read σ) (upstream_in σ) (upstream_read σ) (upstream_out σ) (pending σ) (sent σ) (received σ)
    (client_out σ) (relay_log σ) (shutdown σ) (shutdown_closed σ) b.

(** ** Await points *)

Inductive connE : Type → Type :=
| ReadClient (limit : N) : connE (unit + result bytes io_error)
| ReadUpstream (limit : N) : connE (result bytes io_error)
| WriteUpstream (data : bytes) : connE (result unit io_error)
| LockPending : connE unit
| Send (who : sender) (frame : bytes) : connE (result unit unit)
| Recv : connE (option bytes)
| WriteClient (data : bytes) : connE (result unit io_error)
| CloseClient : connE (result unit io_error)
| CallRelay (raw_transaction : str) : connE (result str RelayError)
| ShutdownChanged : connE (result unit unit).

(** When [wait_for_shutdown] is done: the flag is set or its sender is gone. *)
Definition shutdown_ready (σ : ConnState) : bool := shutdown σ || shutdown_closed σ.

(** The capacity passed to [mpsc::channel]. *)
Definition CHANNEL_CAPACITY : nat := 32.

(** The environment: what each await can do to the state, [None] being the drop
    of the waiting future. A poll of the wallet reader's read is pending ([inl])
    or ends the read; bytes of an unfinished frame count as unread. A write that
    fails or is dropped may have written a prefix. The relay returns a failure or a transaction ID. *)
Definition conn_env (X : Type) (e : connE X) : ConnState → option X → ConnState → Prop :=
  match e in connE X return ConnState → option X → ConnState → Prop with
  | ReadClient limit => λ σ o σ',
      match o with
      | Some (inr (Ok buf)) =>
          ∃ rest, read_until_spec limit newline (client_in σ) buf rest
                  ∧ σ' = set_polling false (set_client_in rest (add_read buf σ))
      | Some (inr (Err _)) =>
          ∃ rest, rest `suffix_of` client_in σ ∧ σ' = set_polling false (set_client_in rest σ)
      | Some (inl _) => σ' = set_polling false σ
      | None => ∃ rest, rest `suffix_of` client_in σ ∧ σ' = set_client_in rest σ
      end
  | ReadUpstream limit => λ σ o σ',
      match o with
      | Some (Ok buf) =>
          ∃ rest, read_until_spec limit newline (upstream_in σ) buf rest
                  ∧ σ' = set_upstream_in rest (add_upstream_read buf σ)
      | _ => ∃ rest, rest `suffix_of` upstream_in σ ∧ σ' = set_upstream_in rest σ
      end
  | WriteUpstream data => λ σ o σ',
      match o with
      | Some (Ok _) => σ' = add_upstream_out data σ
      | _ => ∃ part, part `prefix_of` data ∧ σ' = add_upstream_out part σ
      end
  | LockPending => λ σ _ σ', σ' = σ
  | Send who frame => λ σ o σ',
      match o with
      | Some (Ok _) => (length (sent σ) < received σ + CHANNEL_CAPACITY)%nat ∧ σ' = add_sent who frame σ
      | _ => σ' = σ
      end
  | Recv => λ σ o σ',
      match o with
      | Some (Some frame) => ∃ who, sent σ !! received σ = Some (who, frame) ∧ σ' = add_received σ
      | Some None => received σ = length (sent σ) ∧ σ' = σ
      | None => σ' = σ
      end
  | WriteClient data => λ σ o σ',
      match o with
      | Some (Ok _) => σ' = add_client_out data σ
      | _ => ∃ part, part `prefix_of` data ∧ σ' = add_client_out part σ
      end
  | CloseClient => λ σ _ σ', σ' = σ
  | CallRelay raw => λ σ o σ',
      σ' = add_relay_log (raw, o) σ ∧ match o with Some (Ok txid) => is_txid txid | _ => True end
  | ShutdownChanged => λ σ o σ',
      σ' = σ ∧ match o with Some (Err _) => shutdown_closed σ = true | _ => True end
  end.

Definition conn_prog : Type → Type := prog ConnState Empty_set connE.

Definition no_guards (g : Empty_set) : dprog ConnState := match g with end.

(** ** The programs *)

(** How the wallet reader ends: it returns, or [expect] fails. *)
Inductive client_exit : Type :=
| Returned (r : result unit io_error)
| Panicked.

Section Programs.
Context `{Ser : Serialize} `{DesR : Deserialize Request} `{DesE : Deserialize UpstreamEnvelope}.

Definition read_shutdown (σ : ConnState) : bool * ConnState := (shutdown σ, σ).

Definition wait_for_shutdown : conn_prog unit :=
  do stop := atomic read_shutdown in
  if (stop : bool) then Ret tt
  else loop (λ _ : unit,
         do changed := await ShutdownChanged in
         match changed with
         | Err _ => Ret (inr tt)
         | Ok _ => do stop := atomic read_shutdown in
                   if (stop : bool) then Ret (inr tt) else Ret (inl tt)
         end) tt.

(** A critical section on the pending table. *)
Definition on_pending {X} (f : PendingRequests → X * PendingRequests) (σ : ConnState) : X * ConnState :=
  let '(x, p) := f (pending σ) in (x, set_pending p σ).

(** A step of a reader's loop: go on, or leave it. *)
Definition proceed {A} : conn_prog (unit + A) := Ret (inl tt).
Definition leave {A} (a : A) : conn_prog (unit + A) := Ret (inr a).

(** Sends a last response and ends the wallet reader. *)
Definition refuse (message : bytes) : conn_prog (unit + client_exit) :=
  do _ := await (Send FromClient message) in leave (Returned (Ok tt)).

(** [reserve_request(..).await] and the [match] on its result. *)
Definition reserve_or_refuse (limits : ConnectionLimits) (id : Value) (key : str) (request : PendingRequest)
    : conn_prog (unit + client_exit) :=
  do _ := await LockPending in
  do reservation := atomic (on_pending (reserve_request key request (max_pending_requests limits))) in
  match reservation with
  | Reserved => proceed
  | Duplicate => refuse invalid_frame_response
  | LimitExceeded => refuse (pending_request_limit_response id)
  end.

Definition handle_passthrough (limits : ConnectionLimits) (frame : bytes) (id : option Value)
    : conn_prog (unit + client_exit) :=
  do reserved := match id with
                 | None => proceed
                 | Some id =>
                     match request_id_key id with
                     | None => leave Panicked
                     | Some key => reserve_or_refuse limits id key PendingUpstream
                     end
                 end in
  match reserved with
  | inr exit => leave exit
  | inl _ =>
      do written := await (WriteUpstream frame) in
      match written with
      | Ok _ => proceed
      | Err e => leave (Returned (Err e))
      end
  end.

(** The wallet's answer to a broadcast. *)
Definition broadcast_response (id : Value) (r : result str RelayError) : bytes :=
  match r with
  | Ok transaction_id => success_response id transaction_id
  | Err error => relay_error_response id (bool_decide (kind error = Disabled))
  end.

Definition handle_broadcast (limits : ConnectionLimits) (id : Value) (raw_transaction : str)
    : conn_prog (unit + client_exit) :=
  let broadcast_key := request_id_key id in
  do reserved := match broadcast_key with
                 | Some key => reserve_or_refuse limits id key PendingBroadcast
                 | None => proceed
                 end in
  match reserved with
  | inr exit => leave exit
  | inl _ =>
      do r := await (CallRelay raw_transaction) in
      do _ := match broadcast_key with
              | Some key => do _ := await LockPending in atomic (on_pending (finish_broadcast key))
              | None => Ret tt
              end in
      do delivered := await (Send FromClient (broadcast_response id r)) in
      match delivered with
      | Err _ => leave (Returned (Ok tt))
      | Ok _ => proceed
      end
  end.

Definition handle_frame (limits : ConnectionLimits) (frame : bytes) : conn_prog (unit + client_exit) :=
  match classify frame with
  | Ok (Passthrough id) => handle_passthrough limits frame id
  | Ok (Broadcast id raw_transaction) => handle_broadcast limits id raw_transaction
  | Err error => refuse (response error)
  end.

(** One poll of [wait_for_shutdown], the first branch of the biased [select!]. *)
Definition poll_shutdown (σ : ConnState) : bool * ConnState :=
  (shutdown_ready σ, set_polling (negb (shutdown_ready σ)) σ).

(** The [select!]: each poll looks at shutdown first and then at the read. *)
Definition select_frame (limit : N) : conn_prog (unit + result bytes io_error) :=
  loop (λ _ : unit,
    do ready := atomic poll_shutdown in
    if (ready : bool) then Ret (inr (inl tt))
    else do polled := await (ReadClient limit) in
         match polled with
         | inl _ => Ret (inl tt)
         | inr read => Ret (inr (inr read))
         end) tt.

Definition handle_client_frames (limits : ConnectionLimits) : conn_prog client_exit :=
  loop (λ _ : unit,
    do selected := select_frame (frame_limit (max_frame_bytes limits)) in
    match selected with
    | inl _ => leave (Returned (Ok tt))
    | inr read =>
        match read_frame (max_frame_bytes limits) read with
        | Ok (Some frame) => handle_frame limits frame
        | Ok None => leave (Returned (Ok tt))
        | Err InvalidData => refuse invalid_frame_response
        | Err error => leave (Returned (Err error))
        end
    end) tt.

(** Whether an upstream frame is forwarded; [Err] ends the upstream reader. *)
Definition should_forward (envelope : UpstreamEnvelope) : conn_prog (result bool io_error) :=
  match env_id envelope, env_method envelope with
  | Some id, None =>
      match request_id_key id with
      | None => Ret (Err InvalidData)
      | Some key =>
          do _ := await LockPending in
          do forward := atomic (on_pending (take_upstream key)) in
          Ret (Ok forward)
      end
  | None, Some _ => Ret (Ok true)
  | _, _ => Ret (Err InvalidData)
  end.

Definition forward_upstream_frames (max_frame_bytes : N) : conn_prog (result unit io_error) :=
  loop (λ _ : unit,
    do read := await (ReadUpstream (frame_limit max_frame_bytes)) in
    match read_frame max_frame_bytes read with
    | Err error => leave (Err error)
    | Ok None => leave (Ok tt)
    | Ok (Some frame) =>
        match from_slice frame with
        | None => leave (Err InvalidData)
        | Some envelope =>
            do forward := should_forward envelope in
            match forward with
            | Err error => leave (Err error)
            | Ok false => proceed
            | Ok true =>
                do delivered := await (Send FromUpstream frame) in
                match delivered with
                | Err _ => leave (Ok tt)
                | Ok _ => proceed
                end
            end
        end
    end) tt.

Definition write_client_output : conn_prog (result unit io_error) :=
  loop (λ _ : unit,
    do output := await Recv in
    match output with
    | None => do closed := await CloseClient in leave closed
    | Some frame =>
        do written := await (WriteClient frame) in
        match written with
        | Ok _ => proceed
        | Err e => leave (Err e)
        end
    end) tt.

(** The server's side of the shutdown channel: [send_replace(true)], and the
    drop of the sender. *)
Definition signal_shutdown : conn_prog unit := atomic (λ σ, (tt, set_shutdown true (shutdown_closed σ) σ)).
Definition drop_shutdown_sender : conn_prog unit := atomic (λ σ, (tt, set_shutdown (shutdown σ) true σ)).

(** ** The tasks of a connection *)

Inductive conn_outcome : Type :=
| ClientEnded (exit : client_exit)
| UpstreamEnded (r : result unit io_error)
| WriterEnded (r : result unit io_error)
| SawShutdown
| ShutdownDone.

Definition client_task (limits : ConnectionLimits) : conn_prog conn_outcome :=
  do exit := handle_client_frames limits in Ret (ClientEnded exit).
Definition upstream_task (limits : ConnectionLimits) : conn_prog conn_outcome :=
  do r := forward_upstream_frames (max_frame_bytes limits) in Ret (UpstreamEnded r).
Definition writer_task : conn_prog conn_outcome :=
  do r := write_client_output in Ret (WriterEnded r).

(** What else runs: the server's shutdown signal and waits for it. *)
Inductive conn_op : conn_prog conn_outcome → Prop :=
| op_signal : conn_op (do _ := signal_shutdown in Ret ShutdownDone)
| op_drop_sender : conn_op (do _ := drop_shutdown_sender in Ret ShutdownDone)
| op_wait : conn_op (do _ := wait_for_shutdown in Ret SawShutdown).

Definition conn_system (limits : ConnectionLimits) (from_client from_upstream : bytes) : system conn_outcome :=
  mkSystem (conn_start from_client from_upstream)
    [Running writer_task []; Running (upstream_task limits) []; Running (client_task limits) []].

Definition conn_steps := steps no_guards conn_env conn_op.

Definition conn_reachable (limits : ConnectionLimits) (from_client from_upstream : bytes)
    (c : system conn_outcome) : Prop :=
  conn_steps (conn_system limits from_client from_upstream) c.
End Programs.
