(* ===== verification/ConnectionSafety.v ===== *)
(** * What a connection guarantees

    The abstract specification of the wallet's side of a connection (a session),
    and the proof that the three interleaved tasks refine it; the accounting of
    forwarded responses; ordered delivery to the wallet; the pending bound. *)

From S2P Require Import Prelude RustStr Serde Protocol Async Tokio Relay RelaySafety Frames Connection.
From stdpp Require Import gmultiset.

Open Scope N_scope.
Open Scope rust_scope.
Open Scope async_scope.

(** ** The abstract session *)

(** What the wallet reader observes and produces: the bytes left to read, the
    buffers read, the bytes written upstream, the relay calls with their
    outcomes, the responses of its own. *)
Record view : Type := mkView {
  v_in : bytes;
  v_read : list bytes;
  v_out : bytes;
  v_log : list (str * option (result str RelayError));
  v_replies : list bytes
}.

Definition reply_of (x : sender * bytes) : option bytes :=
  match x with (FromClient, frame) => Some frame | (FromUpstream, _) => None end.

Definition client_view (σ : ConnState) : view :=
  mkView (client_in σ) (client_read σ) (upstream_out σ) (relay_log σ) (omap reply_of (sent σ)).

Definition txid_result (r : result str RelayError) : Prop :=
  match r with Ok txid => is_txid txid | Err _ => True end.

Section Session.
Context `{Ser : Serialize} `{DesR : Deserialize Request}.
Context (max : N) (from_client : bytes).

(** A complete frame within the bound that classifies as [f]. *)
Definition client_frame (x : bytes) (f : ClientFrame) : Prop :=
  fits max x ∧ classify x = Ok f.

(** Between two frames: each frame read has been dealt with in full. *)
Inductive session_open : view → Prop :=
| session_start : session_open (mkView from_client [] [] [] [])
| session_passthrough rest reads out log replies x id :
    session_open (mkView (x ++ rest) reads out log replies) → client_frame x (Passthrough id) →
    session_open (mkView rest (reads ++ [x]) (out ++ x) log replies)
| session_broadcast rest reads out log replies x id raw r :
    session_open (mkView (x ++ rest) reads out log replies) → client_frame x (Broadcast id raw) → txid_result r →
    session_open (mkView rest (reads ++ [x]) out (log ++ [(raw, Some r)]) (replies ++ [broadcast_response id r])).

(** The responses that refuse a frame and end the session. *)
Inductive refusal (x : bytes) : bytes → Prop :=
| refuse_frame : frame_of max x = Err InvalidData → refusal x invalid_frame_response
| refuse_duplicate f : client_frame x f → refusal x invalid_frame_response
| refuse_limit id : client_frame x (Passthrough (Some id)) → refusal x (pending_request_limit_response id)
| refuse_broadcast_limit id raw : client_frame x (Broadcast id raw) → refusal x (pending_request_limit_response id)
| refuse_error e : fits max x → classify x = Err e → refusal x (response e).

(** At any time: between frames, or somewhere in the handling of the last one,
    or at the end after a failed or abandoned read. *)
Inductive session : view → Prop :=
| session_between v : session_open v → session v
| session_holding rest reads out log replies x :
    session_open (mkView (x ++ rest) reads out log replies) → session (mkView rest (reads ++ [x]) out log replies)
| session_refused rest reads out log replies x message :
    session_open (mkView (x ++ rest) reads out log replies) → refusal x message →
    session (mkView rest (reads ++ [x]) out log (replies ++ [message]))
| session_writing rest reads out log replies x id part :
    session_open (mkView (x ++ rest) reads out log replies) → client_frame x (Passthrough id) → part `prefix_of` x →
    session (mkView rest (reads ++ [x]) (out ++ part) log replies)
| session_calling rest reads out log replies x id raw o :
    session_open (mkView (x ++ rest) reads out log replies) → client_frame x (Broadcast id raw) →
    session (mkView rest (reads ++ [x]) out (log ++ [(raw, o)]) replies)
| session_ended rest lost reads out log replies :
    session_open (mkView (lost ++ rest) reads out log replies) → session (mkView rest reads out log replies)
| session_unreadable rest lost reads out log replies :
    session_open (mkView (lost ++ rest) reads out log replies) →
    session (mkView rest reads out log (replies ++ [invalid_frame_response])).
End Session.

(** ** Accounting of responses *)

Section Accounting.
Context `{Ser : Serialize} `{DesR : Deserialize Request} `{DesE : Deserialize UpstreamEnvelope}.
Context (limits : ConnectionLimits) (from_client : bytes).

(** The key that an upstream frame answers, if it is a response. *)
Definition response_key (x : bytes) : option str :=
  envelope ← from_slice x;
  match env_id envelope, env_method envelope with
  | Some id, None => request_id_key id
  | _, _ => None
  end.

(** The key that a wallet frame asks the upstream to answer, if it has an ID. *)
Definition request_key (x : bytes) : option str :=
  match frame_of (max_frame_bytes limits) x, classify x with
  | Ok (Some _), Ok (Passthrough (Some id)) => request_id_key id
  | _, _ => None
  end.

Definition answers (k : str) (x : sender * bytes) : Prop := x.1 = FromUpstream ∧ response_key x.2 = Some k.

#[export] Instance answers_dec k x : Decision (answers k x).
Proof. unfold answers. apply _. Defined.

(** How often [k] has been asked, how often it has been answered. *)
Definition asked (k : str) (σ : ConnState) : nat :=
  length (filter (λ x, request_key x = Some k) (client_read σ)).
Definition forwarded (k : str) (σ : ConnState) : nat := length (filter (answers k) (sent σ)).

Definition waiting (k : str) (p : PendingRequests) : nat :=
  if bool_decide (p !! k = Some PendingUpstream) then 1%nat else 0%nat.

(** ** Delivery to the wallet *)

(** The wallet has received whole frames in channel order, and of the next one
    at most a prefix. *)
Definition delivery (σ : ConnState) : Prop :=
  ∃ n part, (n ≤ received σ ≤ length (sent σ))%nat
    ∧ client_out σ = concat (take n (snd <$> sent σ)) ++ part
    ∧ (part = [] ∨ ∃ x, (snd <$> sent σ) !! n = Some x ∧ part `prefix_of` x ∧ (n < received σ)%nat).

(** ** Shares and the invariant *)

(** The wallet reader owns its view, its poll and the request it is about to reserve; the
    writer owns what it has received and written; the upstream reader owns the
    reservations it has taken and not yet answered. *)
Record conn_share : Type := mkConnShare {
  cs_client : excl (view * bool);
  cs_writer : excl (nat * bytes);
  cs_fresh : gmultiset str;
  cs_taken : gmultiset str
}.

#[export] Instance conn_Shares : Shares conn_share := {|
  share_op a b := mkConnShare (cs_client a ⋅ cs_client b) (cs_writer a ⋅ cs_writer b)
                    (cs_fresh a ⊎ cs_fresh b) (cs_taken a ⊎ cs_taken b);
  share_unit := mkConnShare ExNone ExNone ∅ ∅
|}.

Lemma conn_share_eq a b :
  cs_client a = cs_client b → cs_writer a = cs_writer b → cs_fresh a = cs_fresh b → cs_taken a = cs_taken b → a = b.
Proof. destruct a, b; cbn. congruence. Qed.

#[export] Instance conn_laws : SharesLaws conn_share.
Proof.
  split; [intros a b c|intros a b|intros a]; apply conn_share_eq.
  - apply (share_assoc (M:=excl (view * bool))).
  - apply (share_assoc (M:=excl (nat * bytes))).
  - apply (assoc_L (⊎)).
  - apply (assoc_L (⊎)).
  - apply (share_comm (M:=excl (view * bool))).
  - apply (share_comm (M:=excl (nat * bytes))).
  - apply (comm_L (⊎)).
  - apply (comm_L (⊎)).
  - done.
  - done.
  - apply (left_id_L ∅ (⊎)).
  - apply (left_id_L ∅ (⊎)).
Qed.

Record conn_inv (σ : ConnState) (m : conn_share) : Prop := {
  ci_session : session (max_frame_bytes limits) from_client (client_view σ);
  ci_client : owned (cs_client m) (client_view σ, polling σ);
  ci_delivery : delivery σ;
  ci_writer : owned (cs_writer m) (received σ, client_out σ);
  ci_count : ∀ k, (forwarded k σ + waiting k (pending σ) + multiplicity k (cs_fresh m)
                   + multiplicity k (cs_taken m) ≤ asked k σ)%nat;
  ci_pending : N.of_nat (size (pending σ)) ≤ max_pending_requests limits
}.

(** Histories only grow, shutdown is permanent, and once it is ready the wallet
    reader finishes at most the poll it is in. *)
Record conn_guar (σ σ' : ConnState) : Prop := {
  cg_read : client_read σ `prefix_of` client_read σ';
  cg_out : upstream_out σ `prefix_of` upstream_out σ';
  cg_sent : sent σ `prefix_of` sent σ';
  cg_log : relay_log σ `prefix_of` relay_log σ';
  cg_shutdown : shutdown σ = true → shutdown σ' = true;
  cg_closed : shutdown_closed σ = true → shutdown_closed σ' = true;
  cg_quiet : shutdown_ready σ = true →
    (length (client_read σ') + Nat.b2n (polling σ') ≤ length (client_read σ) + Nat.b2n (polling σ))%nat
}.

Lemma shutdown_ready_guar σ σ' : conn_guar σ σ' → shutdown_ready σ = true → shutdown_ready σ' = true.
Proof.
  intros [_ _ _ _ Hs Hc _]. unfold shutdown_ready. rewrite !orb_true_iff. tauto.
Qed.

#[export] Instance conn_guar_preorder : PreOrder conn_guar.
Proof.
  split; [by intros σ; split|]. intros σ1 σ2 σ3 H1 H2. split.
  - etrans; [apply (cg_read _ _ H1)|apply (cg_read _ _ H2)].
  - etrans; [apply (cg_out _ _ H1)|apply (cg_out _ _ H2)].
  - etrans; [apply (cg_sent _ _ H1)|apply (cg_sent _ _ H2)].
  - etrans; [apply (cg_log _ _ H1)|apply (cg_log _ _ H2)].
  - intros ?. by apply (cg_shutdown _ _ H2), (cg_shutdown _ _ H1).
  - intros ?. by apply (cg_closed _ _ H2), (cg_closed _ _ H1).
  - intros Hr. pose proof (cg_quiet _ _ H1 Hr). pose proof (cg_quiet _ _ H2 (shutdown_ready_guar _ _ H1 Hr)). lia.
Qed.

Definition no_pre (X : Type) (e : connE X) (h : list Empty_set) (m : conn_share) (s : ConnState) : Prop := True.

Abbreviation CWP := (wp no_guards conn_env conn_inv no_pre conn_guar).
Abbreviation CUP := (update conn_inv conn_guar).

(** One step of a task: what it must show about the state it changes. *)
Lemma conn_update s m m' rel (Q : ConnState → conn_share → Prop) :
  (∀ σ σ', conn_guar s σ → rel σ σ' → session (max_frame_bytes limits) from_client (client_view σ) → delivery σ →
     owned (cs_client m) (client_view σ, polling σ) → owned (cs_writer m) (received σ, client_out σ) →
     conn_guar σ σ'
     ∧ session (max_frame_bytes limits) from_client (client_view σ') ∧ moves (cs_client m) (cs_client m') (client_view σ, polling σ) (client_view σ', polling σ')
     ∧ delivery σ' ∧ moves (cs_writer m) (cs_writer m') (received σ, client_out σ) (received σ', client_out σ')
     ∧ (∀ k, (forwarded k σ' + waiting k (pending σ') + multiplicity k (cs_fresh m') + multiplicity k (cs_taken m')
              + asked k σ
              ≤ forwarded k σ + waiting k (pending σ) + multiplicity k (cs_fresh m) + multiplicity k (cs_taken m)
              + asked k σ')%nat)
     ∧ (N.of_nat (size (pending σ)) ≤ max_pending_requests limits →
        N.of_nat (size (pending σ')) ≤ max_pending_requests limits)
     ∧ (conn_guar s σ' → Q σ' m')) →
  CUP s m rel Q.
Proof.
  intros Hstep σ fr σ' Hs [Hse Hc Hd Hw Hk Hp] Hr.
  destruct (Hstep σ σ' Hs Hr Hse Hd (owned_l _ (cs_client fr) _ Hc) (owned_l _ (cs_writer fr) _ Hw))
    as (Hg & Hse' & Hmc & Hd' & Hmw & Hk' & Hp' & HQ).
  split; [done|]. exists m'. split; [|apply HQ; by etrans]. split; [done| |done| | |auto].
  - exact (owned_moves _ _ (cs_client fr) _ _ Hmc Hc).
  - exact (owned_moves _ _ (cs_writer fr) _ _ Hmw Hw).
  - intros k. specialize (Hk k). specialize (Hk' k). cbn [share_op conn_Shares cs_fresh cs_taken] in *.
    rewrite !multiplicity_disj_union in *. lia.
Qed.

Lemma conn_droppable m : droppable conn_inv m.
Proof.
  intros σ fr [Hse Hc Hd Hw Hk Hp]. split; [done| |done| | |done].
  - exact (owned_r (cs_client m) _ _ Hc).
  - exact (owned_r (cs_writer m) _ _ Hw).
  - intros k. specialize (Hk k). cbn [share_op conn_Shares cs_fresh cs_taken] in Hk.
    rewrite !multiplicity_disj_union in Hk. lia.
Qed.

Lemma cancel_conn h m s : cancel_ok no_guards conn_inv conn_guar h m s.
Proof. destruct h as [|[]]. apply conn_droppable. Qed.

Implicit Types (s σ : ConnState) (v : view) (fr : gmultiset str) (m : conn_share) (k key : str)
  (p : PendingRequests).

(** ** Steps *)

Lemma delivery_sent σ σ' :
  received σ' = received σ → client_out σ' = client_out σ → sent σ `prefix_of` sent σ' →
  delivery σ → delivery σ'.
Proof.
  intros Hr Ho [k Hk] (n & part & Hn & Hout & Hpart). exists n, part. rewrite Hr, Ho, Hk, length_app, fmap_app.
  split; [lia|]. rewrite take_app_le by (rewrite length_fmap; lia). split; [done|].
  destruct Hpart as [|(x & Hx & ? & ?)]; [by left|]. right. exists x. split; [|done].
  by apply lookup_app_l_Some.
Qed.

(** Nothing changes but what has been and is still to be read from the upstream. *)
Definition quiet (σ σ' : ConnState) : Prop :=
  client_in σ' = client_in σ ∧ client_read σ' = client_read σ ∧ upstream_out σ' = upstream_out σ ∧ pending σ' = pending σ
  ∧ sent σ' = sent σ ∧ received σ' = received σ ∧ client_out σ' = client_out σ ∧ relay_log σ' = relay_log σ
  ∧ shutdown σ' = shutdown σ ∧ shutdown_closed σ' = shutdown_closed σ ∧ polling σ' = polling σ.

Lemma quiet_update s m rel (Q : ConnState → conn_share → Prop) :
  (∀ σ σ', rel σ σ' → quiet σ σ') → (∀ σ', conn_guar s σ' → Q σ' m) → CUP s m rel Q.
Proof.
  intros Hrel HQ. apply (conn_update _ m m).
  intros σ σ' Hs (E0 & E1 & E2 & E3 & E4 & E5 & E6 & E7 & E8 & E9 & E10)%Hrel Hse Hd Hc Hw.
  assert (client_view σ' = client_view σ) as Ev by (unfold client_view; congruence).
  unfold asked, forwarded. rewrite Ev, E1, E3, E4, E5, E6, E10.
  split; [split; by rewrite ?E1, ?E2, ?E4, ?E7, ?E8, ?E9, ?E10|].
  split; [done|]. split; [by left|]. split; [by eapply delivery_sent; [| | |exact Hd]; rewrite ?E4|].
  split; [by left|]. split; [done|]. split; [done|]. apply HQ.
Qed.

(** The share of the wallet reader, in its poll and out of it. *)
Definition poll_share (b : bool) (v : view) (fresh : gmultiset str) : conn_share :=
  mkConnShare (ExOwn (v, b)) ExNone fresh ∅.
Definition client_share : view → gmultiset str → conn_share := poll_share false.

Lemma poll_update s b b' v v' fr fr' rel (Q : ConnState → conn_share → Prop) :
  session (max_frame_bytes limits) from_client v' →
  (∀ σ σ', rel σ σ' → client_view σ = v → polling σ = b →
     conn_guar σ σ' ∧ client_view σ' = v' ∧ polling σ' = b' ∧ received σ' = received σ ∧ client_out σ' = client_out σ
     ∧ (∀ k, (forwarded k σ' + waiting k (pending σ') + multiplicity k fr' + asked k σ
              ≤ forwarded k σ + waiting k (pending σ) + multiplicity k fr + asked k σ')%nat)
     ∧ (N.of_nat (size (pending σ)) ≤ max_pending_requests limits →
        N.of_nat (size (pending σ')) ≤ max_pending_requests limits)) →
  (∀ σ', conn_guar s σ' → Q σ' (poll_share b' v' fr')) →
  CUP s (poll_share b v fr) rel Q.
Proof.
  intros Hv' Hrel HQ. apply (conn_update _ _ (poll_share b' v' fr')).
  intros σ σ' Hs Hr Hse Hd Hc Hw. cbn in Hc. injection Hc as Ev0 Eb0.
  destruct (Hrel σ σ' Hr (eq_sym Ev0) (eq_sym Eb0)) as (Hg & Ev & Eb & Er & Eo & Hk & Hp).
  cbn [cs_client cs_writer cs_fresh cs_taken poll_share].
  split; [done|]. rewrite Ev, Eb. split; [done|]. split; [right; eauto|].
  split; [eapply delivery_sent; [done|done|apply (cg_sent _ _ Hg)|done]|].
  split; [left; by rewrite Er, Eo|]. split; [intros k; specialize (Hk k); lia|]. split; [done|]. apply HQ.
Qed.

(** A step that is no part of a poll. *)
Lemma client_update s v v' fr fr' rel (Q : ConnState → conn_share → Prop) :
  session (max_frame_bytes limits) from_client v' →
  (∀ σ σ', rel σ σ' → client_view σ = v →
     conn_guar σ σ' ∧ client_view σ' = v' ∧ polling σ' = polling σ ∧ received σ' = received σ
     ∧ client_out σ' = client_out σ
     ∧ (∀ k, (forwarded k σ' + waiting k (pending σ') + multiplicity k fr' + asked k σ
              ≤ forwarded k σ + waiting k (pending σ) + multiplicity k fr + asked k σ')%nat)
     ∧ (N.of_nat (size (pending σ)) ≤ max_pending_requests limits →
        N.of_nat (size (pending σ')) ≤ max_pending_requests limits)) →
  (∀ σ', conn_guar s σ' → Q σ' (client_share v' fr')) →
  CUP s (client_share v fr) rel Q.
Proof.
  intros Hv' Hrel HQ. apply (poll_update _ false false v v' fr fr'); [done| |done].
  intros σ σ' Hr Hv Hb. destruct (Hrel σ σ' Hr Hv) as (? & ? & Ep & ?). rewrite Ep. done.
Qed.

Definition add_reply (v : view) (message : bytes) : view :=
  mkView (v_in v) (v_read v) (v_out v) (v_log v) (v_replies v ++ [message]).

Lemma guar_add_sent who x σ : conn_guar σ (add_sent who x σ).
Proof. split; cbn; try done. by eexists. Qed.

Lemma view_add_sent who x σ :
  client_view (add_sent who x σ)
  = match who with FromClient => add_reply (client_view σ) x | FromUpstream => client_view σ end.
Proof.
  unfold client_view, add_reply. cbn. rewrite omap_app. destruct who; cbn; [done|]. by rewrite app_nil_r.
Qed.

Lemma forwarded_add_sent k who x σ :
  forwarded k (add_sent who x σ)
  = (forwarded k σ + if bool_decide (answers k (who, x)) then 1 else 0)%nat.
Proof.
  apply count_snoc.
Qed.

(** The channel takes a response of the wallet reader. *)
Lemma client_send_update s v fr message (Q : ConnState → conn_share → Prop) :
  session (max_frame_bytes limits) from_client (add_reply v message) →
  (∀ σ', conn_guar s σ' → Q σ' (client_share (add_reply v message) fr)) →
  CUP s (client_share v fr) (λ σ σ', conn_env _ (Send FromClient message) σ (Some (Ok tt)) σ') Q.
Proof.
  intros Hse HQ. apply (client_update _ _ (add_reply v message) fr fr); [done| |done].
  intros σ σ' [_ ->] Hv. split; [apply guar_add_sent|]. rewrite view_add_sent, Hv.
  split; [done|]. split; [done|]. split; [done|]. split; [done|]. split; [|done].
  intros k. rewrite forwarded_add_sent, bool_decide_eq_false_2 by (by intros [? _]). unfold asked. cbn. lia.
Qed.

(** What the handling of one frame leaves: the loop goes on between frames, or
    the reader ends without having panicked. *)
Definition frame_post (r : unit + client_exit) (h : list Empty_set) (m : conn_share) (s : ConnState) : Prop :=
  h = [] ∧ match r with
           | inl _ => ∃ v, m = client_share v ∅ ∧ session_open (max_frame_bytes limits) from_client v
           | inr exit => exit ≠ Panicked
           end.

Lemma refuse_wp message v fr s :
  session (max_frame_bytes limits) from_client (add_reply v message) →
  CWP (refuse message) (λ r h m s', frame_post r h m s' ∧ ∃ exit, r = inr exit) [] (client_share v fr) s.
Proof.
  intros Hse. unfold refuse, await, leave. cbn [bind wp]. split; [done|].
  split; [apply quiet_update; [by intros ?? ->|intros; apply cancel_conn]|].
  intros [[]|[]].
  - apply client_send_update; [done|]. intros s' _. split; [by split|eauto].
  - apply quiet_update; [by intros ?? ->|]. intros s' _. split; [by split|eauto].
Qed.

Lemma guar_set_pending p σ : conn_guar σ (set_pending p σ).
Proof. by split. Qed.

(** A critical section of the wallet reader on the pending table. *)
Lemma client_pending_update {X : Type} s v (fr fr' : gmultiset str) (f : PendingRequests → X * PendingRequests) (x : X)
    (Q : ConnState → conn_share → Prop) :
  session (max_frame_bytes limits) from_client v →
  (∀ p p', f p = (x, p') →
     (∀ k, (waiting k p' + multiplicity k fr' ≤ waiting k p + multiplicity k fr)%nat)
     ∧ (N.of_nat (size p) ≤ max_pending_requests limits → N.of_nat (size p') ≤ max_pending_requests limits)) →
  (∀ σ', conn_guar s σ' → Q σ' (client_share v fr')) →
  CUP s (client_share v fr) (λ σ σ', on_pending f σ = (x, σ')) Q.
Proof.
  intros Hse Hf HQ. apply (client_update _ _ v fr fr'); [done| |done].
  intros σ σ'. unfold on_pending. destruct (f (pending σ)) as [x' p'] eqn:E. intros [= -> <-] Hv.
  destruct (Hf _ _ E) as [Hk Hp]. split; [apply guar_set_pending|]. split; [done|]. split; [done|].
  split; [done|]. split; [done|]. split; [|done]. intros k. specialize (Hk k). unfold forwarded, asked. cbn. lia.
Qed.

Lemma waiting_insert k key request p :
  p !! key = None →
  waiting k (<[key := request]> p)
  = (waiting k p + if bool_decide (k = key ∧ request = PendingUpstream) then 1 else 0)%nat.
Proof.
  intros Hn. unfold waiting. destruct (decide (k = key)) as [-> |Hne].
  - rewrite lookup_insert_eq, Hn. destruct request; repeat case_bool_decide; naive_solver.
  - rewrite lookup_insert_ne by done. rewrite (bool_decide_eq_false_2 (k = key ∧ _)) by naive_solver. lia.
Qed.

Lemma waiting_delete k key p : (waiting k (delete key p) ≤ waiting k p)%nat.
Proof.
  unfold waiting. destruct (decide (k = key)) as [-> |Hne].
  - rewrite lookup_delete_eq. rewrite bool_decide_eq_false_2 by done. lia.
  - by rewrite lookup_delete_ne.
Qed.

Lemma size_delete_le (key : str) (p : PendingRequests) : (size (delete key p) ≤ size p)%nat.
Proof.
  destruct (p !! key) as [r|] eqn:E; [|by rewrite delete_id].
  rewrite map_size_delete, E. lia.
Qed.

(** The request a reservation stands for, in the reader's share. *)
Definition fresh_for (request : PendingRequest) (key : str) : gmultiset str :=
  match request with PendingUpstream => {[+ key +]} | PendingBroadcast => ∅ end.

Lemma reserve_or_refuse_wp id key request v s :
  session (max_frame_bytes limits) from_client v →
  session (max_frame_bytes limits) from_client (add_reply v invalid_frame_response) →
  session (max_frame_bytes limits) from_client (add_reply v (pending_request_limit_response id)) →
  CWP (reserve_or_refuse limits id key request)
    (λ r h m s', h = [] ∧ match r with
                          | inl _ => m = client_share v ∅
                          | inr exit => exit ≠ Panicked
                          end) [] (client_share v (fresh_for request key)) s.
Proof.
  intros Hv Hdup Hlim. unfold reserve_or_refuse, await, atomic. cbn [bind wp]. split; [done|].
  split; [apply quiet_update; [by intros ?? ->|intros; apply cancel_conn]|].
  intros []. apply quiet_update; [by intros ?? ->|]. intros s1 _.
  intros reservation. apply client_pending_update with (fr' := match reservation with Reserved => ∅ | _ => fresh_for request key end); [done| |].
  - intros p p' E. split; [|intros Hp; pose proof (reserve_request_size key request _ p Hp) as Hs; by rewrite E in Hs].
    intros k. pose proof (reserve_request_as key request (max_pending_requests limits) p) as Has. rewrite E in Has.
    inversion Has as [old Ho|Ho Hm|Ho Hm]; subst; [done|done|]. rewrite waiting_insert by done.
    destruct request; cbn [fresh_for].
    + destruct (decide (k = key)) as [-> |].
      * rewrite multiplicity_singleton, multiplicity_empty. rewrite decide_True by done. case_bool_decide; lia.
      * rewrite multiplicity_empty. case_bool_decide; [naive_solver|lia].
    + rewrite bool_decide_eq_false_2 by naive_solver. lia.
  - intros s2 _. destruct reservation; [by split|..].
    all: eapply wp_mono; [|by apply refuse_wp]; by intros r h m s' [[-> Hr] [exit ->]].
Qed.

Definition fresh_of (request : option str) : gmultiset str :=
  match request with Some key => {[+ key +]} | None => ∅ end.

(** Writing a pass-through frame to the upstream. *)
Lemma guar_add_upstream_out x σ : conn_guar σ (add_upstream_out x σ).
Proof. split; cbn; try done. by eexists. Qed.

Lemma write_update s rest reads out log replies fr part rel (Q : ConnState → conn_share → Prop) :
  session (max_frame_bytes limits) from_client (mkView rest reads (out ++ part) log replies) →
  (∀ σ σ', rel σ σ' → σ' = add_upstream_out part σ) →
  (∀ σ', conn_guar s σ' → Q σ' (client_share (mkView rest reads (out ++ part) log replies) fr)) →
  CUP s (client_share (mkView rest reads out log replies) fr) rel Q.
Proof.
  intros Hse Hrel HQ. apply (client_update _ _ (mkView rest reads (out ++ part) log replies) fr fr); [done| |done].
  intros σ σ' ->%Hrel [= <- <- <- <- <-]. split; [apply guar_add_upstream_out|]. split; [done|]. split; [done|].
  split; [done|]. split; [done|]. split; [|done]. intros k. unfold forwarded, asked. cbn. lia.
Qed.

Lemma write_upstream_wp x id rest reads out log replies s :
  session_open (max_frame_bytes limits) from_client (mkView (x ++ rest) reads out log replies) →
  client_frame (max_frame_bytes limits) x (Passthrough id) →
  CWP (do written := await (WriteUpstream x) in
       match written with Ok _ => proceed | Err e => leave (Returned (Err e)) end)
    frame_post [] (client_share (mkView rest (reads ++ [x]) out log replies) ∅) s.
Proof.
  intros Ho Hx. unfold await, proceed, leave. cbn [bind wp]. split; [done|].
  assert (∀ Q, (∀ part σ', Q σ' (client_share (mkView rest (reads ++ [x]) (out ++ part) log replies) ∅)) →
            CUP s (client_share (mkView rest (reads ++ [x]) out log replies) ∅)
              (λ σ σ', ∃ part, part `prefix_of` x ∧ σ' = add_upstream_out part σ) Q) as Hpart.
  { intros Q HQ σ fr σ' Hs Hi (part & Hp & ->).
    eapply (write_update s _ _ _ _ _ _ part (λ σ σ', σ' = add_upstream_out part σ)); [| |auto|done|done|done];
      [by eapply session_writing|done]. }
  split; [by apply Hpart; intros; apply cancel_conn|]. intros [[]|e]; [|by apply Hpart].
  apply (write_update _ _ _ _ _ _ _ x); [by eapply session_writing|done|].
  intros σ' _. split; [done|]. eexists. split; [done|]. by eapply session_passthrough.
Qed.

Lemma handle_passthrough_wp x id rest reads out log replies s :
  session_open (max_frame_bytes limits) from_client (mkView (x ++ rest) reads out log replies) →
  client_frame (max_frame_bytes limits) x (Passthrough id) →
  CWP (handle_passthrough limits x id) frame_post []
    (client_share (mkView rest (reads ++ [x]) out log replies) (fresh_of (request_key x))) s.
Proof.
  intros Ho Hx. pose proof Hx as [Hf%fits_frame_of Hc]. unfold handle_passthrough. apply wp_bind.
  unfold request_key. rewrite Hf, Hc.
  destruct id as [id|]; [|by apply write_upstream_wp with None].
  assert (is_valid_request_id id = true) as Hid.
  { apply classify_Ok in Hc as (r & _ & Hv & _ & E). by rewrite <- E in Hv. }
  unfold request_id_key. rewrite Hid.
  eapply wp_mono; [|apply (reserve_or_refuse_wp id (to_vec id) PendingUpstream)].
  - intros [[]|exit] h m s' [-> Hm]; [subst m; by apply write_upstream_wp with (Some id)|by split].
  - by apply session_holding.
  - eapply (session_refused _ _ rest reads out log replies); [done|]. by eapply refuse_duplicate.
  - eapply (session_refused _ _ rest reads out log replies); [done|]. by apply refuse_limit.
Qed.

(** The relay has been called: the log records the call and its outcome. *)
Lemma relay_update s rest reads out log replies raw o (Q : ConnState → conn_share → Prop) :
  session (max_frame_bytes limits) from_client (mkView rest reads out (log ++ [(raw, o)]) replies) →
  (∀ σ', match o with Some (Ok txid) => is_txid txid | _ => True end →
         Q σ' (client_share (mkView rest reads out (log ++ [(raw, o)]) replies) ∅)) →
  CUP s (client_share (mkView rest reads out log replies) ∅) (λ σ σ', conn_env _ (CallRelay raw) σ o σ') Q.
Proof.
  intros Hse HQ σ fr σ' Hs Hi [-> Ho].
  eapply (client_update s _ (mkView rest reads out (log ++ [(raw, o)]) replies) ∅ ∅
            (λ σ σ', σ' = add_relay_log (raw, o) σ)); [done| |auto|done|done|done].
  clear. intros σ σ' -> [= <- <- <- <- <-]. split; [split; cbn; try done; by eexists|].
  split; [done|]. split; [done|]. split; [done|]. split; [done|]. split; [|done]. intros k. unfold forwarded, asked. cbn. lia.
Qed.

Lemma send_response_wp v message s :
  session_open (max_frame_bytes limits) from_client (add_reply v message) →
  CWP (do delivered := await (Send FromClient message) in
       match delivered with Err _ => leave (Returned (Ok tt)) | Ok _ => proceed end)
    frame_post [] (client_share v ∅) s.
Proof.
  intros Ho. unfold await, proceed, leave. cbn [bind wp]. split; [done|].
  split; [apply quiet_update; [by intros ?? ->|intros; apply cancel_conn]|].
  intros [[]|[]]; [|by apply quiet_update; [intros ?? ->|by split]].
  apply client_send_update; [by apply session_between|]. intros s' _. split; [done|]. eauto.
Qed.

Lemma finish_broadcast_wp (broadcast_key : option str) v s (k : conn_prog (unit + client_exit)) :
  session (max_frame_bytes limits) from_client v →
  (∀ s', CWP k frame_post [] (client_share v ∅) s') →
  CWP (do _ := match broadcast_key with
               | Some key => do _ := await LockPending in atomic (on_pending (finish_broadcast key))
               | None => Ret tt
               end in k) frame_post [] (client_share v ∅) s.
Proof.
  intros Hv Hk. apply wp_bind. destruct broadcast_key as [key|]; [|apply Hk].
  unfold await, atomic. cbn [bind wp]. split; [done|].
  split; [apply quiet_update; [by intros ?? ->|intros; apply cancel_conn]|].
  intros []. apply quiet_update; [by intros ?? ->|]. intros s1 _ [].
  apply client_pending_update with (fr' := ∅); [done| |intros s2 _; apply Hk].
  intros p p' [= <-]. split; [intros k'; pose proof (waiting_delete k' key p); lia|].
  pose proof (size_delete_le key p). lia.
Qed.

Lemma handle_broadcast_wp x id raw rest reads out log replies s :
  session_open (max_frame_bytes limits) from_client (mkView (x ++ rest) reads out log replies) →
  client_frame (max_frame_bytes limits) x (Broadcast id raw) →
  CWP (handle_broadcast limits id raw) frame_post []
    (client_share (mkView rest (reads ++ [x]) out log replies) ∅) s.
Proof.
  intros Ho Hx. unfold handle_broadcast. apply wp_bind.
  assert (∀ s', CWP (do r := await (CallRelay raw) in
       do _ := match request_id_key id with
               | Some key => do _ := await LockPending in atomic (on_pending (finish_broadcast key))
               | None => Ret tt
               end in
       do delivered := await (Send FromClient (broadcast_response id r)) in
       match delivered with Err _ => leave (Returned (Ok tt)) | Ok _ => proceed end)
     frame_post [] (client_share (mkView rest (reads ++ [x]) out log replies) ∅) s') as Hcall.
  { intros s'. unfold await at 1. cbn [bind wp]. split; [done|]. split.
    - apply relay_update; [by eapply session_calling|]. intros; apply cancel_conn.
    - intros r. apply relay_update; [by eapply session_calling|]. intros s1 Hr.
      apply finish_broadcast_wp; [by eapply session_calling|]. intros s2. apply send_response_wp.
      eapply session_broadcast; [done|done|]. by destruct r. }
  destruct (request_id_key id) as [key|] eqn:Ek; [|apply Hcall].
  eapply wp_mono; [|apply (reserve_or_refuse_wp id key PendingBroadcast)].
  - intros [[]|exit] h m s' [-> Hm]; [subst m; apply Hcall|by split].
  - by apply session_holding.
  - eapply (session_refused _ _ rest reads out log replies); [done|]. by eapply refuse_duplicate.
  - eapply (session_refused _ _ rest reads out log replies); [done|]. by eapply refuse_broadcast_limit.
Qed.

Lemma handle_frame_wp x rest reads out log replies s :
  session_open (max_frame_bytes limits) from_client (mkView (x ++ rest) reads out log replies) →
  fits (max_frame_bytes limits) x →
  CWP (handle_frame limits x) frame_post []
    (client_share (mkView rest (reads ++ [x]) out log replies) (fresh_of (request_key x))) s.
Proof.
  intros Ho Hx. pose proof (fits_frame_of _ _ Hx) as Hf. unfold handle_frame. destruct (classify x) as [[id raw|id]|e] eqn:Hc.
  - unfold request_key. rewrite Hf, Hc. apply handle_broadcast_wp; [done|by split].
  - apply handle_passthrough_wp; [done|by split].
  - unfold request_key. rewrite Hf, Hc. eapply wp_mono; [|apply refuse_wp].
    + by intros r h m s' [? _].
    + eapply (session_refused _ _ rest reads out log replies); [done|]. by apply refuse_error.
Qed.

(** A poll finds the bytes of a frame: the buffer has been read. *)
Lemma read_update s input reads out log replies buf limit (Q : ConnState → conn_share → Prop) :
  session_open (max_frame_bytes limits) from_client (mkView input reads out log replies) →
  (∀ σ' rest, input = buf ++ rest → newline ∉ removelast buf →
     Q σ' (client_share (mkView rest (reads ++ [buf]) out log replies) (fresh_of (request_key buf)))) →
  CUP s (poll_share true (mkView input reads out log replies) ∅)
    (λ σ σ', conn_env _ (ReadClient limit) σ (Some (inr (Ok buf))) σ') Q.
Proof.
  intros Ho HQ σ fr σ' Hs Hi (rest & (Hin & _ & Hnl & _) & ->).
  assert (client_in σ = input) as Ein.
  { pose proof (owned_l _ (cs_client fr) _ (ci_client _ _ Hi)) as Hv. cbn in Hv. by injection Hv. }
  rewrite Ein in Hin. subst input.
  eapply (poll_update s true false _ (mkView rest (reads ++ [buf]) out log replies) ∅ (fresh_of (request_key buf))
            (λ σ σ', σ' = set_polling false (set_client_in rest (add_read buf σ))));
    [by apply session_holding| |by intros; apply HQ|done|done|done].
  clear. intros σ σ' -> [= E <- <- <- <-] Eb.
  split; [split; cbn; try done; [by eexists|rewrite Eb, length_app; cbn; lia]|].
  split; [done|]. split; [done|]. split; [done|]. split; [done|]. split; [|done]. intros k.
  unfold forwarded. cbn. unfold asked. cbn. rewrite count_snoc.
  destruct (request_key buf) as [key|]; cbn [fresh_of]; rewrite ?multiplicity_empty; [|lia].
  destruct (decide (k = key)) as [-> |Hne].
  - rewrite bool_decide_eq_true_2 by done. rewrite multiplicity_singleton, decide_True by done. lia.
  - rewrite multiplicity_singleton_ne by done. lia.
Qed.

(** A read from the wallet has failed or was dropped; some of its bytes may be
    lost. *)
Lemma lost_update s b input reads out log replies rel (Q : ConnState → conn_share → Prop) :
  session_open (max_frame_bytes limits) from_client (mkView input reads out log replies) →
  (∀ σ σ', rel σ σ' → ∃ rest, rest `suffix_of` client_in σ
     ∧ σ' = if (b : bool) then set_client_in rest σ else set_polling false (set_client_in rest σ)) →
  (∀ σ' lost rest, input = lost ++ rest → Q σ' (poll_share b (mkView rest reads out log replies) ∅)) →
  CUP s (poll_share true (mkView input reads out log replies) ∅) rel Q.
Proof.
  intros Ho Hrel HQ σ fr σ' Hs Hi Hr. destruct (Hrel _ _ Hr) as (rest & [lost Hin] & ->).
  assert (client_in σ = input) as Ein.
  { pose proof (owned_l _ (cs_client fr) _ (ci_client _ _ Hi)) as Hv. cbn in Hv. by injection Hv. }
  rewrite Ein in Hin. subst input.
  eapply (poll_update s true b _ (mkView rest reads out log replies) ∅ ∅
            (λ σ σ', σ' = if b then set_client_in rest σ else set_polling false (set_client_in rest σ)));
    [by eapply session_ended| |by intros; eapply HQ|done|done|done].
  clear. intros σ σ' -> [= E <- <- <- <-] Eb. destruct b; (split; [split; cbn; try done; lia|]; by repeat split).
Qed.

(** What the [select!] leaves: shutdown, a buffer or a failed read. *)
Definition select_post (v : view) (r : unit + result bytes io_error) (h : list Empty_set) (m : conn_share)
    (s : ConnState) : Prop :=
  h = [] ∧ match r with
           | inl _ => m = client_share v ∅
           | inr (Ok buf) =>
               ∃ rest, v_in v = buf ++ rest ∧ newline ∉ removelast buf
                 ∧ m = client_share (mkView rest (v_read v ++ [buf]) (v_out v) (v_log v) (v_replies v))
                         (fresh_of (request_key buf))
           | inr (Err _) =>
               ∃ lost rest, v_in v = lost ++ rest
                 ∧ m = client_share (mkView rest (v_read v) (v_out v) (v_log v) (v_replies v)) ∅
           end.

(** A poll begins or ends without reading. *)
Lemma polled_update s b b' v rel (Q : ConnState → conn_share → Prop) :
  session (max_frame_bytes limits) from_client v →
  (∀ σ σ', rel σ σ' → σ' = set_polling b' σ ∧ (shutdown_ready σ = true → b' = false)) →
  (∀ σ', Q σ' (poll_share b' v ∅)) → CUP s (poll_share b v ∅) rel Q.
Proof.
  intros Hv Hrel HQ. apply (poll_update _ b b' v v ∅ ∅); [done| |auto].
  intros σ σ' [-> Hb]%Hrel Ev _. split; [split; cbn; try done; intros ->%Hb; cbn; lia|]. by repeat split.
Qed.

Lemma select_frame_wp limit v s :
  session_open (max_frame_bytes limits) from_client v →
  CWP (select_frame limit) (select_post v) [] (client_share v ∅) s.
Proof.
  intros Ho. pose proof (session_between _ _ _ Ho) as Hse. destruct v as [input reads out log replies].
  unfold select_frame, loop. cbn [wp].
  exists (λ _ h m _, h = [] ∧ m = client_share (mkView input reads out log replies) ∅). split; [done|].
  intros [] h m s1 [-> ->]. unfold atomic, await. cbn [bind wp]. intros ready.
  apply polled_update with (b' := negb ready); [done| |].
  { intros σ σ' [= <- <-]. split; [done|]. by intros ->. }
  intros s2. destruct ready; cbn [negb]; [by split|]. cbn [bind wp]. split; [done|].
  split; [apply (lost_update _ true); [done|done|intros; apply cancel_conn]|].
  intros [[]|[buf|e]].
  - apply polled_update with (b' := false); [done|by intros ?? ->|]. by intros.
  - apply read_update; [done|]. intros s3 rest -> Hnl. split; [done|]. exists rest. done.
  - apply (lost_update _ false); [done|done|]. intros s3 lost rest ->. split; [done|]. exists lost, rest. done.
Qed.

Lemma handle_client_frames_wp s :
  CWP (handle_client_frames limits) (λ exit h m _, h = [] ∧ exit ≠ Panicked) []
    (client_share (mkView from_client [] [] [] []) ∅) s.
Proof.
  unfold handle_client_frames, loop. cbn [wp].
  exists (λ _ h m _, h = [] ∧ ∃ v, m = client_share v ∅ ∧ session_open (max_frame_bytes limits) from_client v).
  split; [split; [done|]; eexists; split; [done|constructor]|].
  intros [] h m s1 (-> & [input reads out log replies] & -> & Ho).
  apply wp_bind. eapply wp_mono; [|by apply select_frame_wp]. intros [[]|[buf|e]] h m s2 [-> Hm]; cbn in Hm.
  - by split.
  - destruct Hm as (rest & -> & Hnl & ->). cbn [read_frame try_].
    destruct (frame_of (max_frame_bytes limits) buf) as [[x|]|e] eqn:Hf; [| |pose proof (frame_of_Err _ _ _ Hf) as ->].
    + destruct (frame_of_fits _ _ _ Hf Hnl) as [-> Hx]. eapply wp_mono; [|by apply handle_frame_wp].
      intros [[]|exit] h m s3 [-> Hm]; by split.
    + by split.
    + eapply wp_mono; [|apply refuse_wp]; [by intros r h m s' [[-> Hr] [exit ->]]|].
      eapply (session_refused _ _ rest reads out log replies); [done|by apply refuse_frame].
  - destruct Hm as (lost & rest & -> & ->). cbn [read_frame try_].
    destruct e; [|by split]. eapply wp_mono; [|apply refuse_wp]; [by intros r h m s' [[-> Hr] [exit ->]]|].
    by eapply session_unreadable.
Qed.

(** ** The upstream reader *)

Definition upstream_share (taken : gmultiset str) : conn_share := mkConnShare ExNone ExNone ∅ taken.

Lemma upstream_update s (tk tk' : gmultiset str) rel (Q : ConnState → conn_share → Prop) :
  (∀ σ σ', rel σ σ' →
     conn_guar σ σ' ∧ client_view σ' = client_view σ ∧ polling σ' = polling σ ∧ received σ' = received σ
     ∧ client_out σ' = client_out σ
     ∧ (∀ k, (forwarded k σ' + waiting k (pending σ') + multiplicity k tk'
              ≤ forwarded k σ + waiting k (pending σ) + multiplicity k tk)%nat)
     ∧ (size (pending σ') ≤ size (pending σ))%nat) →
  (∀ σ', Q σ' (upstream_share tk')) →
  CUP s (upstream_share tk) rel Q.
Proof.
  intros Hrel HQ. apply (conn_update _ _ (upstream_share tk')).
  intros σ σ' Hs Hr Hse Hd Hc Hw. destruct (Hrel _ _ Hr) as (Hg & Ev & Eb & Er & Eo & Hk & Hp).
  cbn [cs_client cs_writer cs_fresh cs_taken upstream_share].
  assert (client_read σ' = client_read σ) as Ea by (by injection Ev).
  split; [done|]. rewrite Ev, Eb. split; [done|]. split; [by left|].
  split; [eapply delivery_sent; [done|done|apply (cg_sent _ _ Hg)|done]|].
  split; [left; by rewrite Er, Eo|]. split; [|split; [lia|auto]].
  intros k. specialize (Hk k). unfold asked. rewrite Ea. lia.
Qed.

Lemma take_upstream_waiting key p b p' k :
  take_upstream key p = (b, p') →
  (waiting k p' + multiplicity k (fresh_of (if b then Some key else None)) ≤ waiting k p)%nat
  ∧ (size p' ≤ size p)%nat.
Proof.
  unfold take_upstream. destruct (p !! key) as [[]|] eqn:E; intros [= <- <-]; cbn [fresh_of].
  - split; [|apply size_delete_le]. unfold waiting. destruct (decide (k = key)) as [-> |Hne].
    + rewrite lookup_delete_eq, E, multiplicity_singleton, decide_True by done. by repeat case_bool_decide.
    + rewrite lookup_delete_ne, multiplicity_singleton_ne by done. lia.
  - rewrite multiplicity_empty. split; lia.
  - rewrite multiplicity_empty. split; lia.
Qed.

Lemma should_forward_wp envelope frame s :
  from_slice frame = Some envelope →
  CWP (should_forward envelope)
    (λ r h m _, h = [] ∧ match r with
                         | Ok true => m = upstream_share (fresh_of (response_key frame))
                         | Ok false => m = upstream_share ∅
                         | Err _ => True
                         end) [] (upstream_share ∅) s.
Proof.
  intros Hf. unfold should_forward, response_key. rewrite Hf. cbn [mbind option_bind].
  destruct (env_id envelope) as [id|], (env_method envelope) as [method|]; try by split.
  destruct (request_id_key id) as [key|] eqn:Ek; [|by split]. unfold await, atomic. cbn [bind wp].
  split; [done|]. split; [apply quiet_update; [by intros ?? ->|intros; apply cancel_conn]|].
  intros []. apply quiet_update; [by intros ?? ->|]. intros s1 _ b.
  apply upstream_update with (tk' := fresh_of (if b then Some key else None)).
  - intros σ σ'. unfold on_pending. destruct (take_upstream key (pending σ)) as [b' p'] eqn:E.
    intros [= -> <-]. split; [apply guar_set_pending|]. split; [done|]. split; [done|]. split; [done|]. split; [done|].
    split; [intros k|]; pose proof (take_upstream_waiting key _ _ _ key E) as [_ ?]; [|done].
    destruct (take_upstream_waiting key _ _ _ k E) as [Hk _]. rewrite multiplicity_empty. unfold forwarded. cbn. lia.
  - intros s2. split; [done|]. by destruct b.
Qed.

Lemma forward_upstream_frames_wp s :
  CWP (forward_upstream_frames (max_frame_bytes limits)) (λ _ h _ _, h = []) [] (upstream_share ∅) s.
Proof.
  unfold forward_upstream_frames, loop. cbn [wp]. exists (λ _ h m _, h = [] ∧ m = upstream_share ∅).
  split; [done|]. intros [] h m s1 [-> ->]. unfold await at 1. cbn [bind wp]. split; [done|].
  split; [apply quiet_update; [by intros ?? (rest & _ & ->)|intros; apply cancel_conn]|].
  intros [buf|e]; (apply quiet_update; [by intros ?? (rest & _ & ->)|]); intros s2 _; [|done]. cbn [read_frame try_].
  destruct (frame_of (max_frame_bytes limits) buf) as [[frame|]|e]; [|done|done].
  destruct (from_slice frame) as [envelope|] eqn:Hf; [|done].
  apply wp_bind. eapply wp_mono; [|by apply should_forward_wp with (frame := frame)].
  intros [[]|e] h m s3 [-> Hm]; [|by subst|done]. subst m. unfold await. cbn [bind wp]. split; [done|].
  split; [apply quiet_update; [by intros ?? ->|intros; apply cancel_conn]|].
  intros [[]|[]]; [|by apply quiet_update; [intros ?? ->|]].
  apply upstream_update with (tk' := ∅); [|by split].
  intros σ σ' [_ ->]. split; [apply guar_add_sent|]. split; [apply view_add_sent|]. split; [done|]. split; [done|].
  split; [done|].
  split; [|done]. intros k. rewrite forwarded_add_sent, multiplicity_empty. cbn [pending add_sent].
  case_bool_decide as Ha; [|lia]. destruct Ha as [_ Ha]. cbn in Ha. rewrite Ha. cbn [fresh_of].
  rewrite multiplicity_singleton, decide_True by done. lia.
Qed.

(** ** The writer *)

Definition writer_share (n : nat) (out : bytes) : conn_share := mkConnShare ExNone (ExOwn (n, out)) ∅ ∅.

(** The first [n] frames of the channel, written in order. *)
Definition written (n : nat) (out : bytes) (σ : ConnState) : Prop :=
  (n ≤ length (sent σ))%nat ∧ out = concat (take n (snd <$> sent σ)).

Lemma written_guar n out σ σ' : conn_guar σ σ' → written n out σ → written n out σ'.
Proof.
  intros Hg [Hn ->]. destruct (cg_sent _ _ Hg) as [k Hk]. unfold written. rewrite Hk, length_app, fmap_app.
  split; [lia|]. by rewrite take_app_le by (rewrite length_fmap; lia).
Qed.

Lemma writer_update s n out n' out' rel (Q : ConnState → conn_share → Prop) :
  (∀ σ σ', conn_guar s σ → rel σ σ' → received σ = n → client_out σ = out → delivery σ →
     conn_guar σ σ' ∧ client_view σ' = client_view σ ∧ polling σ' = polling σ ∧ sent σ' = sent σ ∧ pending σ' = pending σ
     ∧ received σ' = n' ∧ client_out σ' = out' ∧ delivery σ' ∧ (conn_guar s σ' → Q σ' (writer_share n' out'))) →
  CUP s (writer_share n out) rel Q.
Proof.
  intros Hrel. apply (conn_update _ _ (writer_share n' out')).
  intros σ σ' Hs Hr Hse Hd Hc Hw. cbn in Hw. injection Hw as Hn Ho.
  destruct (Hrel σ σ' Hs Hr (eq_sym Hn) (eq_sym Ho) Hd) as (Hg & Ev & Eb & Es & Ep & En & Eo & Hd' & HQ).
  assert (client_read σ' = client_read σ) as Ea by (by injection Ev).
  cbn [cs_client cs_writer cs_fresh cs_taken writer_share].
  split; [done|]. rewrite Ev, Eb. split; [done|]. split; [by left|]. split; [done|].
  split; [right; rewrite En, Eo; eauto|]. unfold forwarded, asked. rewrite Es, Ep, Ea. done.
Qed.

Lemma guar_write_client x σ : conn_guar σ (add_client_out x σ).
Proof. by split. Qed.

(** Writing the frame last received, in full or in part. *)
Lemma write_client_update s n out who frame part rel (Q : ConnState → conn_share → Prop) :
  written n out s → sent s !! n = Some (who, frame) → part `prefix_of` frame →
  (∀ σ σ', rel σ σ' → σ' = add_client_out part σ) →
  (∀ σ', conn_guar s σ' → Q σ' (writer_share (S n) (out ++ part))) →
  CUP s (writer_share (S n) out) rel Q.
Proof.
  intros Hout Hsent Hpart Hrel HQ. apply writer_update with (n' := S n) (out' := out ++ part).
  intros σ σ' Hs ->%Hrel Hn Ho Hd. split; [apply guar_write_client|]. split; [done|]. split; [done|]. split; [done|].
  split; [done|]. split; [done|]. split; [cbn; by rewrite Ho|]. split; [|apply HQ].
  destruct (written_guar _ _ _ _ Hs Hout) as [Hle Eout].
  assert (sent σ !! n = Some (who, frame)) as Hl.
  { destruct (cg_sent _ _ Hs) as [k ->]. by apply lookup_app_l_Some. }
  exists n, part. cbn. rewrite Hn, Ho, Eout. split; [apply lookup_lt_Some in Hl; lia|]. split; [done|].
  right. exists frame. split; [by rewrite list_lookup_fmap, Hl|]. split; [done|lia].
Qed.

Lemma written_S n out who frame σ :
  written n out σ → sent σ !! n = Some (who, frame) → written (S n) (out ++ frame) σ.
Proof.
  intros [_ ->] Hl. split; [by apply lookup_lt_Some in Hl|].
  assert ((snd <$> sent σ) !! n = Some frame) as Hf by by rewrite list_lookup_fmap, Hl.
  rewrite (take_S_r _ _ _ Hf), concat_app. cbn. by rewrite app_nil_r.
Qed.

Lemma write_client_output_wp s :
  CWP write_client_output (λ _ h _ _, h = []) [] (writer_share 0 []) s.
Proof.
  unfold write_client_output, loop. cbn [wp].
  exists (λ _ h m s', h = [] ∧ ∃ n out, m = writer_share n out ∧ written n out s').
  split; [split; [done|]; exists 0%nat, []; split; [done|]; split; [lia|done]|].
  intros [] h m s1 (-> & n & out & -> & Hw). unfold await. cbn [bind wp]. split; [done|].
  split; [apply quiet_update; [by intros ?? ->|intros; apply cancel_conn]|].
  intros [frame|].
  2:{ apply quiet_update; [by intros ?? [_ ->]|]. intros s2 _. cbn [bind wp]. split; [done|].
      split; [apply quiet_update; [by intros ?? ->|intros; apply cancel_conn]|].
      intros r. apply quiet_update; [by intros ?? ->|]. by intros. }
  apply writer_update with (n' := S n) (out' := out).
  intros σ σ' Hs (who & Hl & ->) Hn Ho Hd. split; [by split|]. split; [done|]. split; [done|]. split; [done|]. split; [done|].
  split; [cbn; by rewrite Hn|]. split; [done|].
  pose proof (written_guar _ _ _ _ Hs Hw) as Hw'. rewrite Hn in Hl. split.
  { destruct Hw' as [Hle Eout]. exists n, []. cbn. rewrite Hn, Ho, Eout, app_nil_r.
    split; [apply lookup_lt_Some in Hl; lia|]. split; [done|by left]. }
  intros _. cbn [bind wp]. split; [done|].
  assert (written n out (add_received σ) ∧ sent (add_received σ) !! n = Some (who, frame)) as [Hw2 Hl2] by by split.
  assert (∀ Q, (∀ part σ', Q σ' (writer_share (S n) (out ++ part))) →
            CUP (add_received σ) (writer_share (S n) out)
              (λ σ σ', ∃ part, part `prefix_of` frame ∧ σ' = add_client_out part σ) Q) as Hpart.
  { intros Q HQ σ1 fr σ2 Hs1 Hi (part & Hp & ->).
    eapply (write_client_update (add_received σ) n out who frame part (λ σ σ', σ' = add_client_out part σ)); eauto. }
  split; [by apply Hpart; intros; apply cancel_conn|]. intros [[]|e]; [|by apply Hpart].
  apply (write_client_update _ n out who frame frame); [done..|]. intros s3 Hs3. split; [done|].
  eexists _, _. split; [done|]. eapply written_guar; [exact Hs3|]. by eapply written_S.
Qed.

(** ** The shutdown channel *)

(** A step on the shutdown channel alone. *)
Lemma shutdown_update s m rel (Q : ConnState → conn_share → Prop) :
  (∀ σ σ', rel σ σ' → ∃ b closed, σ' = set_shutdown b closed σ
     ∧ (shutdown σ = true → b = true) ∧ (shutdown_closed σ = true → closed = true)) →
  (∀ σ σ', rel σ σ' → Q σ' m) → CUP s m rel Q.
Proof.
  intros Hrel HQ. apply (conn_update _ m m).
  intros σ σ' Hs Hr Hse Hd Hc Hw. destruct (Hrel _ _ Hr) as (b & closed & E & Hb & Hcl).
  pose proof (HQ _ _ Hr) as HQ'. subst σ'.
  split; [by split|]. split; [done|]. split; [by left|]. split; [done|]. split; [by left|].
  split; [done|]. split; [done|]. by intros.
Qed.

Lemma set_shutdown_id σ : set_shutdown (shutdown σ) (shutdown_closed σ) σ = σ.
Proof. by destruct σ. Qed.

Lemma read_shutdown_update s m b (Q : ConnState → conn_share → Prop) :
  (∀ σ', shutdown σ' = b → Q σ' m) → CUP s m (λ σ σ', read_shutdown σ = (b, σ')) Q.
Proof.
  intros HQ. apply shutdown_update; [|by intros σ σ' [= <- <-]; apply HQ].
  intros σ σ' [= _ <-]. exists (shutdown σ), (shutdown_closed σ). by rewrite set_shutdown_id.
Qed.

Lemma wait_for_shutdown_wp s :
  CWP wait_for_shutdown (λ _ h m s', h = [] ∧ shutdown_ready s' = true) [] share_unit s.
Proof.
  unfold wait_for_shutdown, atomic, loop, await. cbn [bind wp]. intros b. apply read_shutdown_update.
  intros s1 Hs1. destruct b; [split; [done|]; unfold shutdown_ready; by rewrite Hs1|]. cbn [wp].
  exists (λ _ h m _, h = [] ∧ m = share_unit). split; [done|]. intros [] h m s2 [-> ->]. cbn [bind wp].
  split; [done|].
  split; [apply quiet_update; [by intros ?? [-> _]|intros; apply cancel_conn]|].
  intros [[]|[]].
  - apply quiet_update; [by intros ?? [-> _]|]. intros s3 _. cbn [bind wp]. intros b. apply read_shutdown_update.
    intros s4 Hs4. destruct b; [|done]. split; [done|]. unfold shutdown_ready. by rewrite Hs4.
  - apply shutdown_update.
    + intros σ σ' [-> _]. exists (shutdown σ), (shutdown_closed σ). by rewrite set_shutdown_id.
    + intros σ σ' [-> Hc]. split; [done|]. unfold shutdown_ready. rewrite Hc. apply orb_true_r.
Qed.

(** ** Every reachable state *)

Definition conn_outcome_ok (o : conn_outcome) (s : ConnState) : Prop :=
  match o with
  | ClientEnded exit => exit ≠ Panicked
  | SawShutdown => shutdown_ready s = true
  | _ => True
  end.

Abbreviation conn_ok := (system_ok no_guards conn_env conn_inv no_pre conn_guar conn_outcome_ok).

Lemma conn_op_wp (q : conn_prog conn_outcome) s : conn_op q → CWP q (finished conn_inv conn_outcome_ok) [] share_unit s.
Proof.
  destruct 1; [| |apply wp_bind; eapply wp_mono; [|apply wait_for_shutdown_wp]].
  - intros x. apply shutdown_update; [intros σ σ' [= _ <-]; eauto|].
    intros. split; [done|]. split; [done|apply conn_droppable].
  - intros x. apply shutdown_update; [intros σ σ' [= _ <-]; eauto|].
    intros. split; [done|]. split; [done|apply conn_droppable].
  - intros _ h m s' [-> ?]. split; [done|]. split; [done|apply conn_droppable].
Qed.

Lemma writer_task_wp s : CWP writer_task (finished conn_inv conn_outcome_ok) [] (writer_share 0 []) s.
Proof.
  apply wp_bind. eapply wp_mono; [|apply write_client_output_wp]. intros r h m s' ->.
  split; [done|]. split; [done|apply conn_droppable].
Qed.

Lemma upstream_task_wp s :
  CWP (upstream_task limits) (finished conn_inv conn_outcome_ok) [] (upstream_share ∅) s.
Proof.
  apply wp_bind. eapply wp_mono; [|apply forward_upstream_frames_wp]. intros r h m s' ->.
  split; [done|]. split; [done|apply conn_droppable].
Qed.

Lemma client_task_wp s :
  CWP (client_task limits) (finished conn_inv conn_outcome_ok) []
    (client_share (mkView from_client [] [] [] []) ∅) s.
Proof.
  apply wp_bind. eapply wp_mono; [|apply handle_client_frames_wp]. intros r h m s' [-> ?].
  split; [done|]. split; [done|apply conn_droppable].
Qed.

Lemma conn_start_ok from_upstream : conn_ok (conn_system limits from_client from_upstream).
Proof.
  exists [writer_share 0 []; upstream_share ∅; client_share (mkView from_client [] [] [] []) ∅]. split.
  - constructor; [exists (conn_start from_client from_upstream); split; [reflexivity|apply writer_task_wp]|].
    constructor; [exists (conn_start from_client from_upstream); split; [reflexivity|apply upstream_task_wp]|].
    constructor; [exists (conn_start from_client from_upstream); split; [reflexivity|apply client_task_wp]|].
    constructor.
  - split.
    + apply session_between. constructor.
    + done.
    + exists 0%nat, []. split; [cbn; lia|]. split; [done|by left].
    + done.
    + intros k. change (total_share _) with
        (writer_share 0 [] ⋅ (upstream_share ∅ ⋅ (client_share (mkView from_client [] [] [] []) ∅ ⋅ share_unit))).
      cbn [share_op share_unit conn_Shares cs_fresh cs_taken writer_share upstream_share client_share].
      rewrite !multiplicity_disj_union, !multiplicity_empty. unfold waiting.
      rewrite bool_decide_eq_false_2 by (cbn; by rewrite lookup_empty). done.
    + cbn. rewrite map_size_empty. lia.
Qed.

Lemma conn_steps_ok c c' : conn_ok c → conn_steps c c' → conn_guar (shared c) (shared c') ∧ conn_ok c'.
Proof. apply system_ok_steps; [apply _..|]. intros p s. apply conn_op_wp. Qed.

Lemma conn_reachable_ok from_upstream c : conn_reachable limits from_client from_upstream c → conn_ok c.
Proof. intros Hs. by eapply conn_steps_ok in Hs as [_ ?]; [|apply conn_start_ok]. Qed.

Lemma conn_ok_inv c : conn_ok c → ∃ m, conn_inv (shared c) m.
Proof. intros (ms & _ & ?). eauto. Qed.

Lemma conn_ok_returned c i o h :
  conn_ok c → pool c !! i = Some (Running (Ret o) h) → ∃ s, conn_outcome_ok o s ∧ conn_guar s (shared c).
Proof. apply system_ok_returned. Qed.
End Accounting.
