(* ===== verification/ConnectionProps.v ===== *)
(** * The properties of a connection

    Consequences of the refinement for every reachable state of a connection,
    and an executed connection as their witness. *)

From S2P Require Import Prelude RustStr Endpoint Config Serde Protocol JsonRef Async Tokio Relay RelaySafety Frames Connection ConnectionSafety.

Open Scope N_scope.
Open Scope rust_scope.
Open Scope async_scope.

(** ** What a session amounts to *)

Section Effects.
Context `{Ser : Serialize} `{DesR : Deserialize Request}.
Context (max : N) (from_client : bytes).

(** The frames that go upstream, and the broadcasts with their IDs. *)
Definition passes (x : bytes) : bool :=
  match classify x with Ok (Passthrough _) => true | _ => false end.

Definition broadcast_of (x : bytes) : option (Value * str) :=
  match classify x with Ok (Broadcast id raw) => Some (id, raw) | _ => None end.

Lemma client_frame_passes x id : client_frame max x (Passthrough id) → passes x = true ∧ broadcast_of x = None.
Proof. intros [_ E]. unfold passes, broadcast_of. by rewrite E. Qed.

Lemma client_frame_broadcast x id raw :
  client_frame max x (Broadcast id raw) → passes x = false ∧ broadcast_of x = Some (id, raw).
Proof. intros [_ E]. unfold passes, broadcast_of. by rewrite E. Qed.

(** A handled broadcast: its ID, its transaction and what the relay returned;
    the log entry and the response that belong to it. *)
Definition outcome : Type := (Value * str) * result str RelayError.
Definition logged (o : outcome) : str * option (result str RelayError) := (o.1.2, Some o.2).
Definition answered (o : outcome) : bytes :=
  match o.2 with
  | Ok transaction_id => success_response o.1.1 transaction_id
  | Err error => relay_error_response o.1.1 (bool_decide (kind error = Disabled))
  end.

(** Everything a session has done, as a function of the frames read and of what
    the relay returned. *)
Record effects (v : view) (outcomes : list outcome) : Prop := {
  eff_stream : concat (v_read v) ++ v_in v = from_client;
  eff_fits : Forall (fits max) (v_read v);
  eff_out : v_out v = concat (List.filter passes (v_read v));
  eff_outcomes : (fst <$> outcomes) = omap broadcast_of (v_read v);
  eff_log : v_log v = logged <$> outcomes;
  eff_replies : v_replies v = answered <$> outcomes;
  eff_txid : Forall (λ o, txid_result o.2) outcomes
}.

Lemma session_open_effects v : session_open max from_client v → ∃ outcomes, effects v outcomes.
Proof.
  induction 1 as [|rest reads out log replies x id _ [os [IH1 IH2 IH3 IH4 IH5 IH6 IH7]] Hx
                  |rest reads out log replies x id raw r _ [os [IH1 IH2 IH3 IH4 IH5 IH6 IH7]] Hx Hr];
    [by exists []|..]; cbn in *.
  - destruct (client_frame_passes _ _ Hx) as [Hp Hb]. destruct Hx as [Hf _]. exists os. split; cbn; try done.
    + by rewrite concat_app, <- app_assoc; cbn; rewrite app_nil_r.
    + apply Forall_app. split; [done|by constructor].
    + rewrite List.filter_app, concat_app. cbn. rewrite Hp. cbn. by rewrite app_nil_r, IH3.
    + rewrite omap_app. cbn. by rewrite Hb, app_nil_r.
  - destruct (client_frame_broadcast _ _ _ Hx) as [Hp Hb]. destruct Hx as [Hf _].
    exists (os ++ [((id, raw), r)]). split; cbn.
    + by rewrite concat_app, <- app_assoc; cbn; rewrite app_nil_r.
    + apply Forall_app. split; [done|by constructor].
    + rewrite List.filter_app, concat_app. cbn. by rewrite Hp, app_nil_r.
    + rewrite omap_app, fmap_app. cbn. by rewrite Hb, IH4.
    + by rewrite fmap_app, IH5.
    + rewrite fmap_app, IH6. by destruct r.
    + apply Forall_app. split; [done|by constructor].
Qed.

(** The same at any time, with the last frame perhaps only partly handled. *)
Record partial_effects (v : view) (handled last : list bytes) (outcomes : list outcome) : Prop := {
  pe_read : v_read v = handled ++ last;
  pe_last : (length last ≤ 1)%nat;
  pe_stream : concat (v_read v) `prefix_of` from_client;
  pe_fits : Forall (fits max) handled;
  pe_out : ∃ part, v_out v = concat (List.filter passes handled) ++ part
                   ∧ part `prefix_of` concat (List.filter passes last);
  pe_outcomes : (fst <$> outcomes) = omap broadcast_of handled;
  pe_log : ∃ calls, v_log v = (logged <$> outcomes) ++ calls
                    ∧ (fst <$> calls) `prefix_of` (snd <$> omap broadcast_of last);
  pe_replies : ∃ extra, v_replies v = (answered <$> outcomes) ++ extra ∧ (length extra ≤ 1)%nat;
  pe_txid : Forall (λ o, txid_result o.2) outcomes
}.

(** No frame in progress; bytes may have been lost and a response added. *)
Lemma open_partial lost rest reads out log replies extra :
  session_open max from_client (mkView (lost ++ rest) reads out log replies) → (length extra ≤ 1)%nat →
  ∃ outcomes, partial_effects (mkView rest reads out log (replies ++ extra)) reads [] outcomes.
Proof.
  intros [os [E1 E2 E3 E4 E5 E6 E7]]%session_open_effects He. cbn in *. exists os.
  split; cbn; [by rewrite app_nil_r|lia|by exists (lost ++ rest)|done| |done| | |done].
  - exists []. by rewrite app_nil_r.
  - exists []. by rewrite app_nil_r.
  - exists extra. by rewrite E6.
Qed.

(** Partial handling of one more frame [x]. *)
Lemma partial_snoc rest reads out log replies x part calls tail :
  session_open max from_client (mkView (x ++ rest) reads out log replies) →
  part `prefix_of` concat (List.filter passes [x]) →
  (fst <$> calls) `prefix_of` (snd <$> omap broadcast_of [x]) → (length tail ≤ 1)%nat →
  ∃ outcomes,
    partial_effects (mkView rest (reads ++ [x]) (out ++ part) (log ++ calls) (replies ++ tail)) reads [x] outcomes.
Proof.
  intros [os [E1 E2 E3 E4 E5 E6 E7]]%session_open_effects Hpart Hcalls Htail. cbn in *. exists os.
  split; cbn; [done|lia| |done| |done| | |done].
  - exists rest. rewrite concat_app. cbn. rewrite app_nil_r, <- app_assoc. done.
  - exists part. by rewrite E3.
  - exists calls. by rewrite E5.
  - exists tail. by rewrite E6.
Qed.

Lemma session_partial v : session max from_client v → ∃ handled last outcomes, partial_effects v handled last outcomes.
Proof.
  assert (∀ x id part, client_frame max x (Passthrough id) → part `prefix_of` x →
            part `prefix_of` concat (List.filter passes [x])) as Hpass.
  { intros x id part Hx Hp. cbn. destruct (client_frame_passes _ _ Hx) as [-> _]. cbn. by rewrite app_nil_r. }
  assert (∀ x id raw, client_frame max x (Broadcast id raw) →
            [raw] `prefix_of` (snd <$> omap broadcast_of [x])) as Hcall.
  { intros x id raw Hx. cbn. by destruct (client_frame_broadcast _ _ _ Hx) as [_ ->]. }
  destruct 1 as [v Ho|rest reads out log replies x Ho|rest reads out log replies x message Ho Hm
                |rest reads out log replies x id part Ho Hx Hp|rest reads out log replies x id raw o Ho Hx
                |rest lost reads out log replies Ho|rest lost reads out log replies Ho].
  - destruct v as [input reads out log replies]. exists reads, [].
    rewrite <- (app_nil_r replies). by apply (open_partial []); [|cbn; lia].
  - exists reads, [x]. generalize (partial_snoc rest reads out log replies x [] [] [] Ho).
    rewrite !app_nil_r. intros H. apply H; [apply prefix_nil..|cbn; lia].
  - exists reads, [x]. generalize (partial_snoc rest reads out log replies x [] [] [message] Ho).
    rewrite !app_nil_r. intros H. apply H; [apply prefix_nil..|cbn; lia].
  - exists reads, [x]. generalize (partial_snoc rest reads out log replies x part [] [] Ho).
    rewrite !app_nil_r. intros H. apply H; [by eapply Hpass|apply prefix_nil|cbn; lia].
  - exists reads, [x]. generalize (partial_snoc rest reads out log replies x [] [(raw, o)] [] Ho).
    rewrite !app_nil_r. intros H. apply H; [apply prefix_nil|by eapply Hcall|cbn; lia].
  - exists reads, []. rewrite <- (app_nil_r replies). by apply (open_partial lost); [|cbn; lia].
  - exists reads, []. by apply (open_partial lost); [|cbn; lia].
Qed.
End Effects.

(** ** Every reachable state of a connection *)

Section Properties.
Context `{Ser : Serialize} `{DesR : Deserialize Request} `{DesE : Deserialize UpstreamEnvelope}.
Context (limits : ConnectionLimits) (from_client from_upstream : bytes).
Implicit Types c : system (S:=ConnState) (G:=Empty_set) (E:=connE) conn_outcome.

Lemma reachable_session c :
  conn_reachable limits from_client from_upstream c →
  session (max_frame_bytes limits) from_client (client_view (shared c)).
Proof. intros Hc%conn_reachable_ok. by destruct (conn_ok_inv _ _ _ Hc) as [m []]. Qed.

(** The relay is asked only for broadcasts that the wallet sent, in order. *)
Lemma reachable_calls c :
  conn_reachable limits from_client from_upstream c →
  (fst <$> relay_log (shared c)) `prefix_of` (snd <$> omap broadcast_of (client_read (shared c))).
Proof.
  intros Hc%reachable_session.
  destruct (session_partial _ _ _ Hc) as (handled & last & os & [E1 _ _ _ _ E2 (calls & E3 & Hp) _ _]).
  cbn in E1, E3. rewrite E1, E3, omap_app, !fmap_app, <- E2, <- !list_fmap_compose.
  by apply prefix_app.
Qed.

(** C4: Refinement. Whatever the two readers, the writer, the relay, the peers,
    cancellation and shutdown do, at every moment what the wallet side has read,
    written upstream, asked of the relay and answered is a state of the
    abstract session: frames dealt with one at a time and in full, the last one
    perhaps in progress or refused. The wallet reader never panics: the [expect]
    on a validated request ID cannot fail. *)
Theorem connection_refines_session c :
  conn_reachable limits from_client from_upstream c →
  session (max_frame_bytes limits) from_client (client_view (shared c))
  ∧ ∀ i h exit, pool c !! i = Some (Running (Ret (ClientEnded exit)) h) → exit ≠ Panicked.
Proof.
  intros Hc. split; [by eapply reachable_session|]. intros i h exit Hi. apply conn_reachable_ok in Hc.
  by destruct (conn_ok_returned _ _ _ _ _ _ Hc Hi) as (s & ? & _).
Qed.

(** C3: Transparency. The bytes written to the upstream are exactly the
    pass-through frames of the wallet, unchanged and in order, followed by at
    most a prefix of the pass-through frame in progress; nothing else, no
    broadcast in particular, ever reaches the upstream. *)
Theorem upstream_transparency c :
  conn_reachable limits from_client from_upstream c →
  ∃ handled last part,
    client_read (shared c) = handled ++ last ∧ (length last ≤ 1)%nat
    ∧ concat (client_read (shared c)) `prefix_of` from_client
    ∧ Forall (fits (max_frame_bytes limits)) handled
    ∧ upstream_out (shared c) = concat (List.filter passes handled) ++ part
    ∧ part `prefix_of` concat (List.filter passes last).
Proof.
  intros Hc%reachable_session. destruct (session_partial _ _ _ Hc) as (handled & last & os & [E1 E2 E3 E4 (part & E5 & ?) _ _ _ _]).
  exists handled, last, part. done.
Qed.

(** C6: One submission and one answer per broadcast. The relay is asked for
    exactly the broadcast frames handled, in order and once each (no retry),
    and perhaps for the one in progress; each handled broadcast has received
    exactly one response, under its own ID and from what the relay returned for
    it, and at most one further response has been given. *)
Theorem broadcast_once c :
  conn_reachable limits from_client from_upstream c →
  ∃ handled last outcomes calls extra,
    client_read (shared c) = handled ++ last ∧ (length last ≤ 1)%nat
    ∧ (fst <$> outcomes) = omap broadcast_of handled
    ∧ relay_log (shared c) = (logged <$> outcomes) ++ calls
    ∧ (fst <$> calls) `prefix_of` (snd <$> omap broadcast_of last)
    ∧ omap reply_of (sent (shared c)) = (answered <$> outcomes) ++ extra ∧ (length extra ≤ 1)%nat
    ∧ Forall (λ o, txid_result o.2) outcomes.
Proof.
  intros Hc%reachable_session.
  destruct (session_partial _ _ _ Hc) as (handled & last & os & [E1 E2 _ _ _ E3 (calls & ? & ?) (extra & ? & ?) ?]).
  exists handled, last, os, calls, extra. done.
Qed.

(** C12: Correlation. For every request key, the responses forwarded to the wallet
    and the request still waiting, if any, are together at most as many as the
    wallet's pass-through requests with that key: the upstream cannot answer a
    request twice, answer one that was not made, or answer a broadcast. *)
Theorem responses_answer_requests c (k : str) :
  conn_reachable limits from_client from_upstream c →
  (forwarded k (shared c) + waiting k (pending (shared c)) ≤ asked limits k (shared c))%nat.
Proof.
  intros Hc%conn_reachable_ok. destruct (conn_ok_inv _ _ _ Hc) as [m [_ _ _ _ Hk _]]. specialize (Hk k). lia.
Qed.

(** C13: The pending table never exceeds its configured bound. *)
Theorem pending_bounded c :
  conn_reachable limits from_client from_upstream c →
  N.of_nat (size (pending (shared c))) ≤ max_pending_requests limits.
Proof. intros Hc%conn_reachable_ok. by destruct (conn_ok_inv _ _ _ Hc) as [m []]. Qed.

(** C20: Shutdown is observed. A task that has returned from [wait_for_shutdown]
    has seen the flag set or its sender gone; from the moment that is so, along
    any execution, at most the read of the poll in progress takes one more frame
    from the wallet, and none does if no poll is in progress. *)
Theorem shutdown_stops_reading c c' :
  conn_reachable limits from_client from_upstream c → conn_steps c c' →
  (∀ i h, pool c !! i = Some (Running (Ret SawShutdown) h) → shutdown_ready (shared c) = true)
  ∧ (shutdown_ready (shared c) = true →
     shutdown_ready (shared c') = true
     ∧ (length (client_read (shared c')) ≤ S (length (client_read (shared c))))%nat
     ∧ (polling (shared c) = false → client_read (shared c') = client_read (shared c))).
Proof.
  intros Hc%conn_reachable_ok Hs. split.
  - intros i h Hi. destruct (conn_ok_returned _ _ _ _ _ _ Hc Hi) as (s & Hr & Hg). by eapply shutdown_ready_guar.
  - intros Hr. apply (conn_steps_ok _ _ _ _ Hc) in Hs as [Hg _].
    pose proof (cg_quiet _ _ Hg Hr) as Hq. split; [by eapply shutdown_ready_guar|]. split.
    { destruct (polling (shared c)); cbn [Nat.b2n] in Hq; lia. }
    intros Hp. rewrite Hp in Hq. cbn [Nat.b2n] in Hq. symmetry.
    apply prefix_length_eq; [apply (cg_read _ _ Hg)|lia].
Qed.
End Properties.

(** ** An executed connection *)

(** [Option<String>] with [#[serde(default)]] *)
Definition optional_string (f : field) : option (option str) :=
  match f with
  | Absent | Present Null => Some None
  | Present (Str s) => Some (Some s)
  | _ => None
  end.

#[export] Instance UpstreamEnvelope_Deserialize : Deserialize UpstreamEnvelope := λ x,
  v ← parse_json x;
  fields ← struct_fields [lit "id"; lit "method"] v;
  match fields with
  | [fid; fmethod] =>
      id ← optional_value fid; method ← optional_string fmethod; Some (mkUpstreamEnvelope id method)
  | _ => None
  end.

Definition sample_txid : str := lit "00112233445566778899aabbccddeeff00112233445566778899aabbccddeeff".

(** Peers that deliver everything at once, and a relay that accepts. *)
Definition working_peers (X : Type) (e : connE X) : ConnState → option (X * ConnState) :=
  match e in connE X return ConnState → option (X * ConnState) with
  | ReadClient limit => λ σ,
      let '(buf, rest) := read_until (N.to_nat limit) newline (client_in σ) in
      Some (inr (Ok buf), set_polling false (set_client_in rest (add_read buf σ)))
  | ReadUpstream limit => λ σ,
      let '(buf, rest) := read_until (N.to_nat limit) newline (upstream_in σ) in
      Some (Ok buf, set_upstream_in rest (add_upstream_read buf σ))
  | WriteUpstream data => λ σ, Some (Ok tt, add_upstream_out data σ)
  | LockPending => λ σ, Some (tt, σ)
  | Send who frame => λ σ,
      if bool_decide (length (sent σ) < received σ + CHANNEL_CAPACITY)%nat
      then Some (Ok tt, add_sent who frame σ) else None
  | Recv => λ σ, '(_, frame) ← sent σ !! received σ; Some (Some frame, add_received σ)
  | WriteClient data => λ σ, Some (Ok tt, add_client_out data σ)
  | CloseClient => λ σ, Some (Ok tt, σ)
  | CallRelay raw => λ σ, Some (Ok sample_txid, add_relay_log (raw, Some (Ok sample_txid)) σ)
  | ShutdownChanged => λ σ, Some (Ok tt, σ)
  end.

Definition dropped_peers (X : Type) (e : connE X) (σ : ConnState) : option ConnState :=
  Some (match e with CallRelay raw => add_relay_log (raw, None) σ | _ => σ end).

Lemma sample_txid_ok : is_txid sample_txid.
Proof.
  split; [reflexivity|]. apply Forall_impl with
    (P := λ b, is_ascii_hexdigit b && negb (is_ascii_uppercase b) = true).
  - apply forallb_Forall. vm_compute. reflexivity.
  - intros b [? ?%negb_true_iff]%andb_true_iff. by split.
Qed.

Lemma working_peers_env X (e : connE X) σ x σ' :
  working_peers X e σ = Some (x, σ') → conn_env X e σ (Some x) σ'.
Proof.
  destruct e as [limit|limit| | |who frame| | | |raw|]; cbn [working_peers]; try by intros [= <- <-].
  - destruct (read_until _ _ _) as [buf rest] eqn:Er. intros [= <- <-]. exists rest. split; [|done].
    apply read_until_ok in Er. by rewrite N2Nat.id in Er.
  - destruct (read_until _ _ _) as [buf rest] eqn:Er. intros [= <- <-]. exists rest. split; [|done].
    apply read_until_ok in Er. by rewrite N2Nat.id in Er.
  - case_bool_decide; [|done]. by intros [= <- <-].
  - destruct (sent σ !! received σ) as [[who frame]|] eqn:E; [|done]. intros [= <- <-]. cbn. eauto.
  - intros [= <- <-]. split; [done|apply sample_txid_ok].
Qed.

Lemma dropped_peers_env X (e : connE X) σ σ' : dropped_peers X e σ = Some σ' → conn_env X e σ None σ'.
Proof.
  intros [= <-]. destruct e; cbn; try done.
  - exists (client_in σ). split; [done|]. by destruct σ.
  - exists (upstream_in σ). split; [done|]. by destruct σ.
  - exists []. split; [apply prefix_nil|]. unfold add_upstream_out. rewrite app_nil_r. by destruct σ.
  - exists []. split; [apply prefix_nil|]. unfold add_client_out. rewrite app_nil_r. by destruct σ.
Qed.

(** A wallet that makes a request and a broadcast, an upstream that answers the
    request, tries to answer the broadcast too and sends a notification. *)
Definition wallet_stream : bytes :=
  frame "{'id':1,'method':'server.ping','params':[]}"
  ++ frame "{'id':2,'method':'blockchain.transaction.broadcast','params':['00ff']}".
Definition upstream_stream : bytes :=
  frame "{'id':1,'result':null}" ++ frame "{'id':2,'result':'forged'}"
  ++ frame "{'method':'blockchain.headers.subscribe','params':[]}".

Definition sample_limits : ConnectionLimits := mkConnectionLimits 1024 16.

Definition conn_run (schedule : list nat) : option (system conn_outcome) :=
  exec no_guards working_peers dropped_peers (conn_system sample_limits wallet_stream upstream_stream)
    (Run <$> schedule).

Lemma conn_run_reachable schedule c :
  conn_run schedule = Some c → conn_reachable sample_limits wallet_stream upstream_stream c.
Proof.
  apply exec_sound; [apply working_peers_env|apply dropped_peers_env|]. by apply Forall_fmap, Forall_true.
Qed.

Lemma conn_ran schedule :
  match conn_run schedule with Some _ => true | None => false end = true → ∃ c, conn_run schedule = Some c.
Proof. destruct (conn_run schedule); [eauto|done]. Qed.

(** Reads a value off the state a schedule ends in. *)
Lemma conn_observed {A} (f : system (S:=ConnState) (G:=Empty_set) (E:=connE) conn_outcome → A) (d : A) schedule c x :
  conn_run schedule = Some c → from_option f d (conn_run schedule) = x → f c = x.
Proof. by intros ->. Qed.

(** The wallet reader, the upstream reader and the writer, one after another. *)
Definition whole_exchange : list nat := replicate 18 2%nat ++ replicate 12 1%nat ++ replicate 8 0%nat.

Lemma whole_exchange_runs : ∃ c, conn_run whole_exchange = Some c.
Proof. apply conn_ran. vm_compute. reflexivity. Defined.

Lemma connection_refines_session_witness :
  ∃ c, conn_run (replicate 21 2%nat) = Some c ∧ session 1024 wallet_stream (client_view (shared c))
    ∧ ∃ h, pool c !! 2%nat = Some (Running (Ret (ClientEnded (Returned (Ok tt)))) h) ∧ Returned (Ok tt) ≠ Panicked.
Proof.
  destruct (conn_ran (replicate 21 2%nat) ltac:(vm_compute; reflexivity)) as [c E].
  destruct (connection_refines_session sample_limits _ _ c (conn_run_reachable _ _ E)) as [Hse Hp].
  exists c. split; [exact E|]. split; [exact Hse|].
  assert (match pool c !! 2%nat with Some (Running (Ret o) _) => Some o | _ => None end
          = Some (ClientEnded (Returned (Ok tt)))) as Ho.
  { apply (conn_observed (λ c, match pool c !! 2%nat with Some (Running (Ret o) _) => Some o | _ => None end)
             None _ _ _ E). vm_compute. reflexivity. }
  destruct (pool c !! 2%nat) as [[[o| | | | |] h| |]|] eqn:Ep; try discriminate Ho. injection Ho as ->.
  exists h. split; [reflexivity|]. exact (Hp _ _ _ Ep).
Defined.

(** The broadcast frame was read and is not among the bytes sent upstream. *)
Lemma upstream_transparency_witness :
  ∃ c handled last part, conn_run whole_exchange = Some c
    ∧ upstream_out (shared c) = frame "{'id':1,'method':'server.ping','params':[]}"
    ∧ upstream_out (shared c) = concat (List.filter passes handled) ++ part
    ∧ client_read (shared c) = handled ++ last.
Proof.
  destruct whole_exchange_runs as [c E].
  destruct (upstream_transparency sample_limits _ _ c (conn_run_reachable _ _ E))
    as (handled & last & part & H1 & _ & _ & _ & H2 & _).
  exists c, handled, last, part. split; [exact E|]. split; [|by split].
  apply (conn_observed (λ c, upstream_out (shared c)) [] _ _ _ E). vm_compute. reflexivity.
Defined.

Lemma broadcast_once_witness :
  ∃ c handled outcomes calls, conn_run whole_exchange = Some c
    ∧ relay_log (shared c) = [(lit "00ff", Some (Ok sample_txid))]
    ∧ (fst <$> outcomes) = omap broadcast_of handled
    ∧ relay_log (shared c) = (logged <$> outcomes) ++ calls.
Proof.
  destruct whole_exchange_runs as [c E].
  destruct (broadcast_once sample_limits _ _ c (conn_run_reachable _ _ E))
    as (handled & last & outcomes & calls & extra & _ & _ & H1 & H2 & _).
  exists c, handled, outcomes, calls. split; [exact E|]. split; [|by split].
  apply (conn_observed (λ c, relay_log (shared c)) [] _ _ _ E). vm_compute. reflexivity.
Defined.

(** The answer to request 1 was forwarded, the forged answer to broadcast 2 not. *)
Lemma responses_answer_requests_witness :
  ∃ c, conn_run whole_exchange = Some c ∧ forwarded (lit "1") (shared c) = 1%nat
    ∧ (forwarded (lit "2") (shared c) + waiting (lit "2") (pending (shared c)) ≤ 0)%nat.
Proof.
  destruct whole_exchange_runs as [c E]. exists c. split; [exact E|]. split.
  - apply (conn_observed (λ c, forwarded (lit "1") (shared c)) 0%nat _ _ _ E). vm_compute. reflexivity.
  - pose proof (responses_answer_requests sample_limits _ _ c (lit "2") (conn_run_reachable _ _ E)) as H.
    replace (asked sample_limits (lit "2") (shared c)) with 0%nat in H; [exact H|]. symmetry.
    apply (conn_observed (λ c, asked sample_limits (lit "2") (shared c)) 0%nat _ _ _ E). vm_compute. reflexivity.
Defined.

Lemma pending_bounded_witness :
  ∃ c, conn_run whole_exchange = Some c ∧ N.of_nat (size (pending (shared c))) ≤ 16.
Proof.
  destruct whole_exchange_runs as [c E]. exists c. split; [exact E|].
  exact (pending_bounded sample_limits _ _ c (conn_run_reachable _ _ E)).
Defined.

Lemma shutdown_stops_reading_witness :
  ∃ c c', conn_run whole_exchange = Some c ∧ conn_steps c c' ∧ shutdown_ready (shared c') = true
    ∧ ∀ c'', conn_steps c' c'' → (length (client_read (shared c'')) ≤ S (length (client_read (shared c'))))%nat.
Proof.
  destruct whole_exchange_runs as [c E].
  assert (∃ c', conn_steps c c' ∧ shutdown_ready (shared c') = true) as (c' & Hs & Hr).
  { destruct c as [σ ts]. eexists. split.
    - eapply rtc_l; [apply step_spawn, op_signal|].
      eapply rtc_l; [|apply rtc_refl]. eapply (step_task _ _ _ _ _ (length ts)).
      + rewrite lookup_app_r by lia. by rewrite Nat.sub_diag.
      + cbn. exists tt. split; reflexivity.
    - reflexivity. }
  exists c, c'. split; [exact E|]. split; [exact Hs|]. split; [exact Hr|].
  intros c'' Hs'.
  refine (proj1 (proj2 (proj2 (shutdown_stops_reading sample_limits wallet_stream upstream_stream c' c'' _ Hs') Hr))).
  unfold conn_reachable, conn_steps, steps in *. etrans; [exact (conn_run_reachable _ _ E)|exact Hs].
Defined.

Lemma read_frame_spec_witness :
  read_frame 16 (Ok (lit "ping" ++ [newline])) = Ok (Some (lit "ping" ++ [newline]))
  ∧ fits 16 (lit "ping" ++ [newline]) ∧ (lit "ping" ++ [newline]) ++ lit "po" = (lit "ping" ++ [newline]) ++ lit "po".
Proof.
  split; [reflexivity|].
  refine (proj2 (read_frame_spec 16 ((lit "ping" ++ [newline]) ++ lit "po") (lit "po") (Ok (lit "ping" ++ [newline])) _ _)).
  - reflexivity.
  - constructor. exact (read_until_ok 17 newline ((lit "ping" ++ [newline]) ++ lit "po") _ _ eq_refl).
Defined.

Lemma framing_roundtrip_witness :
  read_frames 16 (concat [lit "a" ++ [newline]; lit "bc" ++ [newline]] ++ lit "d")
    [lit "a" ++ [newline]; lit "bc" ++ [newline]] (lit "d").
Proof.
  apply framing_roundtrip; [reflexivity| |reflexivity|by split].
  constructor; [exists (lit "a")|constructor; [exists (lit "bc")|constructor]];
    (split; [reflexivity|]; split; [apply contains_byte_false; reflexivity|vm_compute; discriminate]).
Defined.

Lemma request_id_key_injective_witness :
  request_id_key (Num (Int 1)) = Some (lit "1") ∧ request_id_key (Str (lit "1")) ≠ Some (lit "1").
Proof.
  split; [reflexivity|]. intros H.
  discriminate (proj2 (request_id_key_injective (Num (Int 1)) (Str (lit "1")) (lit "1")) eq_refl H).
Defined.
