(* ===== verification/Batch.v ===== *)
(** * A batch that is forwarded

    The documentation says that batched requests are rejected. A JSON array whose
    elements can be read as the fields of a request is not. *)

From S2P Require Import Prelude RustStr Endpoint Config Serde Protocol JsonRef Async Tokio Relay RelaySafety Frames Connection ConnectionSafety ConnectionProps.

Open Scope N_scope.
Open Scope rust_scope.
Open Scope async_scope.

Section Batch.
Context `{Ser : Serialize} `{DesV : Deserialize Value} `{DesR : Deserialize Request} `{DesE : Deserialize UpstreamEnvelope}.
Context `{Seq : !RequestFromSequence}.

Lemma classify_sequence x id method inner :
  from_slice x = Some (Array [id; Str method; inner]) → is_valid_request_id id = true → method ≠ BROADCAST_METHOD →
  classify x = Ok (Passthrough (Some id)).
Proof.
  intros Hx%request_from_sequence Hid Hm. unfold classify. rewrite Hx.
  assert (non_null id = Some id) as -> by (by destruct id). cbn. rewrite Hid. cbn. by rewrite bool_decide_eq_false_2.
Qed.

Context (limits : ConnectionLimits) (rest from_upstream x : bytes).

(** The wallet reader takes a step. *)
Lemma reader_step (σ σ' : ConnState) writer upstream t t' c :
  tstep no_guards conn_env σ t σ' t' → conn_steps (mkSystem σ' [writer; upstream; t']) c →
  conn_steps (mkSystem σ [writer; upstream; t]) c.
Proof. intros Ht Hs. eapply rtc_l; [|exact Hs]. by apply (step_task _ _ _ _ [writer; upstream; t] 2 t). Qed.

Lemma reserve_empty key request :
  0 < max_pending_requests limits →
  reserve_request key request (max_pending_requests limits) ∅ = (Reserved, {[key := request]}).
Proof.
  intros Hm. unfold reserve_request. rewrite lookup_empty, map_size_empty, bool_decide_eq_false_2 by apply is_Some_None.
  by rewrite (proj2 (N.leb_gt _ _)).
Qed.

(** C32: A batch with anything in it can be forwarded. Take any frame within the
    bound whose text is a JSON array of three elements, the first a valid request
    ID and the second a string other than the broadcast method. It is classified
    as a pass-through request, and a connection whose wallet sends it writes it to
    the query upstream byte for byte and asks nothing of the relay, whatever the
    third element is: it may be a complete broadcast request. *)
Theorem batch_smuggles_broadcast (id : Value) (method : str) (inner : Value) :
  max_frame_bytes limits < usize_max → 0 < max_pending_requests limits → fits (max_frame_bytes limits) x →
  from_slice x = Some (Array [id; Str method; inner]) → is_valid_request_id id = true → method ≠ BROADCAST_METHOD →
  classify x = Ok (Passthrough (Some id))
  ∧ ∃ c, conn_reachable limits (x ++ rest) from_upstream c
         ∧ upstream_out (shared c) = x ∧ relay_log (shared c) = [] ∧ sent (shared c) = [].
Proof.
  intros Hmax Hpend Hfits Hx Hid Hm. pose proof (classify_sequence _ _ _ _ Hx Hid Hm) as Hc. split; [done|].
  eexists. split.
  { unfold conn_reachable, conn_system.
    eapply reader_step; [cbn; by split|]. cbn [bind].
    eapply reader_step; [cbn; by split|]. cbn [bind].
    eapply reader_step; [eexists; split; reflexivity|]. cbn.
    eapply reader_step.
    { exists (Some (inr (Ok x))). split; [|reflexivity]. exists rest. split; [by apply read_until_frame|reflexivity]. }
    cbn. rewrite (fits_frame_of _ _ Hfits). unfold handle_frame. rewrite Hc. unfold handle_passthrough, request_id_key.
    rewrite Hid. cbn.
    eapply reader_step; [exists (Some tt); split; reflexivity|]. cbn.
    eapply reader_step.
    { exists Reserved. split; [|reflexivity]. unfold on_pending. cbn [pending conn_start set_polling set_client_in add_read].
      by rewrite reserve_empty. }
    cbn. eapply reader_step; [exists (Some (Ok tt)); split; reflexivity|]. apply rtc_refl. }
  done.
Qed.
End Batch.

(** A batch whose third element is a complete broadcast request. *)
Definition hidden_broadcast : Value :=
  Object [(lit "id", Num (Int 2)); (lit "method", Str BROADCAST_METHOD); (lit "params", Array [Str (lit "00aa")])].
Definition smuggling_batch : bytes :=
  frame "[1,'x',{'id':2,'method':'blockchain.transaction.broadcast','params':['00aa']}]".

Lemma batch_smuggles_broadcast_witness :
  classify (to_vec hidden_broadcast) = Ok (Broadcast (Num (Int 2)) (lit "00aa"))
  ∧ from_slice smuggling_batch = Some (Array [Num (Int 1); Str (lit "x"); hidden_broadcast])
  ∧ classify smuggling_batch = Ok (Passthrough (Some (Num (Int 1))))
  ∧ ∃ c, conn_reachable sample_limits (smuggling_batch ++ []) [] c
         ∧ upstream_out (shared c) = smuggling_batch ∧ relay_log (shared c) = [] ∧ sent (shared c) = [].
Proof.
  split; [vm_compute; reflexivity|]. split; [vm_compute; reflexivity|].
  apply (batch_smuggles_broadcast sample_limits [] [] smuggling_batch (Num (Int 1)) (lit "x") hidden_broadcast).
  - reflexivity.
  - reflexivity.
  - exists (removelast smuggling_batch). split; [vm_compute; reflexivity|].
    split; [apply contains_byte_false; vm_compute; reflexivity|vm_compute; discriminate].
  - vm_compute. reflexivity.
  - reflexivity.
  - discriminate.
Defined.
