(* ===== verification/ConnectionFlow.v ===== *)
(** * From the upstream to the wallet

    What the tasks of a connection leave alone, and the flow of frames from the
    upstream to the wallet: the upstream reader forwards frames unchanged and in
    order, the writer writes them out. *)

From S2P Require Import Prelude RustStr Endpoint Config Serde Protocol JsonRef Async AsyncLift Tokio Relay RelaySafety Frames Connection ConnectionSafety ConnectionProps.

Open Scope N_scope.
Open Scope rust_scope.
Open Scope async_scope.

(** ** What the programs of a connection do not touch *)

(** The awaits of the wallet reader, of the upstream reader, and of the others. *)
Definition client_await (X : Type) (e : connE X) : bool :=
  match e with
  | ReadClient _ | WriteUpstream _ | LockPending | CallRelay _ | Send FromClient _ => true
  | _ => false
  end.
Definition upstream_await (X : Type) (e : connE X) : bool :=
  match e with ReadUpstream _ | LockPending | Send FromUpstream _ => true | _ => false end.
Definition other_await (X : Type) (e : connE X) : bool :=
  match e with Recv | WriteClient _ | CloseClient | ShutdownChanged => true | _ => false end.

Section Parts.
Context `{Ser : Serialize} `{DesR : Deserialize Request} `{DesE : Deserialize UpstreamEnvelope}.
Context {A : Type} (f : ConnState → A) (awaits : ∀ X, connE X → bool).
Context (Hpending : ∀ p σ, f (set_pending p σ) = f σ) (Hpolling : ∀ b σ, f (set_polling b σ) = f σ)
  (Hshutdown : ∀ b closed σ, f (set_shutdown b closed σ) = f σ).

Lemma on_pending_keeps {X} (g : PendingRequests → X * PendingRequests) σ : f (on_pending g σ).2 = f σ.
Proof. unfold on_pending. destruct (g (pending σ)). apply Hpending. Qed.

Ltac keep_part Hawaits :=
  repeat match goal with
         | |- keeps_part _ _ (bind _ _) => apply keeps_part_bind
         | |- keeps_part _ _ (match ?x with _ => _ end) => destruct x
         | |- keeps_part _ _ _ => progress cbn [keeps_part await atomic loop proceed leave]
         | |- awaits _ _ = true => by apply Hawaits
         | |- f (on_pending _ _).2 = _ => apply on_pending_keeps
         | |- _ ∧ _ => split
         | |- ∀ _, _ => intro
         | |- _ => done
         end.

Section Client.
Context (limits : ConnectionLimits) (Hawaits : ∀ X e, client_await X e = true → awaits X e = true).

Lemma refuse_keeps message : keeps_part f awaits (refuse message).
Proof. unfold refuse. keep_part Hawaits. Qed.

Lemma reserve_or_refuse_keeps id key request : keeps_part f awaits (reserve_or_refuse limits id key request).
Proof. unfold reserve_or_refuse. keep_part Hawaits; apply refuse_keeps. Qed.

Lemma handle_frame_keeps frame : keeps_part f awaits (handle_frame limits frame).
Proof.
  unfold handle_frame, handle_passthrough, handle_broadcast.
  keep_part Hawaits; apply refuse_keeps || apply reserve_or_refuse_keeps.
Qed.

Lemma client_task_keeps : keeps_part f awaits (client_task limits).
Proof.
  unfold client_task, handle_client_frames, select_frame.
  keep_part Hawaits; apply Hpolling || apply refuse_keeps || apply handle_frame_keeps.
Qed.
End Client.

Lemma upstream_task_keeps limits :
  (∀ X e, upstream_await X e = true → awaits X e = true) → keeps_part f awaits (upstream_task limits).
Proof. intros Hawaits. unfold upstream_task, forward_upstream_frames, should_forward. keep_part Hawaits. Qed.

Lemma writer_task_keeps :
  (∀ X e, other_await X e = true → awaits X e = true) → keeps_part f awaits writer_task.
Proof. intros Hawaits. unfold writer_task, write_client_output. keep_part Hawaits. Qed.

Lemma conn_op_keeps p :
  awaits _ ShutdownChanged = true → conn_op p → keeps_part f awaits p.
Proof.
  intros Hawaits []; unfold signal_shutdown, drop_shutdown_sender, wait_for_shutdown;
    keep_part Hawaits; apply Hshutdown.
Qed.
End Parts.

(** ** The flow of frames *)

Definition forward_of (x : sender * bytes) : option bytes :=
  match x with (FromUpstream, frame) => Some frame | (FromClient, _) => None end.

(** What is left to read from the upstream, what has been read, and what has been
    forwarded. *)
Definition upstream_view (σ : ConnState) : bytes * list bytes * list bytes :=
  (upstream_in σ, upstream_read σ, omap forward_of (sent σ)).

(** The awaits that have nothing to do with it. *)
Definition spares (X : Type) (e : connE X) : bool :=
  match e with ReadUpstream _ | Send FromUpstream _ => false | _ => true end.

Lemma spares_view X (e : connE X) σ o σ' :
  spares X e = true → conn_env X e σ o σ' → upstream_view σ' = upstream_view σ.
Proof.
  assert (∀ x, upstream_view (add_sent FromClient x σ) = upstream_view σ) as Hsent.
  { intros x. unfold upstream_view. cbn. by rewrite omap_app, app_nil_r. }
  destruct e as [| | | |[] | | | | |]; cbn; intros He; try done;
    repeat match goal with |- context [match ?x with _ => _ end] => destruct x end; naive_solver.
Qed.

Section Flow.
Context `{Ser : Serialize} `{DesR : Deserialize Request} `{DesE : Deserialize UpstreamEnvelope}.
Context (limits : ConnectionLimits) (from_upstream : bytes).

(** A frame that may be forwarded: within the bound, a response with a valid ID
    or a notification. *)
Definition forwardable_envelope (envelope : UpstreamEnvelope) : Prop :=
  match env_id envelope, env_method envelope with
  | Some id, None => is_Some (request_id_key id)
  | None, Some _ => True
  | _, _ => False
  end.
Definition forwardable (x : bytes) : Prop :=
  fits (max_frame_bytes limits) x ∧ ∃ envelope, from_slice x = Some envelope ∧ forwardable_envelope envelope.

Definition flow_ok (v : bytes * list bytes * list bytes) : Prop :=
  v.2 `sublist_of` v.1.2 ∧ concat v.1.2 `prefix_of` from_upstream ∧ Forall forwardable v.2.

(** The upstream reader owns the flow. *)
Definition flow_inv (v : bytes * list bytes * list bytes) (m : excl (bytes * list bytes * list bytes)) : Prop :=
  flow_ok v ∧ owned m v.

Definition flow_pre (X : Type) (e : connE X) (h : list Empty_set) (m : excl (bytes * list bytes * list bytes))
    (s : ConnState) : Prop := True.
Definition flow_guar (σ σ' : ConnState) : Prop := True.

#[export] Instance flow_guar_preorder : PreOrder flow_guar.
Proof. by split. Qed.

Abbreviation FWP := (wp no_guards conn_env (λ σ, flow_inv (upstream_view σ)) flow_pre flow_guar).
Abbreviation FUP := (update (λ σ, flow_inv (upstream_view σ)) flow_guar).

Lemma flow_droppable m : droppable (λ σ, flow_inv (upstream_view σ)) m.
Proof. intros σ fr [Hf Ho]. split; [done|]. exact (owned_r m _ _ Ho). Qed.

Lemma spares_wp {R} (p : conn_prog R) m s :
  keeps_part upstream_view spares p → FWP p (λ _ h m' _, h = [] ∧ m' = m) [] m s.
Proof.
  intros Hp. apply (keeps_part_wp no_guards conn_env upstream_view spares flow_inv); [done|done| |apply spares_view|done].
  apply flow_droppable.
Qed.

Lemma flow_update s v (rel : ConnState → ConnState → Prop) (Q : ConnState → excl (bytes * list bytes * list bytes) → Prop) :
  (∀ σ σ', rel σ σ' → upstream_view σ = v → flow_ok (upstream_view σ') ∧ Q σ' (ExOwn (upstream_view σ'))) →
  FUP s (ExOwn v) rel Q.
Proof.
  intros Hrel σ fr σ' _ [Hf Ho] Hr. pose proof (owned_l _ fr _ Ho) as Hv. cbn in Hv.
  destruct (Hrel σ σ' Hr (eq_sym Hv)) as [Hf' HQ]. split; [done|]. exists (ExOwn (upstream_view σ')).
  split; [|done]. split; [done|]. eapply owned_moves; [|exact Ho]. right. eauto.
Qed.

Lemma should_forward_flow envelope m s :
  FWP (should_forward envelope)
    (λ r h m' _, h = [] ∧ m' = m ∧ (forwardable_envelope envelope ∨ ∃ e, r = Err e)) [] m s.
Proof.
  assert (keeps_part upstream_view spares (should_forward envelope)) as Hk.
  { unfold should_forward. destruct (env_id envelope), (env_method envelope); try done.
    destruct (request_id_key v); [|done]. cbn. split; [done|]. intros _. split; [|done]. intros σ.
    by apply on_pending_keeps. }
  assert (forwardable_envelope envelope ∨ should_forward envelope = Ret (Err InvalidData)) as [Hf| ->].
  { unfold forwardable_envelope, should_forward. destruct (env_id envelope) as [id|], (env_method envelope); auto.
    destruct (request_id_key id); eauto. }
  - eapply wp_mono; [|by apply spares_wp]. intros r h m' s' [-> ->]. auto.
  - cbn. eauto.
Qed.

(** While the reader goes on, everything it has read is what the upstream sent. *)
Lemma forward_flow s :
  FWP (forward_upstream_frames (max_frame_bytes limits)) (λ _ h _ _, h = []) []
    (ExOwn (from_upstream, [], [])) s.
Proof.
  unfold forward_upstream_frames, loop. cbn [wp].
  exists (λ _ h m _, h = [] ∧ ∃ input reads fwds, m = ExOwn (input, reads, fwds)
                     ∧ concat reads ++ input = from_upstream ∧ flow_ok (input, reads, fwds)).
  split; [split; [done|]; exists from_upstream, [], []; split; [done|]; split; [done|]; split; [done|]; split;
    [apply prefix_nil|constructor]|].
  intros [] h m s1 (-> & input & reads & fwds & -> & Hin & Hsub & Hpre & Hall). unfold await at 1. cbn [bind wp].
  assert (∀ rest σ, upstream_view σ = (input, reads, fwds) →
            flow_ok (upstream_view (set_upstream_in rest σ))) as Hlost by (by intros rest σ [= _ <- <-]).
  split; [done|]. split; [apply flow_update; intros σ σ' (rest & _ & ->) Hv; split; [auto|apply flow_droppable]|].
  intros [buf|e]; apply flow_update; intros σ σ' (rest & Hr & ->) Hv; [|split; [auto|done]].
  destruct Hr as (Hbuf & _ & Hnl & _). injection Hv as Ei Er Ef. rewrite Ei in Hbuf. subst input.
  assert (concat (reads ++ [buf]) ++ rest = from_upstream) as Hin'.
  { rewrite concat_app. cbn. by rewrite app_nil_r, <- app_assoc. }
  assert (upstream_view (set_upstream_in rest (add_upstream_read buf σ)) = (rest, reads ++ [buf], fwds)) as ->.
  { unfold upstream_view. cbn. by rewrite Er, <- Ef. }
  assert (flow_ok (rest, reads ++ [buf], fwds)) as Hok.
  { split; [by apply sublist_inserts_r|]. split; [by exists rest|done]. }
  split; [done|]. cbn [read_frame try_].
  destruct (frame_of (max_frame_bytes limits) buf) as [[frame|]|e] eqn:Hf; [|done|done].
  destruct (frame_of_fits _ _ _ Hf Hnl) as [-> Hfits].
  destruct (from_slice buf) as [envelope|] eqn:He; [|done].
  apply wp_bind. eapply wp_mono; [|apply should_forward_flow].
  intros r h m s2 (-> & -> & Hr). destruct r as [[]|]; [|split; [done|]; eauto 10|done].
  destruct Hr as [Hfw|[e [=]]]. unfold await. cbn [bind wp]. split; [done|].
  split; [apply flow_update; intros σ2 σ2' -> Hv; split; [by rewrite Hv|apply flow_droppable]|].
  intros [[]|[]]; apply flow_update; cbn; [intros σ2 σ2' [_ ->] Hv|intros σ2 σ2' -> Hv; split; [by rewrite Hv|done]].
  assert (upstream_view (add_sent FromUpstream buf σ2) = (rest, reads ++ [buf], fwds ++ [buf])) as ->.
  { revert Hv. unfold upstream_view. cbn. rewrite omap_app. by intros [= <- <- <-]. }
  assert (flow_ok (rest, reads ++ [buf], fwds ++ [buf])) as Hok'.
  { split; [by apply sublist_app|]. split; [by exists rest|]. apply Forall_app. split; [done|].
    constructor; [|done]. split; [done|]. eauto. }
  split; [done|]. split; [done|]. exists rest, (reads ++ [buf]), (fwds ++ [buf]). done.
Qed.

Abbreviation flow_system_ok :=
  (system_ok no_guards conn_env (λ σ, flow_inv (upstream_view σ)) flow_pre flow_guar (λ (_ : conn_outcome) _, True)).

Lemma flow_finished {A} (r : A) (h : list Empty_set) m (s : ConnState) (Q : A → ConnState → Prop) :
  Q r s → h = [] → finished (λ σ, flow_inv (upstream_view σ)) Q r h m s.
Proof. intros ? ->. split; [done|]. split; [done|apply flow_droppable]. Qed.

Lemma conn_flow from_client c :
  conn_reachable limits from_client from_upstream c → flow_ok (upstream_view (shared c)).
Proof.
  assert (∀ p s, keeps_part upstream_view spares p →
            FWP p (finished (λ σ, flow_inv (upstream_view σ)) (λ (_ : conn_outcome) _, True)) [] share_unit s) as Hspares.
  { intros p s Hp. eapply wp_mono; [|by apply spares_wp]. intros r h m s' [-> ->]. by apply flow_finished. }
  assert (∀ X e, client_await X e = true → spares X e = true) as Hc by by intros X [| | | |[]| | | | |].
  assert (∀ X e, other_await X e = true → spares X e = true) as Ho by by intros X [| | | |[]| | | | |].
  intros Hs. assert (flow_system_ok c) as (ms & _ & Hf & _); [|done].
  assert (∀ c c', flow_system_ok c → conn_steps c c' → flow_guar (shared c) (shared c') ∧ flow_system_ok c') as Hsteps.
  { intros c1 c2. apply system_ok_steps; [apply _..|]. intros p s Hp. apply Hspares. by apply conn_op_keeps. }
  eapply Hsteps; [|exact Hs].
  exists [ExNone; ExOwn (from_upstream, [], []); ExNone]. split.
  - constructor; [exists (conn_start from_client from_upstream); split; [done|by apply Hspares, writer_task_keeps]|].
    constructor; [exists (conn_start from_client from_upstream); split; [done|]|].
    { apply wp_bind. eapply wp_mono; [|apply forward_flow]. intros r h m s' ->. by apply flow_finished. }
    constructor; [exists (conn_start from_client from_upstream); split; [done|by apply Hspares, client_task_keeps]|constructor].
  - split; [|done]. split; [done|]. split; [apply prefix_nil|constructor].
Qed.

(** C19: Ordered delivery. The bytes written to the wallet are the frames of the
    output channel, whole and in the order they were sent, followed by at most a
    prefix of the frame being written. Those that come from the upstream are
    frames read from it, unchanged and in order, each within the bound and a
    response with a valid ID or a notification: nothing from the upstream is
    altered, merged, reordered, repeated or invented. *)
Theorem wallet_delivery from_client c :
  conn_reachable limits from_client from_upstream c →
  (∃ n part, (n ≤ length (sent (shared c)))%nat
    ∧ client_out (shared c) = concat (take n (snd <$> sent (shared c))) ++ part
    ∧ (part = [] ∨ ∃ x, (snd <$> sent (shared c)) !! n = Some x ∧ part `prefix_of` x))
  ∧ omap forward_of (sent (shared c)) `sublist_of` upstream_read (shared c)
  ∧ concat (upstream_read (shared c)) `prefix_of` from_upstream
  ∧ Forall forwardable (omap forward_of (sent (shared c))).
Proof.
  intros Hc. pose proof (conn_flow _ _ Hc) as Hf. split; [|exact Hf].
  apply conn_reachable_ok in Hc. destruct (conn_ok_inv _ _ _ Hc) as [m [_ _ (n & part & Hn & Ho & Hp) _ _ _]].
  exists n, part. split; [lia|]. split; [done|]. destruct Hp as [|(x & ? & ? & _)]; eauto.
Qed.
End Flow.

(** The answer to the wallet's request and the notification went through, the
    forged answer to its broadcast did not. *)
Lemma wallet_delivery_witness :
  ∃ c, conn_run whole_exchange = Some c
    ∧ omap forward_of (sent (shared c))
      = [frame "{'id':1,'result':null}"; frame "{'method':'blockchain.headers.subscribe','params':[]}"]
    ∧ omap forward_of (sent (shared c)) `sublist_of` upstream_read (shared c).
Proof.
  destruct whole_exchange_runs as [c E]. exists c. split; [exact E|]. split.
  - apply (conn_observed (λ c, omap forward_of (sent (shared c))) [] _ _ _ E). vm_compute. reflexivity.
  - exact (proj1 (proj2 (wallet_delivery sample_limits upstream_stream wallet_stream c (conn_run_reachable _ _ E)))).
Defined.
