(* ===== verification/System.v ===== *)
(** * The relay stack and the connections together

    One relay stack shared by any number of connections: a wallet reader's call
    of the relay starts a broadcast on the stack, waits for what it returns, and
    cancels it when it is cancelled itself. What the parts guarantee on their own
    carries over, and together they give the end-to-end properties of the
    process. *)

From stdpp Require Import gmultiset.
From S2P Require Import Prelude RustStr RustNet Endpoint Config Serde Protocol JsonRef Async AsyncLift Tokio Relay RelaySafety RelayStack RelayScenarios RelayOnce Frames Connection ConnectionSafety ConnectionProps ConnectionFlow.

Open Scope N_scope.
Open Scope rust_scope.
Open Scope async_scope.

Section System.
Context `{Sm : Semaphore} `{SmL : !SemaphoreLaws} `{Wt : Watch} `{Ser : Serialize}.
Context `{Des : Deserialize RelayResponse} `{DesR : Deserialize Request} `{DesE : Deserialize UpstreamEnvelope}.

Abbreviation relay_sys := (system (S:=RelayState) (G:=guard) (E:=relayE) relay_outcome).
Abbreviation conn_sys := (system (S:=ConnState) (G:=Empty_set) (E:=connE) conn_outcome).
Abbreviation conn_proc := (task (S:=ConnState) (G:=Empty_set) (E:=connE) conn_outcome).

(** A connection: its peers' streams, its tasks, and the broadcast its wallet
    reader is waiting for (the task on the relay stack, and the transaction). *)
Record Conn : Type := mkConn {
  cn_client : bytes;
  cn_upstream : bytes;
  cn_sys : conn_sys;
  cn_call : option (nat * str)
}.

(** The relay stack with its calls and lifecycle operations, and the connections. *)
Record Proc : Type := mkProc { relays : relay_sys; conns : list Conn }.

Definition set_sys (c : conn_sys) (call : option (nat * str)) (cn : Conn) : Conn :=
  mkConn (cn_client cn) (cn_upstream cn) c call.

(** The limits that the server passes to every connection. *)
Definition limits_of (config : Config) : ConnectionLimits :=
  mkConnectionLimits (cfg_max_frame_bytes config) (PendingRequestLimit_get (cfg_max_pending_requests config)).

(** The wallet reader's place among the tasks of a connection. *)
Definition client_index : nat := 2.

Definition is_call {X} (e : connE X) : bool := match e with CallRelay _ => true | _ => false end.
Definition calling (t : conn_proc) : bool := match t with Running (Await e _) _ => is_call e | _ => false end.

(** A task has been cancelled at an await. *)
Definition cancels {S G E R} (t t' : task (S:=S) (G:=G) (E:=E) R) : bool :=
  match t, t' with Running _ _, Unwinding _ => true | _, _ => false end.

(** Who takes a step of the process: the server, which accepts a connection; a
    task of a connection, which may be cancelled by it; or anyone else. *)
Inductive mover : Type := ByServer | ByTask (conn task : nat) (cancelled : bool) | ByOther.

(** The steps of a connection that do not involve the relay, and the task that
    takes them. *)
Inductive conn_moves : option (nat * bool) → conn_sys → conn_sys → Prop :=
| moves_task σ ts i t σ' t' :
    ts !! i = Some t → calling t = false → tstep no_guards conn_env σ t σ' t' →
    conn_moves (Some (i, cancels t t')) (mkSystem σ ts) (mkSystem σ' (<[i:=t']> ts))
| moves_spawn σ ts p : conn_op p → conn_moves None (mkSystem σ ts) (mkSystem σ (ts ++ [Running p []])).

Definition mover_of (i : nat) (m : option (nat * bool)) : mover :=
  match m with Some (j, cancelled) => ByTask i j cancelled | None => ByOther end.

Context (config : Config) (relay : SharedRelay).

Inductive proc_step : mover → Proc → Proc → Prop :=
| proc_accept R cs from_client from_upstream :
    proc_step ByServer (mkProc R cs)
      (mkProc R (cs ++ [mkConn from_client from_upstream
                          (conn_system (limits_of config) from_client from_upstream) None]))
| proc_handle σ ts cs op :
    op_calls op = [] →
    proc_step ByOther (mkProc (mkSystem σ ts) cs) (mkProc (mkSystem σ (ts ++ [Running (run_op relay op) []])) cs)
| proc_relay σ ts cs j t σ' t' :
    ts !! j = Some t → tstep drop_guard relay_env σ t σ' t' →
    (cancels t t' = true → Forall (λ cn, fst <$> cn_call cn ≠ Some j) cs) →
    proc_step ByOther (mkProc (mkSystem σ ts) cs) (mkProc (mkSystem σ' (<[j:=t']> ts)) cs)
| proc_conn R cs i cn m c' :
    cs !! i = Some cn → conn_moves m (cn_sys cn) c' →
    proc_step (mover_of i m) (mkProc R cs) (mkProc R (<[i:=set_sys c' (cn_call cn) cn]> cs))
| proc_call σ ts cs i cn raw k h :
    cs !! i = Some cn → cn_call cn = None →
    pool (cn_sys cn) !! client_index = Some (Running (Await (CallRelay raw) k) h) →
    proc_step (ByTask i client_index false) (mkProc (mkSystem σ ts) cs)
      (mkProc (mkSystem σ (ts ++ [Running (run_op relay (CallBroadcast raw)) []]))
         (<[i:=set_sys (cn_sys cn) (Some (length ts, raw)) cn]> cs))
| proc_return R cs i cn raw j r hr σ ts k h :
    cs !! i = Some cn → cn_call cn = Some (j, raw) →
    pool R !! j = Some (Running (Ret (BroadcastReturned raw r)) hr) →
    cn_sys cn = mkSystem σ ts → ts !! client_index = Some (Running (Await (CallRelay raw) k) h) →
    proc_step (ByTask i client_index false) (mkProc R cs)
      (mkProc R (<[i:=set_sys (mkSystem (add_relay_log (raw, Some r) σ) (<[client_index:=Running (k r) h]> ts)) None cn]> cs))
| proc_cancel σr tsr cs i cn raw j t σr' t' σ ts k h :
    cs !! i = Some cn → cn_call cn = Some (j, raw) →
    tsr !! j = Some t → tstep drop_guard relay_env σr t σr' t' → cancels t t' = true →
    cn_sys cn = mkSystem σ ts → ts !! client_index = Some (Running (Await (CallRelay raw) k) h) →
    proc_step (ByTask i client_index true) (mkProc (mkSystem σr tsr) cs)
      (mkProc (mkSystem σr' (<[j:=t']> tsr))
         (<[i:=set_sys (mkSystem (add_relay_log (raw, None) σ)
                          (<[client_index:=Unwinding (drop_all no_guards h)]> ts)) None cn]> cs)).

(** The process starts with its relay stack and no connection. *)
Definition proc_reachable (σ0 : RelayState) : Proc → Prop :=
  rtc (λ P P', ∃ m, proc_step m P P') (mkProc (mkSystem σ0 []) []).

(** ** The link between the parts *)

(** No section of a connection's programs touches the record of relay calls. *)
Definition any_await (X : Type) (e : connE X) : bool := true.
Abbreviation keeps_log := (keeps_part relay_log any_await).
Abbreviation task_keeps_log := (task_keeps relay_log any_await).

Lemma conn_start_keeps limits from_client from_upstream :
  Forall task_keeps_log (pool (conn_system limits from_client from_upstream)).
Proof.
  constructor; [split; [done|by apply writer_task_keeps]|]. constructor; [split; [done|by apply upstream_task_keeps]|].
  constructor; [split; [done|by apply client_task_keeps]|done].
Qed.

(** Only a call of the relay is logged. *)
Lemma conn_env_log X (e : connE X) σ o σ' : is_call e = false → conn_env X e σ o σ' → relay_log σ' = relay_log σ.
Proof.
  destruct e; cbn; intros He; try done;
    repeat match goal with |- context [match ?x with _ => _ end] => destruct x end; naive_solver.
Qed.

Lemma conn_moves_keeps m c c' :
  Forall task_keeps_log (pool c) → conn_moves m c c' →
  Forall task_keeps_log (pool c') ∧ relay_log (shared c') = relay_log (shared c) ∧ conn_steps c c'.
Proof.
  intros Hk Hm. revert Hk. destruct Hm as [σ ts i t σ' t' Hi Hc Ht|σ ts p Hp]; cbn; intros Hk.
  - destruct (tstep_keeps no_guards conn_env relay_log any_await σ t σ' t') as [Ht' Hlog];
      [exact (Forall_lookup_1 _ _ _ _ Hk Hi)|done|].
    split; [by apply Forall_insert|]. split; [|by eapply rtc_once, step_task].
    destruct Hlog as [?|(X & e & k & h & o & -> & _ & He)]; [done|]. by eapply conn_env_log.
  - split; [|split; [done|by apply rtc_once, step_spawn]].
    apply Forall_app. split; [done|]. constructor; [split; [done|by apply conn_op_keeps]|done].
Qed.

Context (σ0 : RelayState) (Hbuild : build_relay config = Some (relay, σ0)).

(** The broadcasts that a connection has asked for: those that are done with and
    the one in progress. *)
Definition made_calls (cn : Conn) : list str :=
  (fst <$> relay_log (shared (cn_sys cn))) ++ match cn_call cn with Some (_, raw) => [raw] | None => [] end.

(** A broadcast of [raw] on the relay stack has returned [r]. *)
Definition stack_returned_to (R : relay_sys) (raw : str) (r : result str RelayError) : Prop :=
  ∃ j h, pool R !! j = Some (Running (Ret (BroadcastReturned raw r)) h).

(** What the log says was returned is what the relay stack returned and did. *)
Definition logged_ok (R : relay_sys) (entry : str * option (result str RelayError)) : Prop :=
  match entry with (raw, Some r) => stack_returned_to R raw r ∧ relayed raw r (shared R) | (_, None) => True end.

Record conn_linked (σ : relay_sys) (cn : Conn) : Prop := {
  cl_reachable : conn_reachable (limits_of config) (cn_client cn) (cn_upstream cn) (cn_sys cn);
  cl_keeps : Forall task_keeps_log (pool (cn_sys cn));
  cl_logged : Forall (logged_ok σ) (relay_log (shared (cn_sys cn)));
  cl_calling : ∀ j raw, cn_call cn = Some (j, raw) →
    ∃ k h, pool (cn_sys cn) !! client_index = Some (Running (Await (CallRelay raw) k) h)
}.

Record linked (ops : list relay_op) (P : Proc) : Prop := {
  lk_run : relay_run relay σ0 ops (relays P);
  lk_calls : run_calls ops ≡ₚ conns P ≫= made_calls;
  lk_conns : Forall (conn_linked (relays P)) (conns P)
}.

(** What the relay stack has done and returned stays. *)
Definition stack_grows (R R' : relay_sys) : Prop :=
  guar (shared R) (shared R')
  ∧ ∀ j o h, pool R !! j = Some (Running (Ret o) h) → pool R' !! j = Some (Running (Ret o) h).

Lemma stack_grows_refl R : stack_grows R R.
Proof. by split. Qed.

Lemma stack_grows_spawn σ ts p : stack_grows (mkSystem σ ts) (mkSystem σ (ts ++ [Running p []])).
Proof. split; [done|]. intros j o h. apply lookup_app_l_Some. Qed.

Lemma stack_grows_step σ ts j t σ' t' :
  guar σ σ' → ts !! j = Some t → tstep drop_guard relay_env σ t σ' t' →
  stack_grows (mkSystem σ ts) (mkSystem σ' (<[j:=t']> ts)).
Proof.
  intros Hg Hj Ht. split; [done|]. cbn. intros i o h Hi. rewrite list_lookup_insert_ne; [done|].
  intros ->. rewrite Hi in Hj. by injection Hj as <-.
Qed.

Lemma conn_linked_grows R R' cn : stack_grows R R' → conn_linked R cn → conn_linked R' cn.
Proof.
  intros [Hg Hp] [Hr Hk Hl Hc]. split; [done..| |done]. eapply Forall_impl; [exact Hl|].
  intros [raw [r|]]; cbn; [|done]. intros [(j & h & Hj) ?].
  split; [exists j, h; by apply Hp|by eapply relayed_guar].
Qed.

Lemma relay_run_ok ops R : relay_run relay σ0 ops R → reachable config R.
Proof. intros Hr%relay_run_steps. by exists relay, σ0. Qed.

Lemma relay_tstep_guar ops σ ts j t σ' t' :
  relay_run relay σ0 ops (mkSystem σ ts) → ts !! j = Some t → tstep drop_guard relay_env σ t σ' t' → guar σ σ'.
Proof.
  intros Hr%relay_run_ok%reachable_ok Hj Ht. destruct (build_relay_spec _ _ _ Hbuild) as [Hspec _].
  eapply (relay_steps_ok _ _ _ (mkSystem σ' (<[j:=t']> ts)) Hspec) in Hr as [Hg _]; [exact Hg|].
  by eapply rtc_once, step_task.
Qed.

Lemma bind_insert {A B} (f : A → list B) (l : list A) i x y extra :
  l !! i = Some x → f y ≡ₚ f x ++ extra → (<[i:=y]> l ≫= f) ≡ₚ (l ≫= f) ++ extra.
Proof.
  intros Hi Hf. rewrite insert_take_drop by (by eapply lookup_lt_Some).
  rewrite <- (take_drop_middle l i x Hi) at 3. rewrite !bind_app. cbn. rewrite Hf, <- !app_assoc. do 2 f_equiv.
  apply Permutation_app_comm.
Qed.

(** A connection moves while the stack keeps what it has done. *)
Lemma linked_conns σ σ' cs i cn cn' :
  stack_grows σ σ' → Forall (conn_linked σ) cs → cs !! i = Some cn → (conn_linked σ' cn → conn_linked σ' cn') →
  Forall (conn_linked σ') (<[i:=cn']> cs).
Proof.
  intros Hg Hcs Hi Hcn. assert (Forall (conn_linked σ') cs) as Hcs'.
  { eapply Forall_impl; [exact Hcs|]. intros ?. by apply conn_linked_grows. }
  apply Forall_insert; [done|]. apply Hcn. exact (Forall_lookup_1 _ _ _ _ Hcs' Hi).
Qed.

Lemma conn_moves_linked σ cn m c' :
  conn_moves m (cn_sys cn) c' → conn_linked σ cn → conn_linked σ (set_sys c' (cn_call cn) cn).
Proof.
  intros Hm [Hr Hk Hl Hc]. destruct (conn_moves_keeps _ _ _ Hk Hm) as (Hk' & Hlog & Hs). split; cbn.
  - unfold conn_reachable, conn_steps, steps in *. by etrans.
  - done.
  - by rewrite Hlog.
  - intros j raw (k & h & Hi)%Hc. exists k, h. revert Hi. clear -Hm.
    destruct Hm as [σ ts i t σ' t' Ht Hn _|σ ts p _]; cbn; intros Hi.
    + rewrite list_lookup_insert_ne; [done|]. intros ->. rewrite Hi in Ht. by injection Ht as <-.
    + by apply lookup_app_l_Some.
Qed.

(** The wallet reader's call has an outcome. *)
Lemma answer_linked σ cn raw o σc ts k h t' :
  cn_sys cn = mkSystem σc ts → ts !! client_index = Some (Running (Await (CallRelay raw) k) h) →
  logged_ok σ (raw, o) →
  t' = match o with Some r => Running (k r) h | None => Unwinding (drop_all no_guards h) end →
  conn_linked σ cn →
  conn_linked σ (set_sys (mkSystem (add_relay_log (raw, o) σc) (<[client_index:=t']> ts)) None cn).
Proof.
  intros E Hi Ho -> [Hr Hk Hl Hc]. rewrite E in Hr, Hk, Hl. cbn in Hk, Hl. split; cbn; [..|done].
  - unfold conn_reachable, conn_steps, steps in *. eapply rtc_r; [exact Hr|]. eapply step_task; [exact Hi|].
    cbn. exists o. split; [|by destruct o]. split; [done|]. destruct o as [[txid|]|]; [|done..]. by destruct Ho as [_ [? _]].
  - apply Forall_insert; [done|]. pose proof (Forall_lookup_1 _ _ _ _ Hk Hi) as Ht. cbn in Ht.
    destruct Ht as [-> [_ Ht]]. by destruct o; [split|].
  - apply Forall_app. split; [done|by constructor].
Qed.

Lemma run_calls_snoc ops op : run_calls (ops ++ [op]) = run_calls ops ++ op_calls op.
Proof. unfold run_calls. rewrite bind_app. cbn. by rewrite app_nil_r. Qed.

Lemma linked_step ops m P P' : linked ops P → proc_step m P P' → ∃ ops', linked ops' P'.
Proof.
  intros HP Hstep. revert HP.
  destruct Hstep as [R cs from_client from_upstream|σ ts cs op Hop|σ ts cs j t σ' t' Hj Ht _|R cs i cn m c' Hi Hm
                    |σ ts cs i cn raw k h Hi Hn Hc|R cs i cn raw j r hr σ ts k h Hi Hcall Hret E Hc
                    |σr tsr cs i cn raw j t σr' t' σ ts k h Hi Hcall Hj Ht Hx E Hc]; intros [Hr Hp Hcs]; cbn in *.
  - exists ops. split; cbn; [done|rewrite bind_app; cbn; by rewrite app_nil_r|].
    apply Forall_app. split; [done|]. constructor; [|done].
    split; [apply rtc_refl|apply conn_start_keeps|constructor|done].
  - exists (ops ++ [op]). split; cbn; [by constructor|by rewrite run_calls_snoc, Hop, app_nil_r|].
    eapply Forall_impl; [exact Hcs|]. intros cn. apply conn_linked_grows, stack_grows_spawn.
  - exists ops. split; cbn; [by eapply run_step|done|]. eapply Forall_impl; [exact Hcs|].
    intros cn. apply conn_linked_grows. eapply stack_grows_step; [by eapply relay_tstep_guar|done..].
  - exists ops. pose proof (Forall_lookup_1 _ _ _ _ Hcs Hi) as [_ Hk _ _]. split; cbn; [done| |].
    + rewrite (bind_insert made_calls cs i cn _ []); [by rewrite app_nil_r|done|]. rewrite app_nil_r.
      unfold made_calls. cbn. by rewrite (proj1 (proj2 (conn_moves_keeps _ _ _ Hk Hm))).
    + eapply linked_conns; [apply stack_grows_refl|done|exact Hi|by eapply conn_moves_linked].
  - exists (ops ++ [CallBroadcast raw]). split; cbn; [by constructor| |].
    + rewrite run_calls_snoc, (bind_insert made_calls cs i cn _ [raw]); [by rewrite Hp|done|].
      unfold made_calls. cbn. by rewrite Hn, app_nil_r.
    + eapply linked_conns; [apply stack_grows_spawn|done|exact Hi|]. intros [H1 H2 H3 _]. split; [done..|].
      intros j raw' [= _ <-]. eauto.
  - exists ops. split; cbn; [done| |].
    + rewrite (bind_insert made_calls cs i cn _ []); [by rewrite app_nil_r|done|]. rewrite app_nil_r.
      unfold made_calls. cbn. rewrite Hcall, E. cbn. by rewrite fmap_app, app_nil_r.
    + eapply linked_conns; [apply stack_grows_refl|done|exact Hi|]. apply answer_linked with k h; [done|done| |done].
      split; [by exists j, hr|]. destruct (stack_returned _ _ _ _ _ (reachable_ok _ _ (relay_run_ok _ _ Hr)) Hret) as (s & Ho & Hg).
      by eapply relayed_guar.
  - assert (guar σr σr') as Hg by by eapply relay_tstep_guar.
    exists ops. split; cbn; [by eapply run_step| |].
    + rewrite (bind_insert made_calls cs i cn _ []); [by rewrite app_nil_r|done|]. rewrite app_nil_r.
      unfold made_calls. cbn. rewrite Hcall, E. cbn. by rewrite fmap_app, app_nil_r.
    + eapply linked_conns; [by eapply stack_grows_step|done|exact Hi|]. by apply answer_linked with k h.
Qed.

Lemma reachable_linked P : proc_reachable σ0 P → ∃ ops, linked ops P.
Proof.
  intros H. refine (rtc_ind_r (λ P, ∃ ops, linked ops P) _ _ _ _ H).
  - exists []. split; cbn; [constructor|done|constructor].
  - intros P1 P2 _ [m Hs] [ops Hl]. by eapply linked_step.
Qed.

(** ** End to end *)

(** The transactions of the broadcast frames a wallet has sent. *)
Definition wallet_broadcasts (cn : Conn) : list str :=
  snd <$> omap broadcast_of (client_read (shared (cn_sys cn))).

Lemma prefix_submseteq {A} (l k : list A) : l `prefix_of` k → l ⊆+ k.
Proof. intros [k' ->]. by apply submseteq_inserts_r. Qed.

Lemma made_calls_asked σ cn : conn_linked σ cn → made_calls cn ⊆+ wallet_broadcasts cn.
Proof.
  intros Hl. unfold made_calls, wallet_broadcasts. destruct (cn_call cn) as [[j raw]|] eqn:Ec.
  - destruct (cl_calling _ _ Hl _ _ Ec) as (k & h & Hi). destruct (cn_sys cn) as [σc ts] eqn:E.
    pose proof (answer_linked σ cn raw None σc ts k h _ E Hi I eq_refl Hl) as [Hr _ _ _].
    apply reachable_calls in Hr. cbn in Hr. rewrite fmap_app in Hr. by apply prefix_submseteq.
  - rewrite app_nil_r. apply prefix_submseteq. eapply reachable_calls, Hl.
Qed.

Lemma submseteq_bind {A B} (f g : A → list B) l : Forall (λ x, f x ⊆+ g x) l → l ≫= f ⊆+ l ≫= g.
Proof. induction 1 as [|x l Hx _ IH]; [done|]. cbn. by apply submseteq_app. Qed.

(** C1: The private path, end to end. Whatever wallets, upstreams, relay, aborts
    and shutdown do, every write to the network on behalf of broadcasts goes to
    the configured relay through the configured proxy, and each is the
    submission, whole or in part, of the transaction of a broadcast frame that a
    connected wallet sent, a frame of its own for each: nothing is submitted
    twice, invented, or sent elsewhere. *)
Theorem private_path P :
  proc_reachable σ0 P →
  Forall (allowed_wire config) (wire (shared (relays P)))
  ∧ ∃ raws, Forall2 (λ data raw, data `prefix_of` relay_request raw) (sends (wire (shared (relays P)))) raws
            ∧ raws ⊆+ conns P ≫= wallet_broadcasts.
Proof.
  intros [ops [Hr Hp Hcs]]%reachable_linked. split.
  - destruct (in_flight_le _ _ (reachable_ok _ _ (relay_run_ok _ _ Hr))) as (m & [_ _ _ Hw] & _). exact Hw.
  - destruct (submissions_answer_calls _ _ _ _ _ Hbuild Hr) as (raws & Hf & Hs). exists raws. split; [done|].
    trans (conns P ≫= made_calls); [by rewrite <- Hp|]. apply submseteq_bind. eapply Forall_impl; [exact Hcs|]. intros cn. apply made_calls_asked.
Qed.

(** C2: Truthful answers, end to end. For every connection the broadcast frames
    dealt with have outcomes, in order and one for each: the outcome of a frame is
    what a broadcast of its transaction on the relay stack returned to this
    connection, and the response sent for it is the one for that outcome under the
    frame's ID (success with the transaction ID that the relay stack returned, or
    the error response for the kind of its error). Where the outcome is success the
    ID is 64 lower-case hexadecimal digits and the complete request for the
    transaction has been written to the configured relay. *)
Theorem truthful_answers P cn :
  proc_reachable σ0 P → cn ∈ conns P →
  ∃ handled last outcomes calls extra,
    client_read (shared (cn_sys cn)) = handled ++ last ∧ (length last ≤ 1)%nat
    ∧ (fst <$> outcomes) = omap broadcast_of handled
    ∧ relay_log (shared (cn_sys cn)) = (logged <$> outcomes) ++ calls
    ∧ (fst <$> calls) `prefix_of` (snd <$> omap broadcast_of last)
    ∧ omap reply_of (sent (shared (cn_sys cn))) = (answered <$> outcomes) ++ extra ∧ (length extra ≤ 1)%nat
    ∧ ∀ id raw r, ((id, raw), r) ∈ outcomes →
        stack_returned_to (relays P) raw r
        ∧ ∀ txid, r = Ok txid →
            is_txid txid ∧ ∃ target, cfg_relay_endpoint config = Some target
                                     ∧ Sent target (relay_request raw) ∈ wire (shared (relays P)).
Proof.
  intros [ops [Hr _ Hcs]]%reachable_linked Hcn. rewrite Forall_forall in Hcs. destruct (Hcs _ Hcn) as [Hc _ Hl _].
  destruct (session_partial _ _ _ (reachable_session _ _ _ _ Hc))
    as (handled & last & os & [E1 E2 _ _ _ E3 (calls & E4 & E4') (extra & E5 & E6) _]).
  exists handled, last, os, calls, extra. do 7 (split; [done|]). intros id raw r Hin.
  cbn in E4. rewrite E4, Forall_app, Forall_fmap, Forall_forall in Hl. destruct Hl as [Hl _].
  destruct (Hl _ Hin) as [Hret Hs]. split; [done|]. intros txid ->. destruct Hs as (Ht & target & Hs).
  split; [done|]. exists target. split; [|done].
  destruct (in_flight_le _ _ (reachable_ok _ _ (relay_run_ok _ _ Hr))) as (m & [_ _ _ Hw] & _).
  rewrite Forall_forall in Hw. by destruct (Hw _ Hs) as (_ & target' & ? & -> & _).
Qed.

(** In the process as a whole the relay stack behaves as it does on its own, and
    so does every connection; their theorems carry over. *)
Lemma parts_behave P :
  proc_reachable σ0 P →
  reachable config (relays P)
  ∧ Forall (λ cn, conn_reachable (limits_of config) (cn_client cn) (cn_upstream cn) (cn_sys cn)) (conns P).
Proof.
  intros [ops [Hr _ Hcs]]%reachable_linked. split; [by eapply relay_run_ok|].
  eapply Forall_impl; [exact Hcs|]. by intros cn [].
Qed.
End System.

(** ** An executed process *)

Inductive composed_move : Type :=
| MAccept (from_client from_upstream : bytes)
| MHandle (op : relay_op)
| MRelay (j : nat)
| MConn (i j : nat) (cancelled : bool)
| MCall (i : nat)
| MReturn (i : nat).

(** The transaction of a call, and the wallet reader once it is answered. *)
Definition call_of {X} (e : connE X) : option str := match e with CallRelay raw => Some raw | _ => None end.
Definition answer_call {X} (e : connE X)
    : (X → conn_prog conn_outcome) → list Empty_set → result str RelayError → option (task conn_outcome) :=
  match e in connE X return (X → conn_prog conn_outcome) → list Empty_set → result str RelayError → option (task conn_outcome) with
  | CallRelay _ => λ k h r, Some (Running (k r) h)
  | _ => λ _ _ _, None
  end.

Definition task_call (t : task (S:=ConnState) (G:=Empty_set) (E:=connE) conn_outcome) : option str :=
  match t with Running (Await e _) _ => call_of e | _ => None end.
Definition task_answer (t : task (S:=ConnState) (G:=Empty_set) (E:=connE) conn_outcome) (r : result str RelayError)
    : option (task conn_outcome) :=
  match t with Running (Await e k) h => answer_call e k h r | _ => None end.

Definition composed_act (P : Proc) (m : composed_move) : option Proc :=
  let '(mkProc R cs) := P in
  match m with
  | MAccept from_client from_upstream =>
      Some (mkProc R (cs ++ [mkConn from_client from_upstream
                               (conn_system (limits_of sample) from_client from_upstream) None]))
  | MHandle op =>
      if bool_decide (op_calls op = [])
      then Some (mkProc (mkSystem (shared R) (pool R ++ [Running (run_op sample_stack.1 op) []])) cs) else None
  | MRelay j =>
      t ← pool R !! j;
      '(σ', t') ← exec_task drop_guard working_network (shared R) t;
      if cancels t t' then None else Some (mkProc (mkSystem σ' (<[j:=t']> (pool R))) cs)
  | MConn i j cancelled =>
      cn ← cs !! i;
      t ← pool (cn_sys cn) !! j;
      if calling t then None
      else '(σ', t') ← (if cancelled then cancel_task no_guards dropped_peers (shared (cn_sys cn)) t
                        else exec_task no_guards working_peers (shared (cn_sys cn)) t);
           Some (mkProc R (<[i:=set_sys (mkSystem σ' (<[j:=t']> (pool (cn_sys cn)))) (cn_call cn) cn]> cs))
  | MCall i =>
      cn ← cs !! i;
      t ← pool (cn_sys cn) !! client_index;
      raw ← task_call t;
      if bool_decide (cn_call cn = None)
      then Some (mkProc (mkSystem (shared R) (pool R ++ [Running (run_op sample_stack.1 (CallBroadcast raw)) []]))
                   (<[i:=set_sys (cn_sys cn) (Some (length (pool R), raw)) cn]> cs))
      else None
  | MReturn i =>
      cn ← cs !! i;
      '(j, raw) ← cn_call cn;
      t ← pool (cn_sys cn) !! client_index;
      raw' ← task_call t;
      match returned R j with
      | Some (BroadcastReturned raw'' r) =>
          t' ← task_answer t r;
          if bool_decide (raw' = raw ∧ raw'' = raw)
          then Some (mkProc R (<[i:=set_sys (mkSystem (add_relay_log (raw, Some r) (shared (cn_sys cn)))
                                               (<[client_index:=t']> (pool (cn_sys cn)))) None cn]> cs))
          else None
      | _ => None
      end
  end.

Lemma task_call_inv t raw : task_call t = Some raw → ∃ k h, t = Running (Await (CallRelay raw) k) h.
Proof. destruct t as [[| |X e k| | |] h| |]; try done. destruct e; try done. intros [= ->]. eauto. Qed.

(** Who makes a move. *)
Definition move_by (m : composed_move) : mover :=
  match m with
  | MAccept _ _ => ByServer
  | MHandle _ | MRelay _ => ByOther
  | MConn i j cancelled => ByTask i j cancelled
  | MCall i | MReturn i => ByTask i client_index false
  end.

Lemma exec_task_runs {S G E R} (drop : G → dprog S) (oracle : ∀ X, E X → S → option (X * S)) σ (t : task R) σ' t' :
  exec_task drop oracle σ t = Some (σ', t') → cancels t t' = false.
Proof.
  destruct t as [[r|X f k|X e k|g k|k|A B body a k] h|d p h|d]; cbn; try done.
  - destruct (f σ). by intros [= <- <-].
  - destruct (oracle X e σ) as [[]|]; [|done]. by intros [= <- <-].
  - by intros [= <- <-].
  - destruct h; [done|]. by intros [= <- <-].
  - by intros [= <- <-].
Qed.

Lemma cancel_task_cancels {S G E R} (drop : G → dprog S) (abandon : ∀ X, E X → S → option S) σ (t : task R) σ' t' :
  cancel_task drop abandon σ t = Some (σ', t') → cancels t t' = true.
Proof.
  destruct t as [[| |X e k| | |] h| |]; try done. cbn. destruct (abandon X e σ); [|done]. by intros [= <- <-].
Qed.

Lemma composed_act_step P m P' : composed_act P m = Some P' → proc_step sample sample_stack.1 (move_by m) P P'.
Proof.
  destruct P as [[σ ts] cs], m as [from_client from_upstream|op|j|i j cancelled|i|i]; cbn [composed_act shared pool].
  - intros <-%(inj Some). constructor.
  - case_bool_decide; [|done]. intros <-%(inj Some). by constructor.
  - destruct (ts !! j) as [t|] eqn:Hj; [|done]. cbn [mbind option_bind].
    destruct (exec_task drop_guard working_network σ t) as [[σ' t']|] eqn:He; [|done]. cbn [mbind option_bind].
    destruct (cancels t t') eqn:Ec; [done|]. intros <-%(inj Some). eapply proc_relay; [exact Hj| |congruence].
    eapply exec_task_sound; [apply working_network_env|exact He].
  - destruct (cs !! i) as [cn|] eqn:Hi; [|done]. cbn [mbind option_bind]. destruct (pool (cn_sys cn) !! j) as [t|] eqn:Hj; [|done]. cbn [mbind option_bind].
    destruct (calling t) eqn:Ec; [done|].
    destruct (if cancelled then _ else _) as [[σ' t']|] eqn:He; [|done]. cbn [mbind option_bind]. intros <-%(inj Some).
    destruct (cn_sys cn) as [σc tsc] eqn:E. cbn [shared pool] in Hj, He |- *.
    assert (cancels t t' = cancelled ∧ tstep no_guards conn_env σc t σ' t') as [Hx Ht].
    { destruct cancelled; split; [by eapply cancel_task_cancels|eapply cancel_task_sound; [apply dropped_peers_env|exact He]
        |by eapply exec_task_runs|eapply exec_task_sound; [apply working_peers_env|exact He]]. }
    cbn [move_by]. rewrite <- Hx. change (ByTask i j (cancels t t')) with (mover_of i (Some (j, cancels t t'))).
    eapply proc_conn; [exact Hi|]. rewrite E. by eapply moves_task.
  - destruct (cs !! i) as [cn|] eqn:Hi; [|done]. cbn [mbind option_bind]. destruct (pool (cn_sys cn) !! client_index) as [t|] eqn:Hp; [|done].
    cbn [mbind option_bind]. destruct (task_call t) as [raw|] eqn:Ht; [|done]. cbn [mbind option_bind]. case_bool_decide; [|done]. intros <-%(inj Some).
    apply task_call_inv in Ht as (k & h & ->). by eapply proc_call.
  - destruct (cs !! i) as [cn|] eqn:Hi; [|done]. cbn [mbind option_bind]. destruct (cn_call cn) as [[j raw]|] eqn:Hc; [|done]. cbn [mbind option_bind].
    destruct (pool (cn_sys cn) !! client_index) as [t|] eqn:Hp; [|done]. cbn [mbind option_bind].
    destruct (task_call t) as [raw'|] eqn:Ht; [|done]. cbn [mbind option_bind].
    destruct (returned _ j) as [[raw'' r| | | |]|] eqn:Hj; try done.
    apply task_call_inv in Ht as (k & h & ->). cbn [task_answer answer_call mbind option_bind]. case_bool_decide as Hr; [|done]. destruct Hr as [-> ->].
    intros <-%(inj Some). apply returned_pool in Hj as [hr Hj].
    destruct (cn_sys cn) as [σc tsc] eqn:E. cbn [shared pool] in Hp |- *. by eapply proc_return.
Qed.

Fixpoint composed_run (P : Proc) (schedule : list composed_move) : option Proc :=
  match schedule with
  | [] => Some P
  | m :: rest => P' ← composed_act P m; composed_run P' rest
  end.

Definition composed_start : Proc := mkProc (mkSystem sample_stack.2 []) [].

Lemma composed_run_reachable schedule P :
  composed_run composed_start schedule = Some P → proc_reachable sample sample_stack.1 sample_stack.2 P.
Proof.
  unfold proc_reachable. fold composed_start. generalize composed_start as Q.
  induction schedule as [|m rest IH]; intros Q; cbn; [intros [= <-]; apply rtc_refl|].
  destruct (composed_act Q m) as [Q'|] eqn:E; [|done]. cbn. intros Hr.
  eapply rtc_l; [eexists; by eapply composed_act_step|by apply IH].
Qed.

(** A wallet makes a request and a broadcast; the stack submits the broadcast
    and its result is returned to the wallet. *)
Definition one_exchange : list composed_move :=
  MAccept wallet_stream upstream_stream :: replicate 13 (MConn 0 2 false) ++ [MCall 0] ++ replicate 20 (MRelay 0)
  ++ [MReturn 0] ++ replicate 3 (MConn 0 2 false).

Lemma composed_observed {A} (f : Proc → A) (d : A) schedule x :
  from_option f d (composed_run composed_start schedule) = x → x ≠ d → ∃ P, composed_run composed_start schedule = Some P ∧ f P = x.
Proof. destruct (composed_run composed_start schedule) as [P|]; cbn; intros <-; [eauto|done]. Qed.

Lemma private_path_witness :
  ∃ P raws, composed_run composed_start one_exchange = Some P
    ∧ sends (wire (shared (relays P))) = [relay_request (lit "00ff")]
    ∧ Forall2 (λ data raw, data `prefix_of` relay_request raw) (sends (wire (shared (relays P)))) raws
    ∧ raws ⊆+ [lit "00ff"].
Proof.
  destruct (composed_observed (λ P, (sends (wire (shared (relays P))), conns P ≫= wallet_broadcasts)) ([], []) one_exchange
              ([relay_request (lit "00ff")], [lit "00ff"])) as (P & E & [= Es Ew]); [vm_compute; reflexivity|done|].
  destruct (private_path sample sample_stack.1 sample_stack.2 sample_built P (composed_run_reachable _ _ E))
    as (_ & raws & H1 & H2).
  exists P, raws. split; [exact E|]. split; [exact Es|]. split; [exact H1|]. rewrite Ew in H2. exact H2.
Defined.

Lemma truthful_answers_witness :
  ∃ P cn, composed_run composed_start one_exchange = Some P ∧ cn ∈ conns P
    ∧ relay_log (shared (cn_sys cn)) = [(lit "00ff", Some (Ok sample_txid))]
    ∧ omap reply_of (sent (shared (cn_sys cn))) = [success_response (Num (Int 2)) sample_txid]
    ∧ ∃ outcomes calls extra, relay_log (shared (cn_sys cn)) = (logged <$> outcomes) ++ calls
        ∧ omap reply_of (sent (shared (cn_sys cn))) = (answered <$> outcomes) ++ extra
        ∧ ∀ id raw r, ((id, raw), r) ∈ outcomes → stack_returned_to (relays P) raw r.
Proof.
  destruct (composed_observed
              (λ P, (λ cn, (relay_log (shared (cn_sys cn)), omap reply_of (sent (shared (cn_sys cn))))) <$> (conns P))
              [] one_exchange
              [([(lit "00ff", Some (Ok sample_txid))], [success_response (Num (Int 2)) sample_txid])])
    as (P & E & El); [vm_compute; reflexivity|done|].
  destruct (conns P) as [|cn cs] eqn:Ec; [discriminate El|]. injection El as El Er _.
  assert (cn ∈ conns P) as Hcn by (rewrite Ec; left).
  destruct (truthful_answers sample sample_stack.1 sample_stack.2 sample_built P cn (composed_run_reachable _ _ E) Hcn)
    as (handled & last & outcomes & calls & extra & _ & _ & _ & H1 & _ & H2 & _ & H3).
  exists P, cn. split; [exact E|]. split; [exact Hcn|]. split; [exact El|]. split; [exact Er|].
  exists outcomes, calls, extra. split; [exact H1|]. split; [exact H2|]. intros id raw r Hin. exact (proj1 (H3 id raw r Hin)).
Defined.
