(* ===== verification/ConnectionStop.v ===== *)
(** * The wallet reader stops after shutdown

    How many steps the wallet reader of a connection takes once shutdown has been
    signalled, wherever it is at that moment. *)

From S2P Require Import Prelude RustStr Endpoint Config Serde Protocol JsonRef Async AsyncCost Tokio Relay RelaySafety Frames Connection ConnectionSafety ConnectionProps.

Open Scope N_scope.
Open Scope rust_scope.
Open Scope async_scope.

Section Reader.
Context `{Ser : Serialize} `{DesR : Deserialize Request} `{DesE : Deserialize UpstreamEnvelope}.
Context (limits : ConnectionLimits) (from_client from_upstream : bytes).

(** The place of the wallet reader among the tasks. *)
Definition client_reader : nat := 2.

(** The steps of a task in states in which shutdown is ready. *)
Abbreviation taken_stopping := (spends no_guards conn_env unit_cost 1 shutdown_ready conn_op).
(** The invariant of the connection. *)
Abbreviation reader_ok := (system_ok no_guards conn_env (conn_inv limits from_client) no_pre conn_guar (conn_outcome_ok)).
Abbreviation stopping := (within no_guards conn_env unit_cost 1 shutdown_ready conn_guar).

(** No await changes the shutdown channel. *)
Lemma conn_env_ready X (e : connE X) σ o σ' : conn_env X e σ o σ' → shutdown_ready σ' = shutdown_ready σ.
Proof.
  destruct e; cbn; repeat match goal with |- context [match ?x with _ => _ end] => destruct x end; naive_solver.
Qed.

(** A program without loops that takes at most [k] steps. *)
Fixpoint takes {R} (k : nat) (p : conn_prog R) {struct p} : Prop :=
  match p with
  | Ret _ => True
  | Atomic f c =>
      match k with
      | O => False
      | S k' => (∀ σ, shutdown_ready (f σ).2 = shutdown_ready σ) ∧ ∀ x, takes k' (c x)
      end
  | Await _ c => match k with O => False | S k' => ∀ x, takes k' (c x) end
  | _ => False
  end.

(** The budget: [r] once shutdown is ready, and the whole of it before. *)
Definition need (s : ConnState) (r : N) : N := if shutdown_ready s then r else 10.

Lemma need_le s r r' n : r' ≤ r → need s r ≤ n → need s r' ≤ n.
Proof. unfold need. destruct (shutdown_ready s); lia. Qed.

(** A step that leaves the shutdown channel alone. *)
Lemma need_step s σ σ' r n :
  1 + r ≤ 10 → need s (1 + r) ≤ n → conn_guar s σ → shutdown_ready σ' = shutdown_ready σ →
  charge shutdown_ready σ 1 ≤ n ∧ need σ' r ≤ n - charge shutdown_ready σ 1.
Proof.
  intros Hr Hn Hg E. pose proof (shutdown_ready_guar _ _ Hg) as Hm. unfold need, charge in *. rewrite E.
  destruct (shutdown_ready s); [rewrite Hm by done; lia|]. destruct (shutdown_ready σ); lia.
Qed.

Lemma takes_within {R} (p : conn_prog R) k r n s :
  takes k p → N.of_nat k + r ≤ 10 → need s (N.of_nat k + r) ≤ n →
  stopping p (λ _ h n' s', h = [] ∧ need s' r ≤ n') [] n s.
Proof.
  revert k n s. induction p as [R x|R X f c IH|R X e c IH|R g c IH|R c IH|R A B body IHb a c IHc];
    intros k n s Ht Hk Hn; cbn in Ht; try done.
  - split; [done|]. eapply need_le; [|exact Hn]. lia.
  - destruct k as [|k]; [done|]. destruct Ht as [Hf Ht]. rewrite Nat2N.inj_succ, N.add_succ_l, <- N.add_1_l in Hk, Hn.
    intros σ Hg. destruct (need_step s σ σ _ n Hk Hn Hg eq_refl) as [Hle _]. split; [done|]. intros x σ' Hx.
    specialize (Hf σ). rewrite Hx in Hf. eapply IH; [apply Ht|lia|].
    by destruct (need_step s σ σ' (N.of_nat k + r) n).
  - destruct k as [|k]; [done|]. rewrite Nat2N.inj_succ, N.add_succ_l, <- N.add_1_l in Hk, Hn.
    exists 1. split; [done|]. intros σ Hg. destruct (need_step s σ σ _ n Hk Hn Hg eq_refl) as [Hle _].
    split; [done|]. split; [done|]. intros x σ' He.
    eapply IH; [apply Ht|lia|]. by destruct (need_step s σ σ' (N.of_nat k + r) n Hk Hn Hg (conn_env_ready _ _ _ _ _ He)).
Qed.

Lemma on_pending_ready {X} (f : PendingRequests → X * PendingRequests) σ :
  shutdown_ready (on_pending f σ).2 = shutdown_ready σ.
Proof. unfold on_pending. by destruct (f (pending σ)). Qed.

Lemma handle_frame_takes frame : takes 6 (handle_frame limits frame).
Proof.
  unfold handle_frame, handle_passthrough, handle_broadcast, reserve_or_refuse, refuse, await, atomic, proceed, leave.
  repeat match goal with
         | |- takes _ (match ?x with _ => _ end) => destruct x
         | |- takes _ (bind (match ?x with _ => _ end) _) => destruct x
         | |- takes _ _ => progress cbn [bind takes]
         | |- _ ∧ _ => split
         | |- ∀ _, _ => intro
         | |- shutdown_ready _ = _ => apply on_pending_ready
         | |- _ => done
         end.
Qed.

(** The [select!] returns shutdown, or a read with the budget to handle it. *)
Definition select_budget (r : unit + result bytes io_error) (h : list Empty_set) (n : N) (s : ConnState) : Prop :=
  h = [] ∧ match r with inl _ => True | inr _ => need s 9 ≤ n end.

Lemma select_frame_stops limit n s : need s 2 ≤ n → stopping (select_frame limit) select_budget [] n s.
Proof.
  intros Hn. unfold select_frame, loop. cbn [within]. exists (λ _ h n' s', h = [] ∧ need s' 2 ≤ n'). split; [done|].
  intros [] h n1 s1 [-> Hn1] σ1 Hg1. destruct (need_step s1 σ1 σ1 1 n1) as [Hle1 Hn1']; [done..|].
  split; [done|]. unfold atomic, await. cbn [bind within]. intros σ2 Hg2.
  destruct (need_step σ1 σ2 σ2 0 (n1 - charge shutdown_ready σ1 1)) as [Hle2 Hn2]; [done..|]. split; [done|].
  intros ready σ3 [= <- <-]. destruct (shutdown_ready σ2) eqn:Er; [done|]. cbn [bind within].
  exists 1. split; [done|]. intros σ4 Hg4. unfold need in Hn2. rewrite Er in Hn2.
  assert (need (set_polling true σ2) 10 ≤ n1 - charge shutdown_ready σ1 1 - charge shutdown_ready σ2 1) as Hn3.
  { unfold need. change (shutdown_ready (set_polling true σ2)) with (shutdown_ready σ2). by rewrite Er. }
  assert (∀ x σ5, conn_env _ (ReadClient limit) σ4 (Some x) σ5 → need σ5 9 ≤
    n1 - charge shutdown_ready σ1 1 - charge shutdown_ready σ2 1 - charge shutdown_ready σ4 1) as Hread.
  { intros x σ5 He. by destruct (need_step _ σ4 σ5 9 _ ltac:(lia) Hn3 Hg4 (conn_env_ready _ _ _ _ _ He)). }
  destruct (need_step _ σ4 σ4 9 _ ltac:(lia) Hn3 Hg4 eq_refl) as [Hle4 _]. split; [done|]. split; [done|].
  intros [[]|read] σ5 He%Hread; split; try done. eapply need_le; [|exact He]. lia.
Qed.

Lemma handle_client_frames_stops s :
  stopping (handle_client_frames limits) (λ _ _ _ _, True) [] 10 s.
Proof.
  unfold handle_client_frames, loop. cbn [within]. exists (λ _ h n' s', h = [] ∧ need s' 3 ≤ n').
  split; [split; [done|]; unfold need; by destruct (shutdown_ready s)|].
  intros [] h n1 s1 [-> Hn1] σ1 Hg1. destruct (need_step s1 σ1 σ1 2 n1) as [Hle1 Hn1']; [done..|]. split; [done|].
  apply within_bind. eapply within_mono; [|by apply select_frame_stops]. intros [[]|read] h n2 s2 [-> Hn2]; [done|].
  assert (∀ (p : conn_prog (unit + client_exit)), takes 6 p →
            stopping p (λ r h n s', match r with
                                    | inl _ => h = [] ∧ need s' 3 ≤ n
                                    | inr b => stopping (Ret b) (λ _ _ _ _, True) h n s'
                                    end) [] n2 s2) as Hp.
  { intros p Ht. eapply within_mono; [|by apply (takes_within p 6 3)]. by intros [[]|exit] h n s' [-> ?]. }
  destruct (read_frame (max_frame_bytes limits) read) as [[frame|]|[]]; apply Hp;
    [apply handle_frame_takes|done..].
Qed.

(** C24: The wallet reader stops. Wherever it is when shutdown is signalled, and
    whatever the other tasks and the peers do, it takes at most ten steps of its
    own from then on: it finishes the frame it is handling, broadcast included,
    or the poll it is in, and ends at the next poll. *)
Theorem reader_stops (c : system conn_outcome) (taken : N) :
  taken_stopping client_reader taken (conn_system limits from_client from_upstream) c → taken ≤ 10.
Proof.
  apply (within_spends _ _ _ _ _ conn_guar conn_op reader_ok client_reader taken _ c (Running (client_task limits) [])
           _ (conn_start from_client from_upstream)); [|apply conn_start_ok|reflexivity| |reflexivity].
  - intros c1 c2 Hok Hstep. apply (conn_steps_ok _ _ _ _ Hok). by apply rtc_once.
  - apply within_bind. eapply within_mono; [|apply handle_client_frames_stops]. done.
Qed.
End Reader.

(** The sample connection is told to shut down while its reader waits for the
    broadcast; the reader takes it, answers it and returns, ten steps later. *)
Definition stopped_midway : list (action (S:=ConnState) (G:=Empty_set) (E:=connE) (R:=conn_outcome)) :=
  replicate 10 (Run client_reader) ++ [Spawn (do _ := signal_shutdown in Ret ShutdownDone); Run 3]
  ++ replicate 10 (Run client_reader).

Definition stopped_run : option (system conn_outcome) :=
  exec no_guards working_peers dropped_peers (conn_system sample_limits wallet_stream upstream_stream) stopped_midway.

Definition reader_returned (c : system (S:=ConnState) (G:=Empty_set) (E:=connE) conn_outcome) : option conn_outcome :=
  match pool c !! client_reader with Some (Running (Ret o) _) => Some o | _ => None end.

Lemma reader_stops_witness :
  ∃ c taken, stopped_run = Some c ∧ reader_returned c = Some (ClientEnded (Returned (Ok tt)))
             ∧ shutdown_ready (shared c) = true ∧ taken ≤ 10.
Proof.
  assert (from_option (λ c, (reader_returned c, shutdown_ready (shared c))) (None, false) stopped_run
          = (Some (ClientEnded (Returned (Ok tt))), true)) as Hr by (vm_compute; reflexivity).
  destruct stopped_run as [c|] eqn:E; [|discriminate Hr]. injection Hr as Hr Hs.
  destruct (steps_spends no_guards conn_env unit_cost 1 shutdown_ready conn_op client_reader
              (conn_system sample_limits wallet_stream upstream_stream) c) as [taken Ht]; [by eexists| |].
  { revert E. apply exec_sound; [apply working_peers_env|apply dropped_peers_env|].
    unfold stopped_midway. repeat constructor. }
  exists c, taken. split; [reflexivity|]. split; [exact Hr|]. split; [exact Hs|].
  exact (reader_stops sample_limits wallet_stream upstream_stream c taken Ht).
Defined.
