(* ===== verification/Supervisor.v ===== *)
(** * Supervision of a connection's tasks (src/proxy.rs)

    [proxy_streams_until]: it spawns the three tasks of a connection behind
    abort-on-drop guards, waits for the first to finish, aborts and joins the
    others, and gives the writer a bounded time to flush. *)

From S2P Require Import Prelude Config Async Tokio.

Open Scope N_scope.
Open Scope async_scope.

(** [Duration::from_secs(1)] *)
Definition CONNECTION_RESPONSE_FLUSH_GRACE : N := Duration_from_secs 1.

(** Which of the three tasks, as in [FinishedTask]. *)
Inductive FinishedTask : Type := Writer | Upstream | Client.

#[export] Instance FinishedTask_eq_dec : EqDecision FinishedTask.
Proof. solve_decision. Defined.

(** The runtime's view of a spawned task. *)
Inductive child_status : Type := NotSpawned | Live | Aborting | Done.

#[export] Instance child_status_eq_dec : EqDecision child_status.
Proof. solve_decision. Defined.

Definition Children : Type := FinishedTask → child_status.

(** A change of one task's status. *)
Definition on_child (t : FinishedTask) (f : child_status → child_status) (σ : Children) : unit * Children :=
  (tt, λ t', if decide (t' = t) then f (σ t') else σ t').

(** [tokio::spawn] into the (fresh) handle of [t]. *)
Definition spawned (st : child_status) : child_status := match st with NotSpawned => Live | _ => st end.
Definition spawn (t : FinishedTask) : Children → unit * Children := on_child t spawned.

(** [JoinHandle::abort]: asks the runtime to cancel the task. *)
Definition aborted (st : child_status) : child_status := match st with Live => Aborting | _ => st end.
Definition abort (t : FinishedTask) : Children → unit * Children := on_child t aborted.

(** The runtime finishes a task, by itself or after an abort. *)
Definition completed (st : child_status) : child_status := match st with Live | Aborting => Done | _ => st end.
Definition finish (t : FinishedTask) : Children → unit * Children := on_child t completed.

(** Await points: the [select!] over the three handles, one handle, and one
    handle under a timeout. *)
Inductive superE : Type → Type :=
| SelectFinished : superE FinishedTask
| Join (t : FinishedTask) : superE unit
| TimedJoin (maximum_wait : N) (t : FinishedTask) : superE (timed unit).

Definition super_env (X : Type) (e : superE X) : Children → option X → Children → Prop :=
  match e in superE X return Children → option X → Children → Prop with
  | SelectFinished => λ σ o σ', σ' = σ ∧ match o with Some t => σ t = Done | None => True end
  | Join t => λ σ o σ', σ' = σ ∧ match o with Some _ => σ t = Done | None => True end
  | TimedJoin _ t => λ σ o σ', σ' = σ ∧ match o with Some (InTime _) => σ t = Done | _ => True end
  end.

(** [AbortTaskOnDrop], one guard per task. *)
Definition abort_on_drop (t : FinishedTask) : dprog Children := DStep (abort t) (λ _, DDone).

Definition super_prog : Type → Type := prog Children FinishedTask superE.

Definition finish_or_abort (t : FinishedTask) (maximum_wait : N) : super_prog unit :=
  do waited := await (TimedJoin maximum_wait t) in
  match waited with
  | InTime _ => Ret tt
  | Elapsed => do _ := atomic (abort t) in await (Join t)
  end.

(** The [match] on the first task to finish. *)
Definition wind_down (finished : FinishedTask) : super_prog unit :=
  match finished with
  | Writer =>
      do _ := atomic (abort Upstream) in
      do _ := atomic (abort Client) in
      do _ := await (Join Upstream) in
      await (Join Client)
  | Upstream =>
      do _ := atomic (abort Client) in
      do _ := await (Join Client) in
      finish_or_abort Writer CONNECTION_RESPONSE_FLUSH_GRACE
  | Client =>
      do _ := atomic (abort Upstream) in
      do _ := await (Join Upstream) in
      finish_or_abort Writer CONNECTION_RESPONSE_FLUSH_GRACE
  end.

Definition proxy_streams_until : super_prog unit :=
  do _ := atomic (spawn Writer) in
  scope Writer
    (do _ := atomic (spawn Upstream) in
     scope Upstream
       (do _ := atomic (spawn Client) in
        scope Client
          (do finished := await SelectFinished in
           wind_down finished))).

(** The supervisor and the completions of the tasks it has spawned. *)
Inductive super_outcome : Type := Supervised | ChildFinished.

Inductive super_op : super_prog super_outcome → Prop :=
| op_finish t : super_op (do _ := atomic (finish t) in Ret ChildFinished).

Definition super_start : system super_outcome :=
  mkSystem (λ _, NotSpawned) [Running (do _ := proxy_streams_until in Ret Supervised) []].

Definition super_steps := steps abort_on_drop super_env super_op.

(** ** Shares: which tasks may still be live *)

Record tokens : Type := mkTokens { tk_writer : bool; tk_upstream : bool; tk_client : bool }.

Definition has (m : tokens) (t : FinishedTask) : bool :=
  match t with Writer => tk_writer m | Upstream => tk_upstream m | Client => tk_client m end.

Definition put (t : FinishedTask) (b : bool) (m : tokens) : tokens :=
  match t with
  | Writer => mkTokens b (tk_upstream m) (tk_client m)
  | Upstream => mkTokens (tk_writer m) b (tk_client m)
  | Client => mkTokens (tk_writer m) (tk_upstream m) b
  end.

#[export] Instance tokens_Shares : Shares tokens := {|
  share_op a b := mkTokens (tk_writer a || tk_writer b) (tk_upstream a || tk_upstream b) (tk_client a || tk_client b);
  share_unit := mkTokens false false false
|}.

#[export] Instance tokens_laws : SharesLaws tokens.
Proof.
  split; [intros [] [] []|intros [] []|intros []]; cbn; f_equal; auto using orb_assoc, orb_comm.
Qed.

Lemma has_op a b t : has (a ⋅ b) t = has a t || has b t.
Proof. by destruct t. Qed.

Lemma has_put t t' b m : has (put t b m) t' = if decide (t' = t) then b else has m t'.
Proof. by destruct t, t'. Qed.

(** Only a task with a token is live. *)
Definition super_inv (σ : Children) (m : tokens) : Prop := ∀ t, σ t = Live → has m t = true.

Definition rank (st : child_status) : nat :=
  match st with NotSpawned => 0 | Live => 1 | Aborting => 2 | Done => 3 end.

(** A task only moves forward. *)
Definition super_guar (σ σ' : Children) : Prop := ∀ t, (rank (σ t) ≤ rank (σ' t))%nat.

#[export] Instance super_guar_preorder : PreOrder super_guar.
Proof. split; [by intros σ t|]. intros σ1 σ2 σ3 H1 H2 t. specialize (H1 t). specialize (H2 t). lia. Qed.

(** A handle is joined without a timeout only after its task was aborted. *)
Definition super_pre (X : Type) (e : superE X) (h : list FinishedTask) (m : tokens) (s : Children) : Prop :=
  match e with Join t => (2 ≤ rank (s t))%nat | _ => True end.

Abbreviation SWP := (wp abort_on_drop super_env super_inv super_pre super_guar).
Abbreviation SUP := (update super_inv super_guar).

Lemma done_guar σ σ' t : super_guar σ σ' → σ t = Done → σ' t = Done.
Proof. intros Hg E. specialize (Hg t). rewrite E in Hg. destruct (σ' t); cbn in Hg; [lia..|done]. Qed.

(** A step on one task's status: what it may become and what share remains. *)
Lemma child_update s m t (f : child_status → child_status) b x (Q : Children → tokens → Prop) :
  (∀ st, (rank st ≤ rank (f st))%nat) → (b = false → ∀ st, f st ≠ Live) →
  (∀ σ σ', super_guar s σ → super_guar s σ' → σ' t = f (σ t) → Q σ' (put t b m)) →
  SUP s m (λ σ σ', on_child t f σ = (x, σ')) Q.
Proof.
  intros Hf Hb HQ σ fr σ' Hs Hi [= _ <-].
  assert (super_guar σ (λ t', if decide (t' = t) then f (σ t') else σ t')) as Hg by (intros t'; by case_decide).
  split; [done|]. exists (put t b m). split; [|eapply HQ; [exact Hs|by etrans|by rewrite decide_True]].
  intros t' Hl. specialize (Hi t'). rewrite has_op in Hi |- *. rewrite has_put. case_decide; [|auto].
  destruct b; [done|]. by destruct (Hb eq_refl (σ t')).
Qed.

Lemma abort_update s m t x (Q : Children → tokens → Prop) :
  (∀ σ', super_guar s σ' → ((1 ≤ rank (s t))%nat → (2 ≤ rank (σ' t))%nat) → Q σ' (put t false m)) →
  SUP s m (λ σ σ', abort t σ = (x, σ')) Q.
Proof.
  intros HQ. apply (child_update _ _ _ _ false); [intros []; cbn; lia|by intros _ []|].
  intros σ σ' Hs Hs' E. apply HQ; [done|]. intros Hr. specialize (Hs t). rewrite E.
  destruct (σ t); cbn in *; lia.
Qed.

Lemma spawn_update s m t x (Q : Children → tokens → Prop) :
  (∀ σ', super_guar s σ' → (1 ≤ rank (σ' t))%nat → Q σ' (put t true m)) → SUP s m (λ σ σ', spawn t σ = (x, σ')) Q.
Proof.
  intros HQ. apply (child_update _ _ _ _ true); [intros []; cbn; lia|done|].
  intros σ σ' Hs Hs' E. apply HQ; [done|]. rewrite E. destruct (σ t); cbn; lia.
Qed.

Lemma finish_update s m t x (Q : Children → tokens → Prop) :
  (∀ σ', Q σ' (put t false m)) → SUP s m (λ σ σ', finish t σ = (x, σ')) Q.
Proof. intros HQ. apply (child_update _ _ _ _ false); [intros []; cbn; lia|by intros _ []|auto]. Qed.

(** Seeing that a task is done gives up its token. *)
Lemma done_update s m t rel (Q : Children → tokens → Prop) :
  (∀ σ σ', rel σ σ' → σ' = σ ∧ σ t = Done) →
  (∀ σ', super_guar s σ' → σ' t = Done → Q σ' (put t false m)) → SUP s m rel Q.
Proof.
  intros Hrel HQ σ fr σ' Hs Hi Hr. destruct (Hrel _ _ Hr) as [-> Hd]. split; [reflexivity|].
  exists (put t false m). split; [|by apply HQ]. intros t' Hl. specialize (Hi t' Hl).
  rewrite has_op in Hi |- *. rewrite has_put. case_decide; [congruence|done].
Qed.

Lemma same_update s m rel (Q : Children → tokens → Prop) :
  (∀ σ σ', rel σ σ' → σ' = σ) → (∀ σ', super_guar s σ' → Q σ' m) → SUP s m rel Q.
Proof. intros Hrel HQ σ fr σ' Hs Hi Hr. apply Hrel in Hr as ->. split; [reflexivity|]. eauto. Qed.

Definition all_guards : list FinishedTask := [Client; Upstream; Writer].

(** Dropping the supervisor aborts all three tasks. *)
Lemma cancel_super m s : cancel_ok abort_on_drop super_inv super_guar all_guards m s.
Proof.
  intros []. apply abort_update. intros s1 _ _ []. apply abort_update. intros s2 _ _ [].
  apply abort_update. intros s3 _ _. cbn. exact (droppable_unit super_inv).
Qed.

Definition all_done (σ : Children) : Prop := ∀ t, σ t = Done.

Lemma all_done_guar σ σ' : super_guar σ σ' → all_done σ → all_done σ'.
Proof. intros Hg Hd t. by eapply done_guar. Qed.

(** Joining an aborted task. *)
Lemma join_wp {R} t (k : unit → super_prog R) Q m s :
  (2 ≤ rank (s t))%nat →
  (∀ m' s', super_guar s s' → s' t = Done → SWP (k tt) Q all_guards m' s') →
  SWP (Await (Join t) k) Q all_guards m s.
Proof.
  intros Hm Hk. cbn [wp]. split; [done|].
  split; [apply same_update; [by intros ?? [-> _]|intros; apply cancel_super]|].
  intros []. apply (done_update _ _ t); [done|]. auto.
Qed.

Lemma abort_wp {R} t (k : unit → super_prog R) Q h m s :
  (1 ≤ rank (s t))%nat →
  (∀ m' s', super_guar s s' → (2 ≤ rank (s' t))%nat → SWP (k tt) Q h m' s') →
  SWP (Atomic (abort t) k) Q h m s.
Proof. intros Hr Hk []. apply abort_update. intros s' Hs Ha. auto. Qed.

Lemma finish_or_abort_wp t w Q m s :
  (1 ≤ rank (s t))%nat →
  (∀ m' s', super_guar s s' → s' t = Done → Q tt all_guards m' s') →
  SWP (finish_or_abort t w) Q all_guards m s.
Proof.
  intros Hr HQ. unfold finish_or_abort, await, atomic. cbn [bind]. split; [done|].
  split; [apply same_update; [by intros ?? [-> _]|intros; apply cancel_super]|].
  intros [|[]].
  - apply same_update; [by intros ?? [-> _]|]. intros s1 Hs1.
    apply abort_wp; [specialize (Hs1 t); lia|]. intros m2 s2 Hs2 H2.
    apply join_wp; [done|]. intros m' s3 Hs3 Hd. apply HQ; [|done]. etrans; [exact Hs1|]. by etrans.
  - apply (done_update _ _ t); [done|]. intros s1 Hs1 Hd. by apply HQ.
Qed.

(** Facts about a task carried along guaranteed steps. *)
Lemma rank_guar n t σ σ' : super_guar σ σ' → (n ≤ rank (σ t))%nat → (n ≤ rank (σ' t))%nat.
Proof. intros Hg ?. specialize (Hg t). lia. Qed.

Lemma wind_down_wp finished m s :
  (∀ t, 1 ≤ rank (s t))%nat → s finished = Done →
  SWP (wind_down finished) (λ _ h _ s', h = all_guards ∧ all_done s') all_guards m s.
Proof.
  assert (∀ σ, σ Writer = Done → σ Upstream = Done → σ Client = Done → all_done σ) as Hall by (by intros σ ? ? ? []).
  intros Hr Hd. destruct finished; unfold wind_down, atomic, await; cbn [bind].
  - apply abort_wp; [done|]. intros m1 s1 Hs1 H1. apply abort_wp; [by eapply rank_guar|]. intros m2 s2 Hs2 H2.
    apply join_wp; [by eapply rank_guar|]. intros m3 s3 Hs3 Hd3.
    apply join_wp; [by eapply rank_guar|]. intros m4 s4 Hs4 Hd4. split; [done|].
    apply Hall; [|by eapply done_guar|done]. eapply done_guar; [|exact Hd].
    etrans; [exact Hs1|]. etrans; [exact Hs2|]. by etrans.
  - apply abort_wp; [done|]. intros m1 s1 Hs1 H1. apply join_wp; [done|]. intros m2 s2 Hs2 Hd2.
    assert (super_guar s s2) as Hs by by etrans.
    apply finish_or_abort_wp; [by eapply rank_guar|]. intros m' s3 Hs3 Hd3. split; [done|].
    apply Hall; [done| |by eapply done_guar]. eapply done_guar; [|exact Hd]. by etrans.
  - apply abort_wp; [done|]. intros m1 s1 Hs1 H1. apply join_wp; [done|]. intros m2 s2 Hs2 Hd2.
    assert (super_guar s s2) as Hs by by etrans.
    apply finish_or_abort_wp; [by eapply rank_guar|]. intros m' s3 Hs3 Hd3. split; [done|].
    apply Hall; [done|by eapply done_guar|]. eapply done_guar; [|exact Hd]. by etrans.
Qed.

(** Leaving the scope of a guard, all tasks being done. *)
Lemma release_wp {R} t (k : super_prog R) (Q : R → list FinishedTask → tokens → Children → Prop) h m s :
  all_done s → (∀ s', all_done s' → SWP k Q h (put t false m) s') → SWP (Release k) Q (t :: h) m s.
Proof.
  intros Hd Hk []. apply abort_update. intros s' Hs' _. apply Hk. by eapply all_done_guar.
Qed.


Lemma spawn_wp {R} t (k : unit → super_prog R) Q h m s :
  (∀ m' s', super_guar s s' → (1 ≤ rank (s' t))%nat → SWP (k tt) Q h m' s') →
  SWP (Atomic (spawn t) k) Q h m s.
Proof. intros Hk []. apply spawn_update. auto. Qed.

Lemma hold_wp {R} t (k : super_prog R) Q h m s : SWP k Q (t :: h) m s → SWP (Hold t k) Q h m s.
Proof. done. Qed.

Definition super_ok_outcome (o : super_outcome) (s : Children) : Prop :=
  match o with Supervised => all_done s | ChildFinished => True end.

Lemma put_all m : put Writer false (put Upstream false (put Client false m)) = share_unit.
Proof. done. Qed.

Lemma supervisor_wp s :
  SWP (do _ := proxy_streams_until in Ret Supervised) (finished super_inv super_ok_outcome) [] share_unit s.
Proof.
  unfold proxy_streams_until, scope, atomic, await. cbn [bind].
  apply spawn_wp. intros m1 s1 Hs1 H1. apply hold_wp, spawn_wp. intros m2 s2 Hs2 H2.
  apply hold_wp, spawn_wp. intros m3 s3 Hs3 H3. apply hold_wp. split; [done|].
  split; [apply same_update; [by intros ?? [-> _]|intros; apply cancel_super]|].
  intros finished. apply (done_update _ _ finished); [by intros ?? []|]. intros s4 Hs4 Hd.
  apply wp_bind. apply wp_bind. apply wp_bind. apply wp_bind. eapply wp_mono; [|apply wind_down_wp; [|exact Hd]].
  - intros [] h m5 s5 [-> Hall]. apply release_wp; [done|]. intros s6 H6. apply release_wp; [done|]. intros s7 H7.
    apply release_wp; [done|]. intros s8 H8. rewrite put_all. split; [done|]. split; [done|apply droppable_unit].
  - assert (super_guar s2 s4) as H24 by by etrans. assert (super_guar s1 s4) as H14 by by etrans.
    intros []; [by apply (rank_guar _ _ s1)|by apply (rank_guar _ _ s2)|by apply (rank_guar _ _ s3)].
Qed.

Abbreviation super_ok := (system_ok abort_on_drop super_env super_inv super_pre super_guar super_ok_outcome).

Lemma super_op_wp q s : super_op q → SWP q (finished super_inv super_ok_outcome) [] share_unit s.
Proof.
  destruct 1 as [t]. intros []. apply finish_update. intros s'. split; [done|]. split; [done|].
  destruct t; exact (droppable_unit super_inv).
Qed.

Lemma super_reachable_ok c : super_steps super_start c → super_ok c.
Proof.
  intros Hs. eapply system_ok_steps in Hs as [_ ?]; [done|apply _..|intros p s; apply super_op_wp|].
  exists [share_unit]. split; [|by intros t].
  constructor; [exists (λ _, NotSpawned); split; [reflexivity|apply supervisor_wp]|constructor].
Qed.

(** No task outlives its connection. When [proxy_streams_until] has returned,
    the wallet reader, the upstream reader and the writer have all finished,
    whichever finished first and however aborts, timeouts and completions
    interleaved. *)
Theorem supervisor_joins_all (c : system super_outcome) (i : nat) (h : list FinishedTask) :
  super_steps super_start c → pool c !! i = Some (Running (Ret Supervised) h) →
  ∀ t, shared c t = Done.
Proof.
  intros Hc%super_reachable_ok Hi t.
  destruct (system_ok_returned _ _ _ _ _ _ _ _ _ _ Hc Hi) as (s & Hd & Hg). by eapply done_guar.
Qed.

(** C26: Cancelling the supervisor at any await leaves no task running unattended:
    once it has unwound (or returned), every task it had spawned has been
    aborted or has finished. *)
Theorem supervisor_drop_aborts (c : system super_outcome) :
  super_steps super_start c → Forall ended (pool c) → ∀ t, shared c t ≠ Live.
Proof.
  intros Hc%super_reachable_ok He t Hl.
  apply (system_ok_ended _ _ _ _ _ _ _ Hc) in He. specialize (He t Hl). by destruct t.
Qed.

(** The wind-down cannot hang on a live task: an unbounded join only ever waits
    for a task that has already been aborted or has finished; the writer, which
    may flush, is joined under the one-second grace first. *)
Theorem supervisor_joins_aborted (c : system super_outcome) (i : nat) (t : FinishedTask) k h :
  super_steps super_start c → pool c !! i = Some (Running (Await (Join t) k) h) →
  shared c t = Aborting ∨ shared c t = Done.
Proof.
  intros Hc%super_reachable_ok Hi.
  destruct (system_ok_waiting _ _ _ _ _ _ _ _ _ _ _ _ Hc Hi) as (m & s & Hp & Hg). cbn in Hp.
  specialize (Hg t). destruct (shared c t); cbn in Hg; [lia..|by left|by right].
Qed.

(** ** Executed supervision *)

(** The handles resolve as soon as their task is done; the grace elapses when
    the writer is not. *)
Definition runtime (X : Type) (e : superE X) : Children → option (X * Children) :=
  match e in superE X return Children → option (X * Children) with
  | SelectFinished => λ σ,
      t ← find (λ t, bool_decide (σ t = Done)) [Writer; Upstream; Client]; Some (t, σ)
  | Join t => λ σ, if bool_decide (σ t = Done) then Some (tt, σ) else None
  | TimedJoin _ t => λ σ, Some (if bool_decide (σ t = Done) then InTime tt else Elapsed, σ)
  end.

Lemma runtime_env X (e : superE X) σ x σ' : runtime X e σ = Some (x, σ') → super_env X e σ (Some x) σ'.
Proof.
  destruct e as [|t|w t]; cbn [runtime].
  - destruct (find _ _) as [t|] eqn:Ef; [|done]. intros [= <- <-]. split; [done|].
    apply List.find_some in Ef as [_ ?]. by apply bool_decide_eq_true in H.
  - case_bool_decide; [|done]. by intros [= <- <-].
  - intros [= <- <-]. split; [done|]. by case_bool_decide.
Qed.

(** A schedule: the supervisor moves or is cancelled, a task completes, and its
    completion takes effect. *)
Inductive super_move : Type := Go (i : nat) | Stop | Complete (t : FinishedTask).

Definition super_action (m : super_move) : action :=
  match m with
  | Go i => Run i
  | Stop => Cancel 0
  | Complete t => Spawn (do _ := atomic (finish t) in Ret ChildFinished : super_prog super_outcome)
  end.

Definition super_run (schedule : list super_move) : option (system super_outcome) :=
  exec abort_on_drop runtime (λ _ _ σ, Some σ) super_start (super_action <$> schedule).

Lemma super_run_steps schedule c : super_run schedule = Some c → super_steps super_start c.
Proof.
  apply exec_sound; [apply runtime_env|by intros X [] σ ? [= <-]|].
  by apply Forall_fmap, Forall_true; intros [].
Qed.

Lemma super_observed {A} (f : system (S:=Children) (G:=FinishedTask) (E:=superE) super_outcome → A) (d : A) schedule x :
  from_option f d (super_run schedule) = x → x ≠ d → ∃ c, super_run schedule = Some c ∧ f c = x.
Proof. destruct (super_run schedule) as [c|]; cbn; intros <-; [eauto|done]. Qed.

(** The client ends first; the upstream reader is aborted, the writer does not
    flush in time and is aborted too. *)
Definition until_select : list super_move := replicate 6 (Go 0).
Definition until_join : list super_move := until_select ++ [Complete Client; Go 1; Go 0; Go 0].
Definition until_return : list super_move :=
  until_join ++ [Complete Upstream; Go 2; Go 0; Go 0; Go 0; Complete Writer; Go 3] ++ replicate 10 (Go 0).

Definition super_returned (c : system (S:=Children) (G:=FinishedTask) (E:=superE) super_outcome) : bool :=
  match pool c !! 0%nat with Some (Running (Ret Supervised) _) => true | _ => false end.

Lemma supervisor_joins_all_witness :
  ∃ c, super_run until_return = Some c ∧ shared c Writer = Done.
Proof.
  destruct (super_observed super_returned false until_return true) as (c & E & Hr); [vm_compute; reflexivity|done|].
  exists c. split; [exact E|]. unfold super_returned in Hr.
  destruct (pool c !! 0%nat) as [[[[]| | | | |] h| |]|] eqn:Ep; try discriminate Hr.
  exact (supervisor_joins_all c 0 h (super_run_steps _ _ E) Ep Writer).
Defined.

Definition super_ended (c : system (S:=Children) (G:=FinishedTask) (E:=superE) super_outcome) : bool :=
  forallb (λ t, match t with Running (Ret _) _ | Unwinding DDone => true | _ => false end) (pool c).

Lemma supervisor_drop_aborts_witness :
  ∃ c, super_run (until_select ++ Stop :: replicate 3 (Go 0)) = Some c ∧ shared c Client ≠ Live.
Proof.
  destruct (super_observed super_ended false (until_select ++ Stop :: replicate 3 (Go 0)) true) as (c & E & Hr);
    [vm_compute; reflexivity|done|].
  exists c. split; [exact E|]. apply (supervisor_drop_aborts c (super_run_steps _ _ E)).
  unfold super_ended in Hr. apply forallb_Forall in Hr. eapply Forall_impl; [exact Hr|].
  intros [[] ?| |[]]; done.
Defined.

Definition joined_handle {X} (e : superE X) : option FinishedTask :=
  match e with Join t => Some t | _ => None end.

Definition joining (t : task (S:=Children) (G:=FinishedTask) (E:=superE) super_outcome) : option FinishedTask :=
  match t with Running (Await e _) _ => joined_handle e | _ => None end.

Definition super_joining (c : system (S:=Children) (G:=FinishedTask) (E:=superE) super_outcome) : option FinishedTask :=
  t ← pool c !! 0%nat; joining t.

Lemma supervisor_joins_aborted_witness :
  ∃ c, super_run until_join = Some c ∧ (shared c Upstream = Aborting ∨ shared c Upstream = Done).
Proof.
  destruct (super_observed super_joining None until_join (Some Upstream)) as (c & E & Hr);
    [vm_compute; reflexivity|done|].
  exists c. split; [exact E|]. unfold super_joining in Hr.
  destruct (pool c !! 0%nat) as [t|] eqn:Ep; [|discriminate Hr]. cbn in Hr.
  destruct t as [[| |X e k| | |] h| |]; try discriminate Hr. cbn in Hr.
  destruct e as [|t|w t]; try discriminate Hr. injection Hr as ->.
  exact (supervisor_joins_aborted c 0 Upstream k h (super_run_steps _ _ E) Ep).
Defined.
