(* ===== verification/Supervised.v ===== *)
(** * Connections under supervision

    The process of [System] with a supervisor for each connection: a task of a
    connection runs once it has been spawned and until its handle is done, and is
    cancelled only after it has been aborted. *)

From stdpp Require Import gmultiset.
From S2P Require Import Prelude RustStr RustNet Endpoint Config Serde Protocol JsonRef Async AsyncLift Tokio Relay RelaySafety RelayStack RelayScenarios RelayOnce Frames Connection ConnectionSafety ConnectionProps ConnectionFlow System Supervisor.

Open Scope N_scope.
Open Scope rust_scope.
Open Scope async_scope.

Section Supervised.
Context `{Sm : Semaphore} `{SmL : !SemaphoreLaws} `{Wt : Watch} `{Ser : Serialize}.
Context `{Des : Deserialize RelayResponse} `{DesR : Deserialize Request} `{DesE : Deserialize UpstreamEnvelope}.

Abbreviation conn_child := (task (S:=ConnState) (G:=Empty_set) (E:=connE) conn_outcome).
Abbreviation super_task := (task (S:=Children) (G:=FinishedTask) (E:=superE) super_outcome).

(** A supervisor and the runtime's view of the tasks it spawns. *)
Record Super : Type := mkSuper { su_task : super_task; su_children : Children }.

Definition super_init : Super := mkSuper (Running (do _ := proxy_streams_until in Ret Supervised) []) (λ _, NotSpawned).

(** The process, and the supervisor of each of its connections. *)
Record SProc : Type := mkSProc { sp_proc : Proc; sp_supers : list Super }.

(** The place of a spawned task in the pool of its connection. *)
Definition place (u : FinishedTask) : nat := match u with Writer => 0 | Upstream => 1 | Client => 2 end.

(** A spawned task takes steps while it is live, and once it has been aborted
    until it is cancelled. *)
Definition may_step (σ : Children) (j : nat) (cancelled : bool) : Prop :=
  ∀ u, j = place u → (σ u = Live ∧ cancelled = false) ∨ σ u = Aborting.

Definition licensed (supers : list Super) (m : mover) : Prop :=
  match m with
  | ByServer => False
  | ByTask i j cancelled => ∀ s, supers !! i = Some s → may_step (su_children s) j cancelled
  | ByOther => True
  end.

Context (config : Config) (relay : SharedRelay).

(** A task that has not been polled since it was spawned. *)
Definition unpolled (u : FinishedTask) (cn : Conn) (t : conn_child) : Prop :=
  pool (conn_system (limits_of config) (cn_client cn) (cn_upstream cn)) !! place u = Some t.

(** The runtime finishes a task when it has ended; one that is aborted before its
    first poll is dropped as it is. *)
Definition finishes (u : FinishedTask) (cn : Conn) (status : child_status) : Prop :=
  ∃ t, pool (cn_sys cn) !! place u = Some t ∧ (ended t ∨ status = Aborting ∧ unpolled u cn t).

Inductive sproc_step : SProc → SProc → Prop :=
| s_accept P P' ss :
    proc_step config relay ByServer P P' → sproc_step (mkSProc P ss) (mkSProc P' (ss ++ [super_init]))
| s_proc m P P' ss :
    proc_step config relay m P P' → licensed ss m → sproc_step (mkSProc P ss) (mkSProc P' ss)
| s_super P ss i s σ' t' :
    ss !! i = Some s → tstep abort_on_drop super_env (su_children s) (su_task s) σ' t' →
    sproc_step (mkSProc P ss) (mkSProc P (<[i:=mkSuper t' σ']> ss))
| s_finish P ss i s cn u :
    ss !! i = Some s → conns P !! i = Some cn → finishes u cn (su_children s u) →
    sproc_step (mkSProc P ss) (mkSProc P (<[i:=mkSuper (su_task s) (finish u (su_children s)).2]> ss)).

Definition sproc_steps : SProc → SProc → Prop := rtc sproc_step.
Definition sproc_reachable (σ0 : RelayState) : SProc → Prop := sproc_steps (mkSProc (mkProc (mkSystem σ0 []) []) []).

(** Supervision only restricts the process. *)
Lemma sproc_proc σ0 SP : sproc_reachable σ0 SP → proc_reachable config relay σ0 (sp_proc SP).
Proof.
  intros H. refine (rtc_ind_r (λ SP, proc_reachable config relay σ0 (sp_proc SP)) _ _ _ _ H); [apply rtc_refl|].
  intros SP1 SP2 _ [P P' ss Hp|m P P' ss Hp _| |] IH; try done; (eapply rtc_r; [exact IH|by eexists]).
Qed.

(** ** What a step does to one connection *)

Inductive conn_effect (i : nat) : mover → Conn → Conn → Prop :=
| effect_none m cn : conn_effect i m cn cn
| effect_moves m cn c' :
    conn_moves m (cn_sys cn) c' → conn_effect i (mover_of i m) cn (set_sys c' (cn_call cn) cn)
| effect_client b cn cn' :
    cn_client cn' = cn_client cn → cn_upstream cn' = cn_upstream cn →
    length (pool (cn_sys cn')) = length (pool (cn_sys cn)) →
    (∀ j, j ≠ client_index → pool (cn_sys cn') !! j = pool (cn_sys cn) !! j) →
    conn_effect i (ByTask i client_index b) cn cn'.

Lemma proc_step_effect m P P' i cn :
  proc_step config relay m P P' → conns P !! i = Some cn → ∃ cn', conns P' !! i = Some cn' ∧ conn_effect i m cn cn'.
Proof.
  assert (∀ (cs : list Conn) j m cn0 cn', cs !! i = Some cn → cs !! j = Some cn0 → (j = i → conn_effect i m cn0 cn') →
            ∃ cn2, <[j:=cn']> cs !! i = Some cn2 ∧ conn_effect i m cn cn2) as Hins.
  { intros cs j m0 cn0 cn' Hi Hj He. destruct (decide (j = i)) as [-> |Hne].
    - assert (cn0 = cn) as -> by congruence. exists cn'. split; [|by apply He].
      apply list_lookup_insert_eq. by eapply lookup_lt_Some.
    - exists cn. split; [by rewrite list_lookup_insert_ne|constructor]. }
  intros [R cs x y|σ ts cs op _|σ ts cs j t σ' t' _ _ _|R cs j cn0 m0 c' Hj Hm|σ ts cs j cn0 raw k h Hj _ _
         |R cs j cn0 raw j' r hr σ ts k h Hj _ _ E _|σr tsr cs j cn0 raw j' t σr' t' σ ts k h Hj _ _ _ _ E _] Hi; cbn in *.
  - exists cn. split; [by apply lookup_app_l_Some|constructor].
  - exists cn. split; [done|constructor].
  - exists cn. split; [done|constructor].
  - eapply Hins; [done..|]. intros ->. by apply effect_moves.
  - eapply Hins; [done..|]. intros ->. by apply effect_client.
  - eapply Hins; [done..|]. intros ->. apply effect_client; [done|done|rewrite E; apply length_insert|].
    intros j1 Hj1. rewrite E. cbn. by rewrite list_lookup_insert_ne.
  - eapply Hins; [done..|]. intros ->. apply effect_client; [done|done|rewrite E; apply length_insert|].
    intros j1 Hj1. rewrite E. cbn. by rewrite list_lookup_insert_ne.
Qed.

(** ** The link between a connection and its supervisor *)

(** What the tasks of a connection are there for: everything but the state of
    the shutdown channel. *)
Definition traffic : ConnState → ConnState := set_shutdown false false.
Definition only_shutdown (X : Type) (e : connE X) : bool := match e with ShutdownChanged => true | _ => false end.

(** Nothing is done that was not done before. *)
Definition no_new_done (σ σ' : Children) : Prop := ∀ u, σ' u = Done → σ u = Done.

#[local] Instance no_new_done_reflexive : Reflexive no_new_done.
Proof. by intros σ u. Qed.

Record super_linked (s : Super) (cn : Conn) : Prop := {
  sl_steps : ∃ finished, super_steps super_start (mkSystem (su_children s) (su_task s :: finished));
  sl_sections : task_sections no_new_done (su_task s);
  sl_done : ∀ u, su_children s u = Done →
    ∃ t, pool (cn_sys cn) !! place u = Some t ∧ (ended t ∨ unpolled u cn t);
  sl_others : ∀ j t, (3 ≤ j)%nat → pool (cn_sys cn) !! j = Some t → task_keeps traffic only_shutdown t;
  sl_length : (3 ≤ length (pool (cn_sys cn)))%nat
}.

Lemma place_small u : (place u < 3)%nat.
Proof. destruct u; cbn; lia. Qed.

Lemma place_onto j : (j < 3)%nat → ∃ u, j = place u.
Proof. intros. destruct j as [|[|[|]]]; [by exists Writer|by exists Upstream|by exists Client|lia]. Qed.

(** A task whose handle is done takes no step. *)
Lemma done_stays ss i s m cn cn' u :
  ss !! i = Some s → licensed ss m → su_children s u = Done → conn_effect i m cn cn' →
  (3 ≤ length (pool (cn_sys cn)))%nat → pool (cn_sys cn') !! place u = pool (cn_sys cn) !! place u.
Proof.
  intros Hs Hl Hu He Hlen. revert Hl Hlen. destruct He as [m0 cn0|m0 cn0 c' Hm|b cn0 cn1 _ _ Hn Hp]; intros Hl Hlen; [done| |].
  - revert Hlen Hl. cbn. destruct Hm as [σ ts j t σ' t' _ _ _|σ ts p _]; cbn; intros Hlen Hl.
    + rewrite list_lookup_insert_ne; [done|]. intros ->. destruct (Hl _ Hs u eq_refl) as [[? _]|?]; congruence.
    + rewrite lookup_app_l; [done|]. pose proof (place_small u). lia.
  - apply Hp. intros Hc. destruct (Hl _ Hs u) as [[? _]|?]; [done|congruence..].
Qed.

Lemma effect_unpolled i m cn cn' u t : conn_effect i m cn cn' → unpolled u cn t → unpolled u cn' t.
Proof. intros [| |b cn0 cn1 E1 E2 _ _]; [done..|]. unfold unpolled. by rewrite E1, E2. Qed.

(** The tasks other than the three only ever touch the shutdown channel. *)
Lemma effect_others i m cn cn' :
  conn_effect i m cn cn' →
  (∀ j t, (3 ≤ j)%nat → pool (cn_sys cn) !! j = Some t → task_keeps traffic only_shutdown t) →
  (∀ j t, (3 ≤ j)%nat → pool (cn_sys cn') !! j = Some t → task_keeps traffic only_shutdown t).
Proof.
  intros [m0 cn0|m0 cn0 c' Hm|b cn0 cn1 _ _ Hn Hp] Ho; [done| |].
  - cbn. revert Ho. destruct Hm as [σ ts j0 t0 σ' t' Hj0 _ Ht|σ ts p Hop]; cbn; intros Ho j t Hj.
    + destruct (decide (j0 = j)) as [-> |Hne]; [|rewrite list_lookup_insert_ne by done; by apply Ho].
      rewrite list_lookup_insert_eq by (by eapply lookup_lt_Some). intros [= <-].
      by destruct (tstep_keeps _ _ _ _ _ _ _ _ (Ho _ _ Hj Hj0) Ht).
    + intros [?|[_ Hi]]%lookup_app_Some; [by eapply Ho|].
      apply list_lookup_singleton_Some in Hi as [_ <-]. split; [done|by apply conn_op_keeps].
  - intros j t Hj. rewrite Hp by (unfold client_index; lia). by apply Ho.
Qed.

Lemma effect_length i m cn cn' :
  conn_effect i m cn cn' → (3 ≤ length (pool (cn_sys cn)))%nat → (3 ≤ length (pool (cn_sys cn')))%nat.
Proof.
  intros [m0 cn0|m0 cn0 c' Hm|b cn0 cn1 _ _ Hn Hp] Hl; [done| |].
  - cbn. revert Hl. destruct Hm; cbn; rewrite ?length_insert, ?length_app; lia.
  - lia.
Qed.

Lemma linked_effect ss i s m cn cn' :
  ss !! i = Some s → licensed ss m → conn_effect i m cn cn' → super_linked s cn → super_linked s cn'.
Proof.
  intros Hs Hl He [H1 H2 H3 H4 H5]. split; [done|done| |by eapply effect_others|by eapply effect_length].
  intros u Hu. destruct (H3 u Hu) as (t & Ht & Hd). exists t. split.
  - by rewrite (done_stays _ _ _ _ _ _ _ Hs Hl Hu He H5).
  - destruct Hd; [by left|right; by eapply effect_unpolled].
Qed.

(** The supervisor finishes no task by itself. *)
Lemma abort_on_drop_sections u : dsections no_new_done (abort_on_drop u).
Proof. split; [|done]. intros σ v. cbn. case_decide; [|done]. by destruct (σ v). Qed.

Lemma supervisor_sections : sections no_new_done (do _ := proxy_streams_until in Ret Supervised).
Proof.
  assert (∀ u, (∀ σ, no_new_done σ (spawn u σ).2) ∧ (∀ σ, no_new_done σ (abort u σ).2)) as Hsec.
  { intros u. split; intros σ v; cbn; case_decide; try done; by destruct (σ v). }
  unfold proxy_streams_until, scope, wind_down, finish_or_abort, atomic, await.
  repeat match goal with
         | |- sections _ _ => progress cbn [sections bind]
         | |- sections _ ?p => match p with context [match ?x with _ => _ end] => destruct x end
         | |- _ ∧ _ => split
         | |- ∀ _, _ => intro
         | |- no_new_done _ _ => apply Hsec
         | |- _ => done
         end.
Qed.

Lemma super_moves_linked s cn σ' t' :
  tstep abort_on_drop super_env (su_children s) (su_task s) σ' t' → super_linked s cn →
  super_linked (mkSuper t' σ') cn.
Proof.
  intros Ht [[fin H1] H2 H3 H4 H5].
  destruct (tstep_sections abort_on_drop super_env no_new_done abort_on_drop_sections _ _ _ _ H2 Ht) as [H2' Hrel].
  split; cbn; [|done| |done|done].
  - exists fin. eapply rtc_r; [exact H1|]. exact (step_task _ _ _ _ (su_task s :: fin) 0 _ _ _ eq_refl Ht).
  - intros u Hu. apply H3. destruct Hrel as [Hrel|(X & e & o & He)]; [by apply Hrel|].
    destruct e; destruct He as [-> _]; done.
Qed.

Lemma insert_snoc {A} (l : list A) x y : <[length l:=y]> (l ++ [x]) = l ++ [y].
Proof. by rewrite insert_app_r_alt, Nat.sub_diag by lia. Qed.

Lemma super_finish_linked s cn u :
  finishes u cn (su_children s u) → super_linked s cn →
  super_linked (mkSuper (su_task s) (finish u (su_children s)).2) cn.
Proof.
  intros (t & Ht & Hend) [[fin H1] H2 H3 H4 H5]. split; cbn; [|done| |done|done].
  - exists (fin ++ [Running (Ret ChildFinished) []]). eapply rtc_r; [eapply rtc_r; [exact H1|]|].
    + apply step_spawn, (op_finish u).
    + change (su_task s :: fin ++ [Running (Ret ChildFinished) []])
        with ((su_task s :: fin) ++ [Running (Ret ChildFinished) []]).
      rewrite <- (insert_snoc (su_task s :: fin) (Running (do _ := atomic (finish u) in Ret ChildFinished) [])
                    (Running (Ret ChildFinished) [])) at 1.
      eapply step_task; [by apply list_lookup_middle|]. exists tt. by split.
  - intros v. case_decide as Ev; [subst v|by apply H3]. intros _. exists t. split; [done|].
    destruct Hend as [?|[_ ?]]; [by left|by right].
Qed.

Lemma super_init_linked from_client from_upstream :
  super_linked super_init
    (mkConn from_client from_upstream (conn_system (limits_of config) from_client from_upstream) None).
Proof.
  split; cbn; [exists []; apply rtc_refl|apply supervisor_sections|done| |done].
  intros j t Hj Ht%lookup_lt_Some. cbn in Ht. lia.
Qed.

(** Every connection has its supervisor. *)
Definition supervised (SP : SProc) : Prop := Forall2 super_linked (sp_supers SP) (conns (sp_proc SP)).

Lemma supervised_proc m P P' ss :
  m ≠ ByServer → proc_step config relay m P P' → licensed ss m →
  Forall2 super_linked ss (conns P) → Forall2 super_linked ss (conns P').
Proof.
  intros Hm Hp Hl H. apply Forall2_same_length_lookup. pose proof (Forall2_length _ _ _ H) as Hlen. split.
  - rewrite Hlen. revert Hm. destruct Hp; cbn; intros Hm; rewrite ?length_insert; done.
  - intros i s cn' Hs Hcn'. destruct (Forall2_lookup_l _ _ _ _ _ H Hs) as (cn & Hcn & Hlink).
    destruct (proc_step_effect _ _ _ _ _ Hp Hcn) as (cn2 & Hcn2 & He).
    assert (cn2 = cn') as -> by congruence. by eapply linked_effect.
Qed.

Lemma supervised_step SP SP' : supervised SP → sproc_step SP SP' → supervised SP'.
Proof.
  intros H Hs. revert H. unfold supervised.
  destruct Hs as [P P' ss Hp|m P P' ss Hp Hl|P ss i s σ' t' Hi Ht|P ss i s cn u Hi Hcn Hf]; cbn; intros H.
  - inversion Hp; subst; cbn in *; [|match goal with H : mover_of _ ?m = _ |- _ => by destruct m as [[]|] end].
    apply Forall2_app; [done|]. constructor; [apply super_init_linked|constructor].
  - eapply supervised_proc; [|exact Hp|exact Hl|exact H]. by intros ->.
  - destruct (Forall2_lookup_l _ _ _ _ _ H Hi) as (cn & Hcn & Hlink).
    rewrite <- (list_insert_id (conns P) i cn Hcn). apply Forall2_insert; [done|]. by eapply super_moves_linked.
  - rewrite <- (list_insert_id (conns P) i cn Hcn). apply Forall2_insert; [done|]. apply super_finish_linked; [done|].
    by eapply Forall2_lookup_lr.
Qed.

Lemma sproc_supervised σ0 SP : sproc_reachable σ0 SP → supervised SP.
Proof.
  intros H. refine (rtc_ind_r supervised _ _ _ _ H); [constructor|]. intros ? ? _ Hs ?. by eapply supervised_step.
Qed.

(** ** A connection that is over *)

(** The supervisor of connection [i] has returned, with [σ] the state of the
    connection but for the shutdown channel, and no call of the relay. *)
Definition over (i : nat) (σ : ConnState) (SP : SProc) : Prop :=
  ∃ s h cn, sp_supers SP !! i = Some s ∧ su_task s = Running (Ret Supervised) h
            ∧ conns (sp_proc SP) !! i = Some cn ∧ traffic (shared (cn_sys cn)) = σ ∧ cn_call cn = None.

Lemma returned_done s cn h : super_linked s cn → su_task s = Running (Ret Supervised) h → all_done (su_children s).
Proof.
  intros [[fin Hst] _ _ _ _] Ht u. rewrite Ht in Hst.
  by eapply (supervisor_joins_all (mkSystem (su_children s) _) 0).
Qed.

(** With its handles done, a connection only follows the shutdown channel. *)
Lemma over_effect ss i s m cn cn' :
  ss !! i = Some s → licensed ss m → all_done (su_children s) → super_linked s cn → conn_effect i m cn cn' →
  traffic (shared (cn_sys cn')) = traffic (shared (cn_sys cn)) ∧ cn_call cn' = cn_call cn.
Proof.
  intros Hs Hl Hd Hlink He.
  assert (∀ j b, m = ByTask i j b → (3 ≤ j)%nat) as Hj.
  { intros j b ->. destruct (decide (3 ≤ j)%nat) as [?|Hlt]; [done|]. destruct (place_onto j) as [u ->]; [lia|].
    destruct (Hl _ Hs u eq_refl) as [[Hu _]|Hu]; rewrite Hd in Hu; done. }
  revert Hj Hlink. clear Hl. destruct He as [m0 cn0|m0 cn0 c' Hm|b cn0 cn1 _ _ _ _]; intros Hj Hlink; [done| |].
  - split; [|done]. pose proof (sl_others _ _ Hlink) as Ho. revert Hj Ho. cbn. clear Hlink.
    destruct Hm as [σ ts j t σ' t' Hi _ Ht|σ ts p _]; cbn; intros Hj Ho; [|done].
    destruct (tstep_keeps _ _ _ _ _ _ _ _ (Ho j t (Hj _ _ eq_refl) Hi) Ht) as [_ [?|(X & e & k & h & o & _ & He & Henv)]];
      [done|]. destruct e; try done. by destruct Henv as [-> _].
  - specialize (Hj _ _ eq_refl). unfold client_index in Hj. lia.
Qed.

Lemma over_step i σ SP SP' : supervised SP → over i σ SP → sproc_step SP SP' → over i σ SP'.
Proof.
  intros Hsup (s & h & cn & Hs & Ht & Hcn & E & Ec) Hstep. unfold supervised in Hsup. revert Hsup Hs Hcn.
  destruct Hstep as [P P' ss Hp|m P P' ss Hp Hl|P ss j s0 σ' t' Hj Htj|P ss j s0 cn0 u Hj Hcn0 Hf];
    cbn; intros Hsup Hs Hcn; pose proof (Forall2_lookup_lr _ _ _ _ _ _ Hsup Hs Hcn) as Hlink.
  - inversion Hp; subst; cbn in *; [|match goal with H : mover_of _ ?m = _ |- _ => by destruct m as [[]|] end].
    exists s, h, cn. split; [by apply lookup_app_l_Some|]. split; [done|]. by split; [apply lookup_app_l_Some|].
  - destruct (proc_step_effect _ _ _ _ _ Hp Hcn) as (cn' & Hcn' & He).
    destruct (over_effect _ _ _ _ _ _ Hs Hl (returned_done _ _ _ Hlink Ht) Hlink He) as [E1 E2].
    exists s, h, cn'. split; [done|]. split; [done|]. split; [done|]. split; congruence.
  - exists s, h, cn. split; [|done]. cbn. rewrite list_lookup_insert_ne; [done|]. intros ->.
    assert (s0 = s) as -> by congruence. by rewrite Ht in Htj.
  - destruct (decide (j = i)) as [-> |Hne].
    + assert (s0 = s) as -> by congruence. exists (mkSuper (su_task s) (finish u (su_children s)).2), h, cn.
      split; [|done]. apply list_lookup_insert_eq. by eapply lookup_lt_Some.
    + exists s, h, cn. split; [|done]. cbn. by rewrite list_lookup_insert_ne.
Qed.

Context (σ0 : RelayState) (Hbuild : build_relay config = Some (relay, σ0)).

(** A connection whose handles are done waits for no broadcast. *)
Lemma done_not_calling P s cn :
  proc_reachable config relay σ0 P → cn ∈ conns P → super_linked s cn → all_done (su_children s) → cn_call cn = None.
Proof.
  intros HP Hcn Hlink Hd. destruct (cn_call cn) as [[j raw]|] eqn:Ec; [|done].
  destruct (reachable_linked config relay σ0 Hbuild P HP) as [ops [_ _ Hcs]]. rewrite Forall_forall in Hcs.
  destruct (cl_calling _ _ _ (Hcs _ Hcn) _ _ Ec) as (k & h & Hi).
  destruct (sl_done _ _ Hlink Client (Hd Client)) as (t & Ht & Hend).
  change (place Client) with client_index in Ht. rewrite Hi in Ht. injection Ht as <-.
  by destruct Hend as [|].
Qed.

(** C23: A connection whose supervisor has returned is over. None of its tasks is
    left to run and it waits for no broadcast; whatever the rest of the process
    does from then on, it reads nothing more, writes nothing more to the wallet
    or the upstream, and makes no further call of the relay. *)
Theorem connection_over SP SP' i s h cn :
  sproc_reachable σ0 SP → sp_supers SP !! i = Some s → su_task s = Running (Ret Supervised) h →
  conns (sp_proc SP) !! i = Some cn → sproc_steps SP SP' →
  (∀ u, ∃ t, pool (cn_sys cn) !! place u = Some t ∧ (ended t ∨ unpolled u cn t))
  ∧ cn_call cn = None
  ∧ ∃ cn', conns (sp_proc SP') !! i = Some cn' ∧ cn_call cn' = None
           ∧ traffic (shared (cn_sys cn')) = traffic (shared (cn_sys cn)).
Proof.
  intros HSP Hs Ht Hcn Hsteps. pose proof (sproc_supervised _ _ HSP) as Hsup.
  pose proof (Forall2_lookup_lr _ _ _ _ _ _ Hsup Hs Hcn) as Hlink.
  pose proof (returned_done _ _ _ Hlink Ht) as Hd.
  assert (cn_call cn = None) as Ec.
  { eapply done_not_calling; [by apply sproc_proc|by eapply list_elem_of_lookup_2|done|done]. }
  split; [intros u; by apply (sl_done _ _ Hlink)|]. split; [done|].
  assert (over i (traffic (shared (cn_sys cn))) SP' ∧ supervised SP') as [(s' & h' & cn' & _ & _ & ? & ? & ?) _];
    [|by exists cn'].
  assert (over i (traffic (shared (cn_sys cn))) SP) as Hover by (by exists s, h, cn).
  clear -Hsteps Hover Hsup. induction Hsteps as [|SP SP1 SP' Hstep _ IH]; [done|].
  apply IH; [by eapply supervised_step|by eapply over_step].
Qed.
End Supervised.

(** ** An executed, supervised process *)

Inductive super_turn : Type :=
| Turn (m : composed_move)
| SuperTurn (i : nat)
| FinishTurn (i : nat) (u : FinishedTask).

(** Whether a move of the process is licensed. *)
Definition may_stepb (σ : Children) (j : nat) (cancelled : bool) : bool :=
  forallb (λ u, bool_decide (j ≠ place u ∨ (σ u = Live ∧ cancelled = false) ∨ σ u = Aborting)) all_guards.

Definition licensedb (supers : list Super) (m : mover) : bool :=
  match m with
  | ByServer => false
  | ByTask i j cancelled => from_option (λ s, may_stepb (su_children s) j cancelled) true (supers !! i)
  | ByOther => true
  end.

Lemma licensedb_ok supers m : licensedb supers m = true → licensed supers m.
Proof.
  destruct m as [|i j cancelled|]; cbn [licensedb licensed]; [done| |done]. intros Hl s Hs u ->. rewrite Hs in Hl. cbn [from_option] in Hl.
  unfold may_stepb in Hl. apply forallb_Forall in Hl. rewrite Forall_forall in Hl.
  assert (u ∈ all_guards) as Hu by (destruct u; set_solver). apply Hl, bool_decide_eq_true in Hu. tauto.
Qed.

Definition endedb {S G E R} (t : task (S:=S) (G:=G) (E:=E) R) : bool :=
  match t with Running (Ret _) _ | Unwinding DDone => true | _ => false end.

Definition super_act (SP : SProc) (m : super_turn) : option SProc :=
  let '(mkSProc P ss) := SP in
  match m with
  | Turn m =>
      P' ← composed_act P m;
      match move_by m with
      | ByServer => Some (mkSProc P' (ss ++ [super_init]))
      | who => if licensedb ss who then Some (mkSProc P' ss) else None
      end
  | SuperTurn i =>
      s ← ss !! i;
      '(σ', t') ← exec_task abort_on_drop runtime (su_children s) (su_task s);
      Some (mkSProc P (<[i:=mkSuper t' σ']> ss))
  | FinishTurn i u =>
      s ← ss !! i;
      cn ← conns P !! i;
      t ← pool (cn_sys cn) !! place u;
      if endedb t then Some (mkSProc P (<[i:=mkSuper (su_task s) (finish u (su_children s)).2]> ss)) else None
  end.

Abbreviation supervised_step_of := (sproc_step sample sample_stack.1).

Lemma super_act_step SP m SP' : super_act SP m = Some SP' → supervised_step_of SP SP'.
Proof.
  destruct SP as [P ss], m as [m|i|i u]; cbn [super_act].
  - destruct (composed_act P m) as [P'|] eqn:E; [|done]. cbn [mbind option_bind]. apply composed_act_step in E.
    destruct (move_by m) as [|i j b|]; [intros <-%(inj Some); by constructor|..];
      (destruct (licensedb ss _) eqn:El; [|done]; intros <-%(inj Some); eapply s_proc; [exact E|by apply licensedb_ok]).
  - destruct (ss !! i) as [s|] eqn:Hs; [|done]. cbn [mbind option_bind].
    destruct (exec_task abort_on_drop runtime _ _) as [[σ' t']|] eqn:Et; [|done]. intros <-%(inj Some).
    eapply s_super; [exact Hs|]. eapply exec_task_sound; [apply runtime_env|exact Et].
  - destruct (ss !! i) as [s|] eqn:Hs; [|done]. cbn [mbind option_bind].
    destruct (conns P !! i) as [cn|] eqn:Hcn; [|done]. cbn [mbind option_bind].
    destruct (pool (cn_sys cn) !! place u) as [t|] eqn:Ht; [|done]. cbn [mbind option_bind].
    destruct (endedb t) eqn:He; [|done]. intros <-%(inj Some). eapply s_finish; [exact Hs|exact Hcn|].
    exists t. split; [exact Ht|left]. by destruct t as [[]| |[]].
Qed.

Fixpoint supervised_run (SP : SProc) (schedule : list super_turn) : option SProc :=
  match schedule with
  | [] => Some SP
  | m :: rest => SP' ← super_act SP m; supervised_run SP' rest
  end.

Definition supervised_start : SProc := mkSProc composed_start [].

Lemma supervised_run_steps SP schedule SP' :
  supervised_run SP schedule = Some SP' → sproc_steps sample sample_stack.1 SP SP'.
Proof.
  revert SP. induction schedule as [|m rest IH]; intros SP; cbn [supervised_run]; [intros [= <-]; apply rtc_refl|].
  destruct (super_act SP m) as [SP1|] eqn:E; [|done]. intros Hr.
  eapply rtc_l; [by eapply super_act_step|by apply IH].
Qed.

(** A wallet makes a request and a broadcast and goes; the supervisor stops the
    other tasks and returns, and the next wallet is accepted. *)
Definition one_supervised : list super_turn :=
  Turn (MAccept wallet_stream upstream_stream) :: replicate 6 (SuperTurn 0)
  ++ (Turn <$> ([MConn 0 1 false; MConn 0 0 false] ++ replicate 13 (MConn 0 2 false) ++ [MCall 0]
                ++ replicate 20 (MRelay 0) ++ [MReturn 0] ++ replicate 7 (MConn 0 2 false)))
  ++ [FinishTurn 0 Client; SuperTurn 0; SuperTurn 0; Turn (MConn 0 1 true); FinishTurn 0 Upstream]
  ++ replicate 3 (SuperTurn 0) ++ [Turn (MConn 0 0 true); FinishTurn 0 Writer] ++ replicate 10 (SuperTurn 0).
Definition next_wallet : list super_turn :=
  Turn (MAccept wallet_stream []) :: replicate 6 (SuperTurn 1) ++ (Turn <$> replicate 9 (MConn 1 2 false)).

(** Which supervisors have returned, and how many calls each connection has made. *)
Definition supervisors_returned (SP : SProc) : list bool :=
  (λ s, match su_task s with Running (Ret Supervised) _ => true | _ => false end) <$> sp_supers SP.
Definition calls_made (SP : SProc) : list nat :=
  (λ cn, length (relay_log (shared (cn_sys cn)))) <$> conns (sp_proc SP).

Lemma connection_over_witness :
  ∃ SP SP' cn cn', supervised_run supervised_start one_supervised = Some SP
    ∧ supervised_run SP next_wallet = Some SP' ∧ calls_made SP = [1%nat] ∧ length (conns (sp_proc SP')) = 2%nat
    ∧ conns (sp_proc SP) !! 0%nat = Some cn ∧ conns (sp_proc SP') !! 0%nat = Some cn'
    ∧ traffic (shared (cn_sys cn')) = traffic (shared (cn_sys cn)).
Proof.
  assert (from_option (λ SP, (supervisors_returned SP, calls_made SP,
                              (length ∘ conns ∘ sp_proc) <$> supervised_run SP next_wallet)) ([], [], None)
            (supervised_run supervised_start one_supervised) = ([true], [1%nat], Some 2%nat)) as Hr
    by (vm_compute; reflexivity).
  destruct (supervised_run supervised_start one_supervised) as [SP|] eqn:E; [|discriminate Hr]. cbn [from_option] in Hr.
  assert (supervisors_returned SP = [true]) as Hret by congruence. assert (calls_made SP = [1%nat]) as Hcalls by congruence.
  assert ((length ∘ conns ∘ sp_proc) <$> supervised_run SP next_wallet = Some 2%nat) as Hlen by congruence. clear Hr.
  destruct (supervised_run SP next_wallet) as [SP'|] eqn:E'; cbn in Hlen; [|discriminate Hlen].
  injection Hlen as Hlen. unfold supervisors_returned in Hret. destruct (sp_supers SP) as [|s ss] eqn:Es; cbn in Hret; [discriminate Hret|].
  assert (∃ h, su_task s = Running (Ret Supervised) h) as [h Ht].
  { injection Hret as Hret _. destruct (su_task s) as [[[]| | | | |] h| |]; try discriminate Hret. by exists h. }
  pose proof Hcalls as Hc. unfold calls_made in Hc. destruct (conns (sp_proc SP)) as [|cn cs] eqn:Ec; cbn in Hc; [discriminate Hc|].
  destruct (connection_over sample sample_stack.1 sample_stack.2 sample_built SP SP' 0 s h cn
              (supervised_run_steps _ _ _ E)) as (_ & _ & cn' & H1 & _ & H2);
    [by rewrite Es|exact Ht|by rewrite Ec|exact (supervised_run_steps _ _ _ E')|].
  exists SP, SP', cn, cn'. split; [reflexivity|]. split; [exact E'|]. split; [exact Hcalls|]. split; [exact Hlen|].
  split; [by rewrite Ec|]. split; [exact H1|exact H2].
Defined.
