(* ===== verification/Server.v ===== *)
(** * The server (src/proxy.rs, [serve_until])

    The accept loop with its connection slots, the task of one accepted
    connection, and the bounded shutdown phase, over the state of the listener,
    the slots, the set of connection tasks and the shutdown channel. *)

From S2P Require Import Prelude RustStr RustNet Endpoint Config Async Tokio Frames Supervisor.

Open Scope N_scope.
Open Scope async_scope.

Record ShutdownReport : Type := mkShutdownReport { all_connections_drained : bool }.

(** [ProxyError] with its message; an [io::Error] is given by its text. *)
Record ProxyError : Type := mkProxyError { proxy_error_message : str }.

Definition ProxyError_from (io_error_text : str) : ProxyError := mkProxyError io_error_text.
Definition ProxyError_fmt (e : ProxyError) : str := proxy_error_message e.

Section Server.
Context `{Sm : Semaphore}.

(** The listener is open; free slots; tasks in the [JoinSet] that have not
    started, that have not ended, and that have ended and await joining; whether
    the shutdown channel ends a wait on it (it carries [true], or is closed); and
    whether the [shutdown] future passed to the server is ready. *)
Record ServerState : Type := mkServerState {
  listening : bool;
  slots : Sem;
  queued : N;
  unfinished : N;
  joinable : N;
  stop : bool;
  requested : bool
}.

Definition server_start (config : Config) : ServerState :=
  mkServerState false (sem_new (cfg_max_connections config)) 0 0 0 false false.

(** The guards of a connection task: its place in the set, and its slot. *)
Inductive conn_guard : Type := TaskInSet | SlotPermit.

Definition end_task (σ : ServerState) : unit * ServerState :=
  (tt, mkServerState (listening σ) (slots σ) (queued σ) (unfinished σ - 1) (joinable σ + 1) (stop σ) (requested σ)).
Definition release_slot (σ : ServerState) : unit * ServerState :=
  (tt, mkServerState (listening σ) (sem_add_permits (slots σ) 1) (queued σ) (unfinished σ) (joinable σ) (stop σ) (requested σ)).

Definition drop_conn_guard (g : conn_guard) : dprog ServerState :=
  match g with
  | TaskInSet => DStep end_task (λ _, DDone)
  | SlotPermit => DStep release_slot (λ _, DDone)
  end.

(** What the accept loop's [select!] yields. *)
Inductive serve_event : Type :=
| ShutdownRequested
| Joined (r : result unit unit)
| Accepted (r : result unit str).

(** Await points of the server and of a connection task. *)
Inductive serveE : Type → Type :=
| Bind (listen : SocketAddr) : serveE (result unit str)
| ServeSelect : serveE serve_event
| DrainNext (maximum_wait : N) : serveE (timed (option (result unit unit)))
| ShutdownSet : serveE unit
| ConnectUpstream (connect_timeout : N) (upstream : Endpoint) : serveE (unit + timed (result unit unit))
| ProxyStreams (limits : ConnectionLimits) : serveE unit.

Definition set_listening (b : bool) (σ : ServerState) : ServerState :=
  mkServerState b (slots σ) (queued σ) (unfinished σ) (joinable σ) (stop σ) (requested σ).
Definition take_joinable (σ : ServerState) : ServerState :=
  mkServerState (listening σ) (slots σ) (queued σ) (unfinished σ) (joinable σ - 1) (stop σ) (requested σ).

(** A join yields the result of an ended task; [None] and the end of
    [JoinSet::shutdown] mean that no task is left. *)
Definition serve_env (X : Type) (e : serveE X) : ServerState → option X → ServerState → Prop :=
  match e in serveE X return ServerState → option X → ServerState → Prop with
  | Bind _ => λ σ o σ', match o with Some (Ok _) => σ' = set_listening true σ | _ => σ' = σ end
  | ServeSelect => λ σ o σ',
      match o with
      | Some ShutdownRequested => requested σ = true ∧ σ' = σ
      | Some (Joined _) => 0 < joinable σ ∧ σ' = take_joinable σ
      | Some (Accepted (Ok _)) => listening σ = true ∧ σ' = σ
      | _ => σ' = σ
      end
  | DrainNext _ => λ σ o σ',
      match o with
      | Some (InTime (Some _)) => 0 < joinable σ ∧ σ' = take_joinable σ
      | Some (InTime None) => unfinished σ = 0 ∧ joinable σ = 0 ∧ σ' = σ
      | _ => σ' = σ
      end
  | ShutdownSet => λ σ o σ',
      match o with
      | Some _ => unfinished σ = 0
                  ∧ σ' = mkServerState (listening σ) (slots σ) (queued σ) (unfinished σ) 0 (stop σ) (requested σ)
      | None => σ' = σ
      end
  | ConnectUpstream _ _ => λ σ o σ',
      σ' = σ ∧ match o with
               | Some (inl _) => stop σ = true
               | _ => True
               end
  | ProxyStreams _ => λ σ _ σ', σ' = σ
  end.

Definition serve_prog : Type → Type := prog ServerState conn_guard serveE.

(** [Arc::clone(&connection_slots).try_acquire_owned()] *)
Definition try_acquire_slot (σ : ServerState) : bool * ServerState :=
  let '(acquired, s) := sem_acquire 1 (slots σ) in
  (acquired, mkServerState (listening σ) s (queued σ) (unfinished σ) (joinable σ) (stop σ) (requested σ)).

(** [connections.spawn(..)], the permit moving into the task. *)
Definition spawn_connection (σ : ServerState) : unit * ServerState :=
  (tt, mkServerState (listening σ) (slots σ) (queued σ + 1) (unfinished σ + 1) (joinable σ) (stop σ) (requested σ)).

Definition drop_listener (σ : ServerState) : unit * ServerState := (tt, set_listening false σ).
Definition send_shutdown (σ : ServerState) : unit * ServerState :=
  (tt, mkServerState (listening σ) (slots σ) (queued σ) (unfinished σ) (joinable σ) true (requested σ)).

(** Leaving [serve_until] by an error drops its locals, the last declared first:
    the channel's sender, then the listener. Dropping the set of connections asks
    the runtime to cancel the tasks in it, which the model lets happen to a
    connection task at any of its awaits. *)
Definition drop_shutdown_sender : ServerState → unit * ServerState := send_shutdown.

(** The accept loop; [None] is the [break] on shutdown. *)
Definition accept_loop : serve_prog (option ProxyError) :=
  loop (λ _ : unit,
    do event := await ServeSelect in
    match event with
    | ShutdownRequested => Ret (inr None)
    | Joined (Err _) => do _ := await ShutdownSet in Ret (inr (Some (mkProxyError (lit "connection task failed"))))
    | Joined (Ok _) => Ret (inl tt)
    | Accepted (Err e) => Ret (inr (Some (ProxyError_from e)))
    | Accepted (Ok _) =>
        do acquired := atomic try_acquire_slot in
        if negb acquired then Ret (inl tt)
        else do _ := atomic spawn_connection in Ret (inl tt)
    end) tt.

(** [while let Some(result) = connections.join_next().await] under its timeout. *)
Definition drain_connections (maximum_wait : N) : serve_prog bool :=
  loop (λ _ : unit,
    do next := await (DrainNext maximum_wait) in
    match next with
    | Elapsed => Ret (inr false)
    | InTime None => Ret (inr true)
    | InTime (Some (Err _)) => Ret (inr false)
    | InTime (Some (Ok _)) => Ret (inl tt)
    end) tt.

(** The deadline of the connections after shutdown. *)
Definition maximum_wait (config : Config) : N :=
  Duration_saturating_add (cfg_relay_timeout config) CONNECTION_RESPONSE_FLUSH_GRACE.

(** What follows the shutdown signal. *)
Definition shutdown_phase (config : Config) : serve_prog (result ShutdownReport ProxyError) :=
  do drained := drain_connections (maximum_wait config) in
  if negb drained
  then do _ := await ShutdownSet in Ret (Ok (mkShutdownReport drained))
  else Ret (Ok (mkShutdownReport drained)).

Definition serve_until (config : Config) : serve_prog (result ShutdownReport ProxyError) :=
  do bound := await (Bind (cfg_listen config)) in
  match bound with
  | Err e => Ret (Err (ProxyError_from e))
  | Ok _ =>
      do broken := accept_loop in
      match broken with
      | Some error =>
          do _ := atomic drop_shutdown_sender in
          do _ := atomic drop_listener in
          Ret (Err error)
      | None =>
          do _ := atomic drop_listener in
          do _ := atomic send_shutdown in
          shutdown_phase config
      end
  end.

(** The runtime starts a queued task. *)
Definition start_task (σ : ServerState) : bool * ServerState :=
  if 0 <? queued σ
  then (true, mkServerState (listening σ) (slots σ) (queued σ - 1) (unfinished σ) (joinable σ) (stop σ) (requested σ))
  else (false, σ).

(** The body of a connection task. *)
Definition connection_body (config : Config) : serve_prog unit :=
  do upstream := await (ConnectUpstream (cfg_connect_timeout config) (cfg_upstream config)) in
  match upstream with
  | inl _ => Ret tt
  | inr (InTime (Ok _)) =>
      await (ProxyStreams (mkConnectionLimits (cfg_max_frame_bytes config)
                             (PendingRequestLimit_get (cfg_max_pending_requests config))))
  | inr _ => Ret tt
  end.

Inductive serve_outcome : Type :=
| Served (r : result ShutdownReport ProxyError)
| ConnectionEnded
| ShutdownSignalled.

Definition connection_task (config : Config) : serve_prog serve_outcome :=
  do started := atomic start_task in
  if (started : bool)
  then do _ := scope TaskInSet (scope SlotPermit (connection_body config)) in Ret ConnectionEnded
  else Ret ConnectionEnded.

(** A queued task that is aborted before it starts: its permit is dropped. *)
Definition abandon_queued (σ : ServerState) : bool * ServerState :=
  if 0 <? queued σ
  then (true, mkServerState (listening σ) (sem_add_permits (slots σ) 1) (queued σ - 1) (unfinished σ - 1)
                (joinable σ + 1) (stop σ) (requested σ))
  else (false, σ).

(** The [shutdown] future becomes ready. *)
Definition request_shutdown (σ : ServerState) : unit * ServerState :=
  (tt, mkServerState (listening σ) (slots σ) (queued σ) (unfinished σ) (joinable σ) (stop σ) true).

Inductive serve_op (config : Config) : serve_prog serve_outcome → Prop :=
| op_request : serve_op config (do _ := atomic request_shutdown in Ret ShutdownSignalled)
| op_connection : serve_op config (connection_task config)
| op_abandon : serve_op config (do _ := atomic abandon_queued in Ret ConnectionEnded).

Definition serve_system (config : Config) : system serve_outcome :=
  mkSystem (server_start config) [Running (do r := serve_until config in Ret (Served r)) []].

Definition serve_steps (config : Config) := steps drop_conn_guard serve_env (serve_op config).
End Server.
