(* ===== verification/ServerSafety.v ===== *)
(** * What the server guarantees

    The connection limit in every reachable state, and the state in which the
    bounded shutdown phase leaves the process. *)

From S2P Require Import Prelude RustStr RustNet Endpoint Config Async Tokio Frames Supervisor Server.

Open Scope N_scope.
Open Scope async_scope.

(** Shares: the server knows the listener and the channel it alone changes; a
    connection task owns its slot and its place in the set. *)
Record serve_share : Type := mkServeShare {
  ss_owner : excl (bool * bool);
  ss_slots : N;
  ss_tasks : N
}.

#[export] Instance serve_Shares : Shares serve_share := {|
  share_op a b := mkServeShare (ss_owner a ⋅ ss_owner b) (ss_slots a + ss_slots b) (ss_tasks a + ss_tasks b);
  share_unit := mkServeShare ExNone 0 0
|}.

Lemma serve_share_eq a b :
  ss_owner a = ss_owner b → ss_slots a = ss_slots b → ss_tasks a = ss_tasks b → a = b.
Proof. destruct a, b; cbn. congruence. Qed.

#[export] Instance serve_laws : SharesLaws serve_share.
Proof.
  split; [intros a b c|intros a b|intros a]; apply serve_share_eq.
  - apply (share_assoc (M:=excl (bool * bool))).
  - cbn. lia.
  - cbn. lia.
  - apply (share_comm (M:=excl (bool * bool))).
  - cbn. lia.
  - cbn. lia.
  - done.
  - cbn. lia.
  - cbn. lia.
Qed.

Section ServerSafety.
Context `{Sm : Semaphore} `{SmL : !SemaphoreLaws}.
Context (config : Config).
Implicit Types (σ s : ServerState) (m : serve_share).

Record serve_inv σ m : Prop := {
  si_owner : owned (ss_owner m) (listening σ, stop σ);
  si_slots : sem_available (slots σ) + queued σ + ss_slots m = cfg_max_connections config;
  si_tasks : unfinished σ = queued σ + ss_tasks m
}.

(** After the shutdown signal no connection is added and none comes back. *)
Definition serve_guar σ σ' : Prop :=
  (requested σ = true → requested σ' = true) ∧
  (stop σ = true →
  stop σ' = true ∧ (listening σ = false → listening σ' = false) ∧ queued σ' ≤ queued σ ∧ unfinished σ' ≤ unfinished σ
  ∧ unfinished σ' + joinable σ' ≤ unfinished σ + joinable σ).

#[export] Instance serve_guar_preorder : PreOrder serve_guar.
Proof.
  split; [by intros σ; split|]. intros σ1 σ2 σ3 [Hq1 H1] [Hq2 H2]. split; [auto|]. intros Hs. destruct (H1 Hs) as (Hs2 & ? & ? & ? & ?).
  destruct (H2 Hs2) as (? & ? & ? & ? & ?). split; [done|]. split; [auto|]. repeat split; lia.
Qed.

Definition task_share : serve_share := mkServeShare ExNone 1 1.

(** A connection task uses the network only with its slot and place in the set. *)
Definition serve_pre (X : Type) (e : serveE X) (h : list conn_guard) m s : Prop :=
  match e with
  | ConnectUpstream t upstream =>
      h = [SlotPermit; TaskInSet] ∧ m = task_share ∧ t = cfg_connect_timeout config ∧ upstream = cfg_upstream config
  | ProxyStreams _ => h = [SlotPermit; TaskInSet] ∧ m = task_share
  | _ => h = []
  end.

Abbreviation VWP := (wp drop_conn_guard serve_env serve_inv serve_pre serve_guar).
Abbreviation VUP := (update serve_inv serve_guar).

(** One step, in terms of the counters it moves. *)
Lemma serve_update s m m' rel (Q : ServerState → serve_share → Prop) :
  (∀ σ σ', serve_guar s σ → rel σ σ' → owned (ss_owner m) (listening σ, stop σ) →
     unfinished σ = queued σ + (unfinished σ - queued σ) → ss_tasks m ≤ unfinished σ - queued σ →
     serve_guar σ σ' ∧ moves (ss_owner m) (ss_owner m') (listening σ, stop σ) (listening σ', stop σ')
     ∧ sem_available (slots σ') + queued σ' + ss_slots m' = sem_available (slots σ) + queued σ + ss_slots m
     ∧ unfinished σ' + queued σ + ss_tasks m = unfinished σ + queued σ' + ss_tasks m'
     ∧ (serve_guar s σ' → Q σ' m')) →
  VUP s m rel Q.
Proof.
  intros Hstep σ fr σ' Hs [Ho Hsl Ht] Hr. cbn [share_op serve_Shares ss_slots ss_tasks] in Hsl, Ht.
  destruct (Hstep σ σ' Hs Hr (owned_l _ (ss_owner fr) _ Ho)) as (Hg & Hm & Hs' & Ht' & HQ); [lia|lia|].
  split; [done|]. exists m'. split; [|apply HQ; by etrans].
  split; [exact (owned_moves _ _ (ss_owner fr) _ _ Hm Ho)|cbn; lia|cbn; lia].
Qed.

(** The counters of live connections do not change. *)
Lemma serve_quiet s m rel (Q : ServerState → serve_share → Prop) :
  (∀ σ σ', rel σ σ' → listening σ' = listening σ ∧ stop σ' = stop σ ∧ slots σ' = slots σ ∧ queued σ' = queued σ
                      ∧ unfinished σ' = unfinished σ ∧ joinable σ' ≤ joinable σ
                      ∧ (requested σ = true → requested σ' = true)) →
  (∀ σ σ', serve_guar s σ' → rel σ σ' → Q σ' m) → VUP s m rel Q.
Proof.
  intros Hrel HQ. apply (serve_update _ m m). intros σ σ' Hs Hr Ho _ _.
  destruct (Hrel _ _ Hr) as (E1 & E2 & E3 & E4 & E5 & E6 & E7). rewrite E1, E2, E3, E4, E5.
  split; [split; [done|]; intros ?; rewrite E1, E2, E4, E5; repeat split; lia || done|]. split; [by left|]. split; [lia|]. split; [lia|]. eauto.
Qed.

(** Discharges the first premise of [serve_quiet]. *)
Ltac same_counters :=
  intros ?? Hr; cbn in Hr; first [injection Hr as _ <-|destruct_and? Hr; subst]; cbn; repeat split; lia || done.

Lemma serve_droppable m : ss_slots m = 0 → ss_tasks m = 0 → droppable serve_inv m.
Proof.
  intros E1 E2 σ fr [Ho Hs Ht]. cbn [share_op serve_Shares ss_slots ss_tasks] in *.
  split; [exact (owned_r (ss_owner m) _ _ Ho)|lia|lia].
Qed.

(** ** Connection tasks *)

Lemma release_slot_wpd (Q : serve_share → ServerState → Prop) n k s :
  (∀ s', Q (mkServeShare ExNone n k) s') →
  wpd serve_inv serve_guar (drop_conn_guard SlotPermit) Q (mkServeShare ExNone (1 + n) k) s.
Proof.
  intros HQ x. apply (serve_update _ _ (mkServeShare ExNone n k)).
  intros σ σ' _ [= _ <-] _ _ _. cbn. rewrite sem_available_add.
  split; [split; [done|]; intros ?; by repeat split|]. split; [by left|]. split; [lia|]. split; [lia|]. auto.
Qed.

Lemma end_task_wpd (Q : serve_share → ServerState → Prop) n k s :
  (∀ s', Q (mkServeShare ExNone n k) s') →
  wpd serve_inv serve_guar (drop_conn_guard TaskInSet) Q (mkServeShare ExNone n (1 + k)) s.
Proof.
  intros HQ x. apply (serve_update _ _ (mkServeShare ExNone n k)).
  intros σ σ' _ [= _ <-] _ Hu Hk. cbn in *.
  split; [split; [done|]; intros ?; repeat split; cbn; lia || done|]. split; [by left|]. split; [lia|]. split; [lia|]. auto.
Qed.

Lemma cancel_task_share s : cancel_ok drop_conn_guard serve_inv serve_guar [SlotPermit; TaskInSet] task_share s.
Proof.
  unfold cancel_ok. cbn [drop_all]. apply wpd_dseq, (release_slot_wpd _ 0 1). intros s'.
  apply wpd_dseq, (end_task_wpd _ 0 0). intros s''. by apply serve_droppable.
Qed.

Lemma connection_body_wp s :
  VWP (connection_body config) (λ _ h m _, h = [SlotPermit; TaskInSet] ∧ m = task_share)
    [SlotPermit; TaskInSet] task_share s.
Proof.
  unfold connection_body, await. cbn [bind wp]. split; [done|].
  split; [apply serve_quiet; [same_counters|intros; apply cancel_task_share]|].
  intros [[]|[|[[]|[]]]]; (apply serve_quiet; [same_counters|]); intros _ s1 _ _; try done.
  split; [done|]. split; [apply serve_quiet; [same_counters|intros; apply cancel_task_share]|].
  intros []. apply serve_quiet; [same_counters|]. done.
Qed.

Definition serve_outcome_ok (o : serve_outcome) s : Prop :=
  match o with
  | Served (Ok _) => stop s = true ∧ listening s = false ∧ unfinished s = 0 ∧ requested s = true
  | _ => True
  end.

Lemma guarded_body_wp s :
  VWP (scope TaskInSet (scope SlotPermit (connection_body config)))
    (λ _ h m _, h = [] ∧ m = mkServeShare ExNone 0 0) [] task_share s.
Proof.
  assert (VWP (scope SlotPermit (connection_body config))
            (λ _ h m _, h = [TaskInSet] ∧ m = mkServeShare ExNone 0 1) [TaskInSet] task_share s) as Hinner.
  { apply wp_guarded. eapply wp_mono; [|apply connection_body_wp]. intros [] h m s1 [-> ->].
    split; [done|]. by apply (release_slot_wpd _ 0 1). }
  apply wp_guarded. eapply wp_mono; [|exact Hinner]. intros [] h m s1 [-> ->]. split; [done|].
  by apply (end_task_wpd _ 0 0).
Qed.

Lemma start_task_update s started (Q : ServerState → serve_share → Prop) :
  (∀ σ', Q σ' (if (started : bool) then task_share else share_unit)) →
  VUP s share_unit (λ σ σ', start_task σ = (started, σ')) Q.
Proof.
  intros HQ. apply (serve_update _ _ (if started then task_share else share_unit)).
  intros σ σ' _. unfold start_task. destruct (N.ltb_spec 0 (queued σ)) as [Hq|Hq]; intros [= <- <-] _ Hu Ht; cbn.
  - split; [split; [done|]; intros ?; repeat split; cbn; lia || done|]. split; [by left|]. split; [lia|]. split; [lia|]. auto.
  - split; [by split|]. split; [by left|]. split; [lia|]. split; [lia|]. auto.
Qed.

Lemma connection_task_wp s :
  VWP (connection_task config) (finished serve_inv serve_outcome_ok) [] share_unit s.
Proof.
  unfold connection_task, atomic. cbn [bind]. intros started. apply start_task_update. intros s1. destruct started.
  - apply wp_bind. eapply wp_mono; [|apply guarded_body_wp]. intros [] h m s2 [-> ->].
    split; [done|]. split; [done|]. by apply serve_droppable.
  - split; [done|]. split; [done|]. by apply serve_droppable.
Qed.

Lemma abandon_queued_wp s :
  VWP (do _ := atomic abandon_queued in Ret ConnectionEnded) (finished serve_inv serve_outcome_ok) [] share_unit s.
Proof.
  intros x. apply (serve_update _ _ share_unit). intros σ σ' _. unfold abandon_queued.
  assert (finished serve_inv serve_outcome_ok ConnectionEnded ([] : list conn_guard) (share_unit : serve_share) σ') as Hf.
  { split; [done|]. split; [done|]. by apply serve_droppable. }
  destruct (N.ltb_spec 0 (queued σ)) as [Hq|Hq]; intros [= _ <-] _ Hu Ht; cbn in *; rewrite ?sem_available_add.
  - split; [split; [done|]; intros ?; repeat split; cbn; lia || done|]. split; [by left|]. split; [lia|]. split; [lia|]. auto.
  - split; [by split|]. split; [by left|]. split; [lia|]. split; [lia|]. auto.
Qed.

Lemma request_shutdown_wp s :
  VWP (do _ := atomic request_shutdown in Ret ShutdownSignalled) (finished serve_inv serve_outcome_ok) [] share_unit s.
Proof.
  intros x. apply serve_quiet; [same_counters|]. intros.
  split; [done|]. split; [done|]. by apply serve_droppable.
Qed.

(** ** The server *)

(** The server knows whether it listens and whether it has signalled. *)
Definition server_share (l b : bool) : serve_share := mkServeShare (ExOwn (l, b)) 0 0.

Lemma cancel_server l b s : cancel_ok drop_conn_guard serve_inv serve_guar [] (server_share l b) s.
Proof. by apply serve_droppable. Qed.

Lemma server_quiet l b s rel (Q : ServerState → serve_share → Prop) :
  (∀ σ σ', rel σ σ' → listening σ' = listening σ ∧ stop σ' = stop σ ∧ slots σ' = slots σ ∧ queued σ' = queued σ
                      ∧ unfinished σ' = unfinished σ ∧ joinable σ' ≤ joinable σ
                      ∧ (requested σ = true → requested σ' = true)) →
  (∀ σ σ', serve_guar s σ' → rel σ σ' → Q σ' (server_share l b)) → VUP s (server_share l b) rel Q.
Proof. apply serve_quiet. Qed.

(** Setting the listener or the channel. *)
Lemma server_set_update l b l' b' s rel (Q : ServerState → serve_share → Prop) :
  b = false ∨ l' = false ∧ b' = true →
  (∀ σ σ', rel σ σ' → listening σ = l → stop σ = b → listening σ' = l' ∧ stop σ' = (b' : bool) ∧ slots σ' = slots σ ∧ queued σ' = queued σ
                      ∧ unfinished σ' = unfinished σ ∧ joinable σ' = joinable σ ∧ requested σ' = requested σ) →
  (∀ σ', serve_guar s σ' → listening σ' = l' → stop σ' = b' → Q σ' (server_share l' b')) →
  VUP s (server_share l b) rel Q.
Proof.
  intros Hb Hrel HQ. apply (serve_update _ _ (server_share l' b')). intros σ σ' _ Hr Ho _ _.
  cbn in Ho. injection Ho as El Es. destruct (Hrel _ _ Hr (eq_sym El) (eq_sym Es)) as (E1 & E2 & E3 & E4 & E5 & Ej & E6).
  split; [split; [by rewrite E6|]; intros Hs; rewrite E1, E2, E4, E5, Ej; destruct Hb as [->|[-> ->]]; [congruence|done]|].
  rewrite E1, E2, E3, E4, E5.
  split; [right; by eexists|]. split; [cbn; lia|]. split; [cbn; lia|]. auto.
Qed.

Lemma try_acquire_slot_update l b s acquired (Q : ServerState → serve_share → Prop) :
  (∀ σ', Q σ' (mkServeShare (ExOwn (l, b)) (if (acquired : bool) then 1 else 0) 0)) →
  VUP s (server_share l b) (λ σ σ', try_acquire_slot σ = (acquired, σ')) Q.
Proof.
  intros HQ. apply (serve_update _ _ (mkServeShare (ExOwn (l, b)) (if acquired then 1 else 0) 0)).
  intros σ σ' _. unfold try_acquire_slot. pose proof (sem_acquire_spec 1 (slots σ)) as Hsem.
  destruct (1 <=? sem_available (slots σ));
    [destruct Hsem as (s' & -> & E)|rewrite Hsem]; intros [= <- <-] Ho _ _; cbn in *.
  - split; [by split|]. split; [by left|]. split; [lia|]. split; [lia|]. auto.
  - split; [by split|]. split; [by left|]. split; [lia|]. split; [lia|]. auto.
Qed.

Lemma spawn_connection_update l s x (Q : ServerState → serve_share → Prop) :
  (∀ σ', Q σ' (server_share l false)) →
  VUP s (mkServeShare (ExOwn (l, false)) 1 0) (λ σ σ', spawn_connection σ = (x, σ')) Q.
Proof.
  intros HQ. apply (serve_update _ _ (server_share l false)). intros σ σ' _ [= _ <-] Ho _ _. cbn in *.
  injection Ho as El Es. split; [split; [done|]; intros ?; cbn in *; congruence|]. split; [by left|]. split; [lia|]. split; [lia|]. auto.
Qed.

Lemma shutdown_set_wp {R} l b (k : unit → serve_prog R) Q s :
  (∀ s', serve_guar s s' → unfinished s' = 0 → VWP (k tt) Q [] (server_share l b) s') →
  VWP (Await ShutdownSet k) Q [] (server_share l b) s.
Proof.
  intros Hk. split; [done|]. split; [apply server_quiet; [same_counters|intros; apply cancel_server]|].
  intros []. apply server_quiet; [same_counters|]. intros σ σ' Hs [Hu ->]. by apply Hk.
Qed.

Lemma accept_loop_wp l s :
  VWP accept_loop (λ broken h m s', h = [] ∧ m = server_share l false ∧ (broken = None → requested s' = true)) [] (server_share l false) s.
Proof.
  unfold accept_loop, loop, await, atomic. cbn [wp]. exists (λ _ h m _, h = [] ∧ m = server_share l false).
  split; [done|]. intros [] h m s1 [-> ->]. cbn [bind]. split; [done|].
  split; [apply server_quiet; [same_counters|intros; apply cancel_server]|].
  intros [|[[]|[]]|[[]|e]].
  - apply server_quiet; [same_counters|]. by intros σ s2 _ [Hr ->].
  - apply server_quiet; [same_counters|]. by intros.
  - apply server_quiet; [same_counters|]. intros _ s2 _ _. by apply shutdown_set_wp.
  - apply server_quiet; [same_counters|]. intros _ s2 _ _. intros acquired.
    apply try_acquire_slot_update. intros s3. destruct acquired; [|done]. intros [].
    by apply spawn_connection_update.
  - apply server_quiet; [same_counters|]. by intros.
Qed.

Lemma drain_connections_wp l b w s :
  VWP (drain_connections w)
    (λ drained h m s', h = [] ∧ m = server_share l b ∧ serve_guar s s' ∧ (drained = true → unfinished s' = 0))
    [] (server_share l b) s.
Proof.
  unfold drain_connections, loop, await. cbn [wp].
  exists (λ _ h m s', h = [] ∧ m = server_share l b ∧ serve_guar s s').
  split; [done|]. intros [] h m s1 (-> & -> & Hs). cbn [bind]. split; [done|].
  split; [apply server_quiet; [same_counters|intros; apply cancel_server]|].
  intros [|[[[]|[]]|]].
  - apply server_quiet; [same_counters|]. intros _ s2 Hs2 _. split; [done|]. split; [done|]. split; [by etrans|done].
  - apply server_quiet; [same_counters|]. intros _ s2 Hs2 _. split; [done|]. split; [done|]. by etrans.
  - apply server_quiet; [same_counters|]. intros _ s2 Hs2 _. split; [done|]. split; [done|]. split; [by etrans|done].
  - apply server_quiet; [same_counters|]. intros σ s2 Hs2 (Hu & _ & ->).
    split; [done|]. split; [done|]. split; [by etrans|done].
Qed.

Lemma serve_until_wp s :
  VWP (do r := serve_until config in Ret (Served r)) (finished serve_inv serve_outcome_ok) []
    (server_share false false) s.
Proof.
  assert (∀ l b r s', serve_outcome_ok (Served r) s' →
            finished serve_inv serve_outcome_ok (Served r) ([] : list conn_guard) (server_share l b) s') as Hend.
  { intros l b r s' Hr. split; [done|]. split; [done|]. by apply serve_droppable. }
  unfold serve_until, shutdown_phase, await, atomic. cbn [bind]. split; [done|].
  split; [apply server_quiet; [same_counters|intros; apply cancel_server]|].
  intros [[]|e]; [|apply server_quiet; [same_counters|]; intros; by apply (Hend false false)].
  apply (server_set_update false false true false); [by left|by intros σ σ' -> _ Es|]. intros s1 _ _ _.
  apply wp_bind. apply wp_bind. eapply wp_mono; [|apply accept_loop_wp]. intros [error|] h m s2 (-> & -> & Hr).
  - intros []. apply (server_set_update true false true true); [by left|by intros σ σ' [= <-] El _|].
    intros s3 _ _ _ []. apply (server_set_update true true false true); [by right|by intros σ σ' [= <-] _ Es|].
    intros s4 _ _ _. by apply Hend.
  - intros []. apply (server_set_update true false false false); [by left|by intros σ σ' [= <-] _ Es|].
    intros s3 [Hr3 _] _ _ []. apply (server_set_update false false false true); [by left|by intros σ σ' [= <-] El _|].
    intros s4 [Hr4 _] El4 Es4. apply wp_bind. eapply wp_mono; [|apply drain_connections_wp].
    intros drained h m s5 (-> & -> & [Hr5 Hs5] & Hd). destruct (Hs5 Es4) as (Es5 & El5 & _ & _).
    destruct drained; cbn [negb].
    + apply Hend. cbn. split; [done|]. split; [auto|]. split; auto 10.
    + apply shutdown_set_wp. intros s6 [Hr6 Hs6] Hu. destruct (Hs6 Es5) as (Es6 & El6 & _ & _).
      apply Hend. cbn. split; [done|]. split; [auto|]. split; auto 10.
Qed.

Abbreviation serve_ok := (system_ok drop_conn_guard serve_env serve_inv serve_pre serve_guar serve_outcome_ok).

Lemma serve_steps_ok c c' : serve_ok c → serve_steps config c c' → serve_guar (shared c) (shared c') ∧ serve_ok c'.
Proof.
  apply system_ok_steps; [apply _..|]. intros p s []; [apply request_shutdown_wp|apply connection_task_wp|apply abandon_queued_wp].
Qed.

Lemma serve_reachable_ok c : serve_steps config (serve_system config) c → serve_ok c.
Proof.
  intros Hs. eapply serve_steps_ok in Hs as [_ ?]; [done|]. exists [server_share false false]. split.
  - constructor; [|constructor]. exists (server_start config). split; [reflexivity|apply serve_until_wp].
  - split; cbn; [done| |done]. rewrite sem_available_new. lia.
Qed.

(** ** Theorems *)

(** Connection tasks that wait on the network. *)
Definition connected (t : task (S:=ServerState) (G:=conn_guard) (E:=serveE) serve_outcome) : N :=
  match t with Running (Await _ _) (SlotPermit :: _) => 1 | _ => 0 end.

Definition connections (c : system serve_outcome) : N := foldr N.add 0 (connected <$> pool c).

Lemma connections_le c :
  serve_ok c → ∃ m, serve_inv (shared c) m ∧ connections c ≤ ss_slots m.
Proof.
  intros (ms & Hts & Hi). exists (total_share ms). split; [done|]. clear Hi. unfold connections.
  induction Hts as [|t m ts ms (s & _ & Hok) _ IH]; [cbn; lia|].
  assert (connected t ≤ ss_slots m) as Hm.
  { destruct t as [[| |X e k| | |] [|[] h]| |]; cbn; try lia. destruct Hok as (Hp & _).
    destruct e; cbn in Hp; try done; [destruct Hp as (_ & -> & _)|destruct Hp as [_ ->]]; cbn; lia. }
  unfold total_share in *. cbn in *. lia.
Qed.

(** C14: The connection limit. In every reachable state of the server, the accepted
    connections that wait to start and those that are connecting or proxying are
    together at most the configured maximum, and each of the latter holds its
    slot: a client beyond the limit is dropped, never queued. The only address
    a connection task connects to is the configured upstream, under the
    configured timeout. *)
Theorem connections_bounded (c : system serve_outcome) :
  serve_steps config (serve_system config) c →
  queued (shared c) + connections c ≤ cfg_max_connections config
  ∧ (∀ i X (e : serveE X) k h, pool c !! i = Some (Running (Await e k) h) →
       match e with
       | ConnectUpstream t upstream =>
           h = [SlotPermit; TaskInSet] ∧ t = cfg_connect_timeout config ∧ upstream = cfg_upstream config
       | ProxyStreams _ => h = [SlotPermit; TaskInSet]
       | _ => True
       end).
Proof.
  intros Hc%serve_reachable_ok. split.
  - destruct (connections_le _ Hc) as (m & [_ Hs _] & ?). lia.
  - intros i X e k h Hi. destruct (system_ok_waiting _ _ _ _ _ _ _ _ _ _ _ _ Hc Hi) as (m & s & Hp & _).
    destruct e; cbn in Hp; try done; [by destruct Hp as (? & _ & ? & ?)|by destruct Hp].
Qed.

(** C21: Shutdown is complete. When [serve_until] has returned a report, the
    listener is closed, shutdown had been requested and signalled to the
    connections, and no connection task is left, in that state and in every later one, whether the connections
    drained in time or were cancelled. *)
Theorem serve_until_complete (c c' : system serve_outcome) (i : nat) (report : ShutdownReport) (h : list conn_guard) :
  serve_steps config (serve_system config) c → pool c !! i = Some (Running (Ret (Served (Ok report))) h) →
  serve_steps config c c' →
  requested (shared c') = true ∧ listening (shared c') = false ∧ stop (shared c') = true ∧ unfinished (shared c') = 0 ∧ queued (shared c') = 0.
Proof.
  intros Hc%serve_reachable_ok Hi Hs.
  destruct (system_ok_returned _ _ _ _ _ _ _ _ _ _ Hc Hi) as (s & (Es & El & Eu & Er) & [Hr Hg]).
  destruct (serve_steps_ok _ _ Hc Hs) as [[Hr' Hg'] Hc'].
  destruct (Hg Es) as (Es1 & El1 & _ & Eu1 & _). destruct (Hg' Es1) as (Es2 & El2 & _ & Eu2 & _).
  destruct (connections_le _ Hc') as (m & [_ _ Ht] & _).
  split; [auto|]. split; [auto|]. split; [done|]. split; lia.
Qed.
End ServerSafety.

(** ** An executed server *)

(** One client at a time is accepted; shutdown arrives while it is served. *)
Definition serve_runtime (X : Type) (e : serveE X) : ServerState → option (X * ServerState) :=
  match e in serveE X return ServerState → option (X * ServerState) with
  | Bind _ => λ σ, Some (Ok tt, set_listening true σ)
  | ServeSelect => λ σ,
      if bool_decide (0 < joinable σ) then Some (Joined (Ok tt), take_joinable σ)
      else if bool_decide (unfinished σ = 0 ∧ listening σ = true) then Some (Accepted (Ok tt), σ)
      else if requested σ then Some (ShutdownRequested, σ) else None
  | DrainNext _ => λ σ,
      if bool_decide (0 < joinable σ) then Some (InTime (Some (Ok tt)), take_joinable σ)
      else if bool_decide (unfinished σ = 0 ∧ joinable σ = 0) then Some (InTime None, σ) else Some (Elapsed, σ)
  | ShutdownSet => λ σ,
      if bool_decide (unfinished σ = 0)
      then Some (tt, mkServerState (listening σ) (slots σ) (queued σ) (unfinished σ) 0 (stop σ) (requested σ)) else None
  | ConnectUpstream _ _ => λ σ, if stop σ then Some (inl tt, σ) else Some (inr (InTime (Ok tt)), σ)
  | ProxyStreams _ => λ σ, Some (tt, σ)
  end.

Lemma serve_runtime_env X (e : serveE X) σ x σ' :
  serve_runtime X e σ = Some (x, σ') → serve_env X e σ (Some x) σ'.
Proof.
  destruct e as [| | | |w u|]; cbn [serve_runtime].
  2:{ repeat case_bool_decide; try (intros [= <- <-]; cbn; tauto).
      destruct (requested σ) eqn:Er; [|done]. by intros [= <- <-]. }
  4:{ destruct (stop σ) eqn:Es; intros [= <- <-]; by split. }
  all: repeat case_bool_decide; intros [= <- <-]; cbn; tauto.
Qed.

Inductive serve_move : Type := Serve | StartTask | Task | Request | Requested.

Definition serve_action (m : serve_move) : action :=
  match m with
  | Serve => Run 0
  | StartTask => Spawn (connection_task (config_of sample_cli))
  | Task => Run 1
  | Request => Spawn (do _ := atomic request_shutdown in Ret ShutdownSignalled)
  | Requested => Run 2
  end.

Definition serve_run_from (c : system serve_outcome) (schedule : list serve_move) : option (system serve_outcome) :=
  exec drop_conn_guard serve_runtime (λ _ _ σ, Some σ) c (serve_action <$> schedule).
Definition serve_run (schedule : list serve_move) : option (system serve_outcome) :=
  serve_run_from (serve_system (config_of sample_cli)) schedule.

Lemma serve_run_from_steps c schedule c' :
  serve_run_from c schedule = Some c' → serve_steps (config_of sample_cli) c c'.
Proof.
  apply exec_sound; [apply serve_runtime_env|by intros X [] σ ? [= <-]|].
  apply Forall_fmap, Forall_true. intros []; cbn; try done; constructor.
Qed.

Lemma serve_observed {A} (f : system (S:=ServerState) (G:=conn_guard) (E:=serveE) serve_outcome → A) (d : A) schedule x :
  from_option f d (serve_run schedule) = x → x ≠ d → ∃ c, serve_run schedule = Some c ∧ f c = x.
Proof. destruct (serve_run schedule) as [c|]; cbn; intros <-; [eauto|done]. Qed.

(** A client is being served; later the server has returned its report, the
    connection having given up on shutdown. *)
Definition one_client : list serve_move := replicate 6 Serve ++ StartTask :: replicate 3 Task.
Definition one_client_stopping : list serve_move := one_client ++ [Request; Requested] ++ replicate 3 Serve.
Definition one_client_stopped : list serve_move :=
  one_client ++ [Request; Requested] ++ replicate 5 Serve ++ replicate 7 Task ++ [Serve].

Lemma connections_bounded_witness :
  ∃ c, serve_run one_client = Some c ∧ connections c = 1 ∧ queued (shared c) + connections c ≤ 128.
Proof.
  destruct (serve_observed connections 0 one_client 1) as (c & E & Hc); [vm_compute; reflexivity|done|].
  exists c. split; [exact E|]. split; [exact Hc|].
  exact (proj1 (connections_bounded (config_of sample_cli) c (serve_run_from_steps _ _ _ E))).
Defined.

Definition served (c : system (S:=ServerState) (G:=conn_guard) (E:=serveE) serve_outcome) : option ShutdownReport :=
  match pool c !! 0%nat with Some (Running (Ret (Served (Ok r))) _) => Some r | _ => None end.

Lemma serve_until_complete_witness :
  ∃ c, serve_run one_client_stopped = Some c ∧ unfinished (shared c) = 0.
Proof.
  destruct (serve_observed served None one_client_stopped (Some (mkShutdownReport false))) as (c & E & Hr);
    [vm_compute; reflexivity|done|].
  exists c. split; [exact E|]. unfold served in Hr.
  destruct (pool c !! 0%nat) as [[[[[r|]| |]| | | | |] h| |]|] eqn:Ep; try discriminate Hr.
  destruct (serve_until_complete (config_of sample_cli) c c 0 r h (serve_run_from_steps _ _ _ E) Ep (rtc_refl _ _))
    as (_ & _ & _ & H & _).
  exact H.
Defined.
