(* ===== verification/RelayTime.v ===== *)
(** * How long a relayed broadcast takes

    Every broadcast through the stack ends after a bounded number of its own
    steps, is never stuck, and waits at most three relay timeouts: one each to
    connect, to write and to read. The shutdown deadline of the server is one
    relay timeout and a second. *)

From S2P Require Import Prelude RustStr RustNet Endpoint Config Serde Protocol JsonRef Async AsyncCost Tokio Relay RelaySafety RelayStack RelayScenarios Supervisor Server.

Open Scope N_scope.
Open Scope async_scope.

(** The timeout that an await of a relay call runs under. *)
Definition relay_deadline (X : Type) (e : relayE X) : option N :=
  match e with
  | SocksConnect deadline _ _ => Some deadline
  | SocksWriteAll deadline _ _ => Some deadline
  | SocksReadUntil deadline _ _ => Some deadline
  | ActiveChanged deadline => Some deadline
  end.

Section Time.
Context `{Sm : Semaphore} `{SmL : !SemaphoreLaws} `{Wt : Watch} `{Ser : Serialize} `{Des : Deserialize RelayResponse}.

Abbreviation anything := (λ _ _ : RelayState, True).

#[local] Instance anything_preorder : PreOrder anything.
Proof. by split. Qed.

(** The own steps of a task, and the time its awaits may take. *)
Abbreviation steps_taken relay :=
  (spends drop_guard relay_env unit_cost 1 always (λ p, ∃ op, p = run_op relay op)).
Abbreviation time_waited relay :=
  (spends drop_guard relay_env relay_deadline 0 always (λ p, ∃ op, p = run_op relay op)).

Ltac run_stack :=
  intros (adapter & -> & [-> |(proxy & endpoint & ->)])%build_relay_cases;
  cbv [run_op Arc_new broadcast DrainingRelay_broadcast LimitedRelay_broadcast RejectRelay_broadcast
       SocksElectrumRelay_broadcast SocksElectrumRelay_new timeout draining_inner limited_inner scope atomic await];
  run_within drop_guard.

Lemma broadcast_steps config relay σ raw s :
  build_relay config = Some (relay, σ) →
  within drop_guard relay_env unit_cost 1 always anything (run_op relay (CallBroadcast raw)) (λ _ _ _ _, True) [] 20 s.
Proof. run_stack. Qed.

Lemma broadcast_time config relay σ raw s :
  build_relay config = Some (relay, σ) →
  within drop_guard relay_env relay_deadline 0 always anything (run_op relay (CallBroadcast raw)) (λ _ _ _ _, True) []
    (3 * cfg_relay_timeout config) s.
Proof. run_stack. Qed.

Lemma relay_env_answers X (e : relayE X) σ : ∃ x σ', relay_env X e σ (Some x) σ'.
Proof.
  destruct e as [d proxy target|d target data|d limit target|d].
  - exists Elapsed, σ. by left.
  - exists Elapsed, (add_wire (Sent target []) σ), []. split; [apply prefix_nil|done].
  - by exists Elapsed, σ.
  - by exists Elapsed, σ.
Qed.

(** C10: Broadcasts terminate. Whatever else the process does, a broadcast takes
    at most twenty steps of its own, from the call until it has returned or, if
    cancelled, has dropped its guards; it can always go on until then; and its
    awaits together wait at most three relay timeouts. *)
Theorem broadcast_terminates (config : Config) (relay : SharedRelay) (σ : RelayState) (c c' : system relay_outcome)
    (i : nat) (raw : str) (t : task relay_outcome) (taken waited : N) :
  build_relay config = Some (relay, σ) → relay_steps relay (mkSystem σ []) c →
  pool c !! i = Some (Running (run_op relay (CallBroadcast raw)) []) →
  steps_taken relay i taken c c' → time_waited relay i waited c c' → pool c' !! i = Some t →
  taken ≤ 20 ∧ waited ≤ 3 * cfg_relay_timeout config ∧ (ended t ∨ can_step drop_guard relay_env (shared c') t).
Proof.
  intros Hb Hc Hi Ht Hw Ht'. split; [|split].
  - eapply (within_spends _ _ _ _ _ anything _ (λ _, True) i taken c c'); [done|done|exact Hi| |done|exact Ht].
    exact (broadcast_steps _ _ _ _ σ Hb).
  - eapply (within_spends _ _ _ _ _ anything _ (λ _, True) i waited c c'); [done|done|exact Hi| |done|exact Hw].
    exact (broadcast_time _ _ _ _ σ Hb).
  - assert (reachable config c') as Hok%reachable_ok.
    { exists relay, σ. split; [done|]. etrans; [exact Hc|by eapply spends_steps]. }
    eapply (system_ok_can_step (M:=share)); [exact Hok|exact Ht'|]. intros X e k h _. apply relay_env_answers.
Qed.
End Time.

(** ** Executed broadcasts *)

(** A broadcast has been called in the sample process, nothing else happens. *)
Definition calling : relay_system :=
  mkSystem sample_stack.2 [Running (run_op sample_stack.1 (CallBroadcast (lit "00ff"))) []].

Lemma calling_reached : relay_steps sample_stack.1 (mkSystem sample_stack.2 []) calling.
Proof. eapply rtc_once, (step_spawn _ _ _ _ []). eauto. Qed.

Definition alone (await_cost : ∀ X, relayE X → option N) (section_cost : N) : option (N * relay_system) :=
  run_alone drop_guard working_network await_cost section_cost always 0 20 calling.

Lemma alone_spends await_cost section_cost w c' :
  alone await_cost section_cost = Some (w, c') →
  spends drop_guard relay_env await_cost section_cost always (λ p, ∃ op, p = run_op sample_stack.1 op) 0 w calling c'.
Proof. apply run_alone_spends, working_network_env. Qed.

(** The same steps, whatever they cost. *)
Lemma broadcast_terminates_witness :
  ∃ w c', alone unit_cost 1 = Some (w, c') ∧ w = 20 ∧ w ≤ 20.
Proof.
  assert (snd <$> alone unit_cost 1 = snd <$> alone relay_deadline 0) as E by (vm_compute; reflexivity).
  assert (fst <$> alone unit_cost 1 = Some 20) as Ew by (vm_compute; reflexivity).
  destruct (alone unit_cost 1) as [[w c']|] eqn:E1; [|discriminate Ew].
  destruct (alone relay_deadline 0) as [[v c'']|] eqn:E2; [|discriminate E].
  cbn in E, Ew. injection E as ->. injection Ew as ->.
  assert (∃ t, pool c'' !! 0%nat = Some t) as [t Ht].
  { assert (from_option (λ x, length (pool x.2)) 0%nat (alone relay_deadline 0) = 1%nat) as El by (vm_compute; reflexivity).
    rewrite E2 in El. cbn in El. destruct (pool c'') as [|t ts]; [discriminate El|]. by exists t. }
  exists 20, c''. split; [reflexivity|]. split; [reflexivity|].
  exact (proj1 (broadcast_terminates sample sample_stack.1 sample_stack.2 calling c'' 0 (lit "00ff") t 20 v
                  sample_built calling_reached eq_refl (alone_spends _ _ _ _ E1) (alone_spends _ _ _ _ E2) Ht)).
Defined.

(** C31: A successful broadcast may wait three relay timeouts, one for each of its
    phases, while the server cancels the connections that are left one relay
    timeout and one second after shutdown: with the sample configuration an
    admitted call that keeps every deadline can outlast the drain. *)
Theorem broadcast_outlasts_drain :
  ∃ c' txid h,
    spends drop_guard relay_env relay_deadline 0 always (λ p, ∃ op, p = run_op sample_stack.1 op) 0
      (3 * cfg_relay_timeout sample) calling c'
    ∧ pool c' !! 0%nat = Some (Running (Ret (BroadcastReturned (lit "00ff") (Ok txid))) h)
    ∧ maximum_wait sample < 3 * cfg_relay_timeout sample.
Proof.
  assert (fst <$> alone relay_deadline 0 = Some (3 * cfg_relay_timeout sample)) as Ew by (vm_compute; reflexivity).
  assert (from_option (λ x, returned x.2 0) None (alone relay_deadline 0)
          = Some (BroadcastReturned (lit "00ff")
              (Ok (lit "00112233445566778899aabbccddeeff00112233445566778899aabbccddeeff")))) as Er
    by (vm_compute; reflexivity).
  destruct (alone relay_deadline 0) as [[w c']|] eqn:E; [|discriminate Ew].
  cbn [fmap option_fmap option_map fst from_option snd] in Ew, Er. injection Ew as ->.
  apply returned_pool in Er as [h Hh]. eexists c', _, h.
  split; [exact (alone_spends _ _ _ _ E)|]. split; [exact Hh|vm_compute; reflexivity].
Qed.
