(* ===== verification/Progress.v ===== *)
(** * Connections and the server come to an end

    How many steps of their own a connection's supervisor and the server's
    shutdown phase take, and what they can be waiting for. *)

From S2P Require Import Prelude RustStr RustNet Endpoint Config Async AsyncCost Tokio Frames Supervisor Server ServerSafety.

Open Scope N_scope.
Open Scope async_scope.

(** ** The supervisor of a connection *)

Abbreviation super_taken := (spends abort_on_drop super_env unit_cost 1 always super_op).

#[local] Instance any_preorder {S} : PreOrder (λ _ _ : S, True).
Proof. by split. Qed.

Lemma supervisor_steps s :
  within abort_on_drop super_env unit_cost 1 always (λ _ _, True) (do _ := proxy_streams_until in Ret Supervised)
    (λ _ _ _ _, True) [] 21 s.
Proof.
  cbv [proxy_streams_until wind_down finish_or_abort scope atomic await].
  run_within abort_on_drop.
Qed.

(** What the supervisor can be kept waiting for: the first task to finish, or a
    task that the runtime has been asked to cancel. *)
Inductive super_waits (σ : Children) : task (S:=Children) (G:=FinishedTask) (E:=superE) super_outcome → Prop :=
| waits_first k h : (∀ u, σ u ≠ Done) → super_waits σ (Running (Await SelectFinished k) h)
| waits_aborted u k h : σ u = Aborting → super_waits σ (Running (Await (Join u) k) h).

Lemma super_ok_progress c i t :
  super_ok c → pool c !! i = Some t →
  ended t ∨ can_step abort_on_drop super_env (shared c) t ∨ super_waits (shared c) t.
Proof.
  intros Hok Hi.
  destruct (can_step_running abort_on_drop super_env (shared c) t) as [?|[?|[(X & e & k & h & ->)|[k ->]]]];
    [by left|by right; left|..].
  - right. destruct e as [|u|w u].
    + destruct (decide (Exists (λ u, shared c u = Done) all_guards)) as [(u & _ & Hu)%Exists_exists|Hn];
        [left; exists u, (shared c); by split|].
      right. constructor. intros u Hu. apply Hn, Exists_exists. exists u. split; [destruct u; set_solver|done].
    + destruct (system_ok_waiting _ _ _ _ _ _ _ _ _ _ _ _ Hok Hi) as (m & s & Hp & Hg). cbn in Hp.
      specialize (Hg u). destruct (shared c u) eqn:Hu; cbn in Hg; [lia..|right; by constructor|].
      left. exists tt, (shared c). by split.
    + left. exists Elapsed, (shared c). by split.
  - destruct Hok as (ms & Hts & _). destruct (Forall2_lookup_l _ _ _ _ _ Hts Hi) as (m & _ & s & _ & Hok). done.
Qed.

(** C25: A connection's supervisor ends. It takes at most twenty-one steps of its
    own, whatever its tasks and the runtime do; until it has ended it can go on,
    unless none of its tasks has finished yet or the runtime has still to finish
    a task that was aborted: it never waits for a task that is left running. *)
Theorem supervisor_terminates (c : system super_outcome) (taken : N) t :
  super_taken 0 taken super_start c → pool c !! 0%nat = Some t →
  taken ≤ 21 ∧ (ended t ∨ can_step abort_on_drop super_env (shared c) t ∨ super_waits (shared c) t).
Proof.
  intros Ht Hc. split.
  - eapply (within_spends _ _ _ _ _ (λ _ _, True) _ (λ _, True) 0 taken super_start c);
      [done|done|reflexivity| |done|exact Ht]. exact (supervisor_steps (λ _, NotSpawned)).
  - eapply super_ok_progress; [|exact Hc]. apply super_reachable_ok. by eapply spends_steps.
Qed.

Lemma supervisor_terminates_witness :
  ∃ c taken, super_run until_return = Some c ∧ super_returned c = true
             ∧ super_taken 0 taken super_start c ∧ taken ≤ 21.
Proof.
  destruct (super_observed super_returned false until_return true) as (c & E & Hr); [vm_compute; reflexivity|done|].
  destruct (steps_spends abort_on_drop super_env unit_cost 1 always super_op 0 super_start c) as [taken Ht];
    [by eexists|exact (super_run_steps _ _ E)|].
  exists c, taken. split; [exact E|]. split; [exact Hr|]. split; [exact Ht|]. unfold super_returned in Hr.
  destruct (pool c !! 0%nat) as [t|] eqn:Ep; [|discriminate Hr].
  exact (proj1 (supervisor_terminates c taken t Ht Ep)).
Defined.

(** ** The shutdown phase of the server *)

Section Drain.
Context `{Sm : Semaphore} `{SmL : !SemaphoreLaws}.
Context (config : Config).

Abbreviation serve_taken := (spends drop_conn_guard serve_env unit_cost 1 always (serve_op config)).

(** The connection tasks that can still be joined. *)
Definition to_join (σ : ServerState) : N := unfinished σ + joinable σ.

Lemma to_join_guar σ σ' : stop σ = true → serve_guar σ σ' → stop σ' = true ∧ to_join σ' ≤ to_join σ.
Proof. intros Hs [_ Hg]. destruct (Hg Hs) as (? & _ & _ & _ & ?). done. Qed.

(** Each turn of the loop joins a task and costs two steps. *)
Lemma shutdown_phase_steps n s :
  stop s = true → 2 * to_join s + 4 ≤ n →
  within drop_conn_guard serve_env unit_cost 1 always serve_guar (do r := shutdown_phase config in Ret (Served r))
    (λ _ _ _ _, True) [] n s.
Proof.
  intros Hs Hn. unfold shutdown_phase, drain_connections, loop, await. cbn [bind within].
  exists (λ _ h n' s', h = [] ∧ stop s' = true ∧ 2 * to_join s' + 4 ≤ n'). split; [done|].
  intros [] h n' s' (-> & Hs' & Hn') σ0 [Hs0 Hle0]%(to_join_guar _ _ Hs'). cbn [charge always]. split; [lia|].
  cbn [bind within]. exists 1. split; [done|]. intros σ [Hσ Hle]%(to_join_guar _ _ Hs0). cbn [charge always].
  split; [lia|]. split; [done|]. intros x σ' He.
  assert (∀ r n' s', 1 ≤ n' → within drop_conn_guard serve_env unit_cost 1 always serve_guar
            (Await ShutdownSet (λ _, Ret (Served r))) (λ _ _ _ _, True) [] n' s') as Hset.
  { intros r m s2 Hm. exists 1. split; [done|]. intros σ2 _. cbn [charge always]. split; [lia|by split]. }
  destruct x as [|[[[]|[]]|]]; cbn in He; cbn [negb bind].
  - apply Hset. lia.
  - destruct He as [Hj ->]. split; [done|]. split; [done|]. unfold to_join in *. cbn. lia.
  - apply Hset. lia.
  - done.
Qed.

(** What the server can be kept waiting for once its drain deadline has passed:
    connection tasks that it has cancelled. *)
Inductive serve_waits (σ : ServerState) : task (S:=ServerState) (G:=conn_guard) (E:=serveE) serve_outcome → Prop :=
| waits_cancelled k h : 0 < unfinished σ → serve_waits σ (Running (Await ShutdownSet k) h).

Abbreviation serve_ok :=
  (system_ok drop_conn_guard serve_env (serve_inv config) (serve_pre config) serve_guar serve_outcome_ok).

Lemma serve_ok_progress c i t :
  serve_ok c → pool c !! i = Some t →
  ended t ∨ can_step drop_conn_guard serve_env (shared c) t ∨ serve_waits (shared c) t.
Proof.
  intros Hok Hi.
  destruct (can_step_running drop_conn_guard serve_env (shared c) t) as [?|[?|[(X & e & k & h & ->)|[k ->]]]];
    [by left|by right; left|right|].
  - destruct e as [a| |w| |w u|l]; [left; by exists (Err []), (shared c)|left; by exists (Accepted (Err [])), (shared c)
      |left; by exists Elapsed, (shared c)| |left; by exists (inr Elapsed), (shared c)|left; by exists tt, (shared c)].
    destruct (decide (unfinished (shared c) = 0)); [left; eexists tt, _; by split|right; constructor; lia].
  - destruct Hok as (ms & Hts & _). destruct (Forall2_lookup_l _ _ _ _ _ Hts Hi) as (m & _ & s & _ & Hok). done.
Qed.

(** C22: Shutdown completes. From the start of the shutdown phase no connection is
    added, the server takes at most two steps for each connection task that is
    left and four more, and until it has ended it can go on, unless it has
    cancelled the tasks that are left and the runtime has not finished them. *)
Theorem server_drains (c c' : system serve_outcome) (taken : N) t :
  serve_steps config (serve_system config) c → stop (shared c) = true →
  pool c !! 0%nat = Some (Running (do r := shutdown_phase config in Ret (Served r)) []) →
  serve_taken 0 taken c c' → pool c' !! 0%nat = Some t →
  taken ≤ 2 * to_join (shared c) + 4
  ∧ queued (shared c') ≤ queued (shared c) ∧ unfinished (shared c') ≤ unfinished (shared c)
  ∧ (ended t ∨ can_step drop_conn_guard serve_env (shared c') t ∨ serve_waits (shared c') t).
Proof.
  intros Hc%serve_reachable_ok Hs Hi Ht Hi'.
  destruct (serve_steps_ok config c c' Hc (spends_steps _ _ _ _ _ _ _ _ _ _ Ht)) as [[_ Hg] Hc'].
  destruct (Hg Hs) as (_ & _ & Hq & Hu & _). split; [|split; [done|split; [done|by eapply serve_ok_progress]]].
  eapply (within_spends _ _ _ _ _ serve_guar _ serve_ok 0 taken c c'); [|exact Hc|exact Hi| |reflexivity|exact Ht].
  - intros c1 c2 Hc1 Hstep. by apply (serve_steps_ok config), rtc_once.
  - by apply shutdown_phase_steps.
Qed.
End Drain.

(** The sample server at the start of its shutdown phase, one connection open,
    and how it goes on. *)
Definition draining_run : list serve_move := Serve :: replicate 7 Task ++ replicate 3 Serve.

Lemma server_drains_witness :
  ∃ c c' taken, serve_run one_client_stopping = Some c ∧ serve_run_from c draining_run = Some c'
                ∧ served c' = Some (mkShutdownReport true) ∧ taken ≤ 2 * to_join (shared c) + 4.
Proof.
  destruct (serve_observed (λ c, (stop (shared c), pool c !! 0%nat)) (false, None) one_client_stopping
              (true, Some (Running (do r := shutdown_phase (config_of sample_cli) in Ret (Served r)) [])))
    as (c & E & [= Hs Hp]); [vm_compute; reflexivity|done|].
  assert (from_option (λ c, from_option served None (serve_run_from c draining_run)) None (serve_run one_client_stopping)
          = Some (mkShutdownReport true)) as Hr by (vm_compute; reflexivity).
  rewrite E in Hr. cbn [from_option] in Hr.
  destruct (serve_run_from c draining_run) as [c'|] eqn:E'; [|discriminate Hr]. cbn [from_option] in Hr.
  destruct (steps_spends drop_conn_guard serve_env unit_cost 1 always (serve_op (config_of sample_cli)) 0 c c') as [taken Ht];
    [by eexists|exact (serve_run_from_steps _ _ _ E')|].
  assert (∃ t, pool c' !! 0%nat = Some t) as [t Hi].
  { unfold served in Hr. destruct (pool c' !! 0%nat) as [t|]; [by exists t|discriminate Hr]. }
  exists c, c', taken. split; [exact E|]. split; [exact E'|]. split; [exact Hr|].
  exact (proj1 (server_drains (config_of sample_cli) c c' taken t (serve_run_from_steps _ _ _ E) Hs Hp Ht Hi)).
Defined.
