(* ===== verification/Main.v ===== *)
(** * The process (src/main.rs)

    [main] and [run]: validation of the command line, the configuration check
    that touches nothing, the relay stack, the signal task and the server's
    outcome, interleaved with the broadcasts of the server's connections. The
    relay's programs run on their part of the process state. *)

From S2P Require Import Prelude RustStr RustNet Endpoint Config Serde Protocol JsonRef Async AsyncLift Tokio Relay RelaySafety RelayStack RelayScenarios Supervisor Server.

Open Scope N_scope.
Open Scope async_scope.

(** ** Output *)

(** [Display] for [SocketAddr] *)
Definition socket_addr_to_string (a : SocketAddr) : str :=
  match sa_ip a with
  | V4 _ _ _ _ => ip_to_string (sa_ip a) ++ lit ":" ++ fmt_dec (sa_port a)
  | V6 _ =>
      lit "[" ++ ip_to_string (sa_ip a)
      ++ (if sa_scope_id a =? 0 then [] else lit "%" ++ fmt_dec (sa_scope_id a))
      ++ lit "]:" ++ fmt_dec (sa_port a)
  end.

(** A line printed by [println!] or [eprintln!]. *)
Inductive output : Type := Stdout (line : str) | Stderr (line : str).

Definition config_valid_line : str :=
  lit "configuration valid; no listener was bound and no network connection was opened".
Definition listening_line (listen : SocketAddr) : str :=
  lit "electrum-private-relay listening on " ++ socket_addr_to_string listen
  ++ lit "; sensitive request logging is disabled".
Definition drain_expired_line : str :=
  lit "shutdown connection drain expired; remaining connection work was cancelled without retry or fallback".

(** How [run] ends: the two errors it returns, its two successes, and the
    [expect] on the relay endpoint. *)
Inductive run_outcome : Type :=
| ConfigInvalid (e : ConfigError)
| ServerFailed (e : ProxyError)
| ConfigChecked
| ServerStopped (report : ShutdownReport)
| RunPanicked.

(** ** State, guards and awaits *)

Section Process.
Context `{Sm : Semaphore} `{Wt : Watch} `{Ser : Serialize} `{Des : Deserialize RelayResponse}.

(** The relay's state; whether the server has been entered; the life of the
    signal task; whether the one-shot channel is ready (a value was sent or the
    sender dropped); the lines printed. *)
Record Process : Type := mkProcess {
  relay_state : RelayState;
  serving : bool;
  signal_spawned : bool;
  signal_started : bool;
  signal_aborted : bool;
  signal_finished : bool;
  shutdown_sent : bool;
  printed : list output
}.

Definition set_relay (r : RelayState) (σ : Process) : Process :=
  mkProcess r (serving σ) (signal_spawned σ) (signal_started σ) (signal_aborted σ) (signal_finished σ)
    (shutdown_sent σ) (printed σ).

Inductive proc_guard : Type :=
| RelayGuard (g : guard)
| SignalTask
| ShutdownSender.

Inductive procE : Type → Type :=
| CtrlC : procE (result unit unit)
| ServeUntil (config : Config) : procE (result ShutdownReport ProxyError)
| JoinSignal : procE unit
| OnRelay {X : Type} (e : relayE X) : procE X.

Definition proc_prog : Type → Type := prog Process proc_guard procE.

(** A relay program on the process state. *)
Definition lift_relay {R} : relay_prog R → proc_prog R := lift_prog relay_state set_relay RelayGuard (@OnRelay).

(** [shutdown_sender.send(())], or the drop of the sender. *)
Definition ready_shutdown (σ : Process) : unit * Process :=
  (tt, mkProcess (relay_state σ) (serving σ) (signal_spawned σ) (signal_started σ) (signal_aborted σ)
         (signal_finished σ) true (printed σ)).
Definition finish_signal (σ : Process) : unit * Process :=
  (tt, mkProcess (relay_state σ) (serving σ) (signal_spawned σ) (signal_started σ) (signal_aborted σ) true
         (shutdown_sent σ) (printed σ)).

Definition drop_proc_guard (g : proc_guard) : dprog Process :=
  match g with
  | RelayGuard g => lift_drop relay_state set_relay (drop_guard g)
  | SignalTask => DStep finish_signal (λ _, DDone)
  | ShutdownSender => DStep ready_shutdown (λ _, DDone)
  end.

(** The signal task is dropped while it waits only after its abort; the server
    returns a report only after its shutdown future was ready. *)
Definition proc_env (X : Type) (e : procE X) : Process → option X → Process → Prop :=
  match e in procE X return Process → option X → Process → Prop with
  | CtrlC => λ σ o σ', σ' = σ ∧ match o with None => signal_aborted σ = true | Some _ => True end
  | ServeUntil _ => λ σ o σ', σ' = σ ∧ match o with Some (Ok _) => shutdown_sent σ = true | _ => True end
  | JoinSignal => λ σ o σ', σ' = σ ∧ match o with Some _ => signal_finished σ = true | None => True end
  | OnRelay e => λ σ o σ', ∃ r, relay_env _ e (relay_state σ) o r ∧ σ' = set_relay r σ
  end.

(** ** Programs *)

Definition print (line : output) : proc_prog unit :=
  atomic (λ σ, (tt, mkProcess (relay_state σ) (serving σ) (signal_spawned σ) (signal_started σ) (signal_aborted σ)
                      (signal_finished σ) (shutdown_sent σ) (printed σ ++ [line]))).

(** [tokio::spawn] of the signal task, its start, and [signal_task.abort()]. *)
Definition spawn_signal (σ : Process) : unit * Process :=
  (tt, mkProcess (relay_state σ) (serving σ) true (signal_started σ) (signal_aborted σ) (signal_finished σ)
         (shutdown_sent σ) (printed σ)).
Definition start_signal (σ : Process) : bool * Process :=
  if signal_spawned σ && negb (signal_started σ)
  then (true, mkProcess (relay_state σ) (serving σ) (signal_spawned σ) true (signal_aborted σ) (signal_finished σ)
                (shutdown_sent σ) (printed σ))
  else (false, σ).
Definition abort_signal (σ : Process) : unit * Process :=
  (tt, mkProcess (relay_state σ) (serving σ) (signal_spawned σ) (signal_started σ) true (signal_finished σ)
         (shutdown_sent σ) (printed σ)).

(** The call of [serve_until], from which on connections use the relay. *)
Definition enter_server (σ : Process) : unit * Process :=
  (tt, mkProcess (relay_state σ) true (signal_spawned σ) (signal_started σ) (signal_aborted σ) (signal_finished σ)
         (shutdown_sent σ) (printed σ)).

Definition signal_body : proc_prog unit :=
  do _ := await CtrlC in
  do _ := lift_relay begin_shutdown in
  atomic ready_shutdown.

Definition run (cli : Cli) : proc_prog run_outcome :=
  match Config_try_from cli with
  | Err e => Ret (ConfigInvalid e)
  | Ok config =>
      if cli_check_config cli
      then do _ := print (Stdout config_valid_line) in Ret ConfigChecked
      else match build_relay config with
           | None => Ret RunPanicked
           | Some _ =>
               do _ := atomic spawn_signal in
               do _ := print (Stdout (listening_line (cfg_listen config))) in
               do _ := atomic enter_server in
               do server_result := await (ServeUntil config) in
               match server_result with
               | Err e => do _ := atomic abort_signal in Ret (ServerFailed e)
               | Ok report =>
                   do _ := await JoinSignal in
                   do _ := if negb (all_connections_drained report)
                           then print (Stderr drain_expired_line) else Ret tt in
                   Ret (ServerStopped report)
               end
           end
  end.

(** The exit code ([true] is [ExitCode::SUCCESS]), with how [run] ended. *)
Definition main (cli : Cli) : proc_prog (run_outcome * bool) :=
  do outcome := run cli in
  match outcome with
  | ConfigInvalid e => do _ := print (Stderr (lit "fatal: " ++ ce_message e)) in Ret (outcome, false)
  | ServerFailed e => do _ := print (Stderr (lit "fatal: " ++ ProxyError_fmt e)) in Ret (outcome, false)
  | ConfigChecked | ServerStopped _ => Ret (outcome, true)
  | RunPanicked => Ret (outcome, false)
  end.

(** ** The tasks of the process *)

Inductive proc_outcome : Type :=
| Exited (r : run_outcome * bool)
| SignalEnded
| Relayed (raw : str) (r : result str RelayError)
| NotServing.

Definition main_task (cli : Cli) : proc_prog proc_outcome := do r := main cli in Ret (Exited r).

Definition signal_task : proc_prog proc_outcome :=
  do started := atomic start_signal in
  if (started : bool)
  then do _ := scope SignalTask (scope ShutdownSender signal_body) in Ret SignalEnded
  else Ret SignalEnded.

(** A signal task aborted before it started is dropped as it is. *)
Definition drop_signal : proc_prog proc_outcome :=
  atomic (λ σ, (SignalEnded,
    if signal_spawned σ && negb (signal_started σ) && signal_aborted σ
    then mkProcess (relay_state σ) (serving σ) (signal_spawned σ) true (signal_aborted σ) true true (printed σ)
    else σ)).

(** A connection of the server relays a transaction. *)
Definition broadcast_task (relay : SharedRelay) (raw : str) : proc_prog proc_outcome :=
  do entered := atomic (λ σ, (serving σ, σ)) in
  if (entered : bool) then do r := lift_relay (relay raw) in Ret (Relayed raw r) else Ret NotServing.

Inductive proc_op (cli : Cli) : proc_prog proc_outcome → Prop :=
| op_signal_task : proc_op cli signal_task
| op_drop_signal : proc_op cli drop_signal
| op_broadcast_task config relay σ raw :
    Config_try_from cli = Ok config → build_relay config = Some (relay, σ) →
    proc_op cli (broadcast_task relay raw).

(** The relay state that [run] creates; an idle one where it creates none. *)
Definition relay_start (cli : Cli) : RelayState :=
  match Config_try_from cli with
  | Ok config => from_option snd (mkRelayState (mkDrainState true 0) (watch_channel 0) (sem_new 0) (sem_new 0) [])
                   (build_relay config)
  | Err _ => mkRelayState (mkDrainState true 0) (watch_channel 0) (sem_new 0) (sem_new 0) []
  end.

Definition proc_system (cli : Cli) : system proc_outcome :=
  mkSystem (mkProcess (relay_start cli) false false false false false false []) [Running (main_task cli) []].

Definition proc_steps (cli : Cli) := steps drop_proc_guard proc_env (proc_op cli).
Definition proc_reachable (cli : Cli) (c : system proc_outcome) : Prop := proc_steps cli (proc_system cli) c.
End Process.
