(* ===== verification/MainSafety.v ===== *)
(** * What the process guarantees

    The programs of the relay keep their guarantees when they run inside the
    process; admission has stopped before the server is told to shut down; a
    command line that is not served leaves the network alone; what is printed. *)

From S2P Require Import Prelude RustStr RustNet Endpoint Config Serde Protocol JsonRef Async AsyncLift Tokio Relay RelaySafety RelayStack RelayScenarios Supervisor Server Main.

Open Scope N_scope.
Open Scope async_scope.

(** The relay's share, and what [run] alone changes. *)
Record proc_share : Type := mkProcShare { ps_relay : share; ps_run : excl (bool * bool) }.

#[export] Instance proc_Shares : Shares proc_share := {|
  share_op a b := mkProcShare (ps_relay a ⋅ ps_relay b) (ps_run a ⋅ ps_run b);
  share_unit := mkProcShare share_unit ExNone
|}.

Lemma proc_share_eq a b : ps_relay a = ps_relay b → ps_run a = ps_run b → a = b.
Proof. destruct a, b; cbn. congruence. Qed.

#[export] Instance proc_laws : SharesLaws proc_share.
Proof.
  split; intros; apply proc_share_eq.
  - apply (share_assoc (M:=share)).
  - apply (share_assoc (M:=excl (bool * bool))).
  - apply (share_comm (M:=share)).
  - apply (share_comm (M:=excl (bool * bool))).
  - apply (share_unit_l (M:=share)).
  - done.
Qed.

Section ProcessSafety.
Context `{Sm : Semaphore} `{SmL : !SemaphoreLaws} `{Wt : Watch} `{Ser : Serialize} `{Des : Deserialize RelayResponse}.
Context (cli : Cli) (limit budget : N) (wire_ok : wire_event → Prop).
Implicit Types (σ s : Process) (m : proc_share).

(** The command line is valid and asks to serve. *)
Definition serves (cli : Cli) : Prop := is_ok (Config_try_from cli) = true ∧ cli_check_config cli = false.

(** Nothing but the listening address and error texts is ever printed. *)
Definition allowed_output (cli : Cli) (o : output) : Prop :=
  match o with
  | Stdout line =>
      line = config_valid_line
      ∨ ∃ config, Config_try_from cli = Ok config ∧ line = listening_line (cfg_listen config)
  | Stderr line =>
      line = drain_expired_line
      ∨ (∃ e, Config_try_from cli = Err e ∧ line = lit "fatal: " ++ ce_message e)
      ∨ (∃ e, line = lit "fatal: " ++ ProxyError_fmt e)
  end.

Record proc_inv σ m : Prop := {
  pi_relay : inv limit budget wire_ok (relay_state σ) (ps_relay m);
  pi_run : owned (ps_run m) (serving σ, signal_aborted σ);
  pi_sent : shutdown_sent σ = true → signal_aborted σ = true ∨ accepting (drain (relay_state σ)) = false;
  pi_idle : serving σ = false → wire (relay_state σ) = [];
  pi_serves : serving σ = true → serves cli;
  pi_printed : Forall (allowed_output cli) (printed σ)
}.

Record proc_guar σ σ' : Prop := {
  pg_relay : guar (relay_state σ) (relay_state σ');
  pg_serving : serving σ = true → serving σ' = true;
  pg_aborted : signal_aborted σ = true → signal_aborted σ' = true;
  pg_finished : signal_finished σ = true → signal_finished σ' = true;
  pg_sent : shutdown_sent σ = true → shutdown_sent σ' = true
}.

#[export] Instance proc_guar_preorder : PreOrder proc_guar.
Proof.
  split; [by intros σ; split|]. intros σ1 σ2 σ3 [] []. split; [by etrans|auto..].
Qed.

(** The network is used only while serving, under the relay's own conditions;
    only a validated configuration is served. *)
Definition proc_pre (X : Type) (e : procE X) (h : list proc_guard) m s : Prop :=
  match e with
  | OnRelay e => serving s = true
      ∧ ∃ hr, h = RelayGuard <$> hr ∧ pre wire_ok _ e hr (ps_relay m) (relay_state s)
  | ServeUntil config => Config_try_from cli = Ok config ∧ cli_check_config cli = false
  | _ => True
  end.

Abbreviation PWP := (wp drop_proc_guard proc_env proc_inv proc_pre proc_guar).
Abbreviation PUP := (update proc_inv proc_guar).
Abbreviation RINV := (inv limit budget wire_ok).

(** ** Steps of the process itself *)

Lemma proc_update s m m' rel (Q : Process → proc_share → Prop) :
  ps_relay m' = ps_relay m →
  (∀ σ σ', proc_guar s σ → rel σ σ' → owned (ps_run m) (serving σ, signal_aborted σ) →
     relay_state σ' = relay_state σ ∧ proc_guar σ σ'
     ∧ moves (ps_run m) (ps_run m') (serving σ, signal_aborted σ) (serving σ', signal_aborted σ')
     ∧ (shutdown_sent σ' = true →
        shutdown_sent σ = true ∨ signal_aborted σ' = true ∨ accepting (drain (relay_state σ')) = false)
     ∧ (serving σ' = true → serving σ = true ∨ serves cli)
     ∧ (∃ lines, printed σ' = printed σ ++ lines ∧ Forall (allowed_output cli) lines)
     ∧ ((shutdown_sent σ = true → signal_aborted σ = true ∨ accepting (drain (relay_state σ)) = false) →
        proc_guar s σ' → Q σ' m')) →
  PUP s m rel Q.
Proof.
  intros Em Hstep σ fr σ' Hs [Hr Ho Hse Hid Hsv Hp] Hrel.
  destruct (Hstep σ σ' Hs Hrel (owned_l _ (ps_run fr) _ Ho)) as (Er & Hg & Hm & Hse' & Hsv' & (lines & Ep & Hl) & HQ).
  split; [done|]. exists m'. split; [|apply HQ; [done|by etrans]]. split.
  - rewrite Er. cbn in *. by rewrite Em.
  - exact (owned_moves _ _ (ps_run fr) _ _ Hm Ho).
  - intros [?%Hse|]%Hse'; [|done]. rewrite Er. destruct Hg. intuition.
  - rewrite Er. intros E. apply Hid. destruct (serving σ) eqn:Es; [|done]. by rewrite (pg_serving _ _ Hg Es) in E.
  - intros [|]%Hsv'; auto.
  - rewrite Ep. by apply Forall_app.
Qed.

Lemma proc_droppable m : droppable RINV (ps_relay m) → droppable proc_inv m.
Proof.
  intros Hd σ fr [Hr Ho Hse Hid Hsv Hp]. split; [by apply Hd|exact (owned_r (ps_run m) _ _ Ho)|done..].
Qed.

Lemma unit_droppable o : droppable proc_inv (mkProcShare share_unit o).
Proof. apply proc_droppable, droppable_unit. Qed.
(** ** Relay programs inside the process *)

Definition relay_only (m : share) : proc_share := mkProcShare m ExNone.

(** A step of the relay is a step of the process; one that adds to the wire
    needs the server. *)
Lemma process_relay_update s (m : share) rel (Q : RelayState → share → Prop) :
  (serving s = true ∨ ∀ r r', rel r r' → wire r' = wire r) →
  update RINV guar (relay_state s) m rel Q →
  PUP s (relay_only m) (part_rel relay_state set_relay rel)
    (λ σ' m', proc_guar s σ' ∧ ∃ m0 : share, m' = relay_only m0 ∧ Q (relay_state σ') m0).
Proof.
  intros Hs Hu σ fr σ' Hg [Hr Ho Hse Hid Hsv Hp] (r' & Hrel & ->).
  destruct (Hu (relay_state σ) (ps_relay fr) r' (pg_relay _ _ Hg) Hr Hrel) as (Hgr & m' & Hi' & HQ').
  assert (proc_guar σ (set_relay r' σ)) as Hg' by by split.
  split; [done|]. exists (relay_only m'). split; [|split; [by etrans|eauto]].
  split; [done|done| |cbn|done|done].
  - intros [|Ha]%Hse; [by left|]. right. destruct Hgr as [_ Hgr]. by apply Hgr.
  - intros E. destruct Hs as [Hs|Hw]; [by rewrite (pg_serving _ _ Hg Hs) in E|]. rewrite (Hw _ _ Hrel). by apply Hid.
Qed.

(** The relay's reasoning carries over to its programs in the process. *)
Lemma lift_relay_wp {R} (p : relay_prog R) Q (Q' : R → list proc_guard → proc_share → Process → Prop) hr (m : share) s :
  wp drop_guard relay_env RINV (pre wire_ok) guar p Q hr m (relay_state s) → serving s = true →
  (∀ r hr' (m' : share) s', serving s' = true → Q r hr' m' (relay_state s') → Q' r (RelayGuard <$> hr') (relay_only m') s') →
  PWP (lift_relay p) Q' (RelayGuard <$> hr) (relay_only m) s.
Proof.
  apply (lift_wp relay_state set_relay RelayGuard (@OnRelay) drop_guard drop_proc_guard relay_env proc_env RINV
           proc_inv (pre wire_ok) proc_pre guar proc_guar relay_only (λ s, serving s = true)).
  - done.
  - done.
  - intros X e h m' s' Hs Hpre. split; [done|]. by exists h.
  - intros m' Hd. by apply proc_droppable.
  - intros s' m' rel Q1 Hs Hu. eapply update_mono; [|apply process_relay_update; [by left|exact Hu]].
    intros σ' m1 (Hg & m0 & -> & HQ). exists m0. split; [done|]. split; [by apply (pg_serving _ _ Hg)|done].
Qed.

(** ** The signal task *)

(** Shutdown may be announced: admission has stopped, or the server is gone. *)
Definition closed s : Prop := signal_aborted s = true ∨ accepting (drain (relay_state s)) = false.

Lemma closed_guar s s' : proc_guar s s' → closed s → closed s'.
Proof. intros [[_ Hg] _ Ha _ _] [?|?]; [left; auto|right; by apply Hg]. Qed.

(** A step that leaves the relay, the server and the abort alone. *)
Lemma proc_quiet s m rel (Q : Process → proc_share → Prop) :
  (∀ σ σ', proc_guar s σ → rel σ σ' →
     relay_state σ' = relay_state σ ∧ serving σ' = serving σ ∧ signal_aborted σ' = signal_aborted σ
     ∧ (signal_finished σ = true → signal_finished σ' = true)
     ∧ (shutdown_sent σ' = true → shutdown_sent σ = true ∨ closed σ')
     ∧ (shutdown_sent σ = true → shutdown_sent σ' = true)
     ∧ (∃ lines, printed σ' = printed σ ++ lines ∧ Forall (allowed_output cli) lines)) →
  (∀ σ σ', proc_guar s σ' → rel σ σ' → Q σ' m) → PUP s m rel Q.
Proof.
  intros Hrel HQ. apply (proc_update _ m m); [done|]. intros σ σ' Hs Hr Ho.
  destruct (Hrel σ σ' Hs Hr) as (E1 & E2 & E3 & Hf & Hse & Hse' & Hp). split; [done|].
  split; [split; [by rewrite E1|by rewrite E2|by rewrite E3|done..]|].
  split; [left; by rewrite E2, E3|]. split; [done|]. split; [rewrite E2; by left|]. split; [done|]. eauto.
Qed.

Lemma proc_same s m rel (Q : Process → proc_share → Prop) :
  (∀ σ σ', rel σ σ' → σ' = σ) → (∀ σ, proc_guar s σ → rel σ σ → Q σ m) → PUP s m rel Q.
Proof.
  intros Hrel HQ. apply proc_quiet.
  - intros σ σ' _ ->%Hrel. repeat (split; [done|]). split; [by left|]. split; [done|]. exists []. by rewrite app_nil_r.
  - intros σ σ' Hs Hr. assert (σ' = σ) as -> by by apply Hrel. by apply HQ.
Qed.

Lemma ready_update s m x (Q : Process → proc_share → Prop) :
  closed s → (∀ σ', proc_guar s σ' → shutdown_sent σ' = true → Q σ' m) →
  PUP s m (λ σ σ', ready_shutdown σ = (x, σ')) Q.
Proof.
  intros Hc HQ. apply proc_quiet.
  - intros σ σ' Hs [= _ <-]. repeat (split; [done|]). split; [intros _; right; exact (closed_guar _ _ Hs Hc)|].
    split; [done|]. exists []. by rewrite app_nil_r.
  - intros σ σ' Hs [= _ <-]. by apply HQ.
Qed.

Lemma finish_signal_update s m x (Q : Process → proc_share → Prop) :
  (∀ σ', proc_guar s σ' → signal_finished σ' = true → Q σ' m) →
  PUP s m (λ σ σ', finish_signal σ = (x, σ')) Q.
Proof.
  intros HQ. apply proc_quiet.
  - intros σ σ' Hs [= _ <-]. repeat (split; [done|]). split; [by left|]. split; [done|]. exists []. by rewrite app_nil_r.
  - intros σ σ' Hs [= _ <-]. by apply HQ.
Qed.

Lemma cancel_signal s :
  closed s → cancel_ok drop_proc_guard proc_inv proc_guar [ShutdownSender; SignalTask] (share_unit : proc_share) s.
Proof.
  intros Hc. unfold cancel_ok. cbn. intros x. apply ready_update; [done|]. intros s1 _ _ y.
  apply finish_signal_update. intros s2 _ _. apply unit_droppable.
Qed.

(** [begin_shutdown] inside the process, before or while it serves. *)
Lemma begin_shutdown_lifted {R} (k : N → proc_prog R) Q h s :
  (∀ n s', proc_guar s s' → accepting (drain (relay_state s')) = false → PWP (k n) Q h (share_unit : proc_share) s') →
  PWP (do n := lift_relay begin_shutdown in k n) Q h (share_unit : proc_share) s.
Proof.
  intros Hk. pose proof (begin_shutdown_wp limit budget wire_ok (relay_state s)) as Hb.
  unfold lift_relay, begin_shutdown, atomic in *. cbn [bind wp lift_prog] in *. intros n.
  eapply update_rel; [intros ??; apply on_part_rel|].
  eapply update_mono; [|eapply (process_relay_update s share_unit); [by right; intros r r' [= _ <-]|apply Hb]].
  intros s1 m1 (Hs1 & m0 & -> & Hb1) [].
  eapply update_rel; [intros ??; apply on_part_rel|].
  eapply update_mono; [|eapply (process_relay_update s1 m0); [by right; intros r r' [= <-]|apply (Hb1 tt)]].
  intros s2 m2 (Hs2 & m3 & -> & _ & -> & Ha & _). apply Hk; [by etrans|done].
Qed.

Definition exit_ok (o : run_outcome) (code : bool) s : Prop :=
  match o with
  | ConfigInvalid e => Config_try_from cli = Err e ∧ code = false
  | ConfigChecked => is_ok (Config_try_from cli) = true ∧ cli_check_config cli = true ∧ code = true
  | ServerFailed _ => serves cli ∧ code = false
  | ServerStopped _ =>
      serves cli ∧ code = true ∧ accepting (drain (relay_state s)) = false
      ∧ shutdown_sent s = true ∧ signal_finished s = true
  | RunPanicked => False
  end.

Definition proc_outcome_ok (o : proc_outcome) s : Prop :=
  match o with
  | Exited (o, code) => exit_ok o code s
  | Relayed raw r => serving s = true ∧ relayed raw r (relay_state s)
  | SignalEnded | NotServing => True
  end.

Abbreviation PFIN := (finished proc_inv proc_outcome_ok).

Lemma signal_task_wp s : PWP signal_task PFIN [] (share_unit : proc_share) s.
Proof.
  assert (∀ s', PFIN SignalEnded ([] : list proc_guard) (share_unit : proc_share) s') as Hend.
  { intros s'. split; [done|]. split; [done|]. apply unit_droppable. }
  unfold signal_task, atomic. cbn [bind wp]. intros started. apply proc_quiet.
  { unfold start_signal. intros σ σ' _. destruct (_ && _); intros [= _ <-]; (repeat (split; [done|]);
      split; [by left|]; split; [done|]; exists []; by rewrite app_nil_r). }
  intros _ s1 _ _. destruct started; [|apply Hend].
  unfold scope, signal_body, await. cbn [bind wp]. split; [done|]. split.
  { apply proc_same; [by intros ?? [-> _]|]. intros s2 _ [_ Ha]. apply cancel_signal. by left. }
  intros r. apply proc_same; [by intros ?? [-> _]|]. intros s2 _ _.
  apply wp_bind, wp_bind, wp_bind, begin_shutdown_lifted. intros n s3 _ Ha. unfold atomic. cbn [wp].
  intros x. apply ready_update; [by right|]. intros s4 Hs4 _. cbn [wp wpd drop_proc_guard].
  intros y. apply ready_update; [apply (closed_guar s3); [done|by right]|]. intros s5 _ _.
  intros z. apply finish_signal_update. intros s6 _ _. apply Hend.
Qed.

Lemma drop_signal_wp s : PWP drop_signal PFIN [] (share_unit : proc_share) s.
Proof.
  intros o. apply proc_quiet.
  - intros σ σ' _ [= _ <-].
    destruct (_ && signal_aborted σ) eqn:E; (repeat (split; [done|]); split; [|split; [done|]; exists []; by rewrite app_nil_r]).
    + intros _. right. left. by apply andb_true_iff in E as [_ ?].
    + by left.
  - intros σ σ' _ [= <- <-]. split; [done|]. split; [done|]. apply unit_droppable.
Qed.

Lemma broadcast_task_wp relay raw s :
  relay_spec limit budget wire_ok (λ _, []) relay →
  PWP (broadcast_task relay raw) PFIN [] (share_unit : proc_share) s.
Proof.
  intros Hr. unfold broadcast_task, atomic. cbn [bind wp]. intros entered.
  apply proc_same; [by intros ?? [= _ <-]|]. intros s1 _ [= Hs1].
  destruct entered; [|split; [done|]; split; [done|apply unit_droppable]].
  apply wp_bind. eapply (lift_relay_wp (relay raw) _ _ []); [apply Hr|done|].
  intros r hr m s2 Hs2 (-> & -> & Hd). split; [done|]. split; [done|]. apply unit_droppable.
Qed.

(** ** [main] *)

Definition run_share (entered aborted : bool) : proc_share := mkProcShare share_unit (ExOwn (entered, aborted)).

Lemma cancel_run b a s : cancel_ok drop_proc_guard proc_inv proc_guar [] (run_share b a) s.
Proof. apply unit_droppable. Qed.

Lemma print_wp {R} line (k : proc_prog R) Q m s :
  allowed_output cli line → (∀ s', proc_guar s s' → PWP k Q [] m s') → PWP (do _ := print line in k) Q [] m s.
Proof.
  intros Hl Hk x. apply proc_quiet.
  - intros σ σ' _ [= _ <-]. repeat (split; [done|]). split; [by left|]. split; [done|]. exists [line].
    split; [done|by constructor].
  - intros σ σ' Hs _. by apply Hk.
Qed.

(** Steps of [run] on what it owns. *)
Lemma run_update s b a b' a' rel (Q : Process → proc_share → Prop) :
  (b = true → b' = true) → (a = true → a' = true) → (b' = true → b = true ∨ serves cli) →
  (∀ σ σ', rel σ σ' → serving σ = b → signal_aborted σ = a →
     relay_state σ' = relay_state σ ∧ serving σ' = b' ∧ signal_aborted σ' = a'
     ∧ signal_finished σ' = signal_finished σ ∧ shutdown_sent σ' = shutdown_sent σ ∧ printed σ' = printed σ) →
  (∀ σ', proc_guar s σ' → Q σ' (run_share b' a')) → PUP s (run_share b a) rel Q.
Proof.
  intros Hb Ha Hsv Hrel HQ. apply (proc_update _ _ (run_share b' a')); [done|].
  intros σ σ' Hs Hr Ho. injection Ho as Eb Ea.
  destruct (Hrel σ σ' Hr (eq_sym Eb) (eq_sym Ea)) as (E1 & E2 & E3 & E4 & E5 & E6). rewrite E2, E3, E5, E6.
  split; [done|]. split; [split; rewrite ?E1, ?E2, ?E3, ?E4, ?E5, <- ?Eb, <- ?Ea; done|].
  split; [right; by eexists|]. split; [by left|]. split; [rewrite <- Eb; done|].
  split; [exists []; by rewrite app_nil_r|auto].
Qed.

Lemma serve_wp config s :
  Config_try_from cli = Ok config → cli_check_config cli = false →
  PWP (do server_result := await (ServeUntil config) in
       match server_result with
       | Err e => do _ := atomic abort_signal in Ret (ServerFailed e)
       | Ok report =>
           do _ := await JoinSignal in
           do _ := if negb (all_connections_drained report) then print (Stderr drain_expired_line) else Ret tt in
           Ret (ServerStopped report)
       end)
    (λ o h m s', h = [] ∧ (∃ b a, m = run_share b a) ∧ serves cli ∧
       match o with
       | ServerFailed _ => True
       | ServerStopped _ => accepting (drain (relay_state s')) = false ∧ shutdown_sent s' = true ∧ signal_finished s' = true
       | _ => False
       end) [] (run_share true false) s.
Proof.
  intros Ec Ek. assert (serves cli) as Hsv by (unfold serves; by rewrite Ec).
  unfold await, atomic. cbn [bind wp]. split; [done|].
  split; [apply proc_same; [by intros ?? [-> _]|intros; apply cancel_run]|].
  intros [report|e].
  2:{ apply proc_same; [by intros ?? [-> _]|]. intros s1 _ _ x.
      apply (run_update _ true false true true); [done|done|by left|by intros σ σ' [= _ <-] ? ?|].
      intros s2 _. split; [done|]. split; [by eexists _, _|done]. }
  apply (proc_update _ _ (run_share true false)); [done|]. intros σ σ' _ [-> Hsent] Ho. injection Ho as _ Ea.
  split; [done|]. split; [reflexivity|]. split; [by left|]. split; [by left|]. split; [by left|].
  split; [exists []; by rewrite app_nil_r|]. intros Hc _.
  assert (accepting (drain (relay_state σ)) = false) as Hacc by (destruct (Hc Hsent) as [?|?]; congruence).
  cbn [bind wp]. split; [done|]. split; [apply proc_same; [by intros ?? [-> _]|intros; apply cancel_run]|].
  intros []. apply proc_same; [by intros ?? [-> _]|]. intros s1 Hs1 [_ Hf].
  assert (∀ s2, proc_guar s1 s2 →
    accepting (drain (relay_state s2)) = false ∧ shutdown_sent s2 = true ∧ signal_finished s2 = true) as Hend.
  { intros s2 Hs2. assert (proc_guar σ s2) as Hg by by etrans. destruct Hg as [[_ Hg] _ _ _ Hg'].
    split; [by apply Hg|]. split; [auto|]. by apply (pg_finished _ _ Hs2). }
  destruct (negb _).
  - apply print_wp; [by left|]. intros s2 Hs2. split; [done|]. split; [by eexists _, _|]. split; [done|by apply Hend].
  - split; [done|]. split; [by eexists _, _|]. split; [done|by apply Hend].
Qed.

Lemma run_wp s :
  PWP (run cli)
    (λ o h m s', h = [] ∧ (∃ b a, m = run_share b a) ∧
       match o with
       | ConfigInvalid e => Config_try_from cli = Err e
       | ConfigChecked => is_ok (Config_try_from cli) = true ∧ cli_check_config cli = true
       | ServerFailed _ => serves cli
       | ServerStopped _ => serves cli ∧ accepting (drain (relay_state s')) = false
                            ∧ shutdown_sent s' = true ∧ signal_finished s' = true
       | RunPanicked => False
       end) [] (run_share false false) s.
Proof.
  unfold run. destruct (Config_try_from cli) as [config|e] eqn:Ec; [|split; [done|]; split; [by eexists _, _|done]].
  destruct (cli_check_config cli) eqn:Ek.
  { apply print_wp; [by left|]. intros s1 _. split; [done|]. split; [by eexists _, _|done]. }
  destruct (build_relay_some config (ex_intro _ cli Ec)) as [built ->].
  assert (serves cli) as Hsv by (unfold serves; by rewrite Ec).
  unfold atomic. cbn [bind wp]. intros x. apply proc_quiet.
  { intros σ σ' _ [= _ <-]. repeat (split; [done|]). split; [by left|]. split; [done|]. exists []. by rewrite app_nil_r. }
  intros _ s1 _ _. apply print_wp; [right; eauto|]. intros s2 _ y.
  apply (run_update _ false false true false); [done|done|by right|by intros σ σ' [= _ <-] ? ?|].
  intros s3 _. eapply wp_mono; [|apply (serve_wp config s3 Ec Ek)].
  intros o h m s4 (-> & Hm & _ & Ho). split; [done|]. split; [done|]. by destruct o.
Qed.

Lemma main_task_wp s : PWP (main_task cli) PFIN [] (run_share false false) s.
Proof.
  unfold main_task, main. apply wp_bind, wp_bind. eapply wp_mono; [|apply run_wp].
  intros o h m s1 (-> & (b & a & ->) & Ho).
  assert (∀ o code s', exit_ok o code s' → PFIN (Exited (o, code)) ([] : list proc_guard) (run_share b a) s') as Hend.
  { intros o' code s' He. split; [done|]. split; [done|]. apply unit_droppable. }
  destruct o as [e|e| |report|]; [| |apply Hend; cbn; tauto|apply Hend; cbn; tauto|done].
  - apply print_wp; [right; left; eauto|]. intros s2 _. by apply Hend.
  - apply print_wp; [right; right; eauto|]. intros s2 _. by apply Hend.
Qed.

Context (Hbuilt : ∀ config relay r, Config_try_from cli = Ok config → build_relay config = Some (relay, r) →
           relay_spec limit budget wire_ok (λ _, []) relay).
Context (Hstart : RINV (relay_start cli) share_unit ∧ wire (relay_start cli) = []).

Abbreviation proc_ok := (system_ok drop_proc_guard proc_env proc_inv proc_pre proc_guar proc_outcome_ok).

Lemma proc_steps_ok c c' : proc_ok c → proc_steps cli c c' → proc_guar (shared c) (shared c') ∧ proc_ok c'.
Proof.
  apply system_ok_steps; [apply _..|]. intros p s [| |config relay r raw Hc Hb].
  - apply signal_task_wp.
  - apply drop_signal_wp.
  - apply broadcast_task_wp. by eapply Hbuilt.
Qed.

Lemma proc_reachable_ok c : proc_reachable cli c → proc_ok c.
Proof.
  intros Hs. eapply proc_steps_ok in Hs as [_ ?]; [done|]. exists [run_share false false]. split.
  - constructor; [|constructor]. eexists. split; [reflexivity|apply main_task_wp].
  - destruct Hstart. by split.
Qed.
End ProcessSafety.

Section ProcessTheorems.
Context `{Sm : Semaphore} `{SmL : !SemaphoreLaws} `{Wt : Watch} `{Ser : Serialize} `{Des : Deserialize RelayResponse}.

(** Every command line has the bounds its relay keeps. *)
Lemma proc_bounds cli :
  ∃ limit budget wire_ok,
    (∀ config relay r, Config_try_from cli = Ok config → build_relay config = Some (relay, r) →
       relay_spec limit budget wire_ok (λ _, []) relay)
    ∧ inv limit budget wire_ok (relay_start cli) share_unit ∧ wire (relay_start cli) = [].
Proof.
  unfold relay_start. destruct (Config_try_from cli) as [config|e] eqn:Ec.
  - destruct (build_relay_some config (ex_intro _ cli Ec)) as [[relay r] Eb].
    destruct (build_relay_spec config relay r Eb) as [Hr Hi].
    exists (ConcurrentBroadcastLimit_get (cfg_max_concurrent_broadcasts config)),
      MAX_CONFIGURABLE_IN_FLIGHT_BROADCAST_BYTES, (allowed_wire config). rewrite Eb. split; [|split; [done|]].
    + intros config' relay' r' [= <-]. rewrite Eb. by intros [= <- <-].
    + clear -Eb. unfold build_relay in Eb. destruct (match cfg_relay_mode config with Reject => _ | SocksElectrum => _ end);
        [|done]. cbn in Eb. by injection Eb as _ <-.
  - exists 0, 0, (λ _, True). split; [done|]. split; [|done]. split; cbn; rewrite ?sem_available_new; done.
Qed.

(** C11: Shutdown in order. The server is told to shut down only after the relay
    has stopped admitting calls (or after the server has already failed), and
    when the process has ended after serving, admission has stopped, the signal
    task has finished and the exit code is success. *)
Theorem shutdown_ordered (cli : Cli) (c : system proc_outcome) :
  proc_reachable cli c →
  (shutdown_sent (shared c) = true →
   signal_aborted (shared c) = true ∨ accepting (drain (relay_state (shared c))) = false)
  ∧ (∀ i report code h, pool c !! i = Some (Running (Ret (Exited (ServerStopped report, code))) h) →
       accepting (drain (relay_state (shared c))) = false ∧ signal_finished (shared c) = true ∧ code = true).
Proof.
  intros Hc. destruct (proc_bounds cli) as (limit & budget & wire_ok & Hb & Hi).
  eapply proc_reachable_ok in Hc; [|exact Hb|exact Hi]. split.
  - destruct Hc as (ms & _ & Hinv). exact (pi_sent _ _ _ _ _ _ Hinv).
  - intros i report code h Hret.
    destruct (system_ok_returned _ _ _ _ _ _ _ _ _ _ Hc Hret) as (s & (_ & Hcode & Ha & _ & Hf) & [[_ Hg] _ _ Hg' _]).
    split; [by apply Hg|]. split; [auto|done].
Qed.

End ProcessTheorems.

(** ** An executed process *)

(** Ctrl-C arrives at once; the server stops when it is told to; the network works. *)
Definition proc_runtime (X : Type) (e : procE X) : Process → option (X * Process) :=
  match e in procE X return Process → option (X * Process) with
  | CtrlC => λ σ, Some (Ok tt, σ)
  | ServeUntil _ => λ σ, if shutdown_sent σ then Some (Ok (mkShutdownReport true), σ) else None
  | JoinSignal => λ σ, if signal_finished σ then Some (tt, σ) else None
  | OnRelay e => λ σ, '(x, r) ← working_network _ e (relay_state σ); Some (x, set_relay r σ)
  end.

Lemma proc_runtime_env X (e : procE X) σ x σ' :
  proc_runtime X e σ = Some (x, σ') → proc_env X e σ (Some x) σ'.
Proof.
  destruct e as [|config| |X e]; cbn [proc_runtime].
  - by intros [= <- <-].
  - destruct (shutdown_sent σ) eqn:E; [|done]. by intros [= <- <-].
  - destruct (signal_finished σ) eqn:E; [|done]. by intros [= <- <-].
  - destruct (working_network X e (relay_state σ)) as [[y r]|] eqn:E; [|done]. cbn. intros [= <- <-].
    apply working_network_env in E. cbn. eauto.
Qed.

Inductive proc_move : Type := MainStep | SpawnSignal | SignalStep.

Definition proc_action (m : proc_move) : action :=
  match m with
  | MainStep => Run 0
  | SpawnSignal => Spawn signal_task
  | SignalStep => Run 1
  end.

Definition proc_run (schedule : list proc_move) : option (system proc_outcome) :=
  exec drop_proc_guard proc_runtime (λ _ _ _, None) (proc_system sample_cli) (proc_action <$> schedule).

Lemma proc_run_reachable schedule c : proc_run schedule = Some c → proc_reachable sample_cli c.
Proof.
  apply exec_sound; [apply proc_runtime_env|done|].
  apply Forall_fmap, Forall_true. intros []; cbn; try done; constructor.
Qed.

(** The process starts, is interrupted and ends. *)
Definition interrupted : list proc_move :=
  replicate 3 MainStep ++ SpawnSignal :: replicate 13 SignalStep ++ replicate 2 MainStep.

Definition exited (c : system (S:=Process) (G:=proc_guard) (E:=procE) proc_outcome) : option (run_outcome * bool) :=
  match pool c !! 0%nat with Some (Running (Ret (Exited r)) _) => Some r | _ => None end.

Lemma interrupted_exits :
  ∃ c h, proc_run interrupted = Some c
    ∧ pool c !! 0%nat = Some (Running (Ret (Exited (ServerStopped (mkShutdownReport true), true))) h).
Proof.
  assert (from_option exited None (proc_run interrupted) = Some (ServerStopped (mkShutdownReport true), true)) as E
    by (vm_compute; reflexivity).
  destruct (proc_run interrupted) as [c|]; cbn in E; [|discriminate E]. unfold exited in E.
  destruct (pool c !! 0%nat) as [[[[r| | |]| | | | |] h| |]|] eqn:Ep; try discriminate E. injection E as ->. eauto.
Defined.

Lemma shutdown_ordered_witness :
  ∃ c, proc_run interrupted = Some c ∧ accepting (drain (relay_state (shared c))) = false.
Proof.
  destruct interrupted_exits as (c & h & E & Hret). exists c. split; [exact E|].
  exact (proj1 (proj2 (shutdown_ordered sample_cli c (proc_run_reachable _ _ E)) 0%nat _ _ h Hret)).
Defined.

