(* ===== verification/UnitTests.v ===== *)
(** * The repository's unit tests, on the model

    The tests of endpoint.rs, config.rs, protocol.rs and of the connection tasks
    in proxy.rs, translated as they are written and evaluated on the model's own
    definitions: the model passes the tests that the code passes. *)

From S2P Require Import Prelude RustStr RustNet Endpoint Config Serde Protocol JsonRef Async Tokio Relay RelaySafety Frames Connection ConnectionSafety ConnectionProps.

Open Scope N_scope.
Open Scope rust_scope.

Definition is_err {A E} (r : result A E) : bool := negb (is_ok r).
Definition ok {A E} (r : result A E) : option A := match r with Ok a => Some a | Err _ => None end.

(** [assert!] for each condition. *)
Abbreviation asserts l := (forallb (λ b : bool, b) l = true).

Module EndpointTests.

Definition parse (x : string) : result Endpoint EndpointParseError := from_str (lit x).

Definition parses_dns_ipv6_onion_and_punycode_endpoints : Prop :=
  (host <$> ok (parse "relay.example:50001")) = Some (lit "relay.example")
  ∧ (port <$> ok (parse "relay.example:50001")) = Some 50001
  ∧ (host <$> ok (parse "[::1]:50001")) = Some (lit "::1")
  ∧ (to_string <$> ok (parse "[::1]:50001")) = Some (lit "[::1]:50001")
  ∧ asserts [is_ok (parse "examplehiddenservice.onion:50001"); is_ok (parse "xn--bcher-kva.example.:50001")].

Definition rejects_ambiguous_or_zero_port_endpoints : Prop :=
  asserts [is_err (parse "relay.example"); is_err (parse "relay.example:0"); is_err (parse "127.0.0.1:0");
           is_err (parse "[::1]:0"); is_err (parse " relay.example:50001"); is_err (parse "::1:50001")].

Definition rejects_urls_userinfo_paths_unicode_and_malformed_dns : Prop :=
  asserts ((λ endpoint, is_err (parse endpoint)) <$>
    ["https://relay.example:50001"%string; "user@relay.example:50001"%string; "relay.example/path:50001"%string;
     "[relay.example]:50001"%string; ".relay.example:50001"%string; "relay..example:50001"%string;
     "-relay.example:50001"%string; "relay-.example:50001"%string; "relay_example:50001"%string;
     "bücher.example:50001"%string]).

Definition recognizes_obvious_target_aliases_without_dns : Prop :=
  let dns := Endpoint_new (lit "Relay.Example.") 50001 in
  asserts [same_target dns (Endpoint_new (lit "relay.example") 50001);
           same_target (Endpoint_new (lit "localhost") 50001) (Endpoint_new (lit "127.0.0.1") 50001);
           same_target (Endpoint_new (lit "127.0.0.2") 50001) (Endpoint_new (lit "::1") 50001);
           negb (same_target dns (Endpoint_new (lit "relay.example") 50002));
           negb (same_target dns (Endpoint_new (lit "other.example") 50001))].

Definition detects_obvious_listener_loops : Prop :=
  let loopback := mkSocketAddr (V4 127 0 0 1) 50003 0 in
  let wildcard := mkSocketAddr (V4 0 0 0 0) 50003 0 in
  asserts [could_target_listener (Endpoint_new (lit "localhost") 50003) loopback;
           could_target_listener (Endpoint_new (lit "127.0.0.1") 50003) loopback;
           could_target_listener (Endpoint_new (lit "::1") 50003) loopback;
           could_target_listener (Endpoint_new (lit "127.0.0.1") 50003) wildcard;
           negb (could_target_listener (Endpoint_new (lit "relay.example") 50003) loopback);
           negb (could_target_listener (Endpoint_new (lit "127.0.0.1") 50001) loopback)].

Definition all : Prop :=
  parses_dns_ipv6_onion_and_punycode_endpoints ∧ rejects_ambiguous_or_zero_port_endpoints
  ∧ rejects_urls_userinfo_paths_unicode_and_malformed_dns ∧ recognizes_obvious_target_aliases_without_dns
  ∧ detects_obvious_listener_loops.

Lemma endpoint_tests_pass : all.
Proof. vm_compute. repeat split. Qed.

End EndpointTests.

Module ConfigTests.

(** The command line the tests start from. *)
Definition cli : Cli :=
  {| cli_check_config := false;
     cli_listen := mkSocketAddr (V4 127 0 0 1) 50003 0;
     cli_upstream := Endpoint_new (lit "127.0.0.1") 50001;
     cli_relay_mode := Reject;
     cli_relay_endpoint := None;
     cli_socks5_proxy := mkSocketAddr (V4 127 0 0 1) 9050 0;
     cli_max_connections := DEFAULT_MAX_CONNECTIONS;
     cli_max_concurrent_broadcasts := DEFAULT_MAX_CONCURRENT_BROADCASTS;
     cli_max_pending_requests := DEFAULT_MAX_PENDING_REQUESTS;
     cli_max_frame_bytes := DEFAULT_MAX_FRAME_BYTES;
     cli_connect_timeout_seconds := 10;
     cli_relay_timeout_seconds := 30;
     cli_allow_non_loopback_listen := false |}.

Definition with_listen (x : SocketAddr) (c : Cli) : Cli :=
  let '(mkCli a _ u m e s n b p f ct rt l) := c in mkCli a x u m e s n b p f ct rt l.
Definition with_upstream (x : Endpoint) (c : Cli) : Cli :=
  let '(mkCli a i _ m e s n b p f ct rt l) := c in mkCli a i x m e s n b p f ct rt l.
Definition with_relay (mode : RelayMode) (x : option Endpoint) (c : Cli) : Cli :=
  let '(mkCli a i u _ _ s n b p f ct rt l) := c in mkCli a i u mode x s n b p f ct rt l.
Definition with_socks (x : SocketAddr) (c : Cli) : Cli :=
  let '(mkCli a i u m e _ n b p f ct rt l) := c in mkCli a i u m e x n b p f ct rt l.
Definition with_connections (x : N) (c : Cli) : Cli :=
  let '(mkCli a i u m e s _ b p f ct rt l) := c in mkCli a i u m e s x b p f ct rt l.
Definition with_broadcasts (x : N) (c : Cli) : Cli :=
  let '(mkCli a i u m e s n _ p f ct rt l) := c in mkCli a i u m e s n x p f ct rt l.
Definition with_pending (x : N) (c : Cli) : Cli :=
  let '(mkCli a i u m e s n b _ f ct rt l) := c in mkCli a i u m e s n b x f ct rt l.
Definition set_port (p : N) (a : SocketAddr) : SocketAddr := mkSocketAddr (sa_ip a) p (sa_scope_id a).

Definition rejects_non_loopback_by_default : Prop :=
  asserts [is_err (Config_try_from (with_listen (mkSocketAddr (V4 0 0 0 0) 50003 0) cli))].

Definition rejects_zero_port_and_programmatically_invalid_endpoints : Prop :=
  asserts [is_err (Config_try_from (with_listen (set_port 0 (cli_listen cli)) cli));
           is_err (Config_try_from (with_upstream (Endpoint_new (lit "127.0.0.1") 0) cli));
           is_err (Config_try_from (with_upstream (Endpoint_new (lit "relay.example/path") 50001) cli));
           is_err (Config_try_from (with_socks (set_port 0 (cli_socks5_proxy cli)) cli))].

Definition rejects_query_upstream_listener_loop : Prop :=
  asserts [is_err (Config_try_from (with_upstream (Endpoint_new (lit "localhost") (sa_port (cli_listen cli))) cli))].

Definition requires_relay_endpoint_for_socks_mode : Prop :=
  asserts [is_err (Config_try_from (with_relay SocksElectrum None cli))].

Definition requires_query_and_relay_endpoint_separation : Prop :=
  asserts [is_err (Config_try_from (with_relay SocksElectrum (Some (Endpoint_new (lit "localhost") 50001)) cli))].

Definition rejects_relay_or_socks_listener_loops : Prop :=
  let relay_loop := with_relay SocksElectrum (Some (Endpoint_new (lit "127.0.0.1") 50003)) cli in
  let socks_loop := with_relay SocksElectrum (Some (Endpoint_new (lit "relay.example") 50001)) cli in
  asserts [is_err (Config_try_from relay_loop);
           is_err (Config_try_from (with_socks (cli_listen socks_loop) socks_loop))].

Definition accepts_distinct_socks_relay_configuration : Prop :=
  asserts [is_ok (Config_try_from (with_relay SocksElectrum (Some (Endpoint_new (lit "relay.example") 50001)) cli))].

Definition bounds_resource_configuration : Prop :=
  asserts [is_err (Config_try_from (with_connections 0 cli));
           is_err (Config_try_from (with_connections (MAX_CONFIGURABLE_CONNECTIONS + 1) cli));
           is_err (Config_try_from (with_broadcasts 0 cli));
           is_err (Config_try_from (with_broadcasts (MAX_CONFIGURABLE_CONCURRENT_BROADCASTS + 1) cli));
           is_err (Config_try_from (with_broadcasts 65 cli));
           is_err (Config_try_from (with_pending 0 cli));
           is_err (Config_try_from (with_pending (MAX_CONFIGURABLE_PENDING_REQUESTS + 1) cli))].

Definition validated_limits_cannot_exceed_hard_ceilings : Prop :=
  asserts [is_err (ConcurrentBroadcastLimit_try_from 0);
           is_err (ConcurrentBroadcastLimit_try_from (MAX_CONFIGURABLE_CONCURRENT_BROADCASTS + 1));
           is_err (PendingRequestLimit_try_from 0);
           is_err (PendingRequestLimit_try_from (MAX_CONFIGURABLE_PENDING_REQUESTS + 1))]
  ∧ (ConcurrentBroadcastLimit_get <$> ok (ConcurrentBroadcastLimit_try_from DEFAULT_MAX_CONCURRENT_BROADCASTS))
    = Some DEFAULT_MAX_CONCURRENT_BROADCASTS
  ∧ (PendingRequestLimit_get <$> ok (PendingRequestLimit_try_from DEFAULT_MAX_PENDING_REQUESTS))
    = Some DEFAULT_MAX_PENDING_REQUESTS.

Definition all : Prop :=
  rejects_non_loopback_by_default ∧ rejects_zero_port_and_programmatically_invalid_endpoints
  ∧ rejects_query_upstream_listener_loop ∧ requires_relay_endpoint_for_socks_mode
  ∧ requires_query_and_relay_endpoint_separation ∧ rejects_relay_or_socks_listener_loops
  ∧ accepts_distinct_socks_relay_configuration ∧ bounds_resource_configuration
  ∧ validated_limits_cannot_exceed_hard_ceilings.

Lemma config_tests_pass : all.
Proof. vm_compute. repeat split. Qed.

End ConfigTests.

Module ProtocolTests.

Definition intercepts_array_and_legacy_string_broadcast_params : Prop :=
  classify (json "{'id':7,'method':'blockchain.transaction.broadcast','params':['00aa']}")
    = Ok (Broadcast (Num (Int 7)) (lit "00aa"))
  ∧ classify (json "{'id':'wallet','method':'blockchain.transaction.broadcast','params':'00aa'}")
    = Ok (Broadcast (Str (lit "wallet")) (lit "00aa")).

Definition passes_through_non_broadcast_requests : Prop :=
  classify (json "{'id':1,'method':'server.version','params':[]}") = Ok (Passthrough (Some (Num (Int 1)))).

Definition rejects_batches_duplicate_methods_and_bad_hex : Prop :=
  asserts [is_err (classify (json "[]"));
           is_err (classify (json "{'id':1,'method':'server.version','method':'blockchain.transaction.broadcast','params':['00']}"));
           is_err (classify (json "{'id':1,'method':'blockchain.transaction.broadcast','params':['not-hex']}"))].

Definition rejects_oversized_string_request_ids : Prop :=
  let oversized_id := replicate (N.to_nat (MAX_REQUEST_ID_STRING_BYTES + 1)) (u8 97) in
  asserts [is_err (classify (json "{'id':'" ++ oversized_id ++ json "','method':'server.version','params':[]}"))].

Definition accepts_exact_integer_request_ids_and_rejects_inexact_numbers : Prop :=
  classify (json "{'id':18446744073709551615,'method':'server.version','params':[]}")
    = Ok (Passthrough (Some (Num (Int 18446744073709551615))))
  ∧ asserts [is_err (classify (json "{'id':18446744073709551616,'method':'server.version','params':[]}"));
             is_err (classify (json "{'id':1.5,'method':'server.version','params':[]}"))].

Definition all : Prop :=
  intercepts_array_and_legacy_string_broadcast_params ∧ passes_through_non_broadcast_requests
  ∧ rejects_batches_duplicate_methods_and_bad_hex ∧ rejects_oversized_string_request_ids
  ∧ accepts_exact_integer_request_ids_and_rejects_inexact_numbers.

Lemma protocol_tests_pass : all.
Proof. vm_compute. repeat split. Qed.

End ProtocolTests.

Module ProxyTests.

Abbreviation conn_sys := (system (S:=ConnState) (G:=Empty_set) (E:=connE) conn_outcome).
Abbreviation conn_proc := (task (S:=ConnState) (G:=Empty_set) (E:=connE) conn_outcome).

(** What the relay of a test returns; [None]: it has not been released yet. *)
Definition test_relay : Type := str → option (result str RelayError).
Definition MockRelay : test_relay := λ _, Some (Ok (concat (replicate 32 (lit "11")))).
Definition RejectingRelay : test_relay := λ _, Some (Err disabled).
Definition BlockedRelay : test_relay := λ _, None.

(** Peers that keep their streams open: a read waits for a complete line. *)
Definition waits {X} (e : connE X) (σ : ConnState) : bool :=
  match e with
  | ReadClient _ => negb (contains_byte newline (client_in σ))
  | ReadUpstream _ => negb (contains_byte newline (upstream_in σ))
  | _ => false
  end.

Definition peers (relay : test_relay) (X : Type) (e : connE X) (σ : ConnState) : option (X * ConnState) :=
  if waits e σ then None
  else match e in connE X return option (X * ConnState) → option (X * ConnState) with
       | CallRelay raw => λ _, r ← relay raw; Some (r, add_relay_log (raw, Some r) σ)
       | _ => λ answer, answer
       end (working_peers X e σ).

Definition reads {X} (e : connE X) : bool :=
  match e with ReadClient _ | ReadUpstream _ | Recv => true | _ => false end.
Definition at_rest (t : option conn_proc) : bool :=
  match t with Some (Running (Await e _) _) => reads e | _ => false end.

(** Task [i] goes on until it reads again, waits or has ended. *)
Fixpoint turn_within (fuel : nat) (relay : test_relay) (i : nat) (c : conn_sys) : conn_sys :=
  match fuel with
  | O => c
  | S n =>
      match exec_action no_guards (peers relay) (λ _ _ σ, Some σ) c (Run i) with
      | None => c
      | Some c' => if at_rest (pool c' !! i) then c' else turn_within n relay i c'
      end
  end.
Definition turn : test_relay → nat → conn_sys → conn_sys := turn_within 40.

(** The runs of the tests are runs of the connection. *)
Lemma peers_env relay X (e : connE X) σ x σ' :
  (∀ raw r, relay raw = Some r → txid_result r) → peers relay X e σ = Some (x, σ') → conn_env X e σ (Some x) σ'.
Proof.
  intros Hrelay. unfold peers. destruct (waits e σ); [done|]. destruct e; try apply working_peers_env.
  destruct (relay raw_transaction) as [r|] eqn:E; [|done]. cbn. intros [= <- <-]. split; [done|].
  apply Hrelay in E. by destruct r.
Qed.

Lemma turn_steps relay i c : (∀ raw r, relay raw = Some r → txid_result r) → conn_steps c (turn relay i c).
Proof.
  intros Hrelay. unfold turn. generalize 40%nat as fuel. intros fuel. revert c.
  induction fuel as [|fuel IH]; intros c; cbn [turn_within]; [apply rtc_refl|].
  destruct (exec_action _ _ _ c (Run i)) as [c'|] eqn:E; [|apply rtc_refl].
  apply rtc_l with c'.
  - destruct c as [σ ts]. cbn [exec_action shared pool] in E. destruct (ts !! i) as [t|] eqn:Ht; [|done].
    cbn [mbind option_bind] in E. destruct (exec_task no_guards (peers relay) σ t) as [[σ' t']|] eqn:Et; [|done].
    apply (inj Some) in E as <-. eapply step_task; [exact Ht|]. eapply exec_task_sound; [|exact Et].
    intros X e σ1 x σ2. by apply peers_env.
  - destruct (at_rest (pool c' !! i)); [apply rtc_refl|apply IH].
Qed.

(** The tasks by their place in the connection. *)
Definition writer : nat := 0.
Definition upstream_reader : nat := 1.
Definition client_reader : nat := 2.

(** [proxy_streams] with what the peers will write, every task at its first read. *)
Definition proxy_streams (relay : test_relay) (max_frame_bytes max_pending_requests : N)
    (wallet_writes upstream_writes : list bytes) : conn_sys :=
  turn relay writer (turn relay upstream_reader (turn relay client_reader
    (conn_system (mkConnectionLimits max_frame_bytes max_pending_requests)
       (concat wallet_writes) (concat upstream_writes)))).

Definition upstream_observes (c : conn_sys) : bytes := upstream_out (shared c).
Definition wallet_observes (c : conn_sys) : bytes := client_out (shared c).
Definition relay_calls (c : conn_sys) : nat := length (relay_log (shared c)).

Definition closed (c : conn_sys) : bool :=
  match pool c !! client_reader with Some (Running (Ret (ClientEnded (Returned (Ok _)))) _) => true | _ => false end.
Definition upstream_ended (c : conn_sys) : bool :=
  match pool c !! upstream_reader with Some (Running (Ret (UpstreamEnded (Err InvalidData))) _) => true | _ => false end.

Definition version_request (id : string) : bytes :=
  json "{'id':" ++ lit id ++ frame ",'method':'server.version','params':[]}".
Definition broadcast_request (id : string) : bytes :=
  json "{'id':" ++ lit id ++ frame ",'method':'blockchain.transaction.broadcast','params':['00aa']}".
Definition contains (x : bytes) (pat : bytes) : bool := contains_str pat x.

Definition forwards_queries_but_intercepts_broadcasts : Prop :=
  let c0 := proxy_streams MockRelay 4096 16 [version_request "1"; broadcast_request "2"]
              [frame "{'id':1,'result':['upstream','1.4']}"] in
  let c1 := turn MockRelay client_reader c0 in
  let c2 := turn MockRelay writer (turn MockRelay upstream_reader c1) in
  let c3 := turn MockRelay writer (turn MockRelay client_reader c2) in
  upstream_observes c1 = version_request "1"
  ∧ asserts [contains (wallet_observes c2) (lit "upstream");
             contains (wallet_observes c3) (concat (replicate 32 (lit "11")))]
  ∧ relay_calls c3 = 1%nat ∧ upstream_observes c3 = version_request "1".

Definition default_relay_rejects_without_leaking_to_upstream : Prop :=
  let c0 := proxy_streams RejectingRelay 4096 16 [broadcast_request "9"] [] in
  let c1 := turn RejectingRelay writer (turn RejectingRelay client_reader c0) in
  asserts [contains (wallet_observes c1) (lit "private broadcasting is not configured")]
  ∧ upstream_observes c1 = [].

Definition drops_upstream_response_that_collides_with_intercepted_broadcast : Prop :=
  let c0 := proxy_streams BlockedRelay 4096 16 [broadcast_request "12"]
              [json "{'id':12,'result':'" ++ concat (replicate 32 (lit "22")) ++ frame "'}"] in
  let c1 := turn BlockedRelay client_reader c0 in
  let c2 := turn BlockedRelay upstream_reader c1 in
  let c3 := turn MockRelay writer (turn MockRelay client_reader c2) in
  asserts [contains (wallet_observes c3) (concat (replicate 32 (lit "11")));
           negb (contains (wallet_observes c3) (concat (replicate 32 (lit "22"))))].

Definition closes_connection_when_pending_request_window_is_full : Prop :=
  let c0 := proxy_streams RejectingRelay 4096 2 [version_request "1"; version_request "2"; version_request "3"] [] in
  let c1 := turn RejectingRelay client_reader (turn RejectingRelay client_reader c0) in
  let c2 := turn RejectingRelay writer (turn RejectingRelay client_reader c1) in
  upstream_observes c1 = version_request "1" ++ version_request "2"
  ∧ asserts [contains (wallet_observes c2) (json "'id':3"); contains (wallet_observes c2) (json "'code':-32092");
             closed c2]
  ∧ upstream_observes c2 = upstream_observes c1.

Definition does_not_relay_broadcast_when_pending_request_window_is_full : Prop :=
  let c0 := proxy_streams MockRelay 4096 1 [version_request "1"; broadcast_request "2"] [] in
  let c1 := turn MockRelay client_reader c0 in
  let c2 := turn MockRelay writer (turn MockRelay client_reader c1) in
  upstream_observes c1 = version_request "1"
  ∧ asserts [contains (wallet_observes c2) (json "'id':2"); contains (wallet_observes c2) (json "'code':-32092");
             closed c2]
  ∧ relay_calls c2 = 0%nat ∧ upstream_observes c2 = version_request "1".

Definition correlated_response_releases_pending_request_slot : Prop :=
  let c0 := proxy_streams RejectingRelay 4096 1 [version_request "1"; version_request "2"]
              [frame "{'id':1,'result':true}"; frame "{'id':2,'result':true}"] in
  let exchange c :=
    turn RejectingRelay writer (turn RejectingRelay upstream_reader (turn RejectingRelay client_reader c)) in
  upstream_observes (exchange c0) = version_request "1"
  ∧ wallet_observes (exchange c0) = frame "{'id':1,'result':true}"
  ∧ upstream_observes (exchange (exchange c0)) = version_request "1" ++ version_request "2"
  ∧ wallet_observes (exchange (exchange c0)) = frame "{'id':1,'result':true}" ++ frame "{'id':2,'result':true}".

Definition rejects_inexact_numeric_id_before_forwarding_to_upstream : Prop :=
  let c0 := proxy_streams RejectingRelay 4096 16 [version_request "18446744073709551616"] [] in
  let c1 := turn RejectingRelay writer (turn RejectingRelay client_reader c0) in
  asserts [contains (wallet_observes c1) (json "'code':-32600"); closed c1] ∧ upstream_observes c1 = [].

Definition closes_cleanly_on_inexact_numeric_id_from_upstream : Prop :=
  let c0 := proxy_streams RejectingRelay 4096 16 [version_request "1"]
              [frame "{'id':18446744073709551616,'result':true}"] in
  let c1 := turn RejectingRelay client_reader c0 in
  let c2 := turn RejectingRelay writer (turn RejectingRelay upstream_reader c1) in
  upstream_observes c1 = version_request "1" ∧ wallet_observes c2 = [] ∧ asserts [upstream_ended c2].

Definition all : Prop :=
  forwards_queries_but_intercepts_broadcasts ∧ default_relay_rejects_without_leaking_to_upstream
  ∧ drops_upstream_response_that_collides_with_intercepted_broadcast
  ∧ closes_connection_when_pending_request_window_is_full
  ∧ does_not_relay_broadcast_when_pending_request_window_is_full
  ∧ correlated_response_releases_pending_request_slot
  ∧ rejects_inexact_numeric_id_before_forwarding_to_upstream
  ∧ closes_cleanly_on_inexact_numeric_id_from_upstream.

Lemma proxy_tests_pass : all.
Proof. vm_compute. repeat split. Qed.

End ProxyTests.

(** The model passes the repository's unit tests: every test of endpoint.rs,
    config.rs and protocol.rs, and the connection tests of proxy.rs, hold of the
    definitions that model the code under test. *)
Theorem unit_tests_pass :
  EndpointTests.all ∧ ConfigTests.all ∧ ProtocolTests.all ∧ ProxyTests.all.
Proof.
  split; [apply EndpointTests.endpoint_tests_pass|]. split; [apply ConfigTests.config_tests_pass|].
  split; [apply ProtocolTests.protocol_tests_pass|apply ProxyTests.proxy_tests_pass].
Qed.
